(** * tntorch: tensor networks (TT / CP / Tucker) over a dense-array engine

    A shallow embedding of [tntorch/tensor.py], [tntorch/metrics.py] and
    [tntorch/automata.py].  Dense arrays ([torch.Tensor]) are a shape and the
    row-major list of their entries; the entries live in an abstract scalar
    type with the operations the code uses.  Python exceptions are values of
    [exn]; a method that can raise returns a [result]; a method that works in
    place is a function on the network that returns the network after the
    call together with its outcome. *)

From Stdlib Require Import String.
From Stdlib Require Import List Arith ZArith QArith Qabs Qround Lia Bool.
From Stdlib Require Floats.
Import ListNotations.
Open Scope string_scope.
Open Scope list_scope.
Open Scope nat_scope.

(** ** Exceptions and the error monad *)

Inductive exn : Type :=
| ValueError (msg : string)
| IndexError (msg : string)
| AssertionError
| NotImplementedError
| ZeroDivisionError
| AttributeError
| TypeError
| RuntimeError.

Inductive result (A : Type) : Type :=
| Ok (a : A)
| Err (e : exn).
Arguments Ok {A} a.
Arguments Err {A} e.

Definition bind {A B} (m : result A) (k : A -> result B) : result B :=
  match m with
  | Ok a => k a
  | Err e => Err e
  end.

Declare Scope res_scope.
Delimit Scope res_scope with res.
Notation "x <- m ;; k" := (bind m (fun x => k))
  (at level 61, m at next level, right associativity) : res_scope.
Notation "' p <- m ;; k" := (bind m (fun x => match x with p => k end))
  (at level 61, p pattern, m at next level, right associativity) : res_scope.
Open Scope res_scope.

Definition assert (b : bool) : result unit :=
  if b then Ok tt else Err AssertionError.

(** [for x in l: acc = f(acc, x)], stopping at the first exception. *)
Fixpoint foldM {A B} (f : A -> B -> result A) (l : list B) (a : A) : result A :=
  match l with
  | [] => Ok a
  | x :: l' => a' <- f a x ;; foldM f l' a'
  end.

Fixpoint mapM {A B} (f : A -> result B) (l : list A) : result (list B) :=
  match l with
  | [] => Ok []
  | x :: l' => y <- f x ;; ys <- mapM f l' ;; Ok (y :: ys)
  end.

(** Python sequence indexing with a non-negative index. *)
Definition py_index {A} (l : list A) (n : nat) : result A :=
  match nth_error l n with
  | Some x => Ok x
  | None => Err (IndexError "index out of range")
  end.

(** [l[-1]] and [l[-2]]. *)
Definition py_last {A} (l : list A) : result A :=
  match rev l with
  | x :: _ => Ok x
  | [] => Err (IndexError "index out of range")
  end.

Definition py_last2 {A} (l : list A) : result A :=
  match rev l with
  | _ :: x :: _ => Ok x
  | _ => Err (IndexError "index out of range")
  end.

(** [a // b] on non-negative integers. *)
Definition floordiv (a b : nat) : result nat :=
  if b =? 0 then Err ZeroDivisionError else Ok (a / b).

Definition tabulate {A} (n : nat) (f : nat -> A) : list A := map f (seq 0 n).

Definition list_eqb (l1 l2 : list nat) : bool :=
  if list_eq_dec Nat.eq_dec l1 l2 then true else false.

(** ** Scalars

    The entries of dense arrays.  The code runs on 64-bit floats; the
    embedding keeps the scalar type abstract and names the operations the
    code applies to entries.  The floats are an instance ([Scalar_float]),
    and so are the integers and the rationals, on which examples are
    run. *)

Class Scalar (R : Type) : Type := {
  r0 : R;
  r1 : R;
  radd : R -> R -> R;
  rmul : R -> R -> R;
  rsub : R -> R -> R;
  rdiv : R -> R -> R;
  rabs : R -> R;
  rsqrt : R -> R;
  rltb : R -> R -> bool;
  rleb : R -> R -> bool;
  (** a Python integer used as a scalar *)
  of_Z : Z -> R;
  (** the float literal [m]e[e], e.g. [1e-8] is [of_dec 1 (-8)] *)
  of_dec : Z -> Z -> R;
  (** [torch.round] followed by [.long()] *)
  rround : R -> Z
}.

(** Laws of exact arithmetic: one and zero behave as such.  Floats do not
    satisfy them ([0 * inf] is a NaN, [0 + -0] is [0]); they are assumed
    only where a statement names them. *)
Class UnitLaws (R : Type) {SR : Scalar R} : Prop := {
  radd_0_l : forall x, radd r0 x = x;
  radd_0_r : forall x, radd x r0 = x;
  rmul_1_l : forall x, rmul r1 x = x;
  rmul_1_r : forall x, rmul x r1 = x;
  rmul_0_l : forall x, rmul r0 x = r0;
  rmul_0_r : forall x, rmul x r0 = r0
}.

(** A commutative semiring: exact scalars, such as the integers. *)
Class SemiringLaws (R : Type) {SR : Scalar R} : Prop := {
  sr_unit :: UnitLaws R;
  radd_comm : forall x y, radd x y = radd y x;
  radd_assoc : forall x y z, radd x (radd y z) = radd (radd x y) z;
  rmul_comm : forall x y, rmul x y = rmul y x;
  rmul_assoc : forall x y z, rmul x (rmul y z) = rmul (rmul x y) z;
  rmul_add_distr_l : forall x y z, rmul x (radd y z) = radd (rmul x y) (rmul x z)
}.

#[export] Instance Scalar_Z : Scalar Z := {
  r0 := 0%Z;
  r1 := 1%Z;
  radd := Z.add;
  rmul := Z.mul;
  rsub := Z.sub;
  rdiv := Z.div;
  rabs := Z.abs;
  rsqrt := Z.sqrt;
  rltb := Z.ltb;
  rleb := Z.leb;
  of_Z := fun z => z;
  of_dec := fun m e => if (0 <=? e)%Z then (m * 10 ^ e)%Z else (m / 10 ^ (- e))%Z;
  rround := fun z => z
}.

#[export] Instance UnitLaws_Z : UnitLaws Z.
Proof.
  constructor.
  - exact Z.add_0_l.
  - exact Z.add_0_r.
  - exact Z.mul_1_l.
  - exact Z.mul_1_r.
  - exact Z.mul_0_l.
  - exact Z.mul_0_r.
Qed.

#[export] Instance SemiringLaws_Z : SemiringLaws Z.
Proof.
  constructor.
  - exact UnitLaws_Z.
  - exact Z.add_comm.
  - exact Z.add_assoc.
  - exact Z.mul_comm.
  - exact Z.mul_assoc.
  - exact Z.mul_add_distr_l.
Qed.

(** *** 64-bit floats

    [tensor.py] sets [torch.float64] as the default type: the entries are
    IEEE 754 binary64 numbers, here the primitive floats.  Zero times an
    infinity is a NaN, products and sums round, overflow and underflow. *)

(** A Python integer converted to a float, rounded to nearest even. *)
Definition float_of_Z (z : Z) : PrimFloat.float :=
  FloatOps.SF2Prim (SpecFloat.binary_normalize FloatOps.prec FloatOps.emax z 0 false).

(** Rounding to the nearest integer, ties to even; an infinity or a NaN,
    on which Python raises, is sent to 0. *)
Definition float_round (x : PrimFloat.float) : Z :=
  match FloatOps.Prim2SF x with
  | SpecFloat.S754_finite s m e =>
      let v := match e with
               | Z0 => Zpos m
               | Zpos p => Z.shiftl (Zpos m) (Zpos p)
               | Zneg p =>
                   let q := Z.shiftr (Zpos m) (Zpos p) in
                   let r := (Zpos m - Z.shiftl q (Zpos p))%Z in
                   let h := Z.shiftl 1 (Zpos p - 1) in
                   if (r <? h)%Z then q
                   else if (h <? r)%Z then (q + 1)%Z
                   else if Z.even q then q else (q + 1)%Z
               end in
      if s then (- v)%Z else v
  | _ => 0%Z
  end.

#[export] Instance Scalar_float : Scalar PrimFloat.float := {
  r0 := PrimFloat.zero;
  r1 := PrimFloat.one;
  radd := PrimFloat.add;
  rmul := PrimFloat.mul;
  rsub := PrimFloat.sub;
  rdiv := PrimFloat.div;
  rabs := PrimFloat.abs;
  rsqrt := PrimFloat.sqrt;
  rltb := PrimFloat.ltb;
  rleb := PrimFloat.leb;
  of_Z := float_of_Z;
  of_dec := fun m e => if (0 <=? e)%Z then float_of_Z (m * 10 ^ e)
                       else PrimFloat.div (float_of_Z m) (float_of_Z (10 ^ (- e)));
  rround := float_round
}.

(** *** What holds of float arithmetic

    The laws of zero and one that IEEE arithmetic does satisfy.  A zero is
    a number that compares equal to 0 (either sign); a number is finite when
    its product with 0 is a zero, which excludes the infinities and NaN.
    Two numbers are the same up to the sign of zero when they are identical
    or both zeros. *)

Section Zeros.
Context {R : Type} {SR : Scalar R}.

Definition is_zero (x : R) : bool := rleb x r0 && rleb r0 x.
Definition is_finite (x : R) : bool := is_zero (rmul r0 x).
Definition feq (x y : R) : Prop :=
  x = y \/ (is_zero x = true /\ is_zero y = true).

End Zeros.

Class IeeeLaws (R : Type) {SR : Scalar R} : Prop := {
  zero_r0 : is_zero (r0 (R := R)) = true;
  one_nonzero : is_zero (r1 (R := R)) = false;
  zero_finite : forall x : R, is_zero x = true -> is_finite x = true;
  mul_one_l : forall x : R, rmul r1 x = x;
  mul_one_r : forall x : R, rmul x r1 = x;
  mul_zero_l : forall z x : R, is_zero z = true -> is_finite x = true -> is_zero (rmul z x) = true;
  mul_zero_r : forall x z : R, is_finite x = true -> is_zero z = true -> is_zero (rmul x z) = true;
  add_zero_l : forall z x : R, is_zero z = true -> is_zero x = false -> radd z x = x;
  add_zero_r : forall x z : R, is_zero z = true -> is_zero x = false -> radd x z = x;
  add_zero_zero : forall z z' : R, is_zero z = true -> is_zero z' = true -> is_zero (radd z z') = true
}.

(** ** Dense arrays *)

Section Dense.
Context {R : Type} {SR : Scalar R}.

Record tensor : Type := mkT { shape : list nat; data : list R }.

Definition dim (t : tensor) : nat := length (shape t).
Definition numel (sh : list nat) : nat := fold_right Nat.mul 1 sh.
Definition get (t : tensor) (i : nat) : R := nth i (data t) r0.

(** Every array the engine hands out has as many entries as its shape says. *)
Definition wf_tensor (t : tensor) : Prop := length (data t) = numel (shape t).

(** [sum_{k < n} f k], accumulated from zero. *)
Definition sum_n (n : nat) (f : nat -> R) : R :=
  fold_left (fun acc k => radd acc (f k)) (seq 0 n) r0.

Definition mk1 (a : nat) (f : nat -> R) : tensor := mkT [a] (tabulate a f).
Definition mk2 (a b : nat) (f : nat -> nat -> R) : tensor :=
  mkT [a; b] (tabulate (a * b) (fun p => f (p / b) (p mod b))).
Definition mk3 (a b c : nat) (f : nat -> nat -> nat -> R) : tensor :=
  mkT [a; b; c]
      (tabulate (a * b * c) (fun p => f (p / (b * c)) ((p / c) mod b) (p mod c))).

Definition get2 (t : tensor) (x y : nat) : R :=
  get t (x * nth 1 (shape t) 0 + y).
Definition get3 (t : tensor) (x y z : nat) : R :=
  get t ((x * nth 1 (shape t) 0 + y) * nth 2 (shape t) 0 + z).

Definition as1 (t : tensor) : result nat :=
  match shape t with [a] => Ok a | _ => Err RuntimeError end.
Definition as2 (t : tensor) : result (nat * nat) :=
  match shape t with [a; b] => Ok (a, b) | _ => Err RuntimeError end.
Definition as3 (t : tensor) : result (nat * nat * nat) :=
  match shape t with [a; b; c] => Ok (a, b, c) | _ => Err RuntimeError end.

Definition zeros (sh : list nat) : tensor := mkT sh (repeat r0 (numel sh)).
Definition ones (sh : list nat) : tensor := mkT sh (repeat r1 (numel sh)).
Definition eye (n : nat) : tensor := mk2 n n (fun i j => if i =? j then r1 else r0).

(** A dimension passed to [reshape]: a size, or [-1] to be inferred. *)
Inductive rdim : Type := D (n : nat) | Infer.

Definition known (ds : list rdim) : nat :=
  fold_right (fun d acc => match d with D n => n * acc | Infer => acc end) 1 ds.
Definition n_infer (ds : list rdim) : nat :=
  length (filter (fun d => match d with Infer => true | D _ => false end) ds).

(** [torch.reshape]: the entries stay in row-major order; the sizes must
    account for every entry, and one [-1] is inferred when the known sizes
    divide the number of entries (an empty product of zero size cannot be
    inferred from). *)
Definition reshape (t : tensor) (ds : list rdim) : result tensor :=
  let n := numel (shape t) in
  let k := known ds in
  match n_infer ds with
  | 0 => if n =? k
         then Ok (mkT (map (fun d => match d with D m => m | Infer => 0 end) ds) (data t))
         else Err RuntimeError
  | 1 => if (0 <? k) && (n mod k =? 0)
         then Ok (mkT (map (fun d => match d with D m => m | Infer => n / k end) ds) (data t))
         else Err RuntimeError
  | _ => Err RuntimeError
  end.

(** *** Contractions ([torch.einsum], one definition per subscript string) *)

(** ['ai,ibj->abj'] *)
Definition einsum_ai_ibj_abj (f c : tensor) : result tensor :=
  '(a, i) <- as2 f ;;
  '(i', b, j) <- as3 c ;;
  if i =? i'
  then Ok (mk3 a b j (fun x y z => sum_n i (fun k => rmul (get2 f x k) (get3 c k y z))))
  else Err RuntimeError.

(** ['ai,bi->abi'] *)
Definition einsum_ai_bi_abi (f c : tensor) : result tensor :=
  '(a, i) <- as2 f ;;
  '(b, i') <- as2 c ;;
  if i =? i'
  then Ok (mk3 a b i (fun x y z => rmul (get2 f x z) (get2 c y z)))
  else Err RuntimeError.

(** ['ijk,aj->iak'] *)
Definition einsum_ijk_aj_iak (c u : tensor) : result tensor :=
  '(i, j, k) <- as3 c ;;
  '(a, j') <- as2 u ;;
  if j =? j'
  then Ok (mk3 i a k (fun x y z => sum_n j (fun m => rmul (get3 c x m z) (get2 u y m))))
  else Err RuntimeError.

(** ['jk,aj->ak'] *)
Definition einsum_jk_aj_ak (c u : tensor) : result tensor :=
  '(j, k) <- as2 c ;;
  '(a, j') <- as2 u ;;
  if j =? j'
  then Ok (mk2 a k (fun y z => sum_n j (fun m => rmul (get2 c m z) (get2 u y m))))
  else Err RuntimeError.


(** ['ij,jak->iak'] *)
Definition einsum_ij_jak_iak (f c : tensor) : result tensor :=
  '(i, j) <- as2 f ;;
  '(j', a, k) <- as3 c ;;
  if j =? j'
  then Ok (mk3 i a k (fun x y z => sum_n j (fun m => rmul (get2 f x m) (get3 c m y z))))
  else Err RuntimeError.

(** ['ij,jk->ik'] and [torch.mm] *)
Definition einsum_ij_jk_ik (f g : tensor) : result tensor :=
  '(i, j) <- as2 f ;;
  '(j', k) <- as2 g ;;
  if j =? j'
  then Ok (mk2 i k (fun x z => sum_n j (fun m => rmul (get2 f x m) (get2 g m z))))
  else Err RuntimeError.

Definition mm (f g : tensor) : result tensor := einsum_ij_jk_ik f g.

(** ['ija,ak->ijk'] *)
Definition einsum_ija_ak_ijk (c f : tensor) : result tensor :=
  '(i, j, a) <- as3 c ;;
  '(a', k) <- as2 f ;;
  if a =? a'
  then Ok (mk3 i j k (fun x y z => sum_n a (fun m => rmul (get3 c x y m) (get2 f m z))))
  else Err RuntimeError.

(** ['ijk,kl'] (implicit output ['ijl']) *)
Definition einsum_ijk_kl (c f : tensor) : result tensor := einsum_ija_ak_ijk c f.

(** ['ijk,ka->ija'] *)
Definition einsum_ijk_ka_ija (c f : tensor) : result tensor := einsum_ija_ak_ijk c f.

(** ['ijk,j->ik'] *)
Definition einsum_ijk_j_ik (c v : tensor) : result tensor :=
  '(i, j, k) <- as3 c ;;
  j' <- as1 v ;;
  if j =? j'
  then Ok (mk2 i k (fun x z => sum_n j (fun m => rmul (get3 c x m z) (get v m))))
  else Err RuntimeError.

(** ['ijk,k->ij'] *)
Definition einsum_ijk_k_ij (c v : tensor) : result tensor :=
  '(i, j, k) <- as3 c ;;
  k' <- as1 v ;;
  if k =? k'
  then Ok (mk2 i j (fun x y => sum_n k (fun m => rmul (get3 c x y m) (get v m))))
  else Err RuntimeError.

(** ['ijk,ja->iak'] *)
Definition einsum_ijk_ja_iak (c u : tensor) : result tensor :=
  '(i, j, k) <- as3 c ;;
  '(j', a) <- as2 u ;;
  if j =? j'
  then Ok (mk3 i a k (fun x y z => sum_n j (fun m => rmul (get3 c x m z) (get2 u m y))))
  else Err RuntimeError.

(** ['ijk,ar,aj->irk'] *)
Definition einsum_ijk_ar_aj_irk (c u1 u2 : tensor) : result tensor :=
  '(i, j, k) <- as3 c ;;
  '(a, r) <- as2 u1 ;;
  '(a', j') <- as2 u2 ;;
  if (j =? j') && (a =? a')
  then Ok (mk3 i r k (fun x y z =>
             sum_n j (fun m => sum_n a (fun n =>
               rmul (rmul (get3 c x m z) (get2 u1 n y)) (get2 u2 n m)))))
  else Err RuntimeError.

(** ['ij,ik->ijk'] *)
Definition einsum_ij_ik_ijk (u1 u2 : tensor) : result tensor :=
  '(i, j) <- as2 u1 ;;
  '(i', k) <- as2 u2 ;;
  if i =? i'
  then Ok (mk3 i j k (fun x y z => rmul (get2 u1 x y) (get2 u2 x z)))
  else Err RuntimeError.

(** ['ijk,abc->iajbkc'] followed by the reshape to
    [(i*a, j*b, k*c)]: the Kronecker product of two three-axis arrays. *)
Definition einsum_ijk_abc_iajbkc_reshaped (c1 c2 : tensor) : result tensor :=
  '(i, j, k) <- as3 c1 ;;
  '(a, b, c) <- as3 c2 ;;
  Ok (mk3 (i * a) (j * b) (k * c)
          (fun x y z => rmul (get3 c1 (x / a) (y / b) (z / c))
                             (get3 c2 (x mod a) (y mod b) (z mod c)))).

(** *** Other engine functions *)

Definition scale (t : tensor) (x : R) : tensor :=
  mkT (shape t) (map (fun e => rmul e x) (data t)).

(** Row-major position of a multi-index, and back. *)
Fixpoint flatten (sh idx : list nat) : nat :=
  match sh, idx with
  | n :: sh', i :: idx' => i * numel sh' + flatten sh' idx'
  | _, _ => 0
  end.

Fixpoint unflatten (sh : list nat) (p : nat) : list nat :=
  match sh with
  | [] => []
  | n :: sh' => (p / numel sh') mod n :: unflatten sh' p
  end.

(** Broadcasting of two shapes, aligned at the last axis. *)
Fixpoint bshape_rev (s1 s2 : list nat) : result (list nat) :=
  match s1, s2 with
  | [], s | s, [] => Ok s
  | a :: s1', b :: s2' =>
      rest <- bshape_rev s1' s2' ;;
      if a =? b then Ok (a :: rest)
      else if a =? 1 then Ok (b :: rest)
      else if b =? 1 then Ok (a :: rest)
      else Err RuntimeError
  end.

Definition bshape (s1 s2 : list nat) : result (list nat) :=
  r <- bshape_rev (rev s1) (rev s2) ;; Ok (rev r).

(** The entry of [t] that a position of the broadcast result reads. *)
Definition bget (t : tensor) (idx : list nat) : R :=
  let k := length idx - length (shape t) in
  let idx' := skipn k idx in
  get t (flatten (shape t)
                 (map (fun '(n, i) => if n =? 1 then 0 else i) (combine (shape t) idx'))).

Fixpoint zip_with (f : R -> R -> R) (l1 l2 : list R) : list R :=
  match l1, l2 with
  | x :: l1', y :: l2' => f x y :: zip_with f l1' l2'
  | _, _ => []
  end.

(** An elementwise binary operator: entry by entry on equal shapes, with
    broadcasting otherwise. *)
Definition pointwise (f : R -> R -> R) (a b : tensor) : result tensor :=
  if list_eqb (shape a) (shape b)
  then Ok (mkT (shape a) (zip_with f (data a) (data b)))
  else
    sh <- bshape (shape a) (shape b) ;;
    Ok (mkT sh (tabulate (numel sh)
                  (fun p => let idx := unflatten sh p in f (bget a idx) (bget b idx)))).

Definition tensor_add := pointwise radd.
Definition tensor_sub := pointwise rsub.
Definition tensor_mul := pointwise rmul.
Definition tensor_div := pointwise rdiv.

(** [torch.cat] of two three-axis arrays along axis 0, 1 or 2. *)
Definition cat0 (t1 t2 : tensor) : result tensor :=
  '(a1, b1, c1) <- as3 t1 ;;
  '(a2, b2, c2) <- as3 t2 ;;
  if (b1 =? b2) && (c1 =? c2)
  then Ok (mk3 (a1 + a2) b1 c1
             (fun x y z => if x <? a1 then get3 t1 x y z else get3 t2 (x - a1) y z))
  else Err RuntimeError.

Definition cat1 (t1 t2 : tensor) : result tensor :=
  '(a1, b1, c1) <- as3 t1 ;;
  '(a2, b2, c2) <- as3 t2 ;;
  if (a1 =? a2) && (c1 =? c2)
  then Ok (mk3 a1 (b1 + b2) c1
             (fun x y z => if y <? b1 then get3 t1 x y z else get3 t2 x (y - b1) z))
  else Err RuntimeError.

Definition cat2 (t1 t2 : tensor) : result tensor :=
  '(a1, b1, c1) <- as3 t1 ;;
  '(a2, b2, c2) <- as3 t2 ;;
  if (a1 =? a2) && (b1 =? b2)
  then Ok (mk3 a1 b1 (c1 + c2)
             (fun x y z => if z <? c1 then get3 t1 x y z else get3 t2 x y (z - c1)))
  else Err RuntimeError.

(** [torch.cat((U1, U2), dim=1)] of two matrices. *)
Definition cat_cols (u1 u2 : tensor) : result tensor :=
  '(a1, b1) <- as2 u1 ;;
  '(a2, b2) <- as2 u2 ;;
  if a1 =? a2
  then Ok (mk2 a1 (b1 + b2) (fun x y => if y <? b1 then get2 u1 x y else get2 u2 x (y - b1)))
  else Err RuntimeError.

(** [torch.sum(t, dim=0, keepdim=True)] and [dim=2] on a three-axis array;
    [torch.sum(t, dim=1)] without [keepdim]. *)
Definition sum_dim0_keep (t : tensor) : result tensor :=
  '(a, b, c) <- as3 t ;;
  Ok (mk3 1 b c (fun _ y z => sum_n a (fun x => get3 t x y z))).

Definition sum_dim2_keep (t : tensor) : result tensor :=
  '(a, b, c) <- as3 t ;;
  Ok (mk3 a b 1 (fun x y _ => sum_n c (fun z => get3 t x y z))).

Definition sum_dim1 (t : tensor) : result tensor :=
  '(a, b, c) <- as3 t ;;
  Ok (mk2 a c (fun x z => sum_n b (fun y => get3 t x y z))).

(** [t.permute(1, 0)] (and [t.t()]) of a matrix; [t.permute(0, 2, 1)]. *)
Definition transpose (t : tensor) : result tensor :=
  '(a, b) <- as2 t ;;
  Ok (mk2 b a (fun x y => get2 t y x)).

Definition permute021 (t : tensor) : result tensor :=
  '(a, b, c) <- as3 t ;;
  Ok (mk3 a c b (fun x y z => get3 t x z y)).

(** [torch.matmul] on a vector and a matrix, in either order. *)
Definition vec_mat (v m : tensor) : result tensor :=
  a <- as1 v ;;
  '(a', b) <- as2 m ;;
  if a =? a' then Ok (mk1 b (fun y => sum_n a (fun x => rmul (get v x) (get2 m x y))))
  else Err RuntimeError.

Definition mat_vec (m v : tensor) : result tensor :=
  '(a, b) <- as2 m ;;
  b' <- as1 v ;;
  if b =? b' then Ok (mk1 a (fun x => sum_n b (fun y => rmul (get2 m x y) (get v y))))
  else Err RuntimeError.

(** The value of a one-entry array ([.item()], or its use as a number). *)
Definition item (t : tensor) : result R :=
  match data t with
  | [x] => Ok x
  | _ => Err RuntimeError
  end.

(** [torch.squeeze]. *)
Definition squeeze (t : tensor) : tensor :=
  mkT (filter (fun n => negb (n =? 1)) (shape t)) (data t).


(** *** Indexing an array *)

(** An entry of an indexing key. *)
Inductive kentry : Type :=
| KInt (z : Z)
| KSlice (start stop step : option Z)
| KNone
| KIndex (l : list Z)
| KEllipsis
| KOther.

(** An integer index into an axis of length [n]; negative indices count
    from the end. *)
Definition norm_index (n : nat) (z : Z) : result nat :=
  if ((0 <=? z) && (z <? Z.of_nat n))%Z then Ok (Z.to_nat z)
  else if ((z <? 0) && (- Z.of_nat n <=? z))%Z then Ok (Z.to_nat (z + Z.of_nat n))
  else Err (IndexError "index out of range").

(** The positions a slice selects on an axis of length [n]; the engine only
    accepts positive steps. *)
Definition slice_positions (n : nat) (start stop step : option Z) : result (list nat) :=
  let st := match step with None => 1%Z | Some s => s end in
  if (st <=? 0)%Z then Err (ValueError "slice step must be positive")
  else
    let len := Z.of_nat n in
    let clamp := fun z => if (z <? 0)%Z then Z.max (z + len) 0 else Z.min z len in
    let lo := match start with None => 0%Z | Some z => clamp z end in
    let hi := match stop with None => len | Some z => clamp z end in
    let count := if (lo <? hi)%Z then Z.to_nat ((hi - lo + st - 1) / st) else 0 in
    Ok (map (fun k => Z.to_nat (lo + Z.of_nat k * st)) (seq 0 count)).

Definition as3_index (t : tensor) : result (nat * nat * nat) :=
  match shape t with
  | [a; b; c] => Ok (a, b, c)
  | _ => Err (IndexError "too many indices")
  end.

Definition as2_index (t : tensor) : result (nat * nat) :=
  match shape t with
  | [a; b] => Ok (a, b)
  | _ => Err (IndexError "too many indices")
  end.

(** [core[:, key, :]] *)
Definition index_axis1 (t : tensor) (key : kentry) : result tensor :=
  '(a, b, c) <- as3_index t ;;
  match key with
  | KInt z => k <- norm_index b z ;; Ok (mk2 a c (fun x z => get3 t x k z))
  | KSlice start stop step =>
      ps <- slice_positions b start stop step ;;
      Ok (mk3 a (length ps) c (fun x y z => get3 t x (nth y ps 0) z))
  | KIndex l =>
      ps <- mapM (norm_index b) l ;;
      Ok (mk3 a (length ps) c (fun x y z => get3 t x (nth y ps 0) z))
  | KNone => Ok (mkT [a; 1; b; c] (data t))
  | KEllipsis | KOther => Err (IndexError "unsupported index")
  end.

(** [U[key, :]] *)
Definition index_rows (u : tensor) (key : kentry) : result tensor :=
  '(a, b) <- as2_index u ;;
  match key with
  | KInt z => k <- norm_index a z ;; Ok (mk1 b (fun y => get2 u k y))
  | KSlice start stop step =>
      ps <- slice_positions a start stop step ;;
      Ok (mk2 (length ps) b (fun x y => get2 u (nth x ps 0) y))
  | KIndex l =>
      ps <- mapM (norm_index a) l ;;
      Ok (mk2 (length ps) b (fun x y => get2 u (nth x ps 0) y))
  | KNone => Ok (mkT [1; a; b] (data u))
  | KEllipsis | KOther => Err (IndexError "unsupported index")
  end.

(** [torch.sum(a1[:, :, :, None] * a2.permute(1, 0, 2)[None, :, :, :], dim=2)]:
    two index-array selections fused position by position. *)
Definition fuse_index (a1 a2 : tensor) : result tensor :=
  '(i, p, j) <- as3 a1 ;;
  '(j', p', k) <- as3 a2 ;;
  pp <- bshape [p] [p'] ;;
  jj <- bshape [j] [j'] ;;
  let P := hd 0 pp in
  let J := hd 0 jj in
  let b := fun n x => if n =? 1 then 0 else x in
  Ok (mk3 i P k (fun x y z =>
        sum_n J (fun m => rmul (get3 a1 x (b p y) (b j m)) (get3 a2 (b j' m) (b p' y) z)))).

End Dense.

Arguments tensor : clear implicits.
Arguments mkT {R} shape data.

(** ** Networks ([class Tensor]) *)

Section Network.
Context {R : Type} {SR : Scalar R}.

(** What a slot of [self.cores] can hold: an array, or (after the
    assignment [self.cores[mu] = self.cores] in [left_orthogonalize]) the
    list of cores itself. *)
Inductive pyobj : Type :=
| PT (t : (tensor R))
| PCores.

Record network : Type := mkN {
  cores : list pyobj;
  Us : list (option ((tensor R)));
  idxs : list (list Z)
}.

(** Using a slot as an array: a list has none of an array's attributes. *)
Definition core_t (o : pyobj) : result (tensor R) :=
  match o with
  | PT t => Ok t
  | PCores => Err AttributeError
  end.

Definition ndim (t : network) : nat := length (cores t).

(** [torch.arange(n)] as labels. *)
Definition arange (n : nat) : list Z := map Z.of_nat (seq 0 n).

(** The [shape] property, on the two lists it reads. *)
Definition shape_of (cs : list pyobj) (us : list (option (tensor R))) : result (list nat) :=
  mapM (fun n =>
          u <- py_index us n ;;
          match u with
          | None => o <- py_index cs n ;; c <- core_t o ;; py_last2 (shape c)
          | Some U => py_index (shape U) 0
          end)
       (seq 0 (length cs)).

Definition net_shape (t : network) : result (list nat) := shape_of (cores t) (Us t).

(** [ranks_tt] and [ranks_tucker]. *)
Definition ranks_tt (t : network) : result (list nat) :=
  heads <- mapM (fun o => c <- core_t o ;; py_index (shape c) 0) (cores t) ;;
  lastc <- py_last (cores t) ;;
  c <- core_t lastc ;;
  r <- py_last (shape c) ;;
  Ok (heads ++ [r]).

Definition ranks_tucker (t : network) : result (list nat) :=
  mapM (fun o => c <- core_t o ;; py_index (shape c) 1) (cores t).

(** The end of [__init__]: factors are checked against the cores or default
    to [None]; labels default to [0 .. I_n - 1]. *)
Definition init_tail (cs : list pyobj) (us : option (list (option (tensor R))))
           (ix : option (list (list Z))) : result network :=
  us' <- match us with
         | Some us =>
             _ <- foldM (fun _ n =>
                           u <- py_index us n ;;
                           match u with
                           | None => Ok tt
                           | Some U =>
                               _ <- assert (dim U =? 2) ;;
                               o <- py_index cs n ;;
                               c <- core_t o ;;
                               c1 <- py_index (shape c) 1 ;;
                               u1 <- py_index (shape U) 1 ;;
                               assert (c1 =? u1)
                           end)
                        (seq 0 (length cs)) tt ;;
             Ok us
         | None => Ok (repeat None (length cs))
         end ;;
  ix' <- match ix with
         | Some ix => Ok ix
         | None => sh <- shape_of cs us' ;; Ok (map arange sh)
         end ;;
  Ok (mkN cs us' ix').

(** [Tensor(data, Us, idxs)] for a list of cores. *)
Definition Tensor_of_cores (data : list pyobj) (us : option (list (option (tensor R))))
           (ix : option (list (list Z))) : result network :=
  ds <- mapM (fun o => c <- core_t o ;; Ok (dim c)) data ;;
  _ <- (if forallb (fun d => (2 <=? d) && (d <=? 3)) ds then Ok tt
        else Err (ValueError "All (tensor R) cores must have 2 (for CP) or 3 (for TT) dimensions")) ;;
  _ <- foldM (fun _ n =>
                o <- py_index data n ;; c <- core_t o ;;
                o' <- py_index data (n + 1) ;; c' <- core_t o' ;;
                r <- py_last (shape c) ;;
                bad <- (if dim c' =? 3
                        then r0' <- py_index (shape c') 0 ;; Ok (negb (r =? r0'))
                        else if dim c' =? 2
                             then r1' <- py_index (shape c') 1 ;; Ok (negb (r =? r1'))
                             else Ok false) ;;
                if bad : bool then Err (ValueError "Core ranks do not match") else Ok tt)
             (seq 0 (length data - 1)) tt ;;
  init_tail data us ix.

(** The dense branch of [__init__] with [eps is None]: the naive TT format.
    The loop state is the list of cores so far and the remaining matrix. *)
Definition dense_step (sh : list nat) (st : list (tensor R) * (tensor R)) (n : nat)
  : result (list (tensor R) * (tensor R)) :=
  let '(cs, data) := st in
  d0 <- py_index (shape data) 0 ;;
  d1 <- py_index (shape data) 1 ;;
  sn1 <- py_index sh (n - 1) ;;
  if d0 <? d1 then
    q <- floordiv d0 sn1 ;;
    core <- reshape (eye d0) [D q; D sn1; D d0] ;;
    sn <- py_index sh n ;;
    q' <- floordiv d1 sn ;;
    data' <- reshape data [D (d0 * sn); D q'] ;;
    Ok (cs ++ [core], data')
  else
    q <- floordiv d0 sn1 ;;
    core <- reshape data [D q; D sn1; D d1] ;;
    sn <- py_index sh n ;;
    q' <- floordiv d1 sn ;;
    data' <- reshape (eye d1) [D (d1 * sn); D q'] ;;
    Ok (cs ++ [core], data').

Definition dense_cores (data : (tensor R)) : result (list (tensor R)) :=
  let N := dim data in
  let sh := shape data in
  s0 <- py_index sh 0 ;;
  data <- reshape data [D s0; Infer] ;;
  '(cs, data) <- foldM (dense_step sh) (seq 1 (N - 1)) ([], data) ;;
  d0 <- py_index (shape data) 0 ;;
  sl <- py_index sh (N - 1) ;;
  q <- floordiv d0 sl ;;
  core <- reshape data [D q; D sl; D 1] ;;
  Ok (cs ++ [core]).

(** [Tensor(data, eps=eps)] for a dense array. *)
Definition Tensor_of_dense (data : (tensor R)) (eps : option R) : result network :=
  match eps with
  | None => cs <- dense_cores data ;; init_tail (map PT cs) None None
  | Some _ => Err NotImplementedError
  end.

(** [full_tucker]: contract each factor into its core. *)
Definition full_tucker (t : network) : result network :=
  cs <- mapM (fun n =>
                u <- py_index (Us t) n ;;
                o <- py_index (cores t) n ;;
                c <- core_t o ;;
                match u with
                | Some U => if dim c =? 2 then einsum_jk_aj_ak c U
                            else einsum_ijk_aj_iak c U
                | None => Ok c
                end)
             (seq 0 (ndim t)) ;;
  Tensor_of_cores (map PT cs) None (Some (idxs t)).

(** [factor[..., 0]]: the first entry along the last axis. *)
Definition select_last0 (t : (tensor R)) : result (tensor R) :=
  l <- py_last (shape t) ;;
  if l =? 0 then Err (IndexError "index 0 is out of bounds")
  else
    let sh := removelast (shape t) in
    Ok (mkT sh (tabulate (numel sh) (fun p => get t (p * l)))).

Definition full_step (st : list nat * (tensor R)) (o : pyobj) : result (list nat * (tensor R)) :=
  let '(sh, factor) := st in
  c <- core_t o ;;
  b <- py_last2 (shape c) ;;
  factor <- (if dim c =? 2 then einsum_ai_bi_abi factor c
             else einsum_ai_ibj_abj factor c) ;;
  r <- py_last (shape c) ;;
  factor <- reshape factor [Infer; D r] ;;
  Ok (sh ++ [b], factor).

(** [full]: the dense array the network stands for. *)
Definition full (t : network) : result (tensor R) :=
  t' <- full_tucker t ;;
  '(sh, factor) <- foldM full_step (cores t') ([], ones [1; 1]) ;;
  factor <- select_last0 factor ;;
  reshape factor (map D sh).

(** [clone]. *)
Definition clone (t : network) : result network :=
  cs <- mapM (fun n => o <- py_index (cores t) n ;; c <- core_t o ;; Ok (PT c))
             (seq 0 (ndim t)) ;;
  us <- mapM (fun n => py_index (Us t) n) (seq 0 (ndim t)) ;;
  Tensor_of_cores cs (Some us) (Some (idxs t)).

End Network.

Arguments pyobj : clear implicits.
Arguments network : clear implicits.
Arguments PCores {R}.



(** ** What the sources call but do not define

    [torch.qr] and [torch.norm] belong to the array engine;
    [tn.truncated_svd], [tn.sum] and [tn.norm] live in a module of the
    package that is not part of these sources.  They are parameters: no
    theorem below assumes anything about them unless it says so. *)

Class Engine (R : Type) {SR : Scalar R} : Type := {
  (** [torch.qr(M)]: the pair [(Q, R)] *)
  qr : tensor R -> result (tensor R * tensor R);
  (** [torch.norm(M)] *)
  torch_norm : tensor R -> R;
  (** [tn.truncated_svd(M, delta, eps, rmax, left_ortho, algorithm, verbose)]:
      the pair [(left, right)] *)
  truncated_svd : tensor R -> option R -> option R -> option nat -> bool ->
                  string -> bool -> result (tensor R * tensor R);
  (** [tn.sum(t)] and [tn.norm(t)] *)
  tn_sum : network R -> result R;
  tn_norm : network R -> result R
}.

(** ** Arithmetic *)

Section Arithmetic.
Context {R : Type} {SR : Scalar R} {E : Engine R}.

(** The right operand of an operator: a network or a number. *)
Inductive operand : Type :=
| OpT (t : network R)
| OpS (x : R).

(** Passing a slot of [cores] to an engine function. *)
Definition core_arg (o : pyobj R) : result (tensor R) :=
  match o with
  | PT t => Ok t
  | PCores => Err TypeError
  end.

(** [l[0] = x] and [l[-1] = x]. *)
Definition set_first {A} (l : list A) (x : A) : result (list A) :=
  match l with
  | [] => Err (IndexError "list assignment index out of range")
  | _ :: l' => Ok (x :: l')
  end.

Definition set_last {A} (l : list A) (x : A) : result (list A) :=
  match l with
  | [] => Err (IndexError "list assignment index out of range")
  | _ => Ok (removelast l ++ [x])
  end.

Fixpoint set_nth {A} (l : list A) (n : nat) (x : A) : result (list A) :=
  match l, n with
  | [], _ => Err (IndexError "list assignment index out of range")
  | _ :: l', 0 => Ok (x :: l')
  | y :: l', S n' => l'' <- set_nth l' n' x ;; Ok (y :: l'')
  end.

(** Modelled from the spec: [tn.core_kron], whose module is not part of
    these sources.  On the general path of [__mul__] the spec has the cores
    "combine via a full three-axis Kronecker product": the Kronecker product
    of two three-axis arrays, each of the three axes multiplied out, with
    the entries of the second array varying fastest along every axis. *)
Definition core_kron (c1 c2 : tensor R) : result (tensor R) :=
  '(i, j, k) <- as3 c1 ;;
  '(a, b, c) <- as3 c2 ;;
  Ok (mk3 (i * a) (j * b) (k * c)
          (fun x y z => rmul (get3 c1 (x / a) (y / b) (z / c))
                             (get3 c2 (x mod a) (y mod b) (z mod c)))).

(** [core.data *= x] on the first core. *)
Definition scale_first_core (t : network R) (x : R) : result (network R) :=
  o <- py_index (cores t) 0 ;;
  c <- core_t o ;;
  cs <- set_first (cores t) (PT (scale c x)) ;;
  Ok (mkN cs (Us t) (idxs t)).

(** The promotion of a number in [__add__]: a rank-1 network of ones with
    the first core scaled. *)
Definition promote (self : network R) (x : R) : result (network R) :=
  sh <- net_shape self ;;
  cs <- mapM (fun n => sn <- py_index sh n ;; Ok (PT (ones [1; sn; 1]))) (seq 0 (ndim self)) ;;
  other <- Tensor_of_cores cs None None ;;
  scale_first_core other x.

(** One pass of the loop of [__add__]: the core and the factor of mode [n]. *)
Definition add_mode (self other : network R) (sh : list nat) (n : nat)
  : result (tensor R * option (tensor R)) :=
  o1 <- py_index (cores self) n ;;
  o2 <- py_index (cores other) n ;;
  u1 <- py_index (Us self) n ;;
  u2 <- py_index (Us other) n ;;
  match u1, u2 with
  | Some U1, Some U2 =>
      core1 <- core_t o1 ;; core2 <- core_t o2 ;;
      a0 <- py_index (shape core1) 0 ;; a1 <- py_index (shape core1) 1 ;;
      a2 <- py_index (shape core1) 2 ;;
      b0 <- py_index (shape core2) 0 ;; b1 <- py_index (shape core2) 1 ;;
      b2 <- py_index (shape core2) 2 ;;
      slice1 <- cat0 core1 (zeros [b0; a1; a2]) ;;
      slice1 <- cat2 slice1 (zeros [a0 + b0; a1; b2]) ;;
      slice2 <- cat0 (zeros [a0; b1; b2]) core2 ;;
      slice2 <- cat2 (zeros [a0 + b0; b1; a2]) slice2 ;;
      c <- cat1 slice1 slice2 ;;
      U <- cat_cols U1 U2 ;;
      Ok (c, Some U)
  | _, _ =>
      core1 <- match u1 with
               | Some U1 => c <- core_arg o1 ;; einsum_ijk_aj_iak c U1
               | None => core_t o1
               end ;;
      core2 <- match u2 with
               | Some U2 => c <- core_arg o2 ;; einsum_ijk_aj_iak c U2
               | None => core_t o2
               end ;;
      b0 <- py_index (shape core2) 0 ;;
      sn <- py_index sh n ;;
      a2 <- py_index (shape core1) 2 ;;
      column1 <- cat0 core1 (zeros [b0; sn; a2]) ;;
      a0 <- py_index (shape core1) 0 ;;
      b2 <- py_index (shape core2) 2 ;;
      column2 <- cat0 (zeros [a0; sn; b2]) core2 ;;
      c <- cat2 column1 column2 ;;
      Ok (c, None)
  end.

(** [self + other] *)
Definition add (self : network R) (other : operand) : result (network R) :=
  other <- match other with
           | OpT t => Ok t
           | OpS x => promote self x
           end ;;
  sh <- net_shape self ;;
  sh' <- net_shape other ;;
  if negb (list_eqb sh sh')
  then Err (ValueError "Element-wise addition requires tensors to have equal shape")
  else if ndim self =? 1 then
    f1 <- full_tucker self ;; o1 <- py_index (cores f1) 0 ;; c1 <- core_t o1 ;;
    f2 <- full_tucker other ;; o2 <- py_index (cores f2) 0 ;; c2 <- core_t o2 ;;
    c <- tensor_add c1 c2 ;;
    Tensor_of_cores [PT c] None None
  else
    cus <- mapM (add_mode self other sh) (seq 0 (ndim self)) ;;
    let cs := map fst cus in
    let us := map snd cus in
    c0 <- py_index cs 0 ;;
    c0 <- sum_dim0_keep c0 ;;
    cs <- set_first cs c0 ;;
    cl <- py_last cs ;;
    cl <- sum_dim2_keep cl ;;
    cs <- set_last cs cl ;;
    Tensor_of_cores (map PT cs) (Some us) None.

(** One pass of the loop of [__mul__]. *)
Definition mul_mode (self other : network R) (sh : list nat) (n : nat)
  : result (tensor R * option (tensor R)) :=
  u1 <- py_index (Us self) n ;;
  u2 <- py_index (Us other) n ;;
  cheap <- match u1, u2 with
           | Some _, Some _ =>
               o1 <- py_index (cores self) n ;; c1 <- core_t o1 ;;
               s1 <- py_index (shape c1) 1 ;;
               o2 <- py_index (cores other) n ;; c2 <- core_t o2 ;;
               s2 <- py_index (shape c2) 1 ;;
               sn <- py_index sh n ;;
               Ok (s1 * s2 <? sn)
           | _, _ => Ok false
           end ;;
  o1 <- py_index (cores self) n ;;
  o2 <- py_index (cores other) n ;;
  match cheap, u1, u2 with
  | true, Some U1, Some U2 =>
      c1 <- core_arg o1 ;; c2 <- core_arg o2 ;;
      c <- einsum_ijk_abc_iajbkc_reshaped c1 c2 ;;
      U <- einsum_ij_ik_ijk U1 U2 ;;
      u0 <- py_index (shape U1) 0 ;;
      U <- reshape U [D u0; Infer] ;;
      Ok (c, Some U)
  | _, _, _ =>
      core1 <- match u1 with
               | Some U1 => c <- core_arg o1 ;; einsum_ijk_aj_iak c U1
               | None => core_arg o1
               end ;;
      core2 <- match u2 with
               | Some U2 => c <- core_arg o2 ;; einsum_ijk_aj_iak c U2
               | None => core_arg o2
               end ;;
      c <- core_kron core1 core2 ;;
      Ok (c, None)
  end.

(** [self * other] *)
Definition mul (self : network R) (other : operand) : result (network R) :=
  match other with
  | OpS x =>
      result <- clone self ;;
      scale_first_core result x
  | OpT other =>
      sh <- net_shape self ;;
      sh' <- net_shape other ;;
      if negb (list_eqb sh sh')
      then Err (ValueError "Element-wise multiplication requires tensors to have equal shape")
      else
        cus <- mapM (mul_mode self other sh) (seq 0 (ndim self)) ;;
        Tensor_of_cores (map PT (map fst cus)) (Some (map snd cus)) None
  end.

(** [-1 * other], for a network or a number. *)
Definition minus_one : R := of_Z (-1).

(** [self - other] is [self + -1*other]. *)
Definition sub (self : network R) (other : operand) : result (network R) :=
  match other with
  | OpT t => m <- mul t (OpS minus_one) ;; add self (OpT m)
  | OpS x => add self (OpS (rmul minus_one x))
  end.

(** [-self] is [-1*self]. *)
Definition neg (self : network R) : result (network R) := mul self (OpS minus_one).

(** [self / other] is [self * (1./other)]; a network has no reflected
    division. *)
Definition truediv (self : network R) (other : operand) : result (network R) :=
  match other with
  | OpS x => mul self (OpS (rdiv r1 x))
  | OpT _ => Err TypeError
  end.

(** [self == other] and [self != other] *)
Definition eq (self : network R) (other : operand) : result bool :=
  d <- sub self other ;;
  n <- tn_norm d ;;
  Ok (rleb n (of_dec 1 (-14))).

Definition ne (self : network R) (other : operand) : result bool :=
  b <- eq self other ;; Ok (negb b).

End Arithmetic.

(** ** Metrics ([tntorch/metrics.py]) *)

Section Metrics.
Context {R : Type} {SR : Scalar R}.

(** [_process] on two networks. *)
Definition process_nets (gt approx : network R) : result unit :=
  sh <- net_shape gt ;;
  sh' <- net_shape approx ;;
  assert (list_eqb sh sh').

Definition dot_step (t1 t2 : network R) (Lprod : tensor R) (mu : nat) : result (tensor R) :=
  o1 <- py_index (cores t1) mu ;;
  u1 <- py_index (Us t1) mu ;;
  '(core1, core2) <-
    match u1 with
    | None =>
        o2 <- py_index (cores t2) mu ;;
        u2 <- py_index (Us t2) mu ;;
        match u2 with
        | Some U2 => c1 <- core_arg o1 ;; c1' <- einsum_ijk_ja_iak c1 U2 ;; Ok (PT c1', o2)
        | None => Ok (o1, o2)
        end
    | Some U1 =>
        u2 <- py_index (Us t2) mu ;;
        o2 <- py_index (cores t2) mu ;;
        c2 <- core_arg o2 ;;
        match u2 with
        | None => c2' <- einsum_ijk_ja_iak c2 U1 ;; Ok (o1, PT c2')
        | Some U2 => c2' <- einsum_ijk_ar_aj_irk c2 U1 U2 ;; Ok (o1, PT c2')
        end
    end ;;
  core1 <- core_arg core1 ;;
  Ucore <- einsum_ijk_ka_ija core1 Lprod ;;
  Vcore <- core_t core2 ;;
  u0 <- py_index (shape Ucore) 0 ;;
  Um <- reshape Ucore [D u0; Infer] ;;
  v0 <- py_index (shape Vcore) 0 ;;
  Vm <- reshape Vcore [D v0; Infer] ;;
  Vt <- transpose Vm ;;
  mm Um Vt.

(** [dot(t1, t2)] on two networks with [k=None]. *)
Definition dot (t1 t2 : network R) : result (tensor R) :=
  _ <- process_nets t1 t2 ;;
  _ <- process_nets t1 t2 ;;
  let k := Nat.min (ndim t1) (ndim t2) in
  Lprod <- foldM (dot_step t1 t2) (rev (seq (ndim t1 - k) k)) (ones [1; 1]) ;;
  Ok (squeeze Lprod).

Definition tmap (f : R -> R) (t : tensor R) : tensor R := mkT (shape t) (map f (data t)).

(** [x.clamp(0)] *)
Definition clamp0 (x : R) : R := if rltb x r0 then r0 else x.

(** [relative_error(gt, approx)] on two networks. *)
Definition relative_error (gt approx : network R) : result (tensor R) :=
  _ <- process_nets gt approx ;;
  dotgt <- dot gt gt ;;
  daa <- dot approx approx ;;
  s <- tensor_add dotgt daa ;;
  dga <- dot gt approx ;;
  d <- tensor_sub s (scale dga (of_Z 2)) ;;
  tensor_div (tmap (fun x => rsqrt (clamp0 x)) d)
             (tmap (fun x => rsqrt (clamp0 x)) dotgt).

End Metrics.

(** ** Accepted strings of a mask ([tntorch/automata.py]) *)

Section Automata.
Context {R : Type} {SR : Scalar R} {E : Engine R}.

(** [Xs[a:b, mu] = i] on a matrix of integers kept as its rows. *)
Definition assign_column (Xs : list (list Z)) (a b : Z) (mu : nat) (i : Z)
  : result (list (list Z)) :=
  ps <- slice_positions (length Xs) (Some a) (Some b) None ;;
  Ok (map (fun '(k, row) =>
             if existsb (Nat.eqb k) ps
             then map (fun '(j, x) => if j =? mu then i else x) (combine (seq 0 (length row)) row)
             else row)
          (combine (seq 0 (length Xs)) Xs)).

(** [torch.cat((torch.Tensor([0]), per_point.cumsum(dim=0))).long()] *)
Fixpoint cumsum_from (acc : Z) (l : list Z) : list Z :=
  match l with
  | [] => [acc]
  | x :: l' => acc :: cumsum_from (acc + x) l'
  end.

(** The inner [recursion] of [accepted_inputs]; [fuel] bounds the depth by
    the number of modes still to visit. *)
Fixpoint recursion (fuel : nat) (t : network R) (rights : list (tensor R))
         (Xs : list (list Z)) (left : tensor R) (bound : Z) (mu : nat)
  : result (list (list Z)) :=
  if mu =? ndim t then Ok Xs
  else
    match fuel with
    | 0 => Ok Xs
    | S fuel' =>
        o <- py_index (cores t) mu ;;
        core <- core_arg o ;;
        right <- py_index rights (mu + 1) ;;
        fiber <- einsum_ijk_k_ij core right ;;
        per_point <- vec_mat left fiber ;;
        let pp := map rround (data per_point) in
        let c := cumsum_from 0 pp in
        foldM (fun Xs i =>
                 ci <- py_index c i ;;
                 ci1 <- py_index c (i + 1) ;;
                 if (ci =? ci1)%Z then Ok Xs
                 else
                   Xs <- assign_column Xs (bound + ci) (bound + ci1) mu (Z.of_nat i) ;;
                   sl <- index_axis1 core (KInt (Z.of_nat i)) ;;
                   left' <- vec_mat left sl ;;
                   recursion fuel' t rights Xs left' (bound + ci) (mu + 1))
              (seq 0 (length pp)) Xs
    end.

(** [accepted_inputs(t)]: the strings a mask accepts, one per row. *)
Definition accepted_inputs (t : network R) : result (list (list Z)) :=
  total <- tn_sum t ;;
  let n := rround total in
  if (n <? 0)%Z then Err RuntimeError
  else
    let Xs := repeat (repeat 0%Z (ndim t)) (Z.to_nat n) in
    rights <- foldM (fun rights o =>
                       core <- core_arg o ;;
                       m <- sum_dim1 core ;;
                       last <- py_last rights ;;
                       r <- mat_vec m last ;;
                       Ok (rights ++ [r]))
                    (rev (cores t)) [ones [1]] ;;
    recursion (ndim t) t (rev rights) Xs (ones [1]) 0 0.

End Automata.

(** ** Item access ([__getitem__]) *)

Section Indexing.
Context {R : Type} {SR : Scalar R} {E : Engine R}.

(** A key: another network (a mask), a two-axis integer array given by its
    columns, a tuple or list of entries, or a single entry. *)
Inductive key : Type :=
| KeyMask (t : network R)
| KeyMatrix (cols : list (list Z))
| KeySeq (l : list kentry)
| KeyOne (e : kentry).

(** What item access returns: a number when every mode is consumed by an
    integer, a network otherwise. *)
Inductive item_result : Type :=
| IScalar (x : R)
| INet (t : network R).

Definition is_none (e : kentry) : bool := match e with KNone => true | _ => false end.
Definition is_ellipsis (e : kentry) : bool := match e with KEllipsis => true | _ => false end.
Definition full_slice : kentry := KSlice None None None.

(** [key[:i] + fill + key[i+1:]] at the first ellipsis. *)
Fixpoint expand_ellipsis (fill : list kentry) (l : list kentry) : list kentry :=
  match l with
  | [] => []
  | KEllipsis :: l' => fill ++ l'
  | e :: l' => e :: expand_ellipsis fill l'
  end.

(** [_process_key] *)
Definition process_key (self : network R) (k : list kentry) : result (list kentry) :=
  let n := Z.of_nat (ndim self) in
  let nonecount := Z.of_nat (length (filter is_none k)) in
  let fill := repeat full_slice (Z.to_nat (n - (Z.of_nat (length k) - nonecount) + 1)) in
  let k := expand_ellipsis fill k in
  if existsb is_ellipsis k
  then Err (IndexError "Only one ellipsis is allowed, at most")
  else if (n - (Z.of_nat (length k) - nonecount) <? 0)%Z
  then Err (IndexError "Too many index entries")
  else Ok (k ++ repeat full_slice (Z.to_nat (n - (Z.of_nat (length k) - nonecount)))).

Inductive mode : Type := MIndex | MNone | MInt | MSlice.

Definition mode_eqb (a b : mode) : bool :=
  match a, b with
  | MIndex, MIndex | MNone, MNone | MInt, MInt | MSlice, MSlice => true
  | _, _ => false
  end.

(** The local variables of [__getitem__]. *)
Record gstate : Type := mkG {
  last_mode : option mode;
  index_done : bool;
  f_int : option (tensor R);
  f_index : option (tensor R);
  out_cores : list (pyobj R);
  out_Us : list (option (tensor R));
  counter : nat
}.

Definition push (st : gstate) (c : pyobj R) (u : option (tensor R)) : gstate :=
  mkG (last_mode st) (index_done st) (f_int st) (f_index st)
      (out_cores st ++ [c]) (out_Us st ++ [u]) (counter st).

Definition with_int (st : gstate) (f : option (tensor R)) : gstate :=
  mkG (last_mode st) (index_done st) f (f_index st) (out_cores st) (out_Us st) (counter st).

Definition with_index (st : gstate) (f : option (tensor R)) : gstate :=
  mkG (last_mode st) (index_done st) (f_int st) f (out_cores st) (out_Us st) (counter st).

Definition advance (st : gstate) : gstate :=
  mkG (last_mode st) (index_done st) (f_int st) (f_index st) (out_cores st) (out_Us st)
      (counter st + 1).

Definition with_last (st : gstate) (m : mode) : gstate :=
  mkG (Some m) (index_done st) (f_int st) (f_index st) (out_cores st) (out_Us st) (counter st).

(** The nested [insert_core(factors, core, key, U)]. *)
Definition insert_core (st : gstate) (arg : option (pyobj R * kentry * option (tensor R)))
  : result gstate :=
  st <- match f_index st with
        | Some idx =>
            match f_int st with
            | Some fi =>
                idx' <- einsum_ij_jak_iak fi idx ;;
                Ok (with_index (push (with_int st None) (PT idx') None) None)
            | None => Ok (with_index (push st (PT idx) None) None)
            end
        | None => Ok st
        end ;;
  match arg with
  | None => Ok st
  | Some (core, k, U) =>
      match f_int st with
      | Some fi =>
          match U with
          | None =>
              c <- core_arg core ;;
              sl <- index_axis1 c k ;;
              c' <- einsum_ij_jak_iak fi sl ;;
              Ok (with_int (push st (PT c') None) None)
          | Some U =>
              c <- core_arg core ;;
              c' <- einsum_ij_jak_iak fi c ;;
              u <- index_rows U k ;;
              Ok (with_int (push st (PT c') (Some u)) None)
          end
      | None =>
          match U with
          | None =>
              c <- core_arg core ;;
              sl <- index_axis1 c k ;;
              Ok (push st (PT sl) None)
          | Some U =>
              u <- index_rows U k ;;
              Ok (push st core (Some u))
          end
      end
  end.

(** The nested [get_key(counter, key)]. *)
Definition get_key (self : network R) (counter : nat) (k : kentry) : result (tensor R) :=
  u <- py_index (Us self) counter ;;
  match u with
  | None =>
      o <- py_index (cores self) counter ;;
      c <- core_arg o ;;
      index_axis1 c k
  | Some U =>
      sl <- index_rows U k ;;
      o <- py_index (cores self) counter ;;
      c <- core_arg o ;;
      if dim sl =? 1 then einsum_ijk_j_ik c sl else einsum_ijk_aj_iak c sl
  end.

(** One pass of the main loop of [__getitem__]. *)
Definition getitem_step (self : network R) (st : gstate) (k : kentry) : result gstate :=
  this_mode <- match k with
               | KIndex _ => Ok MIndex
               | KNone => Ok MNone
               | KInt _ => Ok MInt
               | KSlice _ _ _ => Ok MSlice
               | KEllipsis | KOther => Err (IndexError "")
               end ;;
  st <- match this_mode with
        | MNone =>
            o <- py_index (cores self) (counter st) ;;
            c <- core_t o ;;
            r <- py_index (shape c) 0 ;;
            let e := mkT [r; 1; r] (data (eye r)) in
            insert_core st (Some (PT e, full_slice, None))
        | MSlice =>
            o <- py_index (cores self) (counter st) ;;
            u <- py_index (Us self) (counter st) ;;
            st <- insert_core st (Some (o, k, u)) ;;
            Ok (advance st)
        | MIndex =>
            if index_done st
            then Err (IndexError "All index arrays must appear contiguously")
            else
              st <- match f_index st with
                    | None =>
                        g <- get_key self (counter st) k ;;
                        Ok (with_index st (Some g))
                    | Some fi =>
                        p <- py_index (shape fi) 1 ;;
                        let len := match k with KIndex l => length l | _ => 0 end in
                        if negb (p =? len)
                        then Err (ValueError "Index arrays must have the same length")
                        else
                          a2 <- get_key self (counter st) k ;;
                          f <- fuse_index fi a2 ;;
                          Ok (with_index st (Some f))
                    end ;;
              Ok (advance st)
        | MInt =>
            st <- (if match last_mode st with Some MIndex => true | _ => false end
                   then insert_core st None else Ok st) ;;
            st <- match f_int st with
                  | None =>
                      g <- get_key self (counter st) k ;;
                      Ok (with_int st (Some g))
                  | Some fi =>
                      g <- get_key self (counter st) k ;;
                      f <- einsum_ij_jk_ik fi g ;;
                      Ok (with_int st (Some f))
                  end ;;
            Ok (advance st)
        end ;;
  Ok (with_last st this_mode).

(** [__getitem__] for a key that is not a mask. *)
Definition getitem_entries (self : network R) (k : list kentry) : result item_result :=
  k <- process_key self k ;;
  st <- foldM (getitem_step self) k (mkG None false None None [] [] 0) ;;
  match last_mode st with
  | Some MIndex =>
      match f_index st with
      | Some idx =>
          t <- Tensor_of_cores (out_cores st ++ [PT idx]) (Some (out_Us st ++ [None])) None ;;
          Ok (INet t)
      | None => Err AttributeError
      end
  | Some MInt =>
      match f_int st with
      | Some fi =>
          if 0 <? length (out_cores st)
          then
            o <- py_last (out_cores st) ;;
            c <- core_arg o ;;
            c' <- einsum_ija_ak_ijk c fi ;;
            cs <- set_last (out_cores st) (PT c') ;;
            t <- Tensor_of_cores cs (Some (out_Us st)) None ;;
            Ok (INet t)
          else
            '(a, b) <- as2_index fi ;;
            if (a =? 0) || (b =? 0) then Err (IndexError "index 0 is out of bounds")
            else Ok (IScalar (get2 fi 0 0))
      | None => Err TypeError
      end
  | _ =>
      t <- Tensor_of_cores (out_cores st) (Some (out_Us st)) None ;;
      Ok (INet t)
  end.

(** The positions of a list of labels that carry the label [x]
    ([np.where(idx == x)[0]]). *)
Definition where_eq (idx : list Z) (x : Z) : list Z :=
  map (fun '(k, _) => Z.of_nat k)
      (filter (fun '(_, y) => (y =? x)%Z) (combine (seq 0 (length idx)) idx)).

(** The selectors a mask stands for: per mode, the positions whose label
    (capped at 1) is the symbol of the first accepted string, as an integer
    when there is one such position and as a slice from the first to the
    last otherwise. *)
Definition mask_selectors (self mask : network R) : result (list kentry) :=
  Xs <- accepted_inputs mask ;;
  s <- py_index Xs 0 ;;
  mapM (fun n =>
          labels <- py_index (idxs self) n ;;
          let idx := map (fun z => if (1 <? z)%Z then 1%Z else z) labels in
          sn <- py_index s n ;;
          let pos := where_eq idx sn in
          first <- py_index pos 0 ;;
          last <- py_last pos ;;
          if length pos =? 1 then Ok (KInt first)
          else Ok (KSlice (Some first) (Some (last + 1)%Z) None))
       (seq 0 (ndim self)).

Definition mask_error : exn :=
  ValueError "When indexing via a mask tensor, that mask should have exactly 1 accepting string".

(** The mask branch of [__getitem__]. *)
Definition getitem_mask (self mask : network R) : result item_result :=
  total <- tn_sum mask ;;
  if rltb (of_dec 1 (-8)) (rabs (rsub total r1))
  then Err mask_error
  else
    slicing <- mask_selectors self mask ;;
    getitem_entries self slicing.

(** [self[key]] *)
Definition getitem (self : network R) (k : key) : result item_result :=
  match k with
  | KeyMask mask => getitem_mask self mask
  | KeyMatrix cols => getitem_entries self (map KIndex cols)
  | KeySeq l => getitem_entries self l
  | KeyOne e => getitem_entries self [e]
  end.

End Indexing.

(** ** Methods that work in place

    Such a method is a function on the network that returns the network
    after the call and the outcome; when it raises, what it had assigned
    before stays assigned. *)

Section InPlace.
Context {R : Type} {SR : Scalar R} {E : Engine R}.

Definition M (A : Type) : Type := network R -> network R * result A.

Definition retM {A} (a : A) : M A := fun t => (t, Ok a).

Definition bindM {A B} (m : M A) (k : A -> M B) : M B :=
  fun t => match m t with
           | (t', Ok a) => k a t'
           | (t', Err e) => (t', Err e)
           end.

(** An expression that reads nothing of [self] or cannot assign. *)
Definition liftM {A} (r : result A) : M A := fun t => (t, r).

(** An expression over the current [self]. *)
Definition readM {A} (f : network R -> result A) : M A := fun t => (t, f t).

Declare Scope m_scope.
Delimit Scope m_scope with M.
Notation "x <~ m ;; k" := (bindM m (fun x => k))
  (at level 61, m at next level, right associativity) : m_scope.
Notation "' p <~ m ;; k" := (bindM m (fun x => match x with p => k end))
  (at level 61, p pattern, m at next level, right associativity) : m_scope.
Open Scope m_scope.

(** [self.cores[mu] = o] and [self.Us[mu] = u]. *)
Definition set_core (mu : nat) (o : pyobj R) : M unit :=
  fun t => match set_nth (cores t) mu o with
           | Ok cs => (mkN cs (Us t) (idxs t), Ok tt)
           | Err e => (t, Err e)
           end.

Definition set_U (mu : nat) (u : option (tensor R)) : M unit :=
  fun t => match set_nth (Us t) mu u with
           | Ok us => (mkN (cores t) us (idxs t), Ok tt)
           | Err e => (t, Err e)
           end.

Definition get_core (mu : nat) : M (pyobj R) := readM (fun t => py_index (cores t) mu).
Definition get_U (mu : nat) : M (option (tensor R)) := readM (fun t => py_index (Us t) mu).

(** [for x in l: body(x)] *)
Fixpoint forM {B} (l : list B) (body : B -> M unit) : M unit :=
  match l with
  | [] => retM tt
  | x :: l' => _ <~ body x ;; forM l' body
  end.

(** Modelled from the spec: [tn.left_unfolding] and [tn.right_unfolding],
    whose module is not part of these sources: the core reshaped to a
    [R_{mu-1} * F_mu] by [R_mu] matrix, and to a [R_{mu-1}] by
    [F_mu * R_mu] matrix. *)
Definition left_unfolding (c : tensor R) : result (tensor R) :=
  r <- py_last (shape c) ;; reshape c [Infer; D r].

Definition right_unfolding (c : tensor R) : result (tensor R) :=
  r <- py_index (shape c) 0 ;; reshape c [D r; Infer].

(** [factor_orthogonalize(mu)] *)
Definition factor_orthogonalize (mu : nat) : M unit :=
  u <~ get_U mu ;;
  match u with
  | None => retM tt
  | Some U =>
      '(Q, Rf) <~ liftM (qr U) ;;
      _ <~ set_U mu (Some Q) ;;
      o <~ get_core mu ;;
      c <~ liftM (core_t o) ;;
      c' <~ liftM (if dim c =? 2 then einsum_jk_aj_ak c Rf else einsum_ijk_aj_iak c Rf) ;;
      set_core mu (PT c')
  end.

(** [_cp_to_tt(n)]: the body is the docstring alone. *)
Definition cp_to_tt (n : nat) : M unit := retM tt.

(** [left_orthogonalize(mu)] *)
Definition left_orthogonalize (mu : nat) : M (tensor R) :=
  N <~ readM (fun t => Ok (ndim t)) ;;
  _ <~ liftM (assert (Z.of_nat mu <? Z.of_nat N - 1)%Z) ;;
  o <~ get_core mu ;;
  c <~ liftM (core_t o) ;;
  _ <~ (if dim c =? 2 then set_core mu PCores else retM tt) ;;
  _ <~ factor_orthogonalize mu ;;
  o <~ get_core mu ;;
  c <~ liftM (core_t o) ;;
  lu <~ liftM (left_unfolding c) ;;
  '(Q, Rf) <~ liftM (qr lu) ;;
  o <~ get_core mu ;;
  c <~ liftM (core_t o) ;;
  q1 <~ liftM (py_index (shape Q) 1) ;;
  c' <~ liftM (reshape Q (map D (removelast (shape c) ++ [q1]))) ;;
  _ <~ set_core mu (PT c') ;;
  o1 <~ get_core (mu + 1) ;;
  c1 <~ liftM (core_t o1) ;;
  rightcoreR <~ liftM (right_unfolding c1) ;;
  p <~ liftM (mm Rf rightcoreR) ;;
  r0' <~ liftM (py_index (shape Rf) 0) ;;
  c1' <~ liftM (reshape p (map D (r0' :: tl (shape c1)))) ;;
  _ <~ set_core (mu + 1) (PT c1') ;;
  retM Rf.

(** [right_orthogonalize(mu)] *)
Definition right_orthogonalize (mu : nat) : M (tensor R) :=
  N <~ readM (fun t => Ok (ndim t)) ;;
  _ <~ liftM (assert ((1 <=? mu) && (mu <? N))) ;;
  _ <~ factor_orthogonalize mu ;;
  o <~ get_core mu ;;
  c <~ liftM (core_t o) ;;
  ru <~ liftM (right_unfolding c) ;;
  rut <~ liftM (transpose ru) ;;
  '(Q, L) <~ liftM (qr rut) ;;
  L <~ liftM (transpose L) ;;
  Q <~ liftM (transpose Q) ;;
  q0 <~ liftM (py_index (shape Q) 0) ;;
  c' <~ liftM (reshape Q (map D (q0 :: tl (shape c)))) ;;
  _ <~ set_core mu (PT c') ;;
  o0 <~ get_core (mu - 1) ;;
  c0 <~ liftM (core_t o0) ;;
  leftcoreL <~ liftM (left_unfolding c0) ;;
  p <~ liftM (mm leftcoreL L) ;;
  l1 <~ liftM (py_index (shape L) 1) ;;
  c0' <~ liftM (reshape p (map D (removelast (shape c0) ++ [l1]))) ;;
  _ <~ set_core (mu - 1) (PT c0') ;;
  retM L.

(** A loop that keeps the last value its body returned. *)
Fixpoint sweep (l : list nat) (body : nat -> M (tensor R)) (last : tensor R) : M (tensor R) :=
  match l with
  | [] => retM last
  | i :: l' => x <~ body i ;; sweep l' body x
  end.

(** [orthogonalize(mu)]: returns [(R, L)]. *)
Definition orthogonalize (mu : nat) : M (tensor R * tensor R) :=
  N <~ readM (fun t => Ok (ndim t)) ;;
  Rf <~ sweep (seq 0 mu) left_orthogonalize (ones [1; 1]) ;;
  L <~ sweep (rev (seq (mu + 1) (N - 1 - mu))) right_orthogonalize (ones [1; 1]) ;;
  retM (Rf, L).

(** The [rmax] argument: one bound for all modes, or a list of bounds. *)
Inductive rmax_arg : Type :=
| RmaxOne (r : option nat)
| RmaxList (l : list (option nat)).

Definition rmax_list (r : rmax_arg) (n : nat) : list (option nat) :=
  match r with
  | RmaxOne r => repeat r n
  | RmaxList l => l
  end.

(** [max(1, x)] *)
Definition max1 (x : R) : R := if rltb (of_Z 1) x then x else of_Z 1.

(** [round_tucker(eps, rmax, algorithm)] *)
Definition round_tucker (eps : R) (rmax : rmax_arg) (algorithm : string) : M unit :=
  N <~ readM (fun t => Ok (ndim t)) ;;
  let rmax := rmax_list rmax N in
  _ <~ liftM (assert (length rmax =? N)) ;;
  _ <~ orthogonalize 0 ;;
  forM (seq 0 N) (fun mu =>
    u <~ get_U mu ;;
    _ <~ match u with
         | None =>
             sh <~ readM net_shape ;;
             s <~ liftM (py_index sh mu) ;;
             set_U mu (Some (eye s))
         | Some _ => retM tt
         end ;;
    o <~ get_core mu ;;
    c <~ liftM (core_t o) ;;
    cp <~ liftM (permute021 c) ;;
    c1 <~ liftM (py_index (shape c) 1) ;;
    m <~ liftM (reshape cp [Infer; D c1]) ;;
    '(Q, Rf) <~ liftM (qr m) ;;
    c0 <~ liftM (py_index (shape c) 0) ;;
    c2 <~ liftM (py_index (shape c) 2) ;;
    q <~ liftM (reshape Q [D c0; D c2; Infer]) ;;
    q <~ liftM (permute021 q) ;;
    _ <~ set_core mu (PT q) ;;
    u <~ get_U mu ;;
    U <~ liftM (match u with Some U => Ok U | None => Err TypeError end) ;;
    Rt <~ liftM (transpose Rf) ;;
    U' <~ liftM (mm U Rt) ;;
    _ <~ set_U mu (Some U') ;;
    rm <~ liftM (py_index rmax mu) ;;
    '(lf, rt) <~ liftM (truncated_svd U' None (Some (rdiv eps (rsqrt (of_Z (Z.of_nat N)))))
                                           rm true algorithm false) ;;
    _ <~ set_U mu (Some lf) ;;
    o <~ get_core mu ;;
    c <~ liftM (core_arg o) ;;
    c' <~ liftM (einsum_ijk_aj_iak c rt) ;;
    _ <~ set_core mu (PT c') ;;
    if mu <? N - 1 then (_ <~ left_orthogonalize mu ;; retM tt) else retM tt).

(** [round_tt(eps, rmax, algorithm, verbose)] *)
Definition round_tt (eps : R) (rmax : rmax_arg) (algorithm : string) (verbose : bool)
  : M unit :=
  N <~ readM (fun t => Ok (ndim t)) ;;
  let rmax := rmax_list rmax (N - 1) in
  _ <~ liftM (assert (Z.of_nat (length rmax) =? Z.of_nat N - 1)%Z) ;;
  _ <~ orthogonalize (N - 1) ;;
  _ <~ cp_to_tt (N - 1) ;;
  ol <~ readM (fun t => py_last (cores t)) ;;
  cl <~ liftM (core_arg ol) ;;
  let delta := rmul (rdiv eps (max1 (rsqrt (of_Z (Z.of_nat N - 1))))) (torch_norm cl) in
  forM (rev (seq 1 (N - 1))) (fun mu =>
    o <~ get_core mu ;;
    c <~ liftM (core_t o) ;;
    m <~ liftM (right_unfolding c) ;;
    rm <~ liftM (py_index rmax (mu - 1)) ;;
    '(lf, m') <~ liftM (truncated_svd m (Some delta) None rm false algorithm verbose) ;;
    o <~ get_core mu ;;
    c <~ liftM (core_t o) ;;
    c1 <~ liftM (py_index (shape c) 1) ;;
    c2 <~ liftM (py_index (shape c) 2) ;;
    c' <~ liftM (reshape m' [Infer; D c1; D c2]) ;;
    _ <~ set_core mu (PT c') ;;
    o0 <~ get_core (mu - 1) ;;
    c0 <~ liftM (core_arg o0) ;;
    c0' <~ liftM (einsum_ijk_kl c0 lf) ;;
    set_core (mu - 1) (PT c0')).

(** The keyword arguments [round] passes on to both stages. *)
Record kwargs : Type := mkKw {
  kw_rmax : option rmax_arg;
  kw_algorithm : option string;
  kw_verbose : option bool
}.

Definition no_kwargs : kwargs := mkKw None None None.

Definition call_round_tt (eps : R) (kw : kwargs) : M unit :=
  round_tt eps
           (match kw_rmax kw with Some r => r | None => RmaxOne None end)
           (match kw_algorithm kw with Some a => a | None => "svd" end)
           (match kw_verbose kw with Some v => v | None => false end).

(** [round_tucker] has no [verbose] parameter. *)
Definition call_round_tucker (eps : R) (kw : kwargs) : M unit :=
  match kw_verbose kw with
  | Some _ => liftM (Err TypeError)
  | None =>
      round_tucker eps
                   (match kw_rmax kw with Some r => r | None => RmaxOne None end)
                   (match kw_algorithm kw with Some a => a | None => "svd" end)
  end.

(** The budget [round] hands to the Tucker stage. *)
Definition tucker_budget (eps reached : R) : R :=
  rsub (rdiv (radd (of_Z 1) eps) (radd (of_Z 1) reached)) (of_Z 1).

(** [round(eps, **kwargs)] *)
Definition round (eps : R) (kw : kwargs) : M unit :=
  copy <~ readM clone ;;
  _ <~ call_round_tt eps kw ;;
  reached <~ readM (fun self => relative_error copy self) ;;
  reached <~ liftM (item reached) ;;
  if rltb reached eps
  then call_round_tucker (tucker_budget eps reached) kw
  else retM tt.

End InPlace.

(** ** TT-form networks

    A chain of three-axis cores [r_{n-1} x I_n x r_n] without factors: the
    form the dense constructor produces. *)

Section TTForm.
Context {R : Type} {SR : Scalar R}.

(** [chain r cs ms r']: the cores [cs] have mode sizes [ms], consecutive
    ranks agree, the first rank is [r] and the last is [r']. *)
Fixpoint chain (r : nat) (cs : list (tensor R)) (ms : list nat) (r' : nat) : Prop :=
  match cs, ms with
  | [], [] => r = r'
  | c :: cs', b :: ms' => exists j, shape c = [r; b; j] /\ chain j cs' ms' r'
  | _, _ => False
  end.

(** A core with as many entries as its shape says and no empty axis. *)
Definition good_core (c : tensor R) : Prop :=
  wf_tensor c /\ Forall (fun x => 0 < x) (shape c).

(** A network in TT form with positive sizes, boundary ranks 1 and no
    factor matrices. *)
Definition tt_form (t : network R) (cs : list (tensor R)) (ms : list nat) : Prop :=
  cores t = map PT cs /\ Us t = repeat None (length cs) /\
  cs <> [] /\ chain 1 cs ms 1 /\ Forall good_core cs.

(** The invariant of the dense constructor's loop, for an array of shape
    [sh = pre ++ s :: post] and entries [d]: [pre] are the modes that have a
    core already, [s] is the mode the next core is for; materialising the
    cores so far gives [F], and either [F] is an identity and the remaining
    matrix [D] holds the entries, or [F] holds the entries and [D] is an
    identity. *)
Definition dense_inv (sh : list nat) (d : list R) (pre : list nat) (s : nat)
           (post : list nat) (cs : list (tensor R)) (D : tensor R) : Prop :=
  sh = pre ++ s :: post /\
  exists F r,
    foldM full_step (map PT cs) ([], ones [1; 1]) = Ok (pre, F) /\
    chain 1 cs pre r /\ Forall good_core cs /\
    let p := numel pre in
    let q := numel post in
    ((F = mkT [p; p] (data (eye p)) /\ r = p /\ D = mkT [p * s; q] d) \/
     (F = mkT [p; s * q] d /\ r = s * q /\
      D = mkT [s * q * s; q] (data (eye (s * q))))).

(** What a chain of cores computes.  [fstep f c] is one materialisation
    step: [f] gives the entries of the matrix contracted so far and the
    result gives the entries after contracting the core [c] and folding its
    mode into the rows.  [tt_entry cs x] is entry [x], in row-major order,
    of the array of the chain [cs]. *)
Definition fstep (f : nat -> nat -> R) (c : tensor R) : nat -> nat -> R :=
  fun x z =>
    let r := nth 0 (shape c) 0 in
    let b := nth 1 (shape c) 0 in
    sum_n r (fun k => rmul (f (x / b) k) (get3 c k (x mod b) z)).

Fixpoint chain_sem (cs : list (tensor R)) (f : nat -> nat -> R) : nat -> nat -> R :=
  match cs with
  | [] => f
  | c :: cs' => chain_sem cs' (fstep f c)
  end.

Definition tt_entry (cs : list (tensor R)) (x : nat) : R :=
  chain_sem cs (fun _ _ => r1) x 0.

(** A matrix with the given sizes and entries. *)
Definition is_mat (F : tensor R) (P j : nat) (f : nat -> nat -> R) : Prop :=
  shape F = [P; j] /\ forall x z, x < P -> z < j -> get2 F x z = f x z.

(** The core that one pass of the loop of [__add__] builds from two cores
    without factors: [core1] and [core2] on the diagonal of the rank axes,
    zeros elsewhere. *)
Definition add_block (c1 c2 : tensor R) : tensor R :=
  let r1 := nth 0 (shape c1) 0 in
  let m := nth 1 (shape c1) 0 in
  let j1 := nth 2 (shape c1) 0 in
  let r2 := nth 0 (shape c2) 0 in
  let j2 := nth 2 (shape c2) 0 in
  let column1 :=
    mk3 (r1 + r2) m j1
        (fun x y z => if x <? r1 then get3 c1 x y z else get3 (zeros [r2; m; j1]) (x - r1) y z) in
  let column2 :=
    mk3 (r1 + r2) m j2
        (fun x y z => if x <? r1 then get3 (zeros [r1; m; j2]) x y z else get3 c2 (x - r1) y z) in
  mk3 (r1 + r2) m (j1 + j2)
      (fun x y z => if z <? j1 then get3 column1 x y z else get3 column2 x y (z - j1)).

(** The core that one pass of the loop of [__mul__] builds from two cores
    without factors ([core_kron]). *)
Definition kron3 (c1 c2 : tensor R) : tensor R :=
  let r1 := nth 0 (shape c1) 0 in
  let m1 := nth 1 (shape c1) 0 in
  let j1 := nth 2 (shape c1) 0 in
  let r2 := nth 0 (shape c2) 0 in
  let m2 := nth 1 (shape c2) 0 in
  let j2 := nth 2 (shape c2) 0 in
  mk3 (r1 * r2) (m1 * m2) (j1 * j2)
      (fun x y z => rmul (get3 c1 (x / r2) (y / m2) (z / j2))
                         (get3 c2 (x mod r2) (y mod m2) (z mod j2))).

(** The cores [__add__] builds from two TT chains: for one mode the sum of
    the two cores; otherwise the block cores, with the first summed over its
    left rank and the last over its right rank. *)
Definition sum_cores (cs1 cs2 csu : list (tensor R)) : Prop :=
  (exists c1 c2 m,
     cs1 = [c1] /\ cs2 = [c2] /\
     csu = [mkT [1; m; 1] (zip_with radd (data c1) (data c2))]) \/
  (exists a1 mid1 l1 a2 mid2 l2 first last,
     cs1 = a1 :: mid1 ++ [l1] /\ cs2 = a2 :: mid2 ++ [l2] /\
     sum_dim0_keep (add_block a1 a2) = Ok first /\
     sum_dim2_keep (add_block l1 l2) = Ok last /\
     csu = first :: map (fun p => add_block (fst p) (snd p)) (combine mid1 mid2) ++ [last]).

(** [g] is [h1] and [h2] side by side, [j1] columns of [h1], then [j2]
    columns of [h2], up to the sign of zero. *)
Definition side_by_side_feq (P j1 j2 : nat) (g h1 h2 : nat -> nat -> R) : Prop :=
  forall x z, x < P -> z < j1 + j2 ->
    feq (g x z) (if z <? j1 then h1 x z else h2 x (z - j1)).

(** An array without infinity or NaN, and a matrix by entries without. *)
Definition fin_core (c : tensor R) : Prop :=
  Forall (fun v => is_finite v = true) (data c).

Definition fin_mat (P j : nat) (h : nat -> nat -> R) : Prop :=
  forall x z, x < P -> z < j -> is_finite (h x z) = true.

(** A chain whose materialisation never rounds: starting from the [P] by
    [r] matrix [h], every matrix and core met is finite and every sum of a
    contraction has at most one term that is not a zero. *)
Fixpoint tame (P r : nat) (h : nat -> nat -> R) (cs : list (tensor R)) : Prop :=
  match cs with
  | [] => True
  | c :: cs' =>
      let b := nth 1 (shape c) 0 in
      let j := nth 2 (shape c) 0 in
      fin_mat P r h /\ fin_core c /\
      (forall x z, x < P * b -> z < j ->
         exists k0, k0 < r /\
           forall k, k < r -> k <> k0 ->
             is_zero (rmul (h (x / b) k) (get3 c k (x mod b) z)) = true) /\
      tame (P * b) j (fstep h c) cs'
  end.

(** What one more core [c] adds to a tame chain that has the [P] by [r]
    matrix [F] so far: both are finite, each sum of the contraction keeps
    one term, and the contraction has the entries [T]. *)
Definition level (P r b j : nat) (F : nat -> nat -> R) (c : tensor R)
           (T : nat -> nat -> R) : Prop :=
  fin_mat P r F /\ fin_core c /\
  (forall x z, x < P * b -> z < j ->
     exists k0, k0 < r /\
       forall k, k < r -> k <> k0 ->
         is_zero (rmul (F (x / b) k) (get3 c k (x mod b) z)) = true) /\
  (forall x z, x < P * b -> z < j -> feq (fstep F c x z) (T x z)).

(** The invariant of the dense constructor's loop in float arithmetic, for
    an array of shape [sh = pre ++ s :: post] with entries [d]: the cores so
    far form a tame chain over [pre]; either their contraction is an
    identity and the remaining matrix [D] holds the entries, or their
    contraction holds the entries and [D] is an identity. *)
Definition dense_feq_inv (sh : list nat) (d : list R) (pre : list nat) (s : nat)
           (post : list nat) (cs : list (tensor R)) (D : tensor R) : Prop :=
  sh = pre ++ s :: post /\
  exists r,
    chain 1 cs pre r /\ Forall good_core cs /\ tame 1 1 (fun _ _ => r1) cs /\
    let p := numel pre in
    let q := numel post in
    let F := chain_sem cs (fun _ _ => r1) in
    ((r = p /\ D = mkT [p * s; q] d /\
      forall x z, x < p -> z < p -> feq (F x z) (if x =? z then r1 else r0)) \/
     (r = s * q /\ D = mkT [s * q * s; q] (data (eye (s * q))) /\
      forall x z, x < p -> z < s * q -> feq (F x z) (nth (x * (s * q) + z) d r0))).

(** A core that is another core times a matrix on its right rank. *)
Definition right_factor (c c' : tensor R) (r b j k : nat) (M : nat -> nat -> R) : Prop :=
  shape c = [r; b; j] /\ shape c' = [r; b; k] /\
  forall a y z, a < r -> y < b -> z < j ->
    get3 c a y z = sum_n k (fun l => rmul (get3 c' a y l) (M l z)).

(** A core that is a matrix times another core on its left rank. *)
Definition left_factor (c c' : tensor R) (j k b j' : nat) (M : nat -> nat -> R) : Prop :=
  shape c = [k; b; j'] /\ shape c' = [j; b; j'] /\
  forall l y z, l < k -> y < b -> z < j' ->
    get3 c l y z = sum_n j (fun a => rmul (M l a) (get3 c' a y z)).

End TTForm.

(** What the callers of [torch.qr] rely on: on a matrix without empty axis
    it returns two matrices, [m x k] and [k x n], whose product is the
    matrix. *)
Definition qr_correct {R : Type} {SR : Scalar R} (E : Engine R) : Prop :=
  forall (A : tensor R) m n,
    wf_tensor A -> shape A = [m; n] -> 0 < m -> 0 < n ->
    exists Q Rf k,
      qr A = Ok (Q, Rf) /\ 0 < k /\
      wf_tensor Q /\ shape Q = [m; k] /\ wf_tensor Rf /\ shape Rf = [k; n] /\
      forall x z, x < m -> z < n ->
        sum_n k (fun l => rmul (get2 Q x l) (get2 Rf l z)) = get2 A x z.

(** ** Instances to run the model on

    Exact rationals as scalars, and an engine whose factorisations do not
    truncate: [qr] and [truncated_svd] return the input and an identity,
    [tn.sum] and [tn.norm] are computed from the materialised array. *)


Definition Qsqrt_floor (q : Q) : Q :=
  Qmake (Z.sqrt (Qnum q * Zpos (Qden q))) (Qden q).

#[export] Instance Scalar_Q : Scalar Q := {
  r0 := 0%Q;
  r1 := 1%Q;
  radd := fun x y => Qred (x + y);
  rmul := fun x y => Qred (x * y);
  rsub := fun x y => Qred (x - y);
  rdiv := fun x y => Qred (x / y);
  rabs := Qabs;
  rsqrt := Qsqrt_floor;
  rltb := fun x y => negb (Qle_bool y x);
  rleb := Qle_bool;
  of_Z := inject_Z;
  of_dec := fun m e => if (0 <=? e)%Z then inject_Z (m * 10 ^ e)
                       else Qred (inject_Z m / inject_Z (10 ^ (- e)));
  rround := fun x => Qfloor (x + (1 # 2))
}.

Section ExactEngine.
Context {R : Type} {SR : Scalar R}.

(** A factorisation [M = A * B] of full rank [min(m, n)] that moves
    nothing: the shapes are those of a reduced QR. *)
Definition trivial_factors (m : tensor R) : result (tensor R * tensor R) :=
  '(a, b) <- as2 m ;;
  if b <=? a then Ok (m, eye b) else Ok (eye a, m).

(** Modelled from the spec: [tn.sum] and [tn.norm], whose module is not part
    of these sources: the sum of all entries of the network's array, and
    its Frobenius norm. *)
Definition sum_entries (t : network R) : result R :=
  a <- full t ;; Ok (fold_left radd (data a) r0).

Definition frobenius (a : tensor R) : R :=
  rsqrt (fold_left (fun acc x => radd acc (rmul x x)) (data a) r0).

Definition frobenius_norm (t : network R) : result R :=
  a <- full t ;; Ok (frobenius a).

#[export] Instance Engine_exact : Engine R := {
  qr := trivial_factors;
  torch_norm := frobenius;
  truncated_svd := fun m _ _ _ _ _ _ => trivial_factors m;
  tn_sum := sum_entries;
  tn_norm := frobenius_norm
}.

End ExactEngine.

(** ** Inputs the statements below are evaluated on *)

(** A two-mode network of two CP cores, [Tensor([c0, c1])] with [c0] and
    [c1] of shape [2 x 1]. *)
Definition cp_example : network Z :=
  mkN [PT (mkT [2; 1] [1; 2]%Z); PT (mkT [2; 1] [3; 4]%Z)] [None; None] [arange 2; arange 2].

(** A [2 x 2 x 2] dense array. *)
Definition dense_example : tensor Z := mkT [2; 2; 2] [1; 2; 3; 4; 5; 6; 7; 8]%Z.

(** A key with two index arrays separated by a slice: [t[[0, 1], :, [0, 1]]]. *)
Definition interleaved_key : key (R := Z) :=
  KeySeq [KIndex [0; 1]%Z; full_slice; KIndex [0; 1]%Z].

(** A vector of length 3 and the mask of the same shape that accepts the
    position 2 alone. *)
Definition vector_example : tensor Q := mkT [3] [5; 6; 7]%Q.
Definition mask_example : tensor Q := mkT [3] [0; 0; 1]%Q.

(** The networks of the [2 x 2] arrays [[1, 2], [3, 4]] and
    [[1, 2], [3, 5]], as the dense constructor builds them. *)
Definition tt_example_cores (last : Z) : list (tensor Z) :=
  [mkT [1; 2; 2] [1; 2; 3; last]%Z; mkT [2; 2; 1] [1; 0; 0; 1]%Z].

Definition tt_example (last : Z) : network Z :=
  mkN (map PT (tt_example_cores last)) [None; None] [arange 2; arange 2].

(** ** Storage and aliasing

    The same operators and item access once more, on array objects that
    live in a store: an object is a strided view of a storage, the engine
    functions that compute a new array allocate a storage for it, and the
    functions that select part of an array (a slice, an integer index)
    return a view of the storage of their argument.  The contents are
    computed by the functions above; this part adds where they are kept. *)

Module Heap.

Local Abbreviation pure_index_axis1 := index_axis1 (only parsing).
Local Abbreviation pure_index_rows := index_rows (only parsing).
Local Abbreviation pure_Tensor_of_cores := Tensor_of_cores (only parsing).

Declare Scope heap_scope.
Delimit Scope heap_scope with heap.

Section Model.
Context {R : Type} {SR : Scalar R}.

(** The store: storage [k] is the [k]-th buffer. *)
Definition heap : Type := list (list R).

(** An array object. *)
Record handle : Type := mkH {
  sid : nat;
  offset : nat;
  hshape : list nat;
  strides : list nat
}.

Definition H (A : Type) : Type := heap -> heap * result A.

Definition ret {A} (a : A) : H A := fun h => (h, Ok a).

Definition bind {A B} (m : H A) (k : A -> H B) : H B :=
  fun h => match m h with
           | (h', Ok a) => k a h'
           | (h', Err e) => (h', Err e)
           end.

Definition lift {A} (r : result A) : H A := fun h => (h, r).

Notation "x <~ m ;; k" := (bind m (fun x => k))
  (at level 61, m at next level, right associativity) : heap_scope.
Notation "' p <~ m ;; k" := (bind m (fun x => match x with p => k end))
  (at level 61, p pattern, m at next level, right associativity) : heap_scope.
Open Scope heap_scope.

Fixpoint mapH {A B} (f : A -> H B) (l : list A) : H (list B) :=
  match l with
  | [] => ret []
  | x :: l' => y <~ f x ;; ys <~ mapH f l' ;; ret (y :: ys)
  end.

Fixpoint foldH {A B} (f : A -> B -> H A) (l : list B) (a : A) : H A :=
  match l with
  | [] => ret a
  | x :: l' => a' <~ f a x ;; foldH f l' a'
  end.

(** The strides of a contiguous array. *)
Fixpoint row_major (sh : list nat) : list nat :=
  match sh with
  | [] => []
  | _ :: sh' => numel sh' :: row_major sh'
  end.

(** Where entry [p] (in row-major order) of the object sits in its storage. *)
Definition position (x : handle) (p : nat) : nat :=
  offset x
  + fold_right Nat.add 0
      (map (fun '(i, s) => i * s) (combine (unflatten (hshape x) p) (strides x))).

(** A new storage holding the array [t]. *)
Definition alloc (t : tensor R) : H handle :=
  fun h => (h ++ [data t], Ok (mkH (length h) 0 (shape t) (row_major (shape t)))).

(** The array an object stands for. *)
Definition deref (x : handle) : H (tensor R) :=
  fun h => match nth_error h (sid x) with
           | Some buf =>
               (h, Ok (mkT (hshape x)
                           (tabulate (numel (hshape x)) (fun p => nth (position x p) buf r0))))
           | None => (h, Err RuntimeError)
           end.

(** [x.data *= a]: in place, through the storage. *)
Definition imul (x : handle) (a : R) : H unit :=
  fun h => match nth_error h (sid x) with
           | Some buf =>
               let ps := map (position x) (seq 0 (numel (hshape x))) in
               let buf' := map (fun '(k, e) => if existsb (Nat.eqb k) ps then rmul e a else e)
                               (combine (seq 0 (length buf)) buf) in
               (firstn (sid x) h ++ buf' :: skipn (S (sid x)) h, Ok tt)
           | None => (h, Err RuntimeError)
           end.

(** Engine functions that return a new array. *)
Definition prim1 (f : tensor R -> result (tensor R)) (x : handle) : H handle :=
  a <~ deref x ;; r <~ lift (f a) ;; alloc r.

Definition prim2 (f : tensor R -> tensor R -> result (tensor R)) (x y : handle) : H handle :=
  a <~ deref x ;; b <~ deref y ;; r <~ lift (f a b) ;; alloc r.

(** [x.clone()] *)
Definition clone_obj (x : handle) : H handle := prim1 Ok x.

(** [x[:, key, :]] on a three-axis object: a view for an integer or a
    slice, a new array for an index array. *)
Definition index_axis1 (x : handle) (k : kentry) : H handle :=
  match hshape x, strides x with
  | [a; b; c], [s0; s1; s2] =>
      match k with
      | KInt z =>
          i <~ lift (norm_index b z) ;;
          ret (mkH (sid x) (offset x + i * s1) [a; c] [s0; s2])
      | KSlice start stop step =>
          ps <~ lift (slice_positions b start stop step) ;;
          let st := match step with Some s => Z.to_nat s | None => 1 end in
          ret (mkH (sid x) (offset x + hd 0 ps * s1) [a; length ps; c] [s0; s1 * st; s2])
      | _ => prim1 (fun t => pure_index_axis1 t k) x
      end
  | _, _ => lift (Err (IndexError "too many indices"))
  end.

(** [x[key, :]] on a matrix. *)
Definition index_rows (x : handle) (k : kentry) : H handle :=
  match hshape x, strides x with
  | [a; b], [s0; s1] =>
      match k with
      | KInt z =>
          i <~ lift (norm_index a z) ;;
          ret (mkH (sid x) (offset x + i * s0) [b] [s1])
      | KSlice start stop step =>
          ps <~ lift (slice_positions a start stop step) ;;
          let st := match step with Some s => Z.to_nat s | None => 1 end in
          ret (mkH (sid x) (offset x + hd 0 ps * s0) [length ps; b] [s0 * st; s1])
      | _ => prim1 (fun t => pure_index_rows t k) x
      end
  | _, _ => lift (Err (IndexError "too many indices"))
  end.

(** A network whose cores, factors and labels are objects of the store. *)
Record hnet : Type := mkHN {
  hcores : list handle;
  hUs : list (option handle);
  hidxs : list handle
}.

(** The array of given shape that the checks of the constructor look at:
    they read shapes only. *)
Definition skeleton (x : handle) : tensor R := mkT (hshape x) [].

Definition hshape_of (cs : list handle) (us : list (option handle)) : result (list nat) :=
  shape_of (map (fun x => PT (skeleton x)) cs) (map (option_map skeleton) us).

Definition hnet_shape (t : hnet) : result (list nat) := hshape_of (hcores t) (hUs t).

(** [Tensor(cores, Us, idxs)]: the checks of [__init__]; default labels are
    new arrays. *)
Definition Tensor_of_cores (cs : list handle) (us : option (list (option handle)))
           (ix : option (list handle)) : H hnet :=
  chk <~ lift (pure_Tensor_of_cores (map (fun x => PT (skeleton x)) cs)
                                    (option_map (map (option_map skeleton)) us)
                                    (Some [])) ;;
  let us' := match us with Some us => us | None => repeat None (length cs) end in
  ix' <~ match ix with
         | Some ix => ret ix
         | None =>
             sh <~ lift (hshape_of cs us') ;;
             mapH (fun n => alloc (mkT [n] (map of_Z (arange n)))) sh
         end ;;
  ret (mkHN cs us' ix').

(** [clone] *)
Definition clone (t : hnet) : H hnet :=
  cs <~ mapH (fun n => c <~ lift (py_index (hcores t) n) ;; clone_obj c)
             (seq 0 (length (hcores t))) ;;
  us <~ mapH (fun n =>
                u <~ lift (py_index (hUs t) n) ;;
                match u with
                | None => ret None
                | Some U => U' <~ clone_obj U ;; ret (Some U')
                end)
             (seq 0 (length (hcores t))) ;;
  Tensor_of_cores cs (Some us) (Some (hidxs t)).

(** [full_tucker] *)
Definition full_tucker (t : hnet) : H hnet :=
  cs <~ mapH (fun n =>
                u <~ lift (py_index (hUs t) n) ;;
                c <~ lift (py_index (hcores t) n) ;;
                match u with
                | Some U => if length (hshape c) =? 2 then prim2 einsum_jk_aj_ak c U
                            else prim2 einsum_ijk_aj_iak c U
                | None => clone_obj c
                end)
             (seq 0 (length (hcores t))) ;;
  Tensor_of_cores cs None (Some (hidxs t)).

(** The right operand of an operator. *)
Inductive operand : Type :=
| OpT (t : hnet)
| OpS (x : R).

Definition scale_first_core (t : hnet) (x : R) : H hnet :=
  c <~ lift (py_index (hcores t) 0) ;;
  _ <~ imul c x ;;
  ret t.

Definition promote (self : hnet) (x : R) : H hnet :=
  sh <~ lift (hnet_shape self) ;;
  cs <~ mapH (fun n => sn <~ lift (py_index sh n) ;; alloc (ones [1; sn; 1]))
             (seq 0 (length (hcores self))) ;;
  other <~ Tensor_of_cores cs None None ;;
  scale_first_core other x.

Definition add_mode (self other : hnet) (sh : list nat) (n : nat)
  : H (handle * option handle) :=
  core1 <~ lift (py_index (hcores self) n) ;;
  core2 <~ lift (py_index (hcores other) n) ;;
  u1 <~ lift (py_index (hUs self) n) ;;
  u2 <~ lift (py_index (hUs other) n) ;;
  match u1, u2 with
  | Some U1, Some U2 =>
      a0 <~ lift (py_index (hshape core1) 0) ;; a1 <~ lift (py_index (hshape core1) 1) ;;
      a2 <~ lift (py_index (hshape core1) 2) ;;
      b0 <~ lift (py_index (hshape core2) 0) ;; b1 <~ lift (py_index (hshape core2) 1) ;;
      b2 <~ lift (py_index (hshape core2) 2) ;;
      z <~ alloc (zeros [b0; a1; a2]) ;;
      slice1 <~ prim2 cat0 core1 z ;;
      z <~ alloc (zeros [a0 + b0; a1; b2]) ;;
      slice1 <~ prim2 cat2 slice1 z ;;
      z <~ alloc (zeros [a0; b1; b2]) ;;
      slice2 <~ prim2 cat0 z core2 ;;
      z <~ alloc (zeros [a0 + b0; b1; a2]) ;;
      slice2 <~ prim2 cat2 z slice2 ;;
      c <~ prim2 cat1 slice1 slice2 ;;
      U <~ prim2 cat_cols U1 U2 ;;
      ret (c, Some U)
  | _, _ =>
      core1 <~ match u1 with
               | Some U1 => prim2 einsum_ijk_aj_iak core1 U1
               | None => ret core1
               end ;;
      core2 <~ match u2 with
               | Some U2 => prim2 einsum_ijk_aj_iak core2 U2
               | None => ret core2
               end ;;
      b0 <~ lift (py_index (hshape core2) 0) ;;
      sn <~ lift (py_index sh n) ;;
      a2 <~ lift (py_index (hshape core1) 2) ;;
      z <~ alloc (zeros [b0; sn; a2]) ;;
      column1 <~ prim2 cat0 core1 z ;;
      a0 <~ lift (py_index (hshape core1) 0) ;;
      b2 <~ lift (py_index (hshape core2) 2) ;;
      z <~ alloc (zeros [a0; sn; b2]) ;;
      column2 <~ prim2 cat0 z core2 ;;
      c <~ prim2 cat2 column1 column2 ;;
      ret (c, None)
  end.

(** [self + other] *)
Definition add (self : hnet) (other : operand) : H hnet :=
  other <~ match other with
           | OpT t => ret t
           | OpS x => promote self x
           end ;;
  sh <~ lift (hnet_shape self) ;;
  sh' <~ lift (hnet_shape other) ;;
  if negb (list_eqb sh sh')
  then lift (Err (ValueError "Element-wise addition requires tensors to have equal shape"))
  else if length (hcores self) =? 1 then
    f1 <~ full_tucker self ;; c1 <~ lift (py_index (hcores f1) 0) ;;
    f2 <~ full_tucker other ;; c2 <~ lift (py_index (hcores f2) 0) ;;
    c <~ prim2 tensor_add c1 c2 ;;
    Tensor_of_cores [c] None None
  else
    cus <~ mapH (add_mode self other sh) (seq 0 (length (hcores self))) ;;
    let cs := map fst cus in
    let us := map snd cus in
    c0 <~ lift (py_index cs 0) ;;
    c0 <~ prim1 sum_dim0_keep c0 ;;
    cs <~ lift (set_first cs c0) ;;
    cl <~ lift (py_last cs) ;;
    cl <~ prim1 sum_dim2_keep cl ;;
    cs <~ lift (set_last cs cl) ;;
    Tensor_of_cores cs (Some us) None.

Definition mul_mode (self other : hnet) (sh : list nat) (n : nat)
  : H (handle * option handle) :=
  u1 <~ lift (py_index (hUs self) n) ;;
  u2 <~ lift (py_index (hUs other) n) ;;
  cheap <~ lift (match u1, u2 with
                 | Some _, Some _ =>
                     c1 <- py_index (hcores self) n ;; s1 <- py_index (hshape c1) 1 ;;
                     c2 <- py_index (hcores other) n ;; s2 <- py_index (hshape c2) 1 ;;
                     sn <- py_index sh n ;;
                     Ok (s1 * s2 <? sn)
                 | _, _ => Ok false
                 end) ;;
  core1 <~ lift (py_index (hcores self) n) ;;
  core2 <~ lift (py_index (hcores other) n) ;;
  match cheap, u1, u2 with
  | true, Some U1, Some U2 =>
      c <~ prim2 einsum_ijk_abc_iajbkc_reshaped core1 core2 ;;
      U <~ prim2 (fun a b => U <- einsum_ij_ik_ijk a b ;;
                             u0 <- py_index (shape a) 0 ;;
                             reshape U [D u0; Infer]) U1 U2 ;;
      ret (c, Some U)
  | _, _, _ =>
      core1 <~ match u1 with
               | Some U1 => prim2 einsum_ijk_aj_iak core1 U1
               | None => ret core1
               end ;;
      core2 <~ match u2 with
               | Some U2 => prim2 einsum_ijk_aj_iak core2 U2
               | None => ret core2
               end ;;
      c <~ prim2 core_kron core1 core2 ;;
      ret (c, None)
  end.

(** [self * other] *)
Definition mul (self : hnet) (other : operand) : H hnet :=
  match other with
  | OpS x =>
      result <~ clone self ;;
      scale_first_core result x
  | OpT other =>
      sh <~ lift (hnet_shape self) ;;
      sh' <~ lift (hnet_shape other) ;;
      if negb (list_eqb sh sh')
      then lift (Err (ValueError "Element-wise multiplication requires tensors to have equal shape"))
      else
        cus <~ mapH (mul_mode self other sh) (seq 0 (length (hcores self))) ;;
        Tensor_of_cores (map fst cus) (Some (map snd cus)) None
  end.

(** [self - other] and [self / other] *)
Definition sub (self : hnet) (other : operand) : H hnet :=
  match other with
  | OpT t => m <~ mul t (OpS minus_one) ;; add self (OpT m)
  | OpS x => add self (OpS (rmul minus_one x))
  end.

Definition truediv (self : hnet) (other : operand) : H hnet :=
  match other with
  | OpS x => mul self (OpS (rdiv r1 x))
  | OpT _ => lift (Err TypeError)
  end.

(** *** Item access *)

Inductive item_result : Type :=
| HScalar (x : handle)
| HNet (t : hnet).

Record gstate : Type := mkG {
  last_mode : option mode;
  f_int : option handle;
  f_index : option handle;
  out_cores : list handle;
  out_Us : list (option handle);
  counter : nat
}.

Definition push (st : gstate) (c : handle) (u : option handle) : gstate :=
  mkG (last_mode st) (f_int st) (f_index st) (out_cores st ++ [c]) (out_Us st ++ [u])
      (counter st).
Definition with_int (st : gstate) (f : option handle) : gstate :=
  mkG (last_mode st) f (f_index st) (out_cores st) (out_Us st) (counter st).
Definition with_index (st : gstate) (f : option handle) : gstate :=
  mkG (last_mode st) (f_int st) f (out_cores st) (out_Us st) (counter st).
Definition advance (st : gstate) : gstate :=
  mkG (last_mode st) (f_int st) (f_index st) (out_cores st) (out_Us st) (counter st + 1).
Definition with_last (st : gstate) (m : mode) : gstate :=
  mkG (Some m) (f_int st) (f_index st) (out_cores st) (out_Us st) (counter st).

Definition insert_core (st : gstate) (arg : option (handle * kentry * option handle))
  : H gstate :=
  st <~ match f_index st with
        | Some idx =>
            match f_int st with
            | Some fi =>
                idx' <~ prim2 einsum_ij_jak_iak fi idx ;;
                ret (with_index (push (with_int st None) idx' None) None)
            | None => ret (with_index (push st idx None) None)
            end
        | None => ret st
        end ;;
  match arg with
  | None => ret st
  | Some (core, k, U) =>
      match f_int st with
      | Some fi =>
          match U with
          | None =>
              sl <~ index_axis1 core k ;;
              c' <~ prim2 einsum_ij_jak_iak fi sl ;;
              ret (with_int (push st c' None) None)
          | Some U =>
              c' <~ prim2 einsum_ij_jak_iak fi core ;;
              u <~ index_rows U k ;;
              ret (with_int (push st c' (Some u)) None)
          end
      | None =>
          match U with
          | None =>
              sl <~ index_axis1 core k ;;
              ret (push st sl None)
          | Some U =>
              u <~ index_rows U k ;;
              ret (push st core (Some u))
          end
      end
  end.

Definition get_key (self : hnet) (counter : nat) (k : kentry) : H handle :=
  u <~ lift (py_index (hUs self) counter) ;;
  match u with
  | None =>
      c <~ lift (py_index (hcores self) counter) ;;
      index_axis1 c k
  | Some U =>
      sl <~ index_rows U k ;;
      c <~ lift (py_index (hcores self) counter) ;;
      if length (hshape sl) =? 1 then prim2 einsum_ijk_j_ik c sl
      else prim2 einsum_ijk_aj_iak c sl
  end.

Definition getitem_step (self : hnet) (st : gstate) (k : kentry) : H gstate :=
  this_mode <~ lift (match k with
                     | KIndex _ => Ok MIndex
                     | KNone => Ok MNone
                     | KInt _ => Ok MInt
                     | KSlice _ _ _ => Ok MSlice
                     | KEllipsis | KOther => Err (IndexError "")
                     end) ;;
  st <~ match this_mode with
        | MNone =>
            c <~ lift (py_index (hcores self) (counter st)) ;;
            r <~ lift (py_index (hshape c) 0) ;;
            e <~ alloc (mkT [r; 1; r] (data (eye r))) ;;
            insert_core st (Some (e, full_slice, None))
        | MSlice =>
            c <~ lift (py_index (hcores self) (counter st)) ;;
            u <~ lift (py_index (hUs self) (counter st)) ;;
            st <~ insert_core st (Some (c, k, u)) ;;
            ret (advance st)
        | MIndex =>
            st <~ match f_index st with
                  | None =>
                      g <~ get_key self (counter st) k ;;
                      ret (with_index st (Some g))
                  | Some fi =>
                      p <~ lift (py_index (hshape fi) 1) ;;
                      let len := match k with KIndex l => length l | _ => 0 end in
                      if negb (p =? len)
                      then lift (Err (ValueError "Index arrays must have the same length"))
                      else
                        a2 <~ get_key self (counter st) k ;;
                        f <~ prim2 fuse_index fi a2 ;;
                        ret (with_index st (Some f))
                  end ;;
            ret (advance st)
        | MInt =>
            st <~ (if match last_mode st with Some MIndex => true | _ => false end
                   then insert_core st None else ret st) ;;
            st <~ match f_int st with
                  | None =>
                      g <~ get_key self (counter st) k ;;
                      ret (with_int st (Some g))
                  | Some fi =>
                      g <~ get_key self (counter st) k ;;
                      f <~ prim2 einsum_ij_jk_ik fi g ;;
                      ret (with_int st (Some f))
                  end ;;
            ret (advance st)
        end ;;
  ret (with_last st this_mode).

(** The pure network of shapes that [_process_key] reads [ndim] from. *)
Definition ndim_net (self : hnet) : network R :=
  mkN (map (fun x => PT (skeleton x)) (hcores self)) [] [].

(** [self[key]] for a key that is not a mask. *)
Definition getitem_entries (self : hnet) (k : list kentry) : H item_result :=
  k <~ lift (process_key (ndim_net self) k) ;;
  st <~ foldH (getitem_step self) k (mkG None None None [] [] 0) ;;
  match last_mode st with
  | Some MIndex =>
      match f_index st with
      | Some idx =>
          t <~ Tensor_of_cores (out_cores st ++ [idx]) (Some (out_Us st ++ [None])) None ;;
          ret (HNet t)
      | None => lift (Err AttributeError)
      end
  | Some MInt =>
      match f_int st with
      | Some fi =>
          if 0 <? length (out_cores st)
          then
            c <~ lift (py_last (out_cores st)) ;;
            c' <~ prim2 einsum_ija_ak_ijk c fi ;;
            cs <~ lift (set_last (out_cores st) c') ;;
            t <~ Tensor_of_cores cs (Some (out_Us st)) None ;;
            ret (HNet t)
          else
            match hshape fi, strides fi with
            | [a; b], [_; _] =>
                if (a =? 0) || (b =? 0)
                then lift (Err (IndexError "index 0 is out of bounds"))
                else ret (HScalar (mkH (sid fi) (offset fi) [] []))
            | _, _ => lift (Err (IndexError "too many indices"))
            end
      | None => lift (Err TypeError)
      end
  | _ =>
      t <~ Tensor_of_cores (out_cores st) (Some (out_Us st)) None ;;
      ret (HNet t)
  end.

(** [idx = x.long(); idx[idx > 1] = 1] on a label array [x].  The labels
    are 64-bit integers already, so [x.long()] is [x] itself and the
    assignment writes through the storage of [x]. *)
Definition icap (x : handle) : H unit :=
  fun h => match nth_error h (sid x) with
           | Some buf =>
               let ps := map (position x) (seq 0 (numel (hshape x))) in
               let buf' := map (fun '(k, e) =>
                                  if existsb (Nat.eqb k) ps
                                  then (if rltb r1 e then r1 else e)
                                  else e)
                               (combine (seq 0 (length buf)) buf) in
               (firstn (sid x) h ++ buf' :: skipn (S (sid x)) h, Ok tt)
           | None => (h, Err RuntimeError)
           end.

(** The loop of the mask branch of [__getitem__] and the item access with
    the selectors it builds, for the string [s] that the mask accepts (the
    mask itself is only read). *)
Definition getitem_mask (self : hnet) (s : list Z) : H item_result :=
  slicing <~ mapH (fun n =>
                     x <~ lift (py_index (hidxs self) n) ;;
                     _ <~ icap x ;;
                     idx <~ deref x ;;
                     sn <~ lift (py_index s n) ;;
                     let pos := where_eq (map rround (data idx)) sn in
                     first <~ lift (py_index pos 0) ;;
                     last <~ lift (py_last pos) ;;
                     if length pos =? 1 then ret (KInt first)
                     else ret (KSlice (Some first) (Some (last + 1)%Z) None))
                  (seq 0 (length (hcores self))) ;;
  getitem_entries self slicing.

(** The storages a network's cores and factors sit in. *)
Definition storages (t : hnet) : list nat :=
  map sid (hcores t)
  ++ flat_map (fun u => match u with Some U => [sid U] | None => [] end) (hUs t).

(** A network whose cores, factors and labels are new arrays holding the
    given contents. *)
Definition load (t : network R) : H hnet :=
  cs <~ mapH (fun o => c <~ lift (core_t o) ;; alloc c) (cores t) ;;
  us <~ mapH (fun u => match u with
                       | Some U => U' <~ alloc U ;; ret (Some U')
                       | None => ret None
                       end) (Us t) ;;
  ix <~ mapH (fun l => alloc (mkT [length l] (map of_Z l))) (idxs t) ;;
  ret (mkHN cs us ix).

(** The contents of a network of the store. *)
Definition contents (t : hnet) : H (network R) :=
  cs <~ mapH (fun c => v <~ deref c ;; ret (PT v)) (hcores t) ;;
  us <~ mapH (fun u => match u with
                       | Some U => v <~ deref U ;; ret (Some v)
                       | None => ret None
                       end) (hUs t) ;;
  ix <~ mapH (fun l => v <~ deref l ;; ret (map rround (data v))) (hidxs t) ;;
  ret (mkN cs us ix).

(** An object is new with respect to a store of [n] storages when its
    storage is not one of them. *)
Definition fresh (n : nat) (x : handle) : Prop := n <= sid x.

Definition fresh_opt (n : nat) (u : option handle) : Prop :=
  match u with
  | Some U => fresh n U
  | None => True
  end.

(** [m], run in any store that has the storages [0 .. n-1], keeps these
    storages as they are, and a value it returns satisfies [Q]. *)
Definition keeps {A} (n : nat) (m : H A) (Q : A -> Prop) : Prop :=
  forall h h' r,
    n <= length h -> m h = (h', r) ->
    (length h <= length h' /\ firstn n h' = firstn n h) /\
    (forall a, r = Ok a -> Q a).

(** A network all of whose cores and factors are new. *)
Definition new_net (n : nat) (u : hnet) : Prop :=
  Forall (fresh n) (hcores u) /\ Forall (fresh_opt n) (hUs u).

Definition new_pair (n : nat) (cu : handle * option handle) : Prop :=
  fresh n (fst cu) /\ fresh_opt n (snd cu).

(** Running [m] in the store [h] leaves every storage of [h] as it is, and
    the network it returns has its cores and factors outside [h]. *)
Definition framed (h : heap) (m : H hnet) : Prop :=
  firstn (length h) (fst (m h)) = h /\
  match snd (m h) with
  | Ok u => Forall (fun a => length h <= a) (storages u)
  | Err _ => True
  end.

(** Running [m] in the store [h] leaves every storage of [h] as it is. *)
Definition unchanged {A} (h : heap) (m : H A) : Prop :=
  firstn (length h) (fst (m h)) = h.

End Model.

Notation "x <~ m ;; k" := (bind m (fun x => k))
  (at level 61, m at next level, right associativity) : heap_scope.

End Heap.

(** The store after [Tensor([[1, 2], [3, 4]])], and that network in it. *)
Definition example_store : Heap.heap (R := Z) := fst (Heap.load (tt_example 4) []).

Definition example_operand : Heap.hnet :=
  match snd (Heap.load (tt_example 4) []) with
  | Ok t => t
  | Err _ => Heap.mkHN [] [] []
  end.

(** ** Statements about item access, operators and metrics

    Definitions used to state what the functions above compute. *)

(** The positions a tuple of integer indices selects, one per mode. *)
Definition norm_indices (ms : list nat) (zs : list Z) : result (list nat) :=
  mapM (fun '(m, z) => norm_index m z) (combine ms zs).

(** The matrix kept in [factors['int']] after the modes before a position
    have been consumed by integers: absent before the first mode, and then
    the row of the entries of the cores so far at the position [X]. *)
Definition int_state {R : Type} {SR : Scalar R} (pre : list (tensor R))
           (fo : option (tensor R)) (r X : nat) : Prop :=
  match fo with
  | None => pre = [] /\ r = 1
  | Some F => pre <> [] /\ shape F = [1; r] /\
              forall z, z < r -> get2 F 0 z = chain_sem pre (fun _ _ => r1) X z
  end.

(** The same in float arithmetic: the row holds the entries up to the sign
    of zero. *)
Definition int_state_feq {R : Type} {SR : Scalar R} (pre : list (tensor R))
           (fo : option (tensor R)) (r X : nat) : Prop :=
  match fo with
  | None => pre = [] /\ r = 1
  | Some F => pre <> [] /\ shape F = [1; r] /\
              forall z, z < r -> feq (get2 F 0 z) (chain_sem pre (fun _ _ => r1) X z)
  end.

(** *** The logical operators of [class Tensor] *)

Section Logic.
Context {R : Type} {SR : Scalar R} {E : Engine R}.

(** [__rsub__]: [other - self] is [-1*self + other]. *)
Definition reflected_sub (self : network R) (other : R) : result (network R) :=
  m <- mul self (OpS minus_one) ;; add m (OpS other).

(** [~self] is [1 - self], which Python hands to [__rsub__]. *)
Definition invert (self : network R) : result (network R) :=
  reflected_sub self (of_Z 1).

(** [self & other] is [self*other]. *)
Definition and_ (self other : network R) : result (network R) :=
  mul self (OpT other).

(** [self | other] is [self+other - self*other]. *)
Definition or_ (self other : network R) : result (network R) :=
  s <- add self (OpT other) ;;
  p <- mul self (OpT other) ;;
  sub s (OpT p).

(** [self ^ other] is [self+other - 2*self*other]; [2*self] is [self*2]. *)
Definition xor (self other : network R) : result (network R) :=
  s <- add self (OpT other) ;;
  d <- mul self (OpS (of_Z 2)) ;;
  p <- mul d (OpT other) ;;
  sub s (OpT p).

End Logic.

(** *** The array of a chain, read from the left rank

    [chain_row cs a x z] is entry [x], in row-major order over the modes of
    [cs], of the array the cores [cs] stand for when the chain is entered at
    index [a] of its first rank and left at index [z] of its last rank. *)

Section Rows.
Context {R : Type} {SR : Scalar R}.

Fixpoint modes_numel (cs : list (tensor R)) : nat :=
  match cs with
  | [] => 1
  | c :: cs' => nth 1 (shape c) 0 * modes_numel cs'
  end.

Fixpoint chain_row (cs : list (tensor R)) (a x z : nat) : R :=
  match cs with
  | [] => if a =? z then r1 else r0
  | c :: cs' =>
      let n' := modes_numel cs' in
      sum_n (nth 2 (shape c) 0)
            (fun j => rmul (get3 c a (x / n') j) (chain_row cs' j (x mod n') z))
  end.

End Rows.

(** ** Distances ([tntorch/metrics.py], [Tensor.size]) *)

Section Distances.
Context {R : Type} {SR : Scalar R}.

(** [distance(t1, t2)] on two networks: the clamp is applied to the inner
    product of the two operands, before the factor 2 and the subtraction. *)
Definition distance (t1 t2 : network R) : result (tensor R) :=
  _ <- process_nets t1 t2 ;;
  d11 <- dot t1 t1 ;;
  d22 <- dot t2 t2 ;;
  s <- tensor_add d11 d22 ;;
  d12 <- dot t1 t2 ;;
  d <- tensor_sub s (scale (tmap clamp0 d12) (of_Z 2)) ;;
  Ok (tmap rsqrt d).

(** The [size] property: the product of the shape, as an array without axes. *)
Definition size (t : network R) : result (tensor R) :=
  sh <- net_shape t ;;
  Ok (mkT [] [of_Z (Z.of_nat (numel sh))]).

(** [rmse(gt, approx)] on two networks. *)
Definition rmse (gt approx : network R) : result (tensor R) :=
  _ <- process_nets gt approx ;;
  d <- distance gt approx ;;
  s <- size gt ;;
  tensor_div d (tmap rsqrt s).

End Distances.

(** ** The counting network ([tntorch/automata.py]) *)

Section Weight.
Context {R : Type} {SR : Scalar R}.

(** [t[start:stop, :, :]] and [t[:, :, start:stop]] on a three-axis array. *)
Definition slice_axis0 (t : tensor R) (start stop : Z) : result (tensor R) :=
  '(a, b, c) <- as3_index t ;;
  ps <- slice_positions a (Some start) (Some stop) None ;;
  Ok (mk3 (length ps) b c (fun x y z => get3 t (nth x ps 0) y z)).

Definition slice_axis2 (t : tensor R) (start stop : Z) : result (tensor R) :=
  '(a, b, c) <- as3_index t ;;
  ps <- slice_positions c (Some start) (Some stop) None ;;
  Ok (mk3 a b (length ps) (fun x y z => get3 t x y (nth z ps 0))).

(** One pass of the loop of [weight]:
    [torch.eye(2)[:, None, :].repeat(1, nsymbols, 1)], an identity on the
    rank axes for every symbol, and then [core[1, :, 0] = torch.arange(nsymbols)]. *)
Definition weight_core (nsymbols : nat) : tensor R :=
  let core := mk3 2 nsymbols 2 (fun i _ k => get2 (eye 2) i k) in
  mk3 2 nsymbols 2
      (fun i s k => if (i =? 1) && (k =? 0) then of_Z (Z.of_nat s) else get3 core i s k).

(** [weight(N, nsymbols)] *)
Definition weight (N nsymbols : nat) : result (network R) :=
  let cores := map (fun _ => weight_core nsymbols) (seq 0 N) in
  c0 <- py_index cores 0 ;;
  c0 <- slice_axis0 c0 1 2 ;;
  cores <- set_first cores c0 ;;
  cl <- py_last cores ;;
  cl <- slice_axis2 cl 0 1 ;;
  cores <- set_last cores cl ;;
  Tensor_of_cores (map PT cores) None None.

(** The cores [weight] ends with: the first one cut to its row 1, the last
    one to its column 0, or for one mode a single core cut both ways. *)
Definition first_core (n : nat) : tensor R :=
  mk3 1 n 2 (fun x y z => get3 (weight_core n) (nth x [1] 0) y z).
Definition last_core (n : nat) : tensor R :=
  mk3 2 n 1 (fun x y z => get3 (weight_core n) x y (nth z [0] 0)).
Definition only_core (n : nat) : tensor R :=
  mk3 1 n 1 (fun x y z => get3 (first_core n) x y (nth z [0] 0)).
Definition wtail (k n : nat) : list (tensor R) := repeat (weight_core n) k ++ [last_core n].
Definition weight_cores (N n : nat) : list (tensor R) :=
  match N with
  | 0 => []
  | 1 => [only_core n]
  | S (S k) => first_core n :: wtail k n
  end.

(** The number of ones a string has, and for more symbols the sum of its
    symbols: what [weight] is to count. *)
Definition digit_sum (ds : list nat) : R :=
  fold_right (fun d acc => radd (of_Z (Z.of_nat d)) acc) r0 ds.

End Weight.

(** ** The ranks of the naive TT format

    The rank between the first [n] modes and the others that the dense
    constructor ends with: the smaller of the two products of mode sizes. *)
Definition dense_rank (sh : list nat) (n : nat) : nat :=
  Nat.min (numel (firstn n sh)) (numel (skipn n sh)).

(** * Proofs *)

(** ** Lists, loops and index arithmetic *)

Lemma tabulate_length {A} n (f : nat -> A) : length (tabulate n f) = n.
Proof. unfold tabulate. now rewrite length_map, length_seq. Qed.

Lemma tabulate_nth {A} n (f : nat -> A) p d : p < n -> nth p (tabulate n f) d = f p.
Proof.
  intros Hp. unfold tabulate.
  rewrite (nth_indep _ d (f 0)) by now rewrite length_map, length_seq.
  rewrite map_nth, seq_nth; auto.
Qed.

Lemma tabulate_ext {A} n (f g : nat -> A) :
  (forall p, p < n -> f p = g p) -> tabulate n f = tabulate n g.
Proof.
  intros H. unfold tabulate. apply map_ext_in.
  intros p Hp. apply in_seq in Hp. apply H. lia.
Qed.

(** A tabulated list that reads off the entries of [l] is [l]. *)
Lemma tabulate_is_list {A} (l : list A) n (f : nat -> A) d :
  length l = n -> (forall p, p < n -> f p = nth p l d) -> tabulate n f = l.
Proof.
  intros Hl H. apply nth_ext with (d := d) (d' := d).
  - now rewrite tabulate_length.
  - intros p Hp. rewrite tabulate_length in Hp. rewrite tabulate_nth by assumption. auto.
Qed.

Lemma foldM_app {A B} (f : A -> B -> result A) l1 l2 a :
  foldM f (l1 ++ l2) a = (a' <- foldM f l1 a ;; foldM f l2 a').
Proof.
  revert a. induction l1 as [|x l1 IH]; intros a; cbn; [reflexivity|].
  destruct (f a x); cbn; auto.
Qed.

Lemma foldM_unit_ok {B} (f : unit -> B -> result unit) l :
  (forall x, In x l -> f tt x = Ok tt) -> foldM f l tt = Ok tt.
Proof.
  induction l as [|x l IH]; intros H; cbn; [reflexivity|].
  rewrite H by now left. cbn. apply IH. intros y Hy. apply H. now right.
Qed.

Lemma mapM_app {A B} (f : A -> result B) l1 l2 :
  mapM f (l1 ++ l2) = (ys1 <- mapM f l1 ;; ys2 <- mapM f l2 ;; Ok (ys1 ++ ys2)).
Proof.
  induction l1 as [|x l1 IH]; cbn.
  - destruct (mapM f l2); reflexivity.
  - destruct (f x); cbn; [|reflexivity]. rewrite IH.
    destruct (mapM f l1); cbn; [|reflexivity].
    destruct (mapM f l2); reflexivity.
Qed.

(** A loop [for n in range(len(l))] that maps position [n] to [h l[n]]. *)
Lemma mapM_seq_nth {A B} (l : list A) (g : nat -> result B) (h : A -> B) :
  (forall n x, nth_error l n = Some x -> g n = Ok (h x)) ->
  mapM g (seq 0 (length l)) = Ok (map h l).
Proof.
  induction l as [|x l IH] using rev_ind; intros H; [reflexivity|].
  rewrite length_app, Nat.add_comm. cbn [length Nat.add].
  rewrite seq_S, mapM_app, IH.
  - cbn. rewrite (H (length l) x).
    + cbn. now rewrite map_app.
    + rewrite nth_error_app2 by lia. now rewrite Nat.sub_diag.
  - intros n y Hn. apply H. rewrite nth_error_app1; auto.
    apply nth_error_Some. congruence.
Qed.

Lemma mapM_map_ok {A B} (l : list A) (g : A -> result B) (h : A -> B) :
  (forall x, In x l -> g x = Ok (h x)) -> mapM g l = Ok (map h l).
Proof.
  induction l as [|x l IH]; intros H; cbn; [reflexivity|].
  rewrite H by now left. cbn. rewrite IH; auto. intros y Hy. apply H. now right.
Qed.

Lemma py_index_nth_error {A} (l : list A) n x : nth_error l n = Some x -> py_index l n = Ok x.
Proof. unfold py_index. now intros ->. Qed.

(** Row-major positions of a three-axis array. *)
Lemma flat3_split b j p : 
  0 < b -> 0 < j -> (p / (b * j) * b + (p / j) mod b) * j + p mod j = p.
Proof.
  intros Hb Hj.
  rewrite (Nat.mul_comm b j), <- Nat.Div0.div_div.
  pose proof (Nat.div_mod (p / j) b ltac:(lia)).
  pose proof (Nat.div_mod p j ltac:(lia)).
  nia.
Qed.

Lemma flat3_low b j p : 
  0 < b -> 0 < j -> (p / j) mod b * j + p mod j = p mod (b * j).
Proof.
  intros Hb Hj. rewrite (Nat.mul_comm b j), Nat.Div0.mod_mul_r. lia.
Qed.

Lemma flat2_div n i j : j < n -> (i * n + j) / n = i.
Proof. intros H. rewrite Nat.div_add_l by lia. rewrite Nat.div_small; lia. Qed.

Lemma flat2_mod n i j : j < n -> (i * n + j) mod n = j.
Proof.
  intros H. rewrite Nat.add_comm, Nat.Div0.mod_add. now apply Nat.mod_small.
Qed.

Lemma flat2_lt a n i j : i < a -> j < n -> i * n + j < a * n.
Proof. nia. Qed.

Lemma div_lt_prod a q p : 0 < q -> p < a * q -> p / q < a.
Proof. intros Hq Hp. apply Nat.Div0.div_lt_upper_bound. lia. Qed.

(** ** Sums under the unit laws *)

Section UnitSums.
Context {R : Type} {SR : Scalar R} {UL : UnitLaws R}.

Lemma fold_add_zero (f : nat -> R) l acc :
  (forall k, In k l -> f k = r0) ->
  fold_left (fun a k => radd a (f k)) l acc = acc.
Proof.
  revert acc. induction l as [|k l IH]; intros acc H; cbn; [reflexivity|].
  rewrite (H k) by now left. rewrite radd_0_r. apply IH.
  intros k' Hk'. apply H. now right.
Qed.

Lemma sum_n_zero n (f : nat -> R) : (forall k, k < n -> f k = r0) -> sum_n n f = r0.
Proof.
  intros H. unfold sum_n. apply fold_add_zero.
  intros k Hk. apply in_seq in Hk. apply H. lia.
Qed.

(** A sum with one non-zero term is that term. *)
Lemma sum_n_single n (f : nat -> R) k0 :
  k0 < n -> (forall k, k < n -> k <> k0 -> f k = r0) -> sum_n n f = f k0.
Proof.
  intros Hk0 H. unfold sum_n.
  replace n with (k0 + S (n - k0 - 1)) in * by lia.
  rewrite seq_app, fold_left_app.
  rewrite (fold_add_zero f (seq 0 k0)).
  - cbn [seq fold_left Nat.add]. rewrite radd_0_l. apply fold_add_zero.
    intros k Hk. apply in_seq in Hk. apply H; lia.
  - intros k Hk. apply in_seq in Hk. apply H; lia.
Qed.

Lemma sum_n_ext n (f g : nat -> R) : (forall k, k < n -> f k = g k) -> sum_n n f = sum_n n g.
Proof.
  intros H. unfold sum_n.
  assert (G : forall l acc, (forall k, In k l -> f k = g k) ->
            fold_left (fun a k => radd a (f k)) l acc = fold_left (fun a k => radd a (g k)) l acc).
  { induction l as [|k l IH]; intros acc Hl; cbn; [reflexivity|].
    rewrite (Hl k) by now left. apply IH. intros k' Hk'. apply Hl. now right. }
  apply G. intros k Hk. apply in_seq in Hk. apply H. lia.
Qed.

Lemma eye_data_nth n i j :
  i < n -> j < n -> nth (i * n + j) (data (eye n)) r0 = if i =? j then r1 else r0.
Proof.
  intros Hi Hj. unfold eye, mk2. cbn [data].
  rewrite tabulate_nth by (apply flat2_lt; assumption).
  now rewrite flat2_div, flat2_mod.
Qed.

Lemma eye_data_length n : length (data (R := R) (eye n)) = n * n.
Proof. unfold eye, mk2. cbn [data]. apply tabulate_length. Qed.

(** Contracting the identity into a core from the left returns the core. *)
Lemma einsum_eye_l m b j (M : list R) :
  0 < b -> 0 < j -> length M = m * b * j ->
  einsum_ai_ibj_abj (mkT [m; m] (data (eye m))) (mkT [m; b; j] M) = Ok (mkT [m; b; j] M).
Proof.
  intros Hb Hj HM. unfold einsum_ai_ibj_abj. cbn [as2 as3 shape bind].
  rewrite Nat.eqb_refl. unfold mk3. do 2 f_equal.
  apply tabulate_is_list with (d := r0); [assumption|].
  intros p Hp.
  assert (Hx : p / (b * j) < m) by (apply div_lt_prod; lia).
  assert (Hy : (p / j) mod b < b) by (apply Nat.mod_upper_bound; lia).
  assert (Hz : p mod j < j) by (apply Nat.mod_upper_bound; lia).
  rewrite (sum_n_single m _ (p / (b * j)) Hx).
  - unfold get2, get3, get. cbn [shape data nth].
    rewrite eye_data_nth, Nat.eqb_refl, rmul_1_l by assumption.
    now rewrite flat3_split.
  - intros k Hk Hne. unfold get2, get. cbn [shape data nth].
    rewrite eye_data_nth by assumption.
    destruct (Nat.eqb_spec (p / (b * j)) k); [congruence|]. apply rmul_0_l.
Qed.

(** Contracting a core that is the identity, unfolded, from the right
    returns the left operand. *)
Lemma einsum_eye_r a b j (F : list R) :
  0 < b -> 0 < j -> length F = a * (b * j) ->
  einsum_ai_ibj_abj (mkT [a; b * j] F) (mkT [b * j; b; j] (data (eye (b * j))))
  = Ok (mkT [a; b; j] F).
Proof.
  intros Hb Hj HF. unfold einsum_ai_ibj_abj. cbn [as2 as3 shape bind].
  rewrite Nat.eqb_refl. unfold mk3. do 2 f_equal.
  apply tabulate_is_list with (d := r0); [lia|].
  intros p Hp.
  assert (Hx : p / (b * j) < a) by (apply div_lt_prod; lia).
  assert (Hy : (p / j) mod b < b) by (apply Nat.mod_upper_bound; lia).
  assert (Hz : p mod j < j) by (apply Nat.mod_upper_bound; lia).
  assert (Hq : p mod (b * j) < b * j) by (apply Nat.mod_upper_bound; lia).
  assert (E : forall k, (k * b + (p / j) mod b) * j + p mod j = k * (b * j) + p mod (b * j)).
  { intros k. rewrite <- flat3_low by assumption. lia. }
  rewrite (sum_n_single (b * j) _ (p mod (b * j)) Hq).
  - unfold get2, get3, get. cbn [shape data nth].
    rewrite E, eye_data_nth, Nat.eqb_refl, rmul_1_r by assumption.
    f_equal. pose proof (Nat.div_mod p (b * j) ltac:(lia)). lia.
  - intros k Hk Hne. unfold get3, get. cbn [shape data nth].
    rewrite E, eye_data_nth by assumption.
    destruct (Nat.eqb_spec k (p mod (b * j))); [congruence|]. apply rmul_0_r.
Qed.

End UnitSums.

(** ** Chains of TT cores pass the constructor's checks *)

Section Chains.
Context {R : Type} {SR : Scalar R}.

Lemma chain_length r (cs : list (tensor R)) ms r' : chain r cs ms r' -> length cs = length ms.
Proof.
  revert r ms. induction cs as [|c cs IH]; intros r [|b ms] H; cbn in *; try tauto.
  destruct H as (j & _ & H). f_equal. eauto.
Qed.

Lemma chain_app r (cs : list (tensor R)) ms j c b r' :
  chain r cs ms j -> shape c = [j; b; r'] -> chain r (cs ++ [c]) (ms ++ [b]) r'.
Proof.
  revert r ms. induction cs as [|c0 cs IH]; intros r [|b0 ms] H Hc; cbn in *; try tauto.
  - subst. eauto.
  - destruct H as (j0 & Hs & H). eauto.
Qed.

Lemma chain_nth r (cs : list (tensor R)) ms r' n c :
  chain r cs ms r' -> nth_error cs n = Some c ->
  exists a b j, shape c = [a; b; j] /\ nth_error ms n = Some b /\
    (forall c', nth_error cs (S n) = Some c' -> exists b' j', shape c' = [j; b'; j']).
Proof.
  revert r ms n. induction cs as [|c0 cs IH]; intros r [|b0 ms] n H Hn; cbn in *; try tauto.
  - destruct n; discriminate.
  - destruct H as (j0 & Hs & H). destruct n as [|n]; cbn in *.
    + injection Hn as <-. exists r, b0, j0. repeat split; auto.
      intros c' Hc'. destruct cs as [|c1 cs]; [discriminate|]. injection Hc' as <-.
      destruct ms as [|b1 ms]; cbn in H; [tauto|]. destruct H as (j1 & Hs1 & _). eauto.
    + eapply IH; eauto.
Qed.

Lemma nth_error_map_PT (cs : list (tensor R)) n o :
  nth_error (map (@PT R) cs) n = Some o -> exists c, o = PT c /\ nth_error cs n = Some c.
Proof.
  rewrite nth_error_map. destruct (nth_error cs n); cbn; [|discriminate].
  intros [= <-]. eauto.
Qed.

Lemma nth_error_repeat_None {A} n k : k < n -> nth_error (repeat (@None A) n) k = Some None.
Proof.
  revert k. induction n; intros k Hk; [lia|]. destruct k; cbn; auto. apply IHn. lia.
Qed.

Lemma shape_of_chain r (cs : list (tensor R)) ms r' :
  chain r cs ms r' -> shape_of (map PT cs) (repeat None (length cs)) = Ok ms.
Proof.
  intros H. unfold shape_of.
  assert (E : ms = map (fun o => match o with PT c => nth 1 (shape c) 0 | PCores => 0 end)
                       (map (@PT R) cs)).
  { clear - H. revert r ms H. induction cs as [|c cs IH]; intros r [|b ms] H; cbn in *; try tauto.
    destruct H as (j & Hs & H). rewrite Hs. cbn. f_equal. eauto. }
  rewrite E at 1.
  apply mapM_seq_nth. intros n o Hn.
  destruct (nth_error_map_PT _ _ _ Hn) as (c & -> & Hc).
  assert (Hlt : n < length cs) by (apply nth_error_Some; congruence).
  rewrite (py_index_nth_error _ _ _ (nth_error_repeat_None _ _ Hlt)).
  cbn. rewrite (py_index_nth_error _ _ _ Hn). cbn.
  destruct (chain_nth _ _ _ _ _ _ H Hc) as (a & b & j & Hs & _). now rewrite Hs.
Qed.

(** The checks of [Tensor(cores, idxs=...)] pass on a chain. *)
Lemma Tensor_of_cores_chain r (cs : list (tensor R)) ms r' ix :
  chain r cs ms r' ->
  Tensor_of_cores (map PT cs) None (Some ix) = Ok (mkN (map PT cs) (repeat None (length cs)) ix).
Proof.
  intros H. unfold Tensor_of_cores.
  rewrite mapM_map_ok with (h := fun _ => 3).
  2:{ intros o Ho. apply in_map_iff in Ho. destruct Ho as (c & <- & Hc).
      apply In_nth_error in Hc. destruct Hc as (n & Hn).
      destruct (chain_nth _ _ _ _ _ _ H Hn) as (a & b & j & Hs & _).
      cbn. unfold dim. now rewrite Hs. }
  cbn [bind]. 
  replace (forallb _ _) with true.
  2:{ symmetry. apply forallb_forall. intros d Hd. apply in_map_iff in Hd.
      now destruct Hd as (? & <- & _). }
  cbn [bind]. rewrite foldM_unit_ok.
  - cbn [bind]. unfold init_tail. cbn [bind]. now rewrite length_map.
  - intros n Hn. apply in_seq in Hn. rewrite length_map in Hn.
    destruct (nth_error cs n) as [c|] eqn:Hc.
    2:{ apply nth_error_None in Hc. lia. }
    destruct (nth_error cs (S n)) as [c'|] eqn:Hc'.
    2:{ apply nth_error_None in Hc'. lia. }
    destruct (chain_nth _ _ _ _ _ _ H Hc) as (a & b & j & Hs & _ & Hnext).
    destruct (Hnext _ Hc') as (b' & j' & Hs').
    rewrite (py_index_nth_error (map PT cs) n (PT c)) by (now rewrite nth_error_map, Hc).
    cbn [bind core_t]. rewrite Nat.add_1_r.
    rewrite (py_index_nth_error (map PT cs) (S n) (PT c')) by (now rewrite nth_error_map, Hc').
    cbn [bind core_t]. unfold dim. rewrite Hs, Hs'. cbn. now rewrite Nat.eqb_refl.
Qed.

Lemma full_tucker_chain r (cs : list (tensor R)) ms r' ix :
  chain r cs ms r' ->
  full_tucker (mkN (map PT cs) (repeat None (length cs)) ix)
  = Ok (mkN (map PT cs) (repeat None (length cs)) ix).
Proof.
  intros H. unfold full_tucker, ndim. cbn [cores Us idxs].
  rewrite mapM_seq_nth with (h := fun o => match o with PT c => c | PCores => zeros [] end).
  - cbn [bind]. rewrite (map_map (@PT R)). cbn. rewrite map_id.
    eapply Tensor_of_cores_chain; eauto.
  - intros n o Hn. destruct (nth_error_map_PT _ _ _ Hn) as (c & -> & Hc).
    assert (Hlt : n < length cs) by (apply nth_error_Some; congruence).
    rewrite (py_index_nth_error _ _ _ (nth_error_repeat_None _ _ Hlt)).
    cbn. now rewrite (py_index_nth_error _ _ _ Hn).
Qed.

End Chains.

(** ** Reshaping *)

Section Reshape.
Context {R : Type} {SR : Scalar R}.

Lemma numel_app l1 l2 : numel (l1 ++ l2) = numel l1 * numel l2.
Proof.
  unfold numel. induction l1 as [|x l1 IH]; cbn [app fold_right]; [lia|].
  rewrite IH. lia.
Qed.

Lemma numel_snoc l s : numel (l ++ [s]) = numel l * s.
Proof. rewrite numel_app. unfold numel at 2. cbn [fold_right]. lia. Qed.

Lemma numel_pos l : Forall (fun x => 0 < x) l -> 0 < numel l.
Proof. unfold numel. induction 1; cbn [fold_right]; nia. Qed.

Lemma known_map_D l : known (map D l) = numel l.
Proof.
  unfold known, numel. induction l as [|x l IH]; cbn [map fold_right]; [reflexivity|].
  now rewrite IH.
Qed.

Lemma n_infer_map_D l : n_infer (map D l) = 0.
Proof. induction l as [|x l IH]; cbn; auto. Qed.

Lemma reshape_all sh (d : list R) sh' :
  numel sh = numel sh' -> reshape (mkT sh d) (map D sh') = Ok (mkT sh' d).
Proof.
  intros H. unfold reshape. rewrite n_infer_map_D, known_map_D. cbn [shape data].
  rewrite H, Nat.eqb_refl, map_map. cbn. now rewrite map_id.
Qed.

Lemma reshape3 sh (d : list R) a b c :
  numel sh = a * b * c -> reshape (mkT sh d) [D a; D b; D c] = Ok (mkT [a; b; c] d).
Proof.
  intros H. apply (reshape_all sh d [a; b; c]). unfold numel at 2. cbn [fold_right]. lia.
Qed.

Lemma reshape2 sh (d : list R) a b :
  numel sh = a * b -> reshape (mkT sh d) [D a; D b] = Ok (mkT [a; b] d).
Proof.
  intros H. apply (reshape_all sh d [a; b]). unfold numel at 2. cbn [fold_right]. lia.
Qed.

Lemma reshape_infer_l sh (d : list R) a r :
  0 < r -> numel sh = a * r -> reshape (mkT sh d) [Infer; D r] = Ok (mkT [a; r] d).
Proof.
  intros Hr H. unfold reshape. cbn [n_infer filter length known fold_right shape data map].
  rewrite Nat.mul_1_r, H.
  replace (0 <? r) with true by (symmetry; now apply Nat.ltb_lt).
  rewrite Nat.Div0.mod_mul, Nat.div_mul by lia. reflexivity.
Qed.

Lemma reshape_infer_r sh (d : list R) a b :
  0 < a -> numel sh = a * b -> reshape (mkT sh d) [D a; Infer] = Ok (mkT [a; b] d).
Proof.
  intros Ha H. unfold reshape. cbn [n_infer filter length known fold_right shape data map].
  rewrite Nat.mul_1_r, H, (Nat.mul_comm a b).
  replace (0 <? a) with true by (symmetry; now apply Nat.ltb_lt).
  rewrite Nat.Div0.mod_mul, Nat.div_mul by lia. reflexivity.
Qed.

Lemma floordiv_mul_r a b : 0 < b -> floordiv (a * b) b = Ok a.
Proof.
  intros H. unfold floordiv. destruct (Nat.eqb_spec b 0); [lia|].
  now rewrite Nat.div_mul by lia.
Qed.

Lemma floordiv_mul_l a b : 0 < b -> floordiv (b * a) b = Ok a.
Proof. intros H. rewrite Nat.mul_comm. now apply floordiv_mul_r. Qed.

Lemma nth_error_middle {A} (l1 : list A) x l2 : nth_error (l1 ++ x :: l2) (length l1) = Some x.
Proof. rewrite nth_error_app2 by lia. now rewrite Nat.sub_diag. Qed.

Lemma numel2 a b : numel [a; b] = a * b.
Proof. unfold numel. cbn [fold_right]. lia. Qed.

Lemma numel3 a b c : numel [a; b; c] = a * b * c.
Proof. unfold numel. cbn [fold_right]. lia. Qed.

Lemma numel_cons a l : numel (a :: l) = a * numel l.
Proof. reflexivity. Qed.

Lemma good_eye3 a b c n : 0 < a -> 0 < b -> 0 < c -> a * b * c = n * n ->
  good_core (mkT [a; b; c] (data (R := R) (eye n))).
Proof.
  intros Ha Hb Hn E. split.
  - unfold wf_tensor. cbn [data shape]. rewrite eye_data_length, numel3. nia.
  - cbn [shape]. repeat constructor; assumption.
Qed.

Lemma good_data3 a b c (l : list R) : 0 < a -> 0 < b -> 0 < c -> length l = a * b * c ->
  good_core (mkT [a; b; c] l).
Proof.
  intros Ha Hb Hc E. split.
  - unfold wf_tensor. cbn [data shape]. now rewrite numel3.
  - cbn [shape]. repeat constructor; assumption.
Qed.

(** One materialisation step on a three-axis core whose contraction is known. *)
Lemma full_step_3 (pre : list nat) (F c : tensor R) a b j (l : list R) :
  shape c = [a; b; j] -> 0 < j ->
  einsum_ai_ibj_abj F c = Ok (mkT [numel pre; b; j] l) ->
  full_step (pre, F) (PT c) = Ok (pre ++ [b], mkT [numel pre * b; j] l).
Proof.
  intros Hs Hj He. unfold full_step. cbn [core_t bind]. unfold dim. rewrite Hs.
  cbn [py_last2 py_last rev app length Nat.eqb bind].
  rewrite He. cbn [bind]. rewrite (reshape_infer_l _ _ (numel pre * b)); [reflexivity|lia|].
  rewrite numel3. lia.
Qed.

End Reshape.

(** ** The dense constructor and [full] *)

Section RoundTrip.
Context {R : Type} {SR : Scalar R} {UL : UnitLaws R}.
Variable sh : list nat.
Variable d : list R.
Hypothesis Hpos : Forall (fun s => 0 < s) sh.
Hypothesis Hlen : length d = numel sh.

Lemma dense_step_inv pre s s' post cs D :
  dense_inv sh d pre s (s' :: post) cs D ->
  exists cs' D',
    dense_step sh (cs, D) (length pre + 1) = Ok (cs', D') /\
    dense_inv sh d (pre ++ [s]) s' post cs' D'.
Proof.
  intros (Hsh & F & r & Hfold & Hchain & Hgood & Hst).
  assert (Hall : Forall (fun x => 0 < x) pre /\ 0 < s /\ 0 < s' /\ Forall (fun x => 0 < x) post).
  { rewrite Hsh in Hpos. apply Forall_app in Hpos. destruct Hpos as (H1 & H2).
    inversion H2 as [|? ? H3 H4]; subst. inversion H4; subst. auto. }
  destruct Hall as (Hpre & Hs & Hs' & Hpost).
  pose proof (numel_pos _ Hpre) as Hp. pose proof (numel_pos _ Hpost) as Hq.
  assert (Hd : length d = numel pre * s * (s' * numel post)).
  { rewrite Hlen, Hsh, numel_app, !numel_cons. lia. }
  assert (Hsn1 : py_index sh (length pre + 1 - 1) = Ok s).
  { rewrite Nat.add_sub. apply py_index_nth_error. rewrite Hsh. apply nth_error_middle. }
  assert (Hsn : py_index sh (length pre + 1) = Ok s').
  { apply py_index_nth_error. rewrite Hsh.
    replace (pre ++ s :: s' :: post) with ((pre ++ [s]) ++ s' :: post) by now rewrite <- app_assoc.
    replace (length pre + 1) with (length (pre ++ [s])) by (rewrite length_app; reflexivity).
    apply nth_error_middle. }
  assert (Hsh' : sh = (pre ++ [s]) ++ s' :: post) by now rewrite <- app_assoc.
  cbn zeta in Hst. rewrite numel_cons in Hst.
  set (p := numel pre) in *. set (q := numel post) in *.
  destruct Hst as [(HF & Hr & HD) | (HF & Hr & HD)]; subst F r D.
  - (* the entries are still in the remaining matrix *)
    unfold dense_step. cbn [shape py_index nth_error bind]. rewrite Hsn1. cbn [bind].
    destruct (p * s <? s' * q) eqn:Hlt.
    + rewrite floordiv_mul_r by assumption. cbn [bind].
      unfold eye at 1, mk2 at 1.
      rewrite (reshape3 _ _ p s (p * s)) by (rewrite numel2; lia).
      cbn [bind]. rewrite Hsn. cbn [bind]. rewrite floordiv_mul_l by assumption. cbn [bind].
      rewrite (reshape2 _ _ (p * s * s') q) by (rewrite numel2; lia). cbn [bind].
      eexists _, _. split; [reflexivity|].
      split; [exact Hsh'|].
      exists (mkT [p * s; p * s] (data (eye (p * s)))), (p * s).
      split; [|split; [|split]].
      * rewrite map_app, foldM_app, Hfold. cbn [bind map foldM].
        erewrite full_step_3; [reflexivity|reflexivity|nia|].
        fold (mk2 (p * s) (p * s) (fun i j => if i =? j then r1 (R := R) else r0)).
        fold (eye (R := R) (p * s)).
        apply einsum_eye_l; try assumption; try nia.
        rewrite eye_data_length. lia.
      * eapply chain_app; [eassumption|reflexivity].
      * apply Forall_app. split; [assumption|]. constructor; [|constructor].
        fold (mk2 (p * s) (p * s) (fun i j => if i =? j then r1 (R := R) else r0)).
        fold (eye (R := R) (p * s)).
        apply good_eye3; nia.
      * cbn zeta. rewrite numel_snoc. fold p. fold q. left. auto.
    + rewrite floordiv_mul_r by assumption. cbn [bind].
      rewrite (reshape3 _ _ p s (s' * q)) by (rewrite numel2; lia).
      cbn [bind]. rewrite Hsn. cbn [bind]. rewrite floordiv_mul_l by assumption. cbn [bind].
      unfold eye at 1, mk2 at 1.
      rewrite (reshape2 _ _ (s' * q * s') q) by (rewrite numel2; lia). cbn [bind].
      eexists _, _. split; [reflexivity|].
      split; [exact Hsh'|].
      exists (mkT [p * s; s' * q] d), (s' * q).
      split; [|split; [|split]].
      * rewrite map_app, foldM_app, Hfold. cbn [bind map foldM].
        erewrite full_step_3; [reflexivity|reflexivity|nia|].
        apply einsum_eye_l; try assumption; try nia.
      * eapply chain_app; [eassumption|reflexivity].
      * apply Forall_app. split; [assumption|]. constructor; [|constructor].
        apply good_data3; nia.
      * cbn zeta. rewrite numel_snoc. fold p. fold q. right.
        fold (mk2 (s' * q) (s' * q) (fun i j => if i =? j then r1 (R := R) else r0)).
        fold (eye (R := R) (s' * q)). auto.
  - (* the entries are in the cores already *)
    unfold dense_step. cbn [shape py_index nth_error bind]. rewrite Hsn1. cbn [bind].
    replace (s * (s' * q) * s <? s' * q) with false.
    2:{ symmetry. apply Nat.ltb_ge. generalize (s' * q). intros X.
        destruct s; [lia|]. nia. }
    rewrite floordiv_mul_r by assumption. cbn [bind].
    rewrite (reshape3 _ _ (s * (s' * q)) s (s' * q)) by (rewrite numel2; lia).
    cbn [bind]. rewrite Hsn. cbn [bind]. rewrite floordiv_mul_l by assumption. cbn [bind].
    unfold eye at 1, mk2 at 1.
    rewrite (reshape2 _ _ (s' * q * s') q) by (rewrite numel2; lia). cbn [bind].
    eexists _, _. split; [reflexivity|].
    split; [exact Hsh'|].
    exists (mkT [p * s; s' * q] d), (s' * q).
    split; [|split; [|split]].
    + rewrite map_app, foldM_app, Hfold. cbn [bind map foldM].
      erewrite full_step_3; [reflexivity|reflexivity|nia|].
      apply einsum_eye_r; try assumption; try nia.
    + eapply chain_app; [eassumption|reflexivity].
    + apply Forall_app. split; [assumption|]. constructor; [|constructor].
      apply good_eye3; nia.
    + cbn zeta. rewrite numel_snoc. fold p. fold q. right.
      fold (mk2 (s' * q) (s' * q) (fun i j => if i =? j then r1 (R := R) else r0)).
      fold (eye (R := R) (s' * q)). auto.
Qed.


Lemma dense_loop_inv post : forall pre s cs D,
  dense_inv sh d pre s post cs D ->
  exists pre' s' cs' D',
    foldM (dense_step sh) (seq (length pre + 1) (length post)) (cs, D) = Ok (cs', D') /\
    dense_inv sh d pre' s' [] cs' D'.
Proof.
  induction post as [|s' post IH]; intros pre s cs D Hinv.
  - exists pre, s, cs, D. split; [reflexivity|assumption].
  - destruct (dense_step_inv _ _ _ _ _ _ Hinv) as (cs1 & D1 & Hstep & Hinv1).
    destruct (IH _ _ _ _ Hinv1) as (pre' & s2 & cs' & D' & Hloop & Hinv').
    exists pre', s2, cs', D'. split; [|assumption].
    cbn [length seq foldM]. rewrite Hstep. cbn [bind].
    rewrite length_app in Hloop. cbn [length] in Hloop.
    replace (S (length pre + 1)) with (length pre + 1 + 1) by lia. exact Hloop.
Qed.

(** The cores of the dense constructor: a TT chain over the array's shape
    whose materialisation, before the final reshape, is the column of the
    array's entries. *)
Lemma dense_cores_spec :
  sh <> [] ->
  exists cs,
    dense_cores (mkT sh d) = Ok cs /\
    cs <> [] /\ chain 1 cs sh 1 /\ Forall good_core cs /\
    foldM full_step (map PT cs) ([], ones [1; 1]) = Ok (sh, mkT [numel sh; 1] d).
Proof.
  intros Hne.
  assert (E : exists s0 post, sh = s0 :: post).
  { clear - Hne. destruct sh; [congruence|eauto]. }
  destruct E as (s0 & post & Esh).
  assert (Hpos' : Forall (fun x => 0 < x) (s0 :: post)) by now rewrite <- Esh.
  assert (Hs0 : 0 < s0) by now inversion Hpos'.
  assert (Hpost : 0 < numel post) by (apply numel_pos; now inversion Hpos').
  assert (Hinv0 : dense_inv sh d [] s0 post [] (mkT [s0; numel post] d)).
  { split; [now rewrite Esh|]. exists (ones [1; 1]), 1.
    split; [reflexivity|]. split; [reflexivity|]. split; [constructor|].
    cbn zeta. left. change (numel []) with 1. rewrite Nat.mul_1_l. auto. }
  destruct (dense_loop_inv _ _ _ _ _ Hinv0) as (pre & s & cs & D & Hloop & Hinv).
  destruct Hinv as (Hsh & F & r & Hfold & Hchain & Hgood & Hst).
  assert (Hall : Forall (fun x => 0 < x) pre /\ 0 < s).
  { pose proof Hpos as H0. rewrite Hsh in H0. apply Forall_app in H0. destruct H0 as (H1 & H2).
    inversion H2; subst. auto. }
  destruct Hall as (Hpre & Hs). pose proof (numel_pos _ Hpre) as Hp.
  assert (Hd : numel sh = numel pre * s).
  { rewrite Hsh at 1. now rewrite numel_snoc. }
  assert (HN : length sh - 1 = length pre).
  { rewrite Hsh at 1. rewrite length_app. cbn. lia. }
  assert (HN' : length sh - 1 = length post).
  { rewrite Esh at 1. cbn. lia. }
  assert (Hsl : py_index sh (length pre) = Ok s).
  { apply py_index_nth_error. rewrite Hsh at 1. apply nth_error_middle. }
  assert (Hs0' : py_index sh 0 = Ok s0) by now rewrite Esh.
  assert (Hnum : numel sh = s0 * numel post) by now rewrite Esh.
  cbn zeta in Hst. change (numel []) with 1 in Hst.
  set (p := numel pre) in *.
  unfold dense_cores, dim. cbn [shape]. rewrite Hs0'. cbn [bind].
  rewrite (reshape_infer_r _ _ s0 (numel post)) by assumption.
  cbn [bind]. rewrite HN'. cbn [length] in Hloop.
  change (0 + 1) with 1 in Hloop. rewrite Hloop. cbn [bind].
  rewrite <- HN', HN, Hsl.
  destruct Hst as [(HF & Hr & HD) | (HF & Hr & HD)]; subst F r D;
    cbn [shape py_index nth_error bind].
  - rewrite floordiv_mul_r by assumption. cbn [bind].
    rewrite (reshape3 _ _ p s 1) by (rewrite numel2; lia). cbn [bind].
    eexists. split; [reflexivity|].
    split; [now destruct cs|]. split; [|split].
    + rewrite Hsh at 1. eapply chain_app; [eassumption|reflexivity].
    + apply Forall_app. split; [assumption|]. constructor; [|constructor].
      apply good_data3; lia.
    + rewrite map_app, foldM_app, Hfold. cbn [bind map foldM].
      erewrite full_step_3; [|reflexivity|lia|].
      * rewrite Hd. fold p. now rewrite <- Hsh.
      * apply einsum_eye_l; lia.
  - rewrite floordiv_mul_r by assumption. cbn [bind].
    rewrite (reshape3 _ _ (s * 1) s 1) by (rewrite numel2; lia). cbn [bind].
    eexists. split; [reflexivity|].
    split; [now destruct cs|]. split; [|split].
    + rewrite Hsh at 1. eapply chain_app; [eassumption|reflexivity].
    + apply Forall_app. split; [assumption|]. constructor; [|constructor].
      apply good_eye3; lia.
    + rewrite map_app, foldM_app, Hfold. cbn [bind map foldM].
      erewrite full_step_3; [|reflexivity|lia|].
      * rewrite Hd. fold p. now rewrite <- Hsh.
      * apply einsum_eye_r; lia.
Qed.

End RoundTrip.

Section FullTT.
Context {R : Type} {SR : Scalar R}.

Lemma select_last0_col X (dd : list R) :
  length dd = X -> select_last0 (mkT [X; 1] dd) = Ok (mkT [X] dd).
Proof.
  intros H. unfold select_last0. cbn [shape py_last rev app bind Nat.eqb removelast].
  do 2 f_equal. apply tabulate_is_list with (d := r0).
  - rewrite H. unfold numel. cbn [fold_right]. lia.
  - intros p _. unfold get. cbn [data]. now rewrite Nat.mul_1_r.
Qed.

(** Materialising a TT-form network: the checks of [full_tucker] pass and
    the result is read off the contraction of the cores. *)
Lemma full_tt_form (t : network R) cs ms (dd : list R) :
  tt_form t cs ms ->
  foldM full_step (map PT cs) ([], ones [1; 1]) = Ok (ms, mkT [numel ms; 1] dd) ->
  length dd = numel ms ->
  full t = Ok (mkT ms dd).
Proof.
  intros (Hc & Hu & _ & Hchain & _) Hfold Hlen.
  destruct t as [tc tu ti]. cbn [cores Us] in Hc, Hu. subst tc tu.
  unfold full. rewrite (full_tucker_chain _ _ _ _ ti Hchain). cbn [bind cores].
  rewrite Hfold. cbn [bind]. rewrite select_last0_col by assumption. cbn [bind].
  apply reshape_all. unfold numel at 1. cbn [fold_right]. lia.
Qed.

Lemma init_tail_chain r (cs : list (tensor R)) ms r' :
  chain r cs ms r' ->
  init_tail (map PT cs) None None
  = Ok (mkN (map PT cs) (repeat None (length cs)) (map arange ms)).
Proof.
  intros H. unfold init_tail. cbn [bind]. rewrite length_map.
  now rewrite (shape_of_chain _ _ _ _ H).
Qed.

End FullTT.

(** ** The dense constructor in exact arithmetic *)

Section C1.
Context {R : Type} {SR : Scalar R} {UL : UnitLaws R}.

(** The network of a dense array with at least one axis and no empty axis:
    a TT-form network over the array's shape. *)
Lemma Tensor_of_dense_tt_form (A : tensor R) :
  wf_tensor A -> shape A <> [] -> Forall (fun s => 0 < s) (shape A) ->
  exists t cs,
    Tensor_of_dense A None = Ok t /\ tt_form t cs (shape A) /\
    foldM full_step (map PT cs) ([], ones [1; 1])
    = Ok (shape A, mkT [numel (shape A); 1] (data A)).
Proof.
  intros Hwf Hne Hpos. destruct A as [sh d]. cbn [shape data] in *.
  destruct (dense_cores_spec sh d Hpos Hwf Hne) as (cs & Hcs & Hnn & Hchain & Hgood & Hfold).
  exists (mkN (map PT cs) (repeat None (length cs)) (map arange sh)), cs.
  split; [|split].
  - unfold Tensor_of_dense. rewrite Hcs. cbn [bind]. eapply init_tail_chain; eauto.
  - repeat split; auto.
  - exact Hfold.
Qed.

End C1.

(** ** CP cores and orthogonalisation (C6, C4, C2) *)

Section CPCores.
Context {R : Type} {SR : Scalar R} {E : Engine R}.

Lemma set_nth_ok {A} (l : list A) n x y :
  nth_error l n = Some y ->
  exists l', set_nth l n x = Ok l' /\ nth_error l' n = Some x /\ length l' = length l.
Proof.
  revert n. induction l as [|z l IH]; intros [|n] H; cbn in *; try discriminate.
  - eauto.
  - destruct (IH n H) as (l' & -> & Hn & Hl). cbn. eexists. split; [reflexivity|].
    cbn. auto.
Qed.

(** What [left_orthogonalize(mu)] does to a network whose core [mu] has two
    axes: the slot [mu] is assigned the list of cores itself, and the call
    raises before it has produced a three-axis core. *)
Lemma left_orthogonalize_cp (t : network R) (mu : nat) (c : tensor R) :
  nth_error (cores t) mu = Some (PT c) -> dim c = 2 -> mu + 1 < ndim t ->
  exists t' e,
    left_orthogonalize mu t = (t', Err e) /\ nth_error (cores t') mu = Some PCores.
Proof.
  intros Hc Hd Hmu.
  destruct (set_nth_ok (cores t) mu PCores (PT c) Hc) as (cs' & Hset & Hnth & _).
  unfold left_orthogonalize, get_core, set_core, bindM, readM, liftM. cbv beta.
  replace (Z.of_nat mu <? Z.of_nat (ndim t) - 1)%Z with true by (symmetry; apply Z.ltb_lt; lia).
  cbn [assert]. rewrite (py_index_nth_error _ _ _ Hc). cbn [core_t].
  rewrite Hd. cbn [Nat.eqb]. rewrite Hset.
  unfold factor_orthogonalize, get_U, set_U, get_core, set_core, bindM, readM, liftM, retM.
  cbv beta. cbn [Us cores idxs].
  cbv beta iota. cbn [Us cores idxs].
  destruct (py_index (Us t) mu) as [[U|]|e] eqn:HU; cbv beta iota; cbn [Us cores idxs].
  - destruct (qr U) as [[Q Rf]|e]; cbv beta iota; cbn [Us cores idxs]; [|eauto].
    destruct (set_nth (Us t) mu (Some Q)) as [us'|e]; cbv beta iota; cbn [Us cores idxs];
      [|eauto].
    rewrite (py_index_nth_error _ _ _ Hnth). cbn [core_t]. eauto.
  - rewrite (py_index_nth_error _ _ _ Hnth). cbn [core_t]. eauto.
  - eauto.
Qed.

End CPCores.

(** C6: on the network of two CP cores, [left_orthogonalize(0)] does not
    turn core 0 into a three-axis core: it stores the list of cores in slot
    0 and raises, whatever the engine; afterwards the network cannot be
    materialised. *)
Theorem left_orthogonalize_cp_example (E : Engine Z) :
  full cp_example = Ok (mkT [2; 2] [3; 4; 6; 8]%Z) /\
  exists t',
    left_orthogonalize 0 cp_example = (t', Err AttributeError) /\
    nth_error (cores t') 0 = Some PCores /\
    full t' = Err AttributeError.
Proof. split; [reflexivity|]. eexists. repeat split. Qed.

(** C4: on the same network, [orthogonalize(1)] raises in its first left
    sweep and leaves a network whose content is lost. *)
Theorem orthogonalize_cp_example (E : Engine Z) :
  full cp_example = Ok (mkT [2; 2] [3; 4; 6; 8]%Z) /\
  exists t',
    orthogonalize 1 cp_example = (t', Err AttributeError) /\
    full t' = Err AttributeError.
Proof. split; [reflexivity|]. eexists. repeat split. Qed.

(** C2: on the same network, [round(eps)] raises for every [eps] and every
    engine, so no error bound or rank bound is established. *)
Theorem round_cp_example (E : Engine Z) (eps : Z) :
  exists t', round eps no_kwargs cp_example = (t', Err AttributeError) /\
             ranks_tt t' = Err AttributeError.
Proof. eexists. repeat split. Qed.

(** ** Index arrays split by a slice (C7) *)

(** C7: the key [[0, 1], :, [0, 1]] on the network of a dense
    [2 x 2 x 2] array raises nothing: [__getitem__] returns a network. *)
Theorem getitem_interleaved_example (E : Engine Z) :
  exists t n,
    Tensor_of_dense dense_example None = Ok t /\
    getitem t interleaved_key = Ok (INet n) /\
    full n = Ok (mkT [2; 2; 2] [1; 2; 3; 4; 5; 6; 7; 8]%Z).
Proof. eexists _, _. repeat split. Qed.

(** ** Entries of tabulated arrays *)

Section Entries.
Context {R : Type} {SR : Scalar R}.

Lemma get2_mk2 a b (f : nat -> nat -> R) x y :
  x < a -> y < b -> get2 (mk2 a b f) x y = f x y.
Proof.
  intros Hx Hy. unfold get2, get, mk2. cbn [shape data nth].
  rewrite tabulate_nth by (apply flat2_lt; assumption).
  now rewrite flat2_div, flat2_mod.
Qed.

Lemma flat3_lt a b c x y z : x < a -> y < b -> z < c -> (x * b + y) * c + z < a * b * c.
Proof.
  intros Hx Hy Hz. apply flat2_lt; [|assumption]. now apply flat2_lt.
Qed.

Lemma flat3_x b c x y z : y < b -> z < c -> ((x * b + y) * c + z) / (b * c) = x.
Proof.
  intros Hy Hz. replace ((x * b + y) * c + z) with (x * (b * c) + (y * c + z)) by lia.
  apply flat2_div. nia.
Qed.

Lemma flat3_y b c x y z : y < b -> z < c -> (((x * b + y) * c + z) / c) mod b = y.
Proof. intros Hy Hz. rewrite flat2_div by assumption. now apply flat2_mod. Qed.

Lemma get3_mk3 a b c (f : nat -> nat -> nat -> R) x y z :
  x < a -> y < b -> z < c -> get3 (mk3 a b c f) x y z = f x y z.
Proof.
  intros Hx Hy Hz. unfold get3, get, mk3. cbn [shape data nth].
  rewrite tabulate_nth by (apply flat3_lt; assumption).
  now rewrite flat3_x, flat3_y, flat2_mod.
Qed.

Lemma mk3_good a b c (f : nat -> nat -> nat -> R) :
  0 < a -> 0 < b -> 0 < c -> good_core (mk3 a b c f).
Proof.
  intros Ha Hb Hc. split.
  - unfold wf_tensor, mk3. cbn [data shape]. rewrite tabulate_length, numel3. reflexivity.
  - cbn [mk3 shape]. repeat constructor; assumption.
Qed.

(** One materialisation step, by entries. *)
Lemma full_step_sem (sh : list nat) (F c : tensor R) P r b j f :
  is_mat F P r f -> shape c = [r; b; j] -> 0 < b -> 0 < j ->
  exists F',
    full_step (sh, F) (PT c) = Ok (sh ++ [b], F') /\ is_mat F' (P * b) j (fstep f c).
Proof.
  intros (HsF & HF) Hs Hb Hj.
  unfold full_step. cbn [core_t bind]. unfold dim. rewrite Hs.
  cbn [py_last2 py_last rev app length Nat.eqb bind].
  unfold einsum_ai_ibj_abj, as2, as3. rewrite HsF, Hs. cbn [bind]. rewrite Nat.eqb_refl.
  cbn [bind py_last rev app]. unfold mk3 at 1.
  rewrite (reshape_infer_l _ _ (P * b)) by (try rewrite numel3; lia).
  cbn [bind]. eexists. split; [reflexivity|].
  split; [reflexivity|].
  intros x z Hx Hz. unfold get2 at 1. unfold get at 1. cbn [shape data nth].
  rewrite tabulate_nth by nia.
  rewrite flat2_mod by assumption.
  rewrite (Nat.mul_comm b j), <- Nat.Div0.div_div.
  rewrite !flat2_div by assumption.
  unfold fstep. rewrite Hs. cbn [nth].
  apply sum_n_ext. intros k Hk.
  rewrite HF; auto. apply Nat.Div0.div_lt_upper_bound. lia.
Qed.

(** Materialising a chain, by entries. *)
Lemma foldM_full_sem (cs : list (tensor R)) : forall ms sh F P r r' f,
  chain r cs ms r' -> Forall good_core cs -> is_mat F P r f ->
  exists F',
    foldM full_step (map PT cs) (sh, F) = Ok (sh ++ ms, F') /\
    is_mat F' (P * numel ms) r' (chain_sem cs f).
Proof.
  induction cs as [|c cs IH]; intros [|b ms] sh F P r r' f Hch Hgood HF; cbn in Hch; try tauto.
  - subst r'. exists F. cbn [map foldM]. rewrite app_nil_r. split; [reflexivity|].
    change (numel []) with 1. now rewrite Nat.mul_1_r.
  - destruct Hch as (j & Hs & Hch). inversion Hgood as [|? ? (Hwf & Hpos) Hgood']; subst.
    rewrite Hs in Hpos.
    assert (Hb : 0 < b) by (inversion Hpos as [|? ? ? H2]; inversion H2; assumption).
    assert (Hj : 0 < j).
    { inversion Hpos as [|? ? ? H2]; inversion H2 as [|? ? ? H3]; inversion H3; assumption. }
    destruct (full_step_sem sh F c P r b j f HF Hs Hb Hj) as (F1 & Hstep & HF1).
    destruct (IH ms (sh ++ [b]) F1 (P * b) j r' (fstep f c) Hch Hgood' HF1) as (F' & Hfold & HF').
    exists F'. cbn [map foldM]. rewrite Hstep. cbn [bind]. rewrite Hfold.
    rewrite <- app_assoc. split; [reflexivity|].
    rewrite numel_cons. cbn [chain_sem]. now rewrite Nat.mul_assoc.
Qed.

Lemma ones_is_mat : is_mat (ones [1; 1]) 1 1 (fun _ _ => r1 (R := R)).
Proof.
  split; [reflexivity|]. intros x z Hx Hz.
  assert (x = 0) by lia. assert (z = 0) by lia. subst. reflexivity.
Qed.

(** [full] of a TT-form network, by entries. *)
Lemma full_tt_sem (t : network R) cs ms :
  tt_form t cs ms ->
  full t = Ok (mkT ms (tabulate (numel ms) (tt_entry cs))).
Proof.
  intros Hform. pose proof Hform as (Hc & Hu & _ & Hchain & Hgood).
  destruct (foldM_full_sem cs ms [] (ones [1; 1]) 1 1 1 _ Hchain Hgood ones_is_mat)
    as (F' & Hfold & HsF & HF). cbn [app] in Hfold. rewrite Nat.mul_1_l in HsF, HF.
  destruct t as [tc tu ti]. cbn [cores Us] in Hc, Hu. subst tc tu.
  unfold full. rewrite (full_tucker_chain _ _ _ _ ti Hchain). cbn [bind cores].
  rewrite Hfold. cbn [bind].
  unfold select_last0. rewrite HsF. cbn [py_last rev app bind Nat.eqb removelast].
  rewrite reshape_all by (unfold numel at 1; cbn [fold_right]; lia).
  do 2 f_equal. unfold numel at 1. cbn [fold_right]. rewrite Nat.mul_1_r.
  apply tabulate_ext. intros p Hp. unfold tt_entry.
  rewrite <- (HF p 0) by lia. unfold get2, get. rewrite HsF. cbn [nth]. f_equal. lia.
Qed.

End Entries.

(** ** Sums in a commutative semiring *)

Section SemiringSums.
Context {R : Type} {SR : Scalar R} {SL : SemiringLaws R}.

Lemma fold_add_acc (f : nat -> R) l acc :
  fold_left (fun a k => radd a (f k)) l acc
  = radd acc (fold_left (fun a k => radd a (f k)) l r0).
Proof.
  revert acc. induction l as [|k l IH]; intros acc; cbn [fold_left].
  - now rewrite radd_0_r.
  - rewrite IH, (IH (radd r0 (f k))), radd_0_l. now rewrite radd_assoc.
Qed.

Lemma sum_n_S n (f : nat -> R) : sum_n (S n) f = radd (sum_n n f) (f n).
Proof. unfold sum_n. rewrite seq_S, fold_left_app. reflexivity. Qed.

Lemma sum_n_0 (f : nat -> R) : sum_n 0 f = r0.
Proof. reflexivity. Qed.

Lemma sum_n_app a b (f : nat -> R) :
  sum_n (a + b) f = radd (sum_n a f) (sum_n b (fun k => f (a + k))).
Proof.
  induction b as [|b IH].
  - rewrite Nat.add_0_r, sum_n_0. now rewrite radd_0_r.
  - rewrite Nat.add_succ_r, !sum_n_S, IH. now rewrite radd_assoc.
Qed.

Lemma sum_n_add n (f g : nat -> R) :
  sum_n n (fun k => radd (f k) (g k)) = radd (sum_n n f) (sum_n n g).
Proof.
  induction n as [|n IH]; [now rewrite !sum_n_0, radd_0_l|].
  rewrite !sum_n_S, IH.
  rewrite <- !radd_assoc. f_equal.
  rewrite !radd_assoc. f_equal. apply radd_comm.
Qed.

Lemma rmul_add_distr_r (x y z : R) : rmul (radd x y) z = radd (rmul x z) (rmul y z).
Proof. now rewrite rmul_comm, rmul_add_distr_l, !(rmul_comm z). Qed.

Lemma sum_n_mul_l n (f : nat -> R) x :
  rmul x (sum_n n f) = sum_n n (fun k => rmul x (f k)).
Proof.
  induction n as [|n IH]; [now rewrite !sum_n_0, rmul_0_r|].
  now rewrite !sum_n_S, rmul_add_distr_l, IH.
Qed.

Lemma sum_n_mul_r n (f : nat -> R) x :
  rmul (sum_n n f) x = sum_n n (fun k => rmul (f k) x).
Proof.
  induction n as [|n IH]; [now rewrite !sum_n_0, rmul_0_l|].
  now rewrite !sum_n_S, rmul_add_distr_r, IH.
Qed.

(** A sum over a product range is a double sum. *)
Lemma sum_n_prod a b (g : nat -> R) :
  sum_n (a * b) g = sum_n a (fun i => sum_n b (fun k => g (i * b + k))).
Proof.
  induction a as [|a IH]; [reflexivity|].
  rewrite sum_n_S, <- IH.
  replace (S a * b) with (a * b + b) by lia.
  apply sum_n_app.
Qed.

End SemiringSums.

(** ** Addition of TT-form networks *)

Section AddBlocks.
Context {R : Type} {SR : Scalar R} {SL : SemiringLaws R}.

Lemma nth_repeat_same {A} (a : A) m n : nth n (repeat a m) a = a.
Proof. revert n. induction m; intros [|n]; cbn; auto. Qed.

Lemma get3_zeros sh x y z : get3 (zeros (R := R) sh) x y z = r0.
Proof. unfold get3, get, zeros. cbn [data]. apply nth_repeat_same. Qed.

Lemma add_block_shape (c1 c2 : tensor R) r1 m j1 r2 m2 j2 :
  shape c1 = [r1; m; j1] -> shape c2 = [r2; m2; j2] ->
  shape (add_block c1 c2) = [r1 + r2; m; j1 + j2].
Proof. intros H1 H2. unfold add_block. rewrite H1, H2. reflexivity. Qed.

Lemma add_block_entry (c1 c2 : tensor R) r1 m j1 r2 j2 x y z :
  shape c1 = [r1; m; j1] -> shape c2 = [r2; m; j2] ->
  x < r1 + r2 -> y < m -> z < j1 + j2 ->
  get3 (add_block c1 c2) x y z
  = if z <? j1 then (if x <? r1 then get3 c1 x y z else r0)
    else (if x <? r1 then r0 else get3 c2 (x - r1) y (z - j1)).
Proof.
  intros H1 H2 Hx Hy Hz. unfold add_block. rewrite H1, H2. cbn [nth].
  rewrite get3_mk3 by assumption.
  destruct (Nat.ltb_spec z j1).
  - rewrite get3_mk3 by assumption. destruct (x <? r1); [reflexivity|apply get3_zeros].
  - rewrite get3_mk3 by (try assumption; lia).
    destruct (x <? r1); [apply get3_zeros|reflexivity].
Qed.

(** One pass of the loop of [__add__] on two cores without factors. *)
Lemma add_mode_tt (s t : network R) ms n (c1 c2 : tensor R) r1 m j1 r2 j2 :
  nth_error (cores s) n = Some (PT c1) -> nth_error (cores t) n = Some (PT c2) ->
  nth_error (Us s) n = Some None -> nth_error (Us t) n = Some None ->
  nth_error ms n = Some m ->
  shape c1 = [r1; m; j1] -> shape c2 = [r2; m; j2] ->
  add_mode s t ms n = Ok (add_block c1 c2, None).
Proof.
  intros Hc1 Hc2 Hu1 Hu2 Hm H1 H2. unfold add_mode.
  rewrite (py_index_nth_error _ _ _ Hc1), (py_index_nth_error _ _ _ Hc2).
  rewrite (py_index_nth_error _ _ _ Hu1), (py_index_nth_error _ _ _ Hu2).
  rewrite (py_index_nth_error _ _ _ Hm).
  cbn [bind core_t]. rewrite H1, H2. cbn [py_index nth_error bind].
  unfold cat0, as3. rewrite H1, H2. cbn [zeros shape bind].
  rewrite !Nat.eqb_refl. cbn [andb bind].
  unfold cat2, as3. cbn [mk3 shape bind]. rewrite !Nat.eqb_refl. cbn [andb bind].
  unfold add_block. rewrite H1, H2. reflexivity.
Qed.

End AddBlocks.

Section AddChains.
Context {R : Type} {SR : Scalar R} {SL : SemiringLaws R}.

Lemma chain_app_inv r (cs : list (tensor R)) : forall ms c b r',
  chain r (cs ++ [c]) (ms ++ [b]) r' ->
  exists j, chain r cs ms j /\ shape c = [j; b; r'].
Proof.
  revert r. induction cs as [|c0 cs IH]; intros r [|m ms] c b r' H; cbn in H.
  - destruct H as (j & Hs & <-). exists r. split; [reflexivity|assumption].
  - destruct H as (j & _ & H). destruct ms; cbn in H; tauto.
  - destruct H as (j & _ & H). destruct cs; cbn in H; tauto.
  - destruct H as (j & Hs & H). destruct (IH _ _ _ _ _ H) as (j' & Hch & Hc).
    exists j'. split; [|assumption]. cbn. eauto.
Qed.

Lemma chain_sem_app (l : list (tensor R)) c f :
  chain_sem (l ++ [c]) f = fstep (chain_sem l f) c.
Proof. revert f. induction l as [|c0 l IH]; intros f; cbn; auto. Qed.

Lemma combine_snoc {A B} (l1 : list A) (l2 : list B) x y :
  length l1 = length l2 -> combine (l1 ++ [x]) (l2 ++ [y]) = combine l1 l2 ++ [(x, y)].
Proof.
  revert l2. induction l1 as [|a l1 IH]; intros [|b l2] H; cbn in *; try discriminate; auto.
  f_equal. apply IH. lia.
Qed.

Lemma list_ends {A} (l : list A) : 2 <= length l -> exists a mid z, l = a :: mid ++ [z].
Proof.
  intros H. destruct l as [|a l]; [cbn in H; lia|].
  destruct (exists_last (l := l)) as (mid & z & ->).
  - intros ->. cbn in H. lia.
  - eauto.
Qed.

End AddChains.

Section AddNetworks.
Context {R : Type} {SR : Scalar R} {SL : SemiringLaws R}.

(** On a chain the structural checks of the constructor pass, whatever the
    factors and labels handed to it. *)
Lemma Tensor_of_cores_checks r (cs : list (tensor R)) ms r' us ix :
  chain r cs ms r' ->
  Tensor_of_cores (map PT cs) us ix = init_tail (map PT cs) us ix.
Proof.
  intros H. unfold Tensor_of_cores.
  rewrite mapM_map_ok with (h := fun _ => 3).
  2:{ intros o Ho. apply in_map_iff in Ho. destruct Ho as (c & <- & Hc).
      apply In_nth_error in Hc. destruct Hc as (n & Hn).
      destruct (chain_nth _ _ _ _ _ _ H Hn) as (a & b & j & Hs & _).
      cbn. unfold dim. now rewrite Hs. }
  cbn [bind].
  replace (forallb _ _) with true.
  2:{ symmetry. apply forallb_forall. intros d Hd. apply in_map_iff in Hd.
      now destruct Hd as (? & <- & _). }
  cbn [bind]. rewrite foldM_unit_ok; [reflexivity|].
  intros n Hn. apply in_seq in Hn. rewrite length_map in Hn.
  destruct (nth_error cs n) as [c|] eqn:Hc.
  2:{ apply nth_error_None in Hc. lia. }
  destruct (nth_error cs (S n)) as [c'|] eqn:Hc'.
  2:{ apply nth_error_None in Hc'. lia. }
  destruct (chain_nth _ _ _ _ _ _ H Hc) as (a & b & j & Hs & _ & Hnext).
  destruct (Hnext _ Hc') as (b' & j' & Hs').
  rewrite (py_index_nth_error (map PT cs) n (PT c)) by (now rewrite nth_error_map, Hc).
  cbn [bind core_t]. rewrite Nat.add_1_r.
  rewrite (py_index_nth_error (map PT cs) (S n) (PT c')) by (now rewrite nth_error_map, Hc').
  cbn [bind core_t]. unfold dim. rewrite Hs, Hs'. cbn. now rewrite Nat.eqb_refl.
Qed.

Lemma init_tail_no_factors r (cs : list (tensor R)) ms r' :
  chain r cs ms r' ->
  init_tail (map PT cs) (Some (repeat None (length cs))) None
  = Ok (mkN (map PT cs) (repeat None (length cs)) (map arange ms)).
Proof.
  intros H. unfold init_tail. rewrite foldM_unit_ok.
  - cbn [bind]. now rewrite (shape_of_chain _ _ _ _ H).
  - intros n Hn. apply in_seq in Hn. rewrite length_map in Hn.
    assert (Hlt : n < length cs) by lia.
    rewrite (py_index_nth_error _ _ _ (nth_error_repeat_None (A := tensor R) _ _ Hlt)).
    reflexivity.
Qed.

Lemma net_shape_tt (t : network R) cs ms : tt_form t cs ms -> net_shape t = Ok ms.
Proof.
  intros (Hc & Hu & _ & Hch & _). unfold net_shape. rewrite Hc, Hu.
  eapply shape_of_chain; eauto.
Qed.

Lemma list_eqb_refl l : list_eqb l l = true.
Proof. unfold list_eqb. destruct (list_eq_dec Nat.eq_dec l l); congruence. Qed.

Lemma map_const_repeat {A B} (l : list A) (b : B) : map (fun _ => b) l = repeat b (length l).
Proof. induction l; cbn; congruence. Qed.

Lemma nth_error_combine {A B} (l1 : list A) (l2 : list B) n p :
  nth_error (combine l1 l2) n = Some p ->
  nth_error l1 n = Some (fst p) /\ nth_error l2 n = Some (snd p).
Proof.
  revert l2 n. induction l1 as [|a l1 IH]; intros [|b l2] [|n] H; cbn in *; try discriminate.
  - injection H as <-. auto.
  - eauto.
Qed.

Lemma good_shape3 (c : tensor R) a b j :
  good_core c -> shape c = [a; b; j] -> 0 < a /\ 0 < b /\ 0 < j.
Proof.
  intros (_ & Hpos) Hs. rewrite Hs in Hpos.
  inversion Hpos as [|? ? Ha H1]; inversion H1 as [|? ? Hb H2]; inversion H2; auto.
Qed.

Lemma chain_modes_pos r (cs : list (tensor R)) ms r' :
  chain r cs ms r' -> Forall good_core cs -> Forall (fun m => 0 < m) ms.
Proof.
  revert r ms. induction cs as [|c cs IH]; intros r [|m ms] H Hg; cbn in H; try tauto.
  - constructor.
  - destruct H as (j & Hs & H). inversion Hg as [|? ? Hc Hg']; subst.
    destruct (good_shape3 _ _ _ _ Hc Hs) as (_ & Hm & _).
    constructor; eauto.
Qed.

(** The loop of [__add__] on two TT-form networks over the same modes. *)
Lemma add_loop_tt (s t : network R) cs1 cs2 ms :
  tt_form s cs1 ms -> tt_form t cs2 ms ->
  mapM (add_mode s t ms) (seq 0 (ndim s))
  = Ok (map (fun p => (add_block (fst p) (snd p), None)) (combine cs1 cs2)).
Proof.
  intros (Hc1 & Hu1 & _ & Hch1 & _) (Hc2 & Hu2 & _ & Hch2 & _).
  pose proof (chain_length _ _ _ _ Hch1) as Hl1.
  pose proof (chain_length _ _ _ _ Hch2) as Hl2.
  replace (ndim s) with (length (combine cs1 cs2)).
  2:{ unfold ndim. rewrite Hc1, length_map, length_combine. lia. }
  apply mapM_seq_nth. intros n [c1 c2] Hn.
  apply nth_error_combine in Hn. cbn [fst snd] in *. destruct Hn as (Hn1 & Hn2).
  destruct (chain_nth _ _ _ _ _ _ Hch1 Hn1) as (a1 & m & j1 & Hs1 & Hm & _).
  destruct (chain_nth _ _ _ _ _ _ Hch2 Hn2) as (a2 & m' & j2 & Hs2 & Hm' & _).
  assert (m' = m) by congruence. subst m'.
  assert (Hlt1 : n < length cs1) by (apply nth_error_Some; congruence).
  eapply add_mode_tt; eauto.
  - rewrite Hc1, nth_error_map, Hn1. reflexivity.
  - rewrite Hc2, nth_error_map, Hn2. reflexivity.
  - rewrite Hu1. apply nth_error_repeat_None. lia.
  - rewrite Hu2. apply nth_error_repeat_None. lia.
Qed.


Lemma zip_with_length (f : R -> R -> R) l1 l2 :
  length l1 = length l2 -> length (zip_with f l1 l2) = length l1.
Proof.
  revert l2. induction l1 as [|a l1 IH]; intros [|b l2] H; cbn in *; try discriminate; auto.
Qed.

Lemma zip_with_nth (f : R -> R -> R) l1 l2 n d :
  n < length l1 -> length l1 = length l2 ->
  nth n (zip_with f l1 l2) d = f (nth n l1 d) (nth n l2 d).
Proof.
  revert l2 n. induction l1 as [|a l1 IH]; intros [|b l2] [|n] Hn H; cbn in *;
    try discriminate; try lia; auto.
  apply IH; lia.
Qed.

Lemma zip_with_tabulate (f : R -> R -> R) n g h :
  zip_with f (tabulate n g) (tabulate n h) = tabulate n (fun x => f (g x) (h x)).
Proof.
  unfold tabulate. generalize (seq 0 n). induction l as [|a l IH]; cbn; congruence.
Qed.

Lemma py_last_snoc {A} (l : list A) x : py_last (l ++ [x]) = Ok x.
Proof. unfold py_last. now rewrite rev_app_distr. Qed.

Lemma set_last_snoc {A} (l : list A) x y : set_last (l ++ [x]) y = Ok (l ++ [y]).
Proof.
  unfold set_last. destruct (l ++ [x]) eqn:E.
  - destruct l; discriminate.
  - rewrite <- E. now rewrite removelast_last.
Qed.

Lemma add_block_mid_good (mid1 : list (tensor R)) : forall mid2 ms r1 r2 r1' r2',
  chain r1 mid1 ms r1' -> chain r2 mid2 ms r2' ->
  Forall good_core mid1 -> Forall good_core mid2 ->
  Forall good_core (map (fun p => add_block (fst p) (snd p)) (combine mid1 mid2)).
Proof.
  induction mid1 as [|c1 mid1 IH]; intros [|c2 mid2] [|m ms] r1 r2 r1' r2' H1 H2 Hg1 Hg2;
    cbn in H1, H2; try tauto; cbn [combine map]; try constructor.
  - destruct H1 as (j1 & Hs1 & H1). destruct H2 as (j2 & Hs2 & H2).
    inversion Hg1 as [|? ? Hc1 _]; subst.
    destruct (good_shape3 c1 _ _ _ Hc1 Hs1) as (? & ? & ?).
    cbn [fst snd]. unfold add_block. rewrite Hs1, Hs2. cbn [nth]. apply mk3_good; lia.
  - destruct H1 as (j1 & Hs1 & H1). destruct H2 as (j2 & Hs2 & H2).
    inversion Hg1; subst. inversion Hg2; subst. eapply IH; eauto.
Qed.

End AddNetworks.

(** * Float arithmetic *)

(** ** The laws of zero and one hold on 64-bit floats *)

Section FloatZeros.
Import SpecFloat FloatOps FloatAxioms.

Lemma sf_zero : Prim2SF PrimFloat.zero = S754_zero false.
Proof. reflexivity. Qed.

Lemma sf_one : Prim2SF PrimFloat.one = S754_finite false 4503599627370496 (-52).
Proof. reflexivity. Qed.

Lemma float_is_zero (x : PrimFloat.float) :
  is_zero x = true <-> exists s, Prim2SF x = S754_zero s.
Proof.
  unfold is_zero. cbn [rleb r0 Scalar_float]. rewrite !leb_spec, sf_zero.
  destruct (Prim2SF x) as [s|s| |s m e]; cbn.
  - split; eauto.
  - destruct s; cbn; split; try discriminate; intros (? & ?); discriminate.
  - split; try discriminate; intros (? & ?); discriminate.
  - destruct s; cbn; split; try discriminate; intros (? & ?); discriminate.
Qed.

Lemma float_is_finite (x : PrimFloat.float) :
  is_finite x = true <->
  (exists s, Prim2SF x = S754_zero s) \/ (exists s m e, Prim2SF x = S754_finite s m e).
Proof.
  unfold is_finite. rewrite float_is_zero. cbn [rmul r0 Scalar_float].
  rewrite mul_spec, sf_zero. unfold SF64mul.
  destruct (Prim2SF x) as [s|s| |s m e]; cbn.
  - split; eauto.
  - split; [intros (? & ?); discriminate|]. intros [(? & ?)|(? & ? & ? & ?)]; discriminate.
  - split; [intros (? & ?); discriminate|]. intros [(? & ?)|(? & ? & ? & ?)]; discriminate.
  - split; eauto 6.
Qed.

Lemma float_mul_zero_l z x :
  is_zero z = true -> is_finite x = true -> is_zero (PrimFloat.mul z x) = true.
Proof.
  rewrite !float_is_zero, float_is_finite. intros (s & Hz) Hx.
  rewrite mul_spec, Hz. unfold SF64mul.
  destruct Hx as [(s' & ->)|(s' & m & e & ->)]; cbn; eauto.
Qed.

Lemma float_mul_zero_r x z :
  is_finite x = true -> is_zero z = true -> is_zero (PrimFloat.mul x z) = true.
Proof.
  rewrite !float_is_zero, float_is_finite. intros Hx (s & Hz).
  rewrite mul_spec, Hz. unfold SF64mul.
  destruct Hx as [(s' & ->)|(s' & m & e & ->)]; cbn; eauto.
Qed.

Lemma float_not_zero x : is_zero x = false -> forall s, Prim2SF x <> S754_zero s.
Proof.
  intros H s E. assert (is_zero x = true) by (apply float_is_zero; eauto). congruence.
Qed.

Lemma float_add_zero_l z x :
  is_zero z = true -> is_zero x = false -> PrimFloat.add z x = x.
Proof.
  rewrite float_is_zero. intros (s & Hz) Hx. apply Prim2SF_inj.
  rewrite add_spec, Hz. unfold SF64add. pose proof (float_not_zero x Hx) as Hn.
  destruct (Prim2SF x) as [s'|s'| |s' m e]; cbn; try reflexivity.
  now destruct (Hn s').
Qed.

Lemma float_add_zero_r x z :
  is_zero z = true -> is_zero x = false -> PrimFloat.add x z = x.
Proof.
  rewrite float_is_zero. intros (s & Hz) Hx. apply Prim2SF_inj.
  rewrite add_spec, Hz. unfold SF64add. pose proof (float_not_zero x Hx) as Hn.
  destruct (Prim2SF x) as [s'|s'| |s' m e]; cbn; try reflexivity.
  now destruct (Hn s').
Qed.

Lemma float_add_zero_zero z z' :
  is_zero z = true -> is_zero z' = true -> is_zero (PrimFloat.add z z') = true.
Proof.
  rewrite !float_is_zero. intros (s & Hz) (s' & Hz'). rewrite add_spec, Hz, Hz'.
  destruct s, s'; cbn; eauto.
Qed.

(** Multiplying by one: the mantissa of the exact product is the mantissa
    of [x] shifted by the 52 trailing zeros of the mantissa of one, and
    rounding shifts it back. *)
Lemma digits2_shift52 m :
  Zpos (digits2_pos (Pos.mul 4503599627370496 m)) = (Zpos (digits2_pos m) + 52)%Z.
Proof. cbn [Pos.mul digits2_pos]. rewrite !Pos2Z.inj_succ. lia. Qed.

Lemma shr_52 m :
  iter_pos shr_1 52
    {| shr_m := Zpos (Pos.mul 4503599627370496 m); shr_r := false; shr_s := false |}
  = {| shr_m := Zpos m; shr_r := false; shr_s := false |}.
Proof. reflexivity. Qed.

Lemma round_one s m e :
  bounded prec emax m e = true ->
  binary_round_aux prec emax s (Zpos (Pos.mul 4503599627370496 m)) (e + -52) loc_Exact
  = S754_finite s m e.
Proof.
  intros Hb. unfold bounded, canonical_mantissa in Hb.
  apply andb_prop in Hb. destruct Hb as (Hc & He).
  apply Z.eqb_eq in Hc. apply Z.leb_le in He.
  unfold binary_round_aux, shr_fexp. cbn [Zdigits2 shr_record_of_loc].
  rewrite digits2_shift52.
  replace (fexp prec emax (Zpos (digits2_pos m) + 52 + (e + -52)) - (e + -52))%Z with 52%Z.
  2:{ unfold fexp, SpecFloat.emin, prec, emax in *. lia. }
  unfold shr at 1. rewrite shr_52.
  cbn [shr_m loc_of_shr_record round_nearest_even Zdigits2 shr_record_of_loc].
  replace (e + -52 + 52)%Z with e by lia.
  replace (fexp prec emax (Zpos (digits2_pos m) + e) - e)%Z with 0%Z by lia.
  cbn [shr shr_m].
  apply Z.leb_le in He. now rewrite He.
Qed.

Lemma float_mul_one_l x : PrimFloat.mul PrimFloat.one x = x.
Proof.
  apply Prim2SF_inj. rewrite mul_spec, sf_one. unfold SF64mul.
  pose proof (Prim2SF_valid x) as Hv.
  destruct (Prim2SF x) as [s|s| |s m e]; cbn [SFmul xorb]; try reflexivity.
  cbn [valid_binary] in Hv. rewrite Z.add_comm. now apply round_one.
Qed.

Lemma float_mul_one_r x : PrimFloat.mul x PrimFloat.one = x.
Proof.
  apply Prim2SF_inj. rewrite mul_spec, sf_one. unfold SF64mul.
  pose proof (Prim2SF_valid x) as Hv.
  destruct (Prim2SF x) as [s|s| |s m e]; cbn [SFmul xorb];
    try (now destruct s); try reflexivity.
  cbn [valid_binary] in Hv. rewrite Pos.mul_comm.
  destruct s; cbn [xorb]; now apply round_one.
Qed.

End FloatZeros.

#[export] Instance IeeeLaws_float : IeeeLaws PrimFloat.float.
Proof.
  constructor.
  - reflexivity.
  - reflexivity.
  - intros x Hx. apply float_is_finite. left. now apply float_is_zero.
  - exact float_mul_one_l.
  - exact float_mul_one_r.
  - exact float_mul_zero_l.
  - exact float_mul_zero_r.
  - exact float_add_zero_l.
  - exact float_add_zero_r.
  - exact float_add_zero_zero.
Qed.

(** Conversions on floats: rounding goes to the nearest integer, a tie to
    the even one; [1e-14] is the float nearest to 10^-14. *)
Example float_conversions :
  float_round (PrimFloat.div (float_of_Z 5) (float_of_Z 2)) = 2%Z /\
  float_round (PrimFloat.div (float_of_Z 7) (float_of_Z 2)) = 4%Z /\
  float_round (PrimFloat.div (float_of_Z (-1)) (float_of_Z 2)) = 0%Z /\
  float_round (PrimFloat.div (float_of_Z 8) (float_of_Z 3)) = 3%Z /\
  float_round (float_of_Z 12345) = 12345%Z /\
  rltb (R := PrimFloat.float) (of_dec 1 (-14)) (of_dec 1 (-8)) = true /\
  PrimFloat.mul (of_dec 1 (-8)) (float_of_Z 100000000) = PrimFloat.one /\
  is_finite PrimFloat.infinity = false /\ is_finite PrimFloat.nan = false /\
  is_zero PrimFloat.neg_zero = true.
Proof. repeat split. Qed.

(** Exact integers satisfy them as well. *)
#[export] Instance IeeeLaws_Z : IeeeLaws Z.
Proof.
  constructor; unfold is_finite, is_zero; cbn [rleb r0 r1 rmul radd Scalar_Z].
  - reflexivity.
  - reflexivity.
  - intros x _. reflexivity.
  - intros x. now destruct x.
  - exact Z.mul_1_r.
  - intros z x Hz _. apply andb_prop in Hz. destruct Hz as (H1 & H2).
    apply Z.leb_le in H1, H2. assert (z = 0%Z) by lia. subst. reflexivity.
  - intros x z _ Hz. apply andb_prop in Hz. destruct Hz as (H1 & H2).
    apply Z.leb_le in H1, H2. assert (z = 0%Z) by lia. subst. now rewrite Z.mul_0_r.
  - intros z x Hz _. apply andb_prop in Hz. destruct Hz as (H1 & H2).
    apply Z.leb_le in H1, H2. assert (z = 0%Z) by lia. subst. reflexivity.
  - intros x z Hz _. apply andb_prop in Hz. destruct Hz as (H1 & H2).
    apply Z.leb_le in H1, H2. assert (z = 0%Z) by lia. subst. apply Z.add_0_r.
  - intros z z' Hz Hz'. apply andb_prop in Hz, Hz'. destruct Hz as (H1 & H2), Hz' as (H3 & H4).
    apply Z.leb_le in H1, H2, H3, H4. apply andb_true_intro. split; apply Z.leb_le; lia.
Qed.

(** ** Equality up to the sign of zero *)

Section Feq.
Context {R : Type} {SR : Scalar R} {IL : IeeeLaws R}.

Lemma feq_refl (x : R) : feq x x.
Proof. now left. Qed.

Lemma feq_sym (x y : R) : feq x y -> feq y x.
Proof. intros [->|(H1 & H2)]; [now left|now right]. Qed.

Lemma feq_zero_l (x y : R) : feq x y -> is_zero x = true -> is_zero y = true.
Proof. intros [->|(H1 & H2)] H; assumption. Qed.

Lemma feq_zero_r (x y : R) : feq x y -> is_zero y = true -> is_zero x = true.
Proof. intros [->|(H1 & H2)] H; assumption. Qed.

Lemma feq_trans (x y z : R) : feq x y -> feq y z -> feq x z.
Proof.
  intros [->|(H1 & H2)] H; [assumption|].
  right. split; [assumption|]. now apply (feq_zero_l y).
Qed.

Lemma feq_zero (x y : R) : is_zero x = true -> is_zero y = true -> feq x y.
Proof. intros; now right. Qed.

Lemma feq_finite (x y : R) : feq x y -> is_finite y = true -> is_finite x = true.
Proof. intros [->|(H1 & H2)] H; [assumption|]. now apply zero_finite. Qed.

Lemma feq_nonzero (x y : R) : feq x y -> is_zero y = false -> x = y.
Proof. intros [->|(H1 & H2)] H; [reflexivity|congruence]. Qed.

Lemma one_finite : is_finite (r1 (R := R)) = true.
Proof. unfold is_finite. rewrite mul_one_r. apply zero_r0. Qed.

Lemma zero_one_finite (b : bool) : is_finite (if b then r1 else r0 (R := R)) = true.
Proof. destruct b; [apply one_finite|apply zero_finite, zero_r0]. Qed.

Lemma radd_feq (a a' b b' : R) : feq a a' -> feq b b' -> feq (radd a b) (radd a' b').
Proof.
  intros [->|(Ha & Ha')] [->|(Hb & Hb')].
  - apply feq_refl.
  - destruct (is_zero a') eqn:E.
    + apply feq_zero; now apply add_zero_zero.
    + rewrite !add_zero_r by assumption. apply feq_refl.
  - destruct (is_zero b') eqn:E.
    + apply feq_zero; now apply add_zero_zero.
    + rewrite !add_zero_l by assumption. apply feq_refl.
  - apply feq_zero; now apply add_zero_zero.
Qed.

Lemma rmul_feq (a a' b b' : R) :
  feq a a' -> feq b b' -> is_finite a' = true -> is_finite b' = true ->
  feq (rmul a b) (rmul a' b').
Proof.
  intros Ha Hb Fa Fb.
  pose proof (feq_finite _ _ Ha Fa) as Fa0. pose proof (feq_finite _ _ Hb Fb) as Fb0.
  destruct Ha as [->|(Ha & Ha')], Hb as [->|(Hb & Hb')].
  - apply feq_refl.
  - apply feq_zero; now apply mul_zero_r.
  - apply feq_zero; now apply mul_zero_l.
  - apply feq_zero; now apply mul_zero_r.
Qed.

Lemma radd_zero_l_feq (z x : R) : is_zero z = true -> feq (radd z x) x.
Proof.
  intros Hz. destruct (is_zero x) eqn:E.
  - apply feq_zero; [now apply add_zero_zero|assumption].
  - rewrite add_zero_l by assumption. apply feq_refl.
Qed.

Lemma radd_zero_r_feq (x z : R) : is_zero z = true -> feq (radd x z) x.
Proof.
  intros Hz. destruct (is_zero x) eqn:E.
  - apply feq_zero; [now apply add_zero_zero|assumption].
  - rewrite add_zero_r by assumption. apply feq_refl.
Qed.

Lemma sum_n_all_zero n (F : nat -> R) :
  (forall k, k < n -> is_zero (F k) = true) -> is_zero (sum_n n F) = true.
Proof.
  induction n as [|n IH]; intros H.
  - rewrite sum_n_0. apply zero_r0.
  - rewrite sum_n_S. apply add_zero_zero; [apply IH; intros; apply H; lia|apply H; lia].
Qed.

Lemma sum_n_feq n (F G : nat -> R) :
  (forall k, k < n -> feq (F k) (G k)) -> feq (sum_n n F) (sum_n n G).
Proof.
  induction n as [|n IH]; intros H.
  - rewrite !sum_n_0. apply feq_refl.
  - rewrite !sum_n_S. apply radd_feq; [apply IH; intros; apply H; lia|apply H; lia].
Qed.

(** A sum all of whose terms but one are zeros is that term. *)
Lemma sum_n_pick n (F : nat -> R) j :
  j < n -> (forall k, k < n -> k <> j -> is_zero (F k) = true) -> feq (sum_n n F) (F j).
Proof.
  induction n as [|n IH]; intros Hj H; [lia|].
  rewrite sum_n_S. destruct (Nat.eq_dec j n) as [->|Hne].
  - apply radd_zero_l_feq. apply sum_n_all_zero. intros k Hk. apply H; lia.
  - eapply feq_trans; [apply radd_zero_r_feq; apply H; lia|].
    apply IH; [lia|]. intros k Hk Hkj. apply H; lia.
Qed.

Lemma sum_n_zero_tail a b (F : nat -> R) :
  (forall k, k < b -> is_zero (F (a + k)) = true) -> feq (sum_n (a + b) F) (sum_n a F).
Proof.
  induction b as [|b IH]; intros H.
  - rewrite Nat.add_0_r. apply feq_refl.
  - rewrite Nat.add_succ_r, sum_n_S.
    eapply feq_trans; [apply radd_zero_r_feq; apply H; lia|].
    apply IH. intros k Hk. apply H; lia.
Qed.

Lemma sum_n_zero_head a b (F : nat -> R) :
  (forall k, k < a -> is_zero (F k) = true) ->
  feq (sum_n (a + b) F) (sum_n b (fun k => F (a + k))).
Proof.
  intros H. induction b as [|b IH].
  - rewrite Nat.add_0_r, sum_n_0. apply feq_zero; [now apply sum_n_all_zero|apply zero_r0].
  - rewrite Nat.add_succ_r, !sum_n_S. apply radd_feq; [exact IH|apply feq_refl].
Qed.

(** After any sum, a run of terms all but one of which are zeros adds that
    one term. *)
Lemma sum_n_pick_tail a b (F : nat -> R) k0 :
  k0 < b -> (forall k, k < b -> k <> k0 -> is_zero (F (a + k)) = true) ->
  feq (sum_n (a + b) F) (radd (sum_n a F) (F (a + k0))).
Proof.
  induction b as [|b IH]; intros Hk H; [lia|].
  rewrite Nat.add_succ_r, sum_n_S. destruct (Nat.eq_dec k0 b) as [->|Hne].
  - apply radd_feq; [|apply feq_refl].
    apply sum_n_zero_tail. intros k Hk'. apply H; lia.
  - eapply feq_trans; [apply radd_zero_r_feq; apply H; lia|].
    apply IH; [lia|]. intros k Hk' Hkk. apply H; lia.
Qed.

End Feq.

(** * The dense constructor in float arithmetic *)

Section TameChains.
Context {R : Type} {SR : Scalar R} {IL : IeeeLaws R}.

Lemma nth_finite (l : list R) i :
  Forall (fun v => is_finite v = true) l -> is_finite (nth i l r0) = true.
Proof.
  intros H. destruct (Nat.lt_ge_cases i (length l)) as [Hi|Hi].
  - rewrite Forall_forall in H. apply H. now apply nth_In.
  - rewrite nth_overflow by assumption. apply zero_finite, zero_r0.
Qed.

Lemma get3_finite (c : tensor R) x y z : fin_core c -> is_finite (get3 c x y z) = true.
Proof. intros H. unfold get3, get. now apply nth_finite. Qed.

Lemma eye_fin sh n : fin_core (mkT sh (data (R := R) (eye n))).
Proof.
  unfold fin_core, eye, mk2, tabulate. cbn [data]. apply Forall_forall.
  intros v Hv. apply in_map_iff in Hv. destruct Hv as (p & <- & _).
  apply zero_one_finite.
Qed.

Lemma get3_eye_core a b c n k y z i j :
  (k * b + y) * c + z = i * n + j -> i < n -> j < n ->
  get3 (mkT [a; b; c] (data (R := R) (eye n))) k y z = if i =? j then r1 else r0.
Proof.
  intros H Hi Hj. unfold get3, get. cbn [shape data nth]. rewrite H.
  now apply eye_data_nth.
Qed.

(** A contraction all of whose terms but one are zeros is that term. *)
Lemma fstep_pick (g : nat -> nat -> R) c r b j x z k0 :
  shape c = [r; b; j] -> k0 < r ->
  (forall k, k < r -> k <> k0 ->
     is_zero (rmul (g (x / b) k) (get3 c k (x mod b) z)) = true) ->
  feq (fstep g c x z) (rmul (g (x / b) k0) (get3 c k0 (x mod b) z)).
Proof.
  intros Hs Hk H. unfold fstep. rewrite Hs. cbn [nth].
  now apply (sum_n_pick r (fun k => rmul (g (x / b) k) (get3 c k (x mod b) z)) k0).
Qed.

(** One level of a tame chain, from the term [K x z] that each sum keeps. *)
Lemma pick_level P r b j (F : nat -> nat -> R) c (K : nat -> nat -> nat) (T : nat -> nat -> R) :
  shape c = [r; b; j] -> fin_mat P r F -> fin_core c -> 0 < b ->
  (forall x z, x < P * b -> z < j ->
     K x z < r /\
     (forall k, k < r -> k <> K x z ->
        is_zero (F (x / b) k) = true \/ is_zero (get3 c k (x mod b) z) = true) /\
     feq (rmul (F (x / b) (K x z)) (get3 c (K x z) (x mod b) z)) (T x z)) ->
  (forall x z, x < P * b -> z < j ->
     exists k0, k0 < r /\
       forall k, k < r -> k <> k0 ->
         is_zero (rmul (F (x / b) k) (get3 c k (x mod b) z)) = true) /\
  (forall x z, x < P * b -> z < j -> feq (fstep F c x z) (T x z)).
Proof.
  intros Hs HF Hc Hb H.
  assert (Hz : forall x z, x < P * b -> z < j ->
            forall k, k < r -> k <> K x z ->
              is_zero (rmul (F (x / b) k) (get3 c k (x mod b) z)) = true).
  { intros x z Hx Hz k Hk Hne. destruct (H x z Hx Hz) as (_ & H0 & _).
    destruct (H0 k Hk Hne) as [E|E].
    - apply mul_zero_l; [assumption|now apply get3_finite].
    - apply mul_zero_r; [|assumption]. apply HF; [|assumption].
      apply Nat.Div0.div_lt_upper_bound. lia. }
  split.
  - intros x z Hx Hz'. exists (K x z). split; [apply (H x z Hx Hz')|]. now apply Hz.
  - intros x z Hx Hz'. destruct (H x z Hx Hz') as (HK & _ & HT).
    eapply feq_trans; [|exact HT].
    apply (fstep_pick F c r b j x z (K x z) Hs HK). now apply Hz.
Qed.

(** Appending a core to a tame chain. *)
Lemma tame_snoc (cs : list (tensor R)) : forall ms P r r' h c,
  chain r cs ms r' -> tame P r h cs ->
  fin_mat (P * numel ms) r' (chain_sem cs h) -> fin_core c ->
  (forall x z, x < P * numel ms * nth 1 (shape c) 0 -> z < nth 2 (shape c) 0 ->
     exists k0, k0 < r' /\
       forall k, k < r' -> k <> k0 ->
         is_zero (rmul (chain_sem cs h (x / nth 1 (shape c) 0) k)
                       (get3 c k (x mod nth 1 (shape c) 0) z)) = true) ->
  tame P r h (cs ++ [c]).
Proof.
  induction cs as [|c0 cs IH]; intros [|b0 ms] P r r' h c Hch Ht Hf Hc Hp; cbn in Hch; try tauto.
  - subst r'. change (numel []) with 1 in *. rewrite Nat.mul_1_r in *.
    cbn [app tame chain_sem] in *. auto.
  - destruct Hch as (j0 & Hs0 & Hch). cbn [app tame] in *. rewrite Hs0 in *. cbn [nth] in *.
    destruct Ht as (H1 & H2 & H3 & H4). repeat split; try assumption.
    rewrite numel_cons, Nat.mul_assoc in *.
    eapply IH; eauto.
Qed.

End TameChains.

Section DenseLevels.
Context {R : Type} {SR : Scalar R} {IL : IeeeLaws R}.

Lemma delta_fin_mat p (F : nat -> nat -> R) :
  (forall x z, x < p -> z < p -> feq (F x z) (if x =? z then r1 else r0)) -> fin_mat p p F.
Proof.
  intros H x z Hx Hz. eapply feq_finite; [apply H; assumption|apply zero_one_finite].
Qed.

Lemma div_mod_pos x s : 0 < s -> x / s * s + x mod s = x.
Proof. intros _. pose proof (Nat.div_mod_eq x s). lia. Qed.

(** An identity so far, an identity as the next core. *)
Lemma sem_eye_eye p s (F : nat -> nat -> R) :
  0 < s ->
  (forall x z, x < p -> z < p -> feq (F x z) (if x =? z then r1 else r0)) ->
  level p p s (p * s) F (mkT [p; s; p * s] (data (eye (p * s))))
        (fun x z => if x =? z then r1 else r0 (R := R)).
Proof.
  intros Hs HF. pose proof (delta_fin_mat p F HF) as Hfm.
  split; [assumption|]. split; [apply eye_fin|].
  apply (pick_level p p s (p * s) F _ (fun x _ => x / s)); try assumption;
    [reflexivity|apply eye_fin|].
  intros x z Hx Hz.
  assert (Hxs : x / s < p) by (apply Nat.Div0.div_lt_upper_bound; lia).
  split; [assumption|]. split.
  - intros k Hk Hne. left. pose proof (HF (x / s) k Hxs Hk) as E.
    replace (x / s =? k) with false in E by (symmetry; apply Nat.eqb_neq; congruence).
    eapply feq_zero_r; [exact E|apply zero_r0].
  - pose proof (HF (x / s) (x / s) Hxs Hxs) as E. rewrite Nat.eqb_refl in E.
    apply feq_nonzero in E; [|apply one_nonzero]. rewrite E, mul_one_l.
    rewrite (get3_eye_core p s (p * s) (p * s) (x / s) (x mod s) z x z); try assumption.
    + apply feq_refl.
    + now rewrite div_mod_pos.
Qed.

(** An identity so far, the entries as the next core. *)
Lemma sem_eye_data p s n (F : nat -> nat -> R) (dd : list R) :
  0 < s -> Forall (fun v => is_finite v = true) dd ->
  (forall x z, x < p -> z < p -> feq (F x z) (if x =? z then r1 else r0)) ->
  level p p s n F (mkT [p; s; n] dd) (fun x z => nth (x * n + z) dd r0).
Proof.
  intros Hs Hfin HF. pose proof (delta_fin_mat p F HF) as Hfm.
  split; [assumption|]. split; [exact Hfin|].
  apply (pick_level p p s n F _ (fun x _ => x / s)); try assumption; [reflexivity|].
  intros x z Hx Hz.
  assert (Hxs : x / s < p) by (apply Nat.Div0.div_lt_upper_bound; lia).
  split; [assumption|]. split.
  - intros k Hk Hne. left. pose proof (HF (x / s) k Hxs Hk) as E.
    replace (x / s =? k) with false in E by (symmetry; apply Nat.eqb_neq; congruence).
    eapply feq_zero_r; [exact E|apply zero_r0].
  - pose proof (HF (x / s) (x / s) Hxs Hxs) as E. rewrite Nat.eqb_refl in E.
    apply feq_nonzero in E; [|apply one_nonzero]. rewrite E, mul_one_l.
    unfold get3, get. cbn [shape data nth]. rewrite div_mod_pos by assumption.
    apply feq_refl.
Qed.

(** The entries so far, an identity as the next core. *)
Lemma sem_data_eye p s n (F : nat -> nat -> R) (dd : list R) :
  0 < s -> 0 < n -> Forall (fun v => is_finite v = true) dd ->
  (forall x z, x < p -> z < s * n -> feq (F x z) (nth (x * (s * n) + z) dd r0)) ->
  level p (s * n) s n F (mkT [s * n; s; n] (data (eye (s * n))))
        (fun x z => nth (x * n + z) dd r0).
Proof.
  intros Hs Hn Hfin HF.
  assert (Hfm : fin_mat p (s * n) F).
  { intros x z Hx Hz. eapply feq_finite; [apply HF; assumption|now apply nth_finite]. }
  split; [assumption|]. split; [apply eye_fin|].
  apply (pick_level p (s * n) s n F _ (fun x z => x mod s * n + z)); try assumption;
    [reflexivity|apply eye_fin|].
  intros x z Hx Hz.
  assert (Hxs : x / s < p) by (apply Nat.Div0.div_lt_upper_bound; lia).
  assert (Hy : x mod s < s) by (apply Nat.mod_upper_bound; lia).
  assert (HK : x mod s * n + z < s * n) by nia.
  split; [assumption|]. split.
  - intros k Hk Hne. right.
    rewrite (get3_eye_core (s * n) s n (s * n) k (x mod s) z k (x mod s * n + z));
      try assumption; [|lia].
    replace (k =? x mod s * n + z) with false by (symmetry; apply Nat.eqb_neq; congruence).
    apply zero_r0.
  - rewrite (get3_eye_core (s * n) s n (s * n) _ (x mod s) z
               (x mod s * n + z) (x mod s * n + z)); try assumption; [|lia].
    rewrite Nat.eqb_refl, mul_one_r.
    replace (x * n + z) with (x / s * (s * n) + (x mod s * n + z)).
    + now apply HF.
    + rewrite <- (div_mod_pos x s Hs) at 3. lia.
Qed.

(** Appending a core that satisfies a level keeps the chain tame. *)
Lemma tame_level (cs : list (tensor R)) ms r b j c T :
  chain 1 cs ms r -> tame 1 1 (fun _ _ => r1) cs -> shape c = [r; b; j] ->
  level (numel ms) r b j (chain_sem cs (fun _ _ => r1)) c T ->
  tame 1 1 (fun _ _ => r1) (cs ++ [c]).
Proof.
  intros Hch Ht Hs (H1 & H2 & H3 & _).
  eapply tame_snoc; eauto; rewrite ?Hs; cbn [nth]; rewrite Nat.mul_1_l; assumption.
Qed.

End DenseLevels.

Section DenseFloat.
Context {R : Type} {SR : Scalar R} {IL : IeeeLaws R}.
Variable sh : list nat.
Variable d : list R.
Hypothesis Hpos : Forall (fun s => 0 < s) sh.
Hypothesis Hlen : length d = numel sh.
Hypothesis Hfin : Forall (fun v => is_finite v = true) d.

Local Abbreviation f1 := (fun _ _ : nat => r1 (R := R)).

Lemma dense_step_feq pre s s' post cs D :
  dense_feq_inv sh d pre s (s' :: post) cs D ->
  exists cs' D',
    dense_step sh (cs, D) (length pre + 1) = Ok (cs', D') /\
    dense_feq_inv sh d (pre ++ [s]) s' post cs' D'.
Proof.
  intros (Hsh & r & Hchain & Hgood & Htame & Hst).
  assert (Hall : Forall (fun x => 0 < x) pre /\ 0 < s /\ 0 < s' /\ Forall (fun x => 0 < x) post).
  { rewrite Hsh in Hpos. apply Forall_app in Hpos. destruct Hpos as (H1 & H2).
    inversion H2 as [|? ? H3 H4]; subst. inversion H4; subst. auto. }
  destruct Hall as (Hpre & Hs & Hs' & Hpost).
  pose proof (numel_pos _ Hpre) as Hp. pose proof (numel_pos _ Hpost) as Hq.
  assert (Hd : length d = numel pre * s * (s' * numel post)).
  { rewrite Hlen, Hsh, numel_app, !numel_cons. lia. }
  assert (Hsn1 : py_index sh (length pre + 1 - 1) = Ok s).
  { rewrite Nat.add_sub. apply py_index_nth_error. rewrite Hsh. apply nth_error_middle. }
  assert (Hsn : py_index sh (length pre + 1) = Ok s').
  { apply py_index_nth_error. rewrite Hsh.
    replace (pre ++ s :: s' :: post) with ((pre ++ [s]) ++ s' :: post) by now rewrite <- app_assoc.
    replace (length pre + 1) with (length (pre ++ [s])) by (rewrite length_app; reflexivity).
    apply nth_error_middle. }
  assert (Hsh' : sh = (pre ++ [s]) ++ s' :: post) by now rewrite <- app_assoc.
  cbn zeta in Hst. rewrite numel_cons in Hst.
  set (p := numel pre) in *. set (q := numel post) in *.
  destruct Hst as [(Hr & HD & HF) | (Hr & HD & HF)]; subst r D.
  - (* the entries are still in the remaining matrix *)
    unfold dense_step. cbn [shape py_index nth_error bind]. rewrite Hsn1. cbn [bind].
    destruct (p * s <? s' * q) eqn:Hlt.
    + rewrite floordiv_mul_r by assumption. cbn [bind].
      unfold eye at 1, mk2 at 1.
      rewrite (reshape3 _ _ p s (p * s)) by (rewrite numel2; lia).
      cbn [bind]. rewrite Hsn. cbn [bind]. rewrite floordiv_mul_l by assumption. cbn [bind].
      rewrite (reshape2 _ _ (p * s * s') q) by (rewrite numel2; lia). cbn [bind].
      eexists _, _. split; [reflexivity|].
      fold (mk2 (p * s) (p * s) (fun i j => if i =? j then r1 (R := R) else r0)).
      fold (eye (R := R) (p * s)).
      pose proof (sem_eye_eye p s _ Hs HF) as Hlev.
      split; [exact Hsh'|]. exists (p * s).
      split; [|split; [|split]].
      * eapply chain_app; [eassumption|reflexivity].
      * apply Forall_app. split; [assumption|]. constructor; [|constructor].
        apply good_eye3; nia.
      * eapply (tame_level cs pre p s (p * s)); [exact Hchain|exact Htame|reflexivity|exact Hlev].
      * cbn zeta. rewrite numel_snoc. fold p. fold q. left.
        split; [reflexivity|]. split; [reflexivity|].
        rewrite chain_sem_app. apply Hlev.
    + rewrite floordiv_mul_r by assumption. cbn [bind].
      rewrite (reshape3 _ _ p s (s' * q)) by (rewrite numel2; lia).
      cbn [bind]. rewrite Hsn. cbn [bind]. rewrite floordiv_mul_l by assumption. cbn [bind].
      unfold eye at 1, mk2 at 1.
      rewrite (reshape2 _ _ (s' * q * s') q) by (rewrite numel2; lia). cbn [bind].
      eexists _, _. split; [reflexivity|].
      fold (mk2 (s' * q) (s' * q) (fun i j => if i =? j then r1 (R := R) else r0)).
      fold (eye (R := R) (s' * q)).
      pose proof (sem_eye_data p s (s' * q) _ d Hs Hfin HF) as Hlev.
      split; [exact Hsh'|]. exists (s' * q).
      split; [|split; [|split]].
      * eapply chain_app; [eassumption|reflexivity].
      * apply Forall_app. split; [assumption|]. constructor; [|constructor].
        apply good_data3; nia.
      * eapply (tame_level cs pre p s (s' * q)); [exact Hchain|exact Htame|reflexivity|exact Hlev].
      * cbn zeta. rewrite numel_snoc. fold p. fold q. right.
        split; [reflexivity|]. split; [reflexivity|].
        rewrite chain_sem_app. apply Hlev.
  - (* the entries are in the cores already *)
    unfold dense_step. cbn [shape py_index nth_error bind]. rewrite Hsn1. cbn [bind].
    replace (s * (s' * q) * s <? s' * q) with false.
    2:{ symmetry. apply Nat.ltb_ge. generalize (s' * q). intros X.
        destruct s; [lia|]. nia. }
    rewrite floordiv_mul_r by assumption. cbn [bind].
    rewrite (reshape3 _ _ (s * (s' * q)) s (s' * q)) by (rewrite numel2; lia).
    cbn [bind]. rewrite Hsn. cbn [bind]. rewrite floordiv_mul_l by assumption. cbn [bind].
    unfold eye at 1, mk2 at 1.
    rewrite (reshape2 _ _ (s' * q * s') q) by (rewrite numel2; lia). cbn [bind].
    eexists _, _. split; [reflexivity|].
    fold (mk2 (s' * q) (s' * q) (fun i j => if i =? j then r1 (R := R) else r0)).
    fold (eye (R := R) (s' * q)).
    assert (Hsq : 0 < s' * q) by nia.
    pose proof (sem_data_eye p s (s' * q) _ d Hs Hsq Hfin HF) as Hlev.
    split; [exact Hsh'|]. exists (s' * q).
    split; [|split; [|split]].
    + eapply chain_app; [eassumption|reflexivity].
    + apply Forall_app. split; [assumption|]. constructor; [|constructor].
      apply good_eye3; nia.
    + eapply (tame_level cs pre (s * (s' * q)) s (s' * q));
        [exact Hchain|exact Htame|reflexivity|exact Hlev].
    + cbn zeta. rewrite numel_snoc. fold p. fold q. right.
      split; [reflexivity|]. split; [reflexivity|].
      rewrite chain_sem_app. apply Hlev.
Qed.

Lemma dense_loop_feq post : forall pre s cs D,
  dense_feq_inv sh d pre s post cs D ->
  exists pre' s' cs' D',
    foldM (dense_step sh) (seq (length pre + 1) (length post)) (cs, D) = Ok (cs', D') /\
    dense_feq_inv sh d pre' s' [] cs' D'.
Proof.
  induction post as [|s' post IH]; intros pre s cs D Hinv.
  - exists pre, s, cs, D. split; [reflexivity|assumption].
  - destruct (dense_step_feq _ _ _ _ _ _ Hinv) as (cs1 & D1 & Hstep & Hinv1).
    destruct (IH _ _ _ _ Hinv1) as (pre' & s2 & cs' & D' & Hloop & Hinv').
    exists pre', s2, cs', D'. split; [|assumption].
    cbn [length seq foldM]. rewrite Hstep. cbn [bind].
    rewrite length_app in Hloop. cbn [length] in Hloop.
    replace (S (length pre + 1)) with (length pre + 1 + 1) by lia. exact Hloop.
Qed.

(** The cores of the dense constructor on finite entries: a tame TT chain
    over the array's shape whose entries are the entries of the array, up
    to the sign of zero. *)
Lemma dense_cores_feq :
  sh <> [] ->
  exists cs,
    dense_cores (mkT sh d) = Ok cs /\
    cs <> [] /\ chain 1 cs sh 1 /\ Forall good_core cs /\ tame 1 1 f1 cs /\
    forall x, x < numel sh -> feq (tt_entry cs x) (nth x d r0).
Proof.
  intros Hne.
  assert (E : exists s0 post, sh = s0 :: post).
  { clear - Hne. destruct sh; [congruence|eauto]. }
  destruct E as (s0 & post & Esh).
  assert (Hpos' : Forall (fun x => 0 < x) (s0 :: post)) by now rewrite <- Esh.
  assert (Hs0 : 0 < s0) by now inversion Hpos'.
  assert (Hpost : 0 < numel post) by (apply numel_pos; now inversion Hpos').
  assert (Hinv0 : dense_feq_inv sh d [] s0 post [] (mkT [s0; numel post] d)).
  { split; [now rewrite Esh|]. exists 1.
    split; [reflexivity|]. split; [constructor|]. split; [exact I|].
    cbn zeta. left. change (numel []) with 1. rewrite Nat.mul_1_l.
    split; [reflexivity|]. split; [reflexivity|].
    intros x z Hx Hz. replace (x =? z) with true by (symmetry; apply Nat.eqb_eq; lia).
    apply feq_refl. }
  destruct (dense_loop_feq _ _ _ _ _ Hinv0) as (pre & s & cs & D & Hloop & Hinv).
  destruct Hinv as (Hsh & r & Hchain & Hgood & Htame & Hst).
  assert (Hall : Forall (fun x => 0 < x) pre /\ 0 < s).
  { pose proof Hpos as H0. rewrite Hsh in H0. apply Forall_app in H0. destruct H0 as (H1 & H2).
    inversion H2; subst. auto. }
  destruct Hall as (Hpre & Hs). pose proof (numel_pos _ Hpre) as Hp.
  assert (Hd : numel sh = numel pre * s).
  { rewrite Hsh at 1. now rewrite numel_snoc. }
  assert (HN : length sh - 1 = length pre).
  { rewrite Hsh at 1. rewrite length_app. cbn. lia. }
  assert (HN' : length sh - 1 = length post).
  { rewrite Esh at 1. cbn. lia. }
  assert (Hsl : py_index sh (length pre) = Ok s).
  { apply py_index_nth_error. rewrite Hsh at 1. apply nth_error_middle. }
  assert (Hs0' : py_index sh 0 = Ok s0) by now rewrite Esh.
  assert (Hnum : numel sh = s0 * numel post) by now rewrite Esh.
  cbn zeta in Hst. change (numel []) with 1 in Hst.
  set (p := numel pre) in *.
  unfold dense_cores, dim. cbn [shape]. rewrite Hs0'. cbn [bind].
  rewrite (reshape_infer_r _ _ s0 (numel post)) by assumption.
  cbn [bind]. rewrite HN'. cbn [length] in Hloop.
  change (0 + 1) with 1 in Hloop. rewrite Hloop. cbn [bind].
  rewrite <- HN', HN, Hsl.
  destruct Hst as [(Hr & HD & HF) | (Hr & HD & HF)]; subst r D;
    cbn [shape py_index nth_error bind].
  - rewrite floordiv_mul_r by assumption. cbn [bind].
    rewrite (reshape3 _ _ p s 1) by (rewrite numel2; lia). cbn [bind].
    pose proof (sem_eye_data p s 1 _ d Hs Hfin HF) as Hlev.
    eexists. split; [reflexivity|].
    split; [now destruct cs|]. split; [|split; [|split]].
    + rewrite Hsh at 1. eapply chain_app; [eassumption|reflexivity].
    + apply Forall_app. split; [assumption|]. constructor; [|constructor].
      apply good_data3; lia.
    + eapply (tame_level cs pre p s 1); [exact Hchain|exact Htame|reflexivity|exact Hlev].
    + intros x Hx. unfold tt_entry. rewrite chain_sem_app.
      destruct Hlev as (_ & _ & _ & Hv).
      replace x with (x * 1 + 0) at 2 by lia. apply Hv; lia.
  - rewrite floordiv_mul_r by assumption. cbn [bind].
    rewrite (reshape3 _ _ (s * 1) s 1) by (rewrite numel2; lia). cbn [bind].
    pose proof (sem_data_eye p s 1 _ d Hs Nat.lt_0_1 Hfin HF) as Hlev.
    eexists. split; [reflexivity|].
    split; [now destruct cs|]. split; [|split; [|split]].
    + rewrite Hsh at 1. eapply chain_app; [eassumption|reflexivity].
    + apply Forall_app. split; [assumption|]. constructor; [|constructor].
      apply good_eye3; lia.
    + eapply (tame_level cs pre (s * 1) s 1); [exact Hchain|exact Htame|reflexivity|exact Hlev].
    + intros x Hx. unfold tt_entry. rewrite chain_sem_app.
      destruct Hlev as (_ & _ & _ & Hv).
      replace x with (x * 1 + 0) at 2 by lia. apply Hv; lia.
Qed.

End DenseFloat.

(** ** C1: the round trip through the dense constructor *)

Section C1.
Context {R : Type} {SR : Scalar R} {IL : IeeeLaws R}.

(** The network of a dense array of finite entries, with at least one axis
    and no empty axis: a TT-form network over the array's shape, tame, with
    the entries of the array. *)
Lemma Tensor_of_dense_feq (A : tensor R) :
  wf_tensor A -> shape A <> [] -> Forall (fun s => 0 < s) (shape A) -> fin_core A ->
  exists t cs,
    Tensor_of_dense A None = Ok t /\ tt_form t cs (shape A) /\
    tame 1 1 (fun _ _ => r1) cs /\
    forall x, x < numel (shape A) -> feq (tt_entry cs x) (get A x).
Proof.
  intros Hwf Hne Hpos Hfin. destruct A as [sh d]. cbn [shape data] in *.
  destruct (dense_cores_feq sh d Hpos Hwf Hfin Hne)
    as (cs & Hcs & Hnn & Hchain & Hgood & Htame & Hent).
  exists (mkN (map PT cs) (repeat None (length cs)) (map arange sh)), cs.
  split; [|split; [|split]].
  - unfold Tensor_of_dense. rewrite Hcs. cbn [bind]. eapply init_tail_chain; eauto.
  - repeat split; auto.
  - exact Htame.
  - exact Hent.
Qed.

(** C1 (amended): for every dense array [A] with at least one axis, no axis
    of length zero and no infinite or NaN entry, building the network of [A]
    with no [eps] and then calling [full()] returns an array of the shape of
    [A] each entry of which is the entry of [A]: the same float, or a zero
    where [A] has a zero.  The arithmetic is the float arithmetic: only the
    laws of [IeeeLaws] are used. *)
Theorem dense_roundtrip (A : tensor R) :
  wf_tensor A -> shape A <> [] -> Forall (fun s => 0 < s) (shape A) -> fin_core A ->
  exists t B,
    Tensor_of_dense A None = Ok t /\ full t = Ok B /\
    shape B = shape A /\ wf_tensor B /\
    forall p, p < numel (shape A) -> feq (get B p) (get A p).
Proof.
  intros Hwf Hne Hpos Hfin.
  destruct (Tensor_of_dense_feq A Hwf Hne Hpos Hfin) as (t & cs & Ht & Hform & _ & Hent).
  exists t, (mkT (shape A) (tabulate (numel (shape A)) (tt_entry cs))).
  split; [exact Ht|]. split; [now apply full_tt_sem|]. split; [reflexivity|]. split.
  - unfold wf_tensor. cbn [data shape]. apply tabulate_length.
  - intros p Hp. unfold get at 1. cbn [data]. rewrite tabulate_nth by assumption.
    now apply Hent.
Qed.

End C1.

(** A 2 x 3 array of floats with a zero, a negative zero and a fraction. *)
Lemma dense_roundtrip_witness :
  exists t B,
    Tensor_of_dense
      (mkT [2; 3] [float_of_Z 1; PrimFloat.zero; PrimFloat.neg_zero;
                   PrimFloat.div (float_of_Z 1) (float_of_Z 3); float_of_Z (-5); float_of_Z 7])
      None = Ok t /\
    full t = Ok B /\ shape B = [2; 3] /\ wf_tensor B /\
    forall p, p < 6 ->
      feq (get B p)
          (get (mkT [2; 3] [float_of_Z 1; PrimFloat.zero; PrimFloat.neg_zero;
                            PrimFloat.div (float_of_Z 1) (float_of_Z 3); float_of_Z (-5);
                            float_of_Z 7]) p).
Proof.
  apply (dense_roundtrip (R := PrimFloat.float)).
  - reflexivity.
  - discriminate.
  - repeat constructor.
  - repeat constructor.
Defined.

(** C1, as stated, fails on arrays the constructor rejects and on arrays
    with an infinite or NaN entry.  With an axis of length zero the first
    [reshape] cannot infer [-1], and a 0-dimensional array has no
    [shape[0]].  The network of [[inf, 1], [2, 3]] has the array itself and
    an identity as cores; [full()] contracts them and entry [0, 1] is
    [inf * 0 + 1 * 1], a NaN; the same happens with a NaN in place of the
    infinity. *)
Lemma dense_roundtrip_counterexample :
  (t <- Tensor_of_dense (mkT [0] ([] : list PrimFloat.float)) None ;; full t)
  = Err RuntimeError /\
  (t <- Tensor_of_dense (mkT [2; 0] ([] : list PrimFloat.float)) None ;; full t)
  = Err ZeroDivisionError /\
  (t <- Tensor_of_dense (mkT [] [float_of_Z 7]) None ;; full t)
  = Err (IndexError "index out of range") /\
  (t <- Tensor_of_dense
          (mkT [2; 2] [PrimFloat.infinity; float_of_Z 1; float_of_Z 2; float_of_Z 3]) None ;;
   full t)
  = Ok (mkT [2; 2] [PrimFloat.infinity; PrimFloat.nan; float_of_Z 2; float_of_Z 3]) /\
  (t <- Tensor_of_dense
          (mkT [2; 2] [PrimFloat.nan; float_of_Z 1; float_of_Z 2; float_of_Z 3]) None ;;
   full t)
  = Ok (mkT [2; 2] [PrimFloat.nan; PrimFloat.nan; float_of_Z 2; float_of_Z 3]) /\
  PrimFloat.eqb PrimFloat.nan (float_of_Z 1) = false.
Proof. repeat split. Qed.

(** * Sums of networks *)

(** ** The cores of a sum *)

Section SumForm.
Context {R : Type} {SR : Scalar R}.

Lemma add_block_chain (mid1 : list (tensor R)) : forall mid2 ms r1 r2 r1' r2',
  chain r1 mid1 ms r1' -> chain r2 mid2 ms r2' ->
  chain (r1 + r2) (map (fun p => add_block (fst p) (snd p)) (combine mid1 mid2)) ms (r1' + r2').
Proof.
  induction mid1 as [|c1 mid1 IH]; intros [|c2 mid2] [|m ms] r1 r2 r1' r2' Hc1 Hc2;
    cbn in Hc1, Hc2; try tauto.
  - subst. reflexivity.
  - destruct Hc1 as (j1 & Hs1 & Hc1). destruct Hc2 as (j2 & Hs2 & Hc2).
    cbn [combine map chain fst snd]. exists (j1 + j2). split; [|eauto].
    apply (add_block_shape c1 c2 _ _ _ _ _ _ Hs1 Hs2).
Qed.

Lemma sum_dim0_keep_block (a1 a2 first : tensor R) m j1 j2 :
  shape a1 = [1; m; j1] -> shape a2 = [1; m; j2] ->
  sum_dim0_keep (add_block a1 a2) = Ok first ->
  first = mk3 1 m (j1 + j2) (fun _ y z => sum_n 2 (fun x => get3 (add_block a1 a2) x y z)).
Proof.
  intros H1 H2 Hf. unfold sum_dim0_keep, as3 in Hf.
  rewrite (add_block_shape a1 a2 _ _ _ _ _ _ H1 H2) in Hf. cbn [bind] in Hf.
  now injection Hf as <-.
Qed.

Lemma sum_dim2_keep_block (l1 l2 last : tensor R) r1 r2 m :
  shape l1 = [r1; m; 1] -> shape l2 = [r2; m; 1] ->
  sum_dim2_keep (add_block l1 l2) = Ok last ->
  last = mk3 (r1 + r2) m 1 (fun x y _ => sum_n 2 (fun z => get3 (add_block l1 l2) x y z)).
Proof.
  intros H1 H2 Hf. unfold sum_dim2_keep, as3 in Hf.
  rewrite (add_block_shape l1 l2 _ _ _ _ _ _ H1 H2) in Hf. cbn [bind] in Hf.
  now injection Hf as <-.
Qed.

(** The sum of two TT-form networks over the same modes is returned and is
    a TT-form network over these modes, with the cores of [sum_cores]. *)
Lemma add_form (s t : network R) cs1 cs2 ms :
  tt_form s cs1 ms -> tt_form t cs2 ms ->
  exists u csu,
    add s (OpT t) = Ok u /\ tt_form u csu ms /\ sum_cores cs1 cs2 csu.
Proof.
  intros Hs Ht.
  pose proof Hs as (Hc1 & Hu1 & Hne1 & Hch1 & Hg1).
  pose proof Ht as (Hc2 & Hu2 & Hne2 & Hch2 & Hg2).
  pose proof (chain_length _ _ _ _ Hch1) as Hl1.
  pose proof (chain_length _ _ _ _ Hch2) as Hl2.
  pose proof (chain_modes_pos _ _ _ _ Hch1 Hg1) as Hms.
  unfold add. cbn [bind].
  rewrite (net_shape_tt _ _ _ Hs), (net_shape_tt _ _ _ Ht). cbn [bind].
  rewrite list_eqb_refl. cbn [negb].
  destruct (Nat.eqb_spec (ndim s) 1) as [HN|HN].
  - (* one mode *)
    assert (length cs1 = 1) by (unfold ndim in HN; now rewrite Hc1, length_map in HN).
    destruct cs1 as [|c1 [|? ?]]; try discriminate.
    destruct cs2 as [|c2 [|? ?]]; try (cbn in *; lia).
    destruct ms as [|m [|? ?]]; try (cbn in *; lia).
    cbn in Hch1, Hch2. destruct Hch1 as (j1 & Hs1 & Hj1). destruct Hch2 as (j2 & Hs2 & Hj2).
    subst j1 j2.
    inversion Hg1 as [|? ? Hgc1 _]; subst. inversion Hg2 as [|? ? Hgc2 _]; subst.
    destruct (good_shape3 _ _ _ _ Hgc1 Hs1) as (_ & Hm & _).
    destruct s as [sc su si]. destruct t as [tc tu ti]. cbn [cores Us] in *. subst sc su tc tu.
    rewrite (full_tucker_chain 1 [c1] [m] 1 si) by (cbn; eauto).
    rewrite (full_tucker_chain 1 [c2] [m] 1 ti) by (cbn; eauto).
    cbn [bind cores map py_index nth_error core_t].
    unfold tensor_add, pointwise. rewrite Hs1, Hs2, list_eqb_refl. cbn [bind].
    set (c := mkT [1; m; 1] (zip_with radd (data c1) (data c2))).
    assert (Hchc : chain 1 [c] [m] 1) by (cbn; eauto).
    change [PT c] with (map (@PT R) [c]).
    rewrite (Tensor_of_cores_checks _ _ _ _ None None Hchc).
    rewrite (init_tail_chain _ _ _ _ Hchc).
    destruct Hgc1 as (Hw1 & _). destruct Hgc2 as (Hw2 & _).
    unfold wf_tensor in Hw1, Hw2. rewrite Hs1, numel3 in Hw1. rewrite Hs2, numel3 in Hw2.
    eexists _, [c]. split; [reflexivity|]. split.
    + repeat split; auto; try discriminate. constructor; [|constructor]. split.
      * unfold wf_tensor, c. cbn [data shape]. rewrite zip_with_length, numel3; lia.
      * cbn [c shape]. repeat constructor; lia.
    + left. exists c1, c2, m. auto.
  - (* at least two modes *)
    assert (HN2 : 2 <= length cs1).
    { unfold ndim in HN. rewrite Hc1, length_map in HN.
      destruct cs1 as [|? [|? ?]]; cbn in *; try lia. congruence. }
    destruct (list_ends cs1 HN2) as (a1 & mid1 & l1 & E1).
    destruct (list_ends cs2 ltac:(lia)) as (a2 & mid2 & l2 & E2).
    destruct (list_ends ms ltac:(lia)) as (m0 & mmid & ml & Em).
    subst cs1 cs2 ms.
    assert (Hlm : length mid1 = length mid2).
    { cbn in Hl1, Hl2. rewrite !length_app in *. cbn in *. lia. }
    cbn in Hch1, Hch2.
    destruct Hch1 as (j1 & Hsa1 & Hch1). destruct Hch2 as (j2 & Hsa2 & Hch2).
    destruct (chain_app_inv _ _ _ _ _ _ Hch1) as (k1 & Hmid1 & Hsl1).
    destruct (chain_app_inv _ _ _ _ _ _ Hch2) as (k2 & Hmid2 & Hsl2).
    inversion Hms as [|? ? Hm0 Hms']; subst.
    apply Forall_app in Hms'. destruct Hms' as (Hmmid & Hml).
    inversion Hml as [|? ? Hml' _]; subst.
    rewrite (add_loop_tt s t _ _ _ Hs Ht). cbn [bind].
    rewrite !map_map. cbn [fst snd].
    rewrite (map_const_repeat (combine _ _) None).
    cbn [combine map]. rewrite (combine_snoc mid1 mid2 l1 l2 Hlm), map_app. cbn [map fst snd].
    cbn [py_index nth_error bind].
    destruct (sum_dim0_keep (add_block a1 a2)) as [first|e] eqn:Hfirst.
    2:{ unfold sum_dim0_keep, as3 in Hfirst.
        rewrite (add_block_shape a1 a2 _ _ _ _ _ _ Hsa1 Hsa2) in Hfirst. discriminate. }
    cbn [bind set_first].
    rewrite app_comm_cons, py_last_snoc. cbn [bind].
    destruct (sum_dim2_keep (add_block l1 l2)) as [last|e] eqn:Hlast.
    2:{ unfold sum_dim2_keep, as3 in Hlast.
        rewrite (add_block_shape l1 l2 _ _ _ _ _ _ Hsl1 Hsl2) in Hlast. discriminate. }
    cbn [bind]. rewrite set_last_snoc. cbn [bind].
    pose proof (sum_dim0_keep_block _ _ _ _ _ _ Hsa1 Hsa2 Hfirst) as Ef.
    pose proof (sum_dim2_keep_block _ _ _ _ _ _ Hsl1 Hsl2 Hlast) as El.
    pose proof (add_block_chain mid1 mid2 mmid _ _ _ _ Hmid1 Hmid2) as Hchm.
    set (Bmid := map (fun p => add_block (fst p) (snd p)) (combine mid1 mid2)) in *.
    set (csu := (first :: Bmid) ++ [last]).
    assert (Hchu : chain 1 csu (m0 :: mmid ++ [ml]) 1).
    { unfold csu. cbn. exists (j1 + j2). split; [now rewrite Ef|].
      eapply chain_app; [exact Hchm|now rewrite El]. }
    match goal with
    | |- context [repeat None ?n] => replace n with (length csu)
    end.
    2:{ unfold csu, Bmid. cbn [length app]. rewrite !length_app, !length_map. cbn [length]. lia. }
    rewrite (Tensor_of_cores_checks _ _ _ _ _ None Hchu).
    rewrite (init_tail_no_factors _ _ _ _ Hchu).
    eexists _, csu. split; [reflexivity|]. split.
    + repeat split; auto; try discriminate. unfold csu.
      inversion Hg1 as [|? ? Hga1 Hg1']; subst. inversion Hg2 as [|? ? Hga2 Hg2']; subst.
      apply Forall_app in Hg1'. destruct Hg1' as (Hgm1 & Hgl1).
      apply Forall_app in Hg2'. destruct Hg2' as (Hgm2 & Hgl2).
      pose proof (add_block_mid_good mid1 mid2 mmid _ _ _ _ Hmid1 Hmid2 Hgm1 Hgm2) as Hgmid.
      fold Bmid in Hgmid.
      inversion Hgl1 as [|? ? Hgl1' _]; subst.
      destruct (good_shape3 _ _ _ _ Hga1 Hsa1) as (_ & _ & Hj1).
      destruct (good_shape3 _ _ _ _ Hgl1' Hsl1) as (Hk1 & _ & _).
      apply Forall_app. split; [constructor; [|assumption]|constructor; [|constructor]].
      * apply mk3_good; lia.
      * apply mk3_good; lia.
    + right. exists a1, mid1, l1, a2, mid2, l2, first, last. auto.
Qed.

End SumForm.

(** ** The entries of a sum, in float arithmetic *)

Section SumFloat.
Context {R : Type} {SR : Scalar R} {IL : IeeeLaws R}.

Local Abbreviation f1 := (fun _ _ : nat => r1 (R := R)).

Lemma sum_n_1 (F : nat -> R) : sum_n 1 F = radd r0 (F 0).
Proof. reflexivity. Qed.

Lemma sum_n_2 (F : nat -> R) : sum_n 2 F = radd (radd r0 (F 0)) (F 1).
Proof. reflexivity. Qed.

(** The first contraction reads the core. *)
Lemma fstep_first (c : tensor R) m j x z :
  shape c = [1; m; j] -> feq (fstep f1 c x z) (get3 c 0 (x mod m) z).
Proof.
  intros Hs. unfold fstep. rewrite Hs. cbn [nth]. rewrite sum_n_1, mul_one_l.
  apply radd_zero_l_feq, zero_r0.
Qed.

(** The first core of a sum: the two first cores side by side. *)
Lemma first_side_feq (a1 a2 first : tensor R) m j1 j2 :
  shape a1 = [1; m; j1] -> shape a2 = [1; m; j2] -> 0 < m ->
  sum_dim0_keep (add_block a1 a2) = Ok first ->
  side_by_side_feq (1 * m) j1 j2 (fstep f1 first) (fstep f1 a1) (fstep f1 a2).
Proof.
  intros H1 H2 Hm Hf. rewrite (sum_dim0_keep_block _ _ _ _ _ _ H1 H2 Hf).
  intros x z Hx Hz.
  assert (Hy : x mod m < m) by (apply Nat.mod_upper_bound; lia).
  eapply feq_trans; [apply (fstep_first _ m (j1 + j2)); reflexivity|].
  rewrite get3_mk3 by (try assumption; lia). rewrite sum_n_2.
  rewrite !(add_block_entry a1 a2 1 m j1 1 j2) by (try assumption; lia).
  change (0 <? 1) with true. change (1 <? 1) with false. change (1 - 1) with 0.
  destruct (z <? j1).
  - eapply feq_trans; [apply radd_zero_r_feq, zero_r0|].
    eapply feq_trans; [apply radd_zero_l_feq, zero_r0|].
    apply feq_sym. now apply (fstep_first a1 m j1).
  - eapply feq_trans; [apply radd_zero_l_feq; apply add_zero_zero; apply zero_r0|].
    apply feq_sym. now apply (fstep_first a2 m j2).
Qed.

(** Contracting a block core keeps two chains side by side. *)
Lemma fstep_side_feq P r1 r2 (g h1 h2 : nat -> nat -> R) (c1 c2 : tensor R) m j1 j2 :
  side_by_side_feq P r1 r2 g h1 h2 ->
  shape c1 = [r1; m; j1] -> shape c2 = [r2; m; j2] -> 0 < m ->
  fin_mat P r1 h1 -> fin_mat P r2 h2 -> fin_core c1 -> fin_core c2 ->
  side_by_side_feq (P * m) j1 j2 (fstep g (add_block c1 c2)) (fstep h1 c1) (fstep h2 c2).
Proof.
  intros Hg H1 H2 Hm Hf1 Hf2 Hc1 Hc2 x z Hx Hz. unfold fstep.
  rewrite (add_block_shape c1 c2 _ _ _ _ _ _ H1 H2), H1, H2. cbn [nth].
  assert (Hxm : x / m < P) by (apply Nat.Div0.div_lt_upper_bound; lia).
  assert (Hy : x mod m < m) by (apply Nat.mod_upper_bound; lia).
  assert (Hg1 : forall k, k < r1 -> feq (g (x / m) k) (h1 (x / m) k)).
  { intros k Hk. pose proof (Hg (x / m) k Hxm ltac:(lia)) as E.
    now replace (k <? r1) with true in E by (symmetry; apply Nat.ltb_lt; lia). }
  assert (Hg2 : forall k, k < r2 -> feq (g (x / m) (r1 + k)) (h2 (x / m) k)).
  { intros k Hk. pose proof (Hg (x / m) (r1 + k) Hxm ltac:(lia)) as E.
    replace (r1 + k <? r1) with false in E by (symmetry; apply Nat.ltb_ge; lia).
    now replace (r1 + k - r1) with k in E by lia. }
  destruct (Nat.ltb_spec z j1) as [Hlt|Hge].
  - eapply feq_trans; [apply sum_n_zero_tail|apply sum_n_feq].
    + intros k Hk.
      rewrite (add_block_entry c1 c2 r1 m j1 r2 j2) by (try assumption; lia).
      replace (z <? j1) with true by (symmetry; apply Nat.ltb_lt; lia).
      replace (r1 + k <? r1) with false by (symmetry; apply Nat.ltb_ge; lia).
      apply mul_zero_r; [|apply zero_r0].
      eapply feq_finite; [apply Hg2; assumption|now apply Hf2].
    + intros k Hk.
      rewrite (add_block_entry c1 c2 r1 m j1 r2 j2) by (try assumption; lia).
      replace (z <? j1) with true by (symmetry; apply Nat.ltb_lt; lia).
      replace (k <? r1) with true by (symmetry; apply Nat.ltb_lt; lia).
      apply rmul_feq; [now apply Hg1|apply feq_refl|now apply Hf1|now apply get3_finite].
  - eapply feq_trans; [apply sum_n_zero_head|apply sum_n_feq].
    + intros k Hk.
      rewrite (add_block_entry c1 c2 r1 m j1 r2 j2) by (try assumption; lia).
      replace (z <? j1) with false by (symmetry; apply Nat.ltb_ge; lia).
      replace (k <? r1) with true by (symmetry; apply Nat.ltb_lt; lia).
      apply mul_zero_r; [|apply zero_r0].
      eapply feq_finite; [apply Hg1; assumption|now apply Hf1].
    + intros k Hk. cbv beta.
      rewrite (add_block_entry c1 c2 r1 m j1 r2 j2) by (try assumption; lia).
      replace (z <? j1) with false by (symmetry; apply Nat.ltb_ge; lia).
      replace (r1 + k <? r1) with false by (symmetry; apply Nat.ltb_ge; lia).
      replace (r1 + k - r1) with k by lia.
      apply rmul_feq; [now apply Hg2|apply feq_refl|now apply Hf2|now apply get3_finite].
Qed.

(** The last core of a sum: the contraction adds the two chains, when the
    last sum of the second chain keeps one term. *)
Lemma last_adds_feq P r1 r2 (g h1 h2 : nat -> nat -> R) (c1 c2 last : tensor R) m :
  side_by_side_feq P r1 r2 g h1 h2 ->
  shape c1 = [r1; m; 1] -> shape c2 = [r2; m; 1] -> 0 < m ->
  fin_mat P r1 h1 -> fin_mat P r2 h2 -> fin_core c1 -> fin_core c2 ->
  (forall x z, x < P * m -> z < 1 ->
     exists k0, k0 < r2 /\
       forall k, k < r2 -> k <> k0 ->
         is_zero (rmul (h2 (x / m) k) (get3 c2 k (x mod m) z)) = true) ->
  sum_dim2_keep (add_block c1 c2) = Ok last ->
  forall x, x < P * m ->
    feq (fstep g last x 0) (radd (fstep h1 c1 x 0) (fstep h2 c2 x 0)).
Proof.
  intros Hg H1 H2 Hm Hf1 Hf2 Hc1 Hc2 Hpick Hl x Hx.
  rewrite (sum_dim2_keep_block _ _ _ _ _ _ H1 H2 Hl).
  unfold fstep. cbn [mk3 shape nth]. rewrite H1, H2. cbn [nth].
  assert (Hxm : x / m < P) by (apply Nat.Div0.div_lt_upper_bound; lia).
  assert (Hy : x mod m < m) by (apply Nat.mod_upper_bound; lia).
  set (L := mk3 (r1 + r2) m 1
                (fun x0 y _ => sum_n 2 (fun z => get3 (add_block c1 c2) x0 y z))).
  assert (HL1 : forall k, k < r1 -> feq (get3 L k (x mod m) 0) (get3 c1 k (x mod m) 0)).
  { intros k Hk. unfold L. rewrite get3_mk3 by (try assumption; lia). rewrite sum_n_2.
    rewrite !(add_block_entry c1 c2 r1 m 1 r2 1) by (try assumption; lia).
    change (0 <? 1) with true. change (1 <? 1) with false.
    replace (k <? r1) with true by (symmetry; apply Nat.ltb_lt; lia).
    eapply feq_trans; [apply radd_zero_r_feq, zero_r0|apply radd_zero_l_feq, zero_r0]. }
  assert (HL2 : forall k, k < r2 -> feq (get3 L (r1 + k) (x mod m) 0) (get3 c2 k (x mod m) 0)).
  { intros k Hk. unfold L. rewrite get3_mk3 by (try assumption; lia). rewrite sum_n_2.
    rewrite !(add_block_entry c1 c2 r1 m 1 r2 1) by (try assumption; lia).
    change (0 <? 1) with true. change (1 <? 1) with false. change (1 - 1) with 0.
    replace (r1 + k <? r1) with false by (symmetry; apply Nat.ltb_ge; lia).
    replace (r1 + k - r1) with k by lia.
    apply radd_zero_l_feq. apply add_zero_zero; apply zero_r0. }
  assert (Hg1 : forall k, k < r1 -> feq (g (x / m) k) (h1 (x / m) k)).
  { intros k Hk. pose proof (Hg (x / m) k Hxm ltac:(lia)) as E.
    now replace (k <? r1) with true in E by (symmetry; apply Nat.ltb_lt; lia). }
  assert (Hg2 : forall k, k < r2 -> feq (g (x / m) (r1 + k)) (h2 (x / m) k)).
  { intros k Hk. pose proof (Hg (x / m) (r1 + k) Hxm ltac:(lia)) as E.
    replace (r1 + k <? r1) with false in E by (symmetry; apply Nat.ltb_ge; lia).
    now replace (r1 + k - r1) with k in E by lia. }
  set (F := fun k => rmul (g (x / m) k) (get3 L k (x mod m) 0)).
  set (T1 := fun k => rmul (h1 (x / m) k) (get3 c1 k (x mod m) 0)).
  set (T2 := fun k => rmul (h2 (x / m) k) (get3 c2 k (x mod m) 0)).
  assert (Ha : forall k, k < r1 -> feq (F k) (T1 k)).
  { intros k Hk. unfold F, T1.
    apply rmul_feq; [now apply Hg1|now apply HL1|now apply Hf1|now apply get3_finite]. }
  assert (Hb : forall k, k < r2 -> feq (F (r1 + k)) (T2 k)).
  { intros k Hk. unfold F, T2.
    apply rmul_feq; [now apply Hg2|now apply HL2|now apply Hf2|now apply get3_finite]. }
  destruct (Hpick x 0 Hx Nat.lt_0_1) as (k0 & Hk0 & Hz). fold T2 in Hz.
  eapply feq_trans.
  { apply (sum_n_pick_tail r1 r2 F k0 Hk0). intros k Hk Hne.
    eapply feq_zero_r; [apply Hb; assumption|now apply Hz]. }
  apply radd_feq.
  - now apply sum_n_feq.
  - eapply feq_trans; [apply Hb; assumption|].
    apply feq_sym. now apply sum_n_pick.
Qed.

(** The middle cores of a sum keep the two chains side by side. *)
Lemma mid_side_feq (mid1 : list (tensor R)) :
  forall mid2 ms P r1 r2 r1' r2' g h1 h2 rest1 rest2,
  chain r1 mid1 ms r1' -> chain r2 mid2 ms r2' ->
  Forall (fun m => 0 < m) ms ->
  tame P r1 h1 (mid1 ++ rest1) -> tame P r2 h2 (mid2 ++ rest2) ->
  side_by_side_feq P r1 r2 g h1 h2 ->
  side_by_side_feq (P * numel ms) r1' r2'
    (chain_sem (map (fun p => add_block (fst p) (snd p)) (combine mid1 mid2)) g)
    (chain_sem mid1 h1) (chain_sem mid2 h2) /\
  tame (P * numel ms) r1' (chain_sem mid1 h1) rest1 /\
  tame (P * numel ms) r2' (chain_sem mid2 h2) rest2.
Proof.
  induction mid1 as [|c1 mid1 IH];
    intros [|c2 mid2] [|m ms] P r1 r2 r1' r2' g h1 h2 rest1 rest2 Hc1 Hc2 Hms Ht1 Ht2 Hg;
    cbn in Hc1, Hc2; try tauto.
  - subst. cbn. change (numel []) with 1. rewrite Nat.mul_1_r. auto.
  - destruct Hc1 as (j1 & Hs1 & Hc1). destruct Hc2 as (j2 & Hs2 & Hc2).
    inversion Hms as [|? ? Hm Hms']; subst.
    cbn [app tame] in Ht1, Ht2. rewrite Hs1 in Ht1. rewrite Hs2 in Ht2. cbn [nth] in Ht1, Ht2.
    destruct Ht1 as (Hf1 & Hk1 & _ & Ht1). destruct Ht2 as (Hf2 & Hk2 & _ & Ht2).
    pose proof (fstep_side_feq P r1 r2 g h1 h2 c1 c2 m j1 j2 Hg Hs1 Hs2 Hm Hf1 Hf2 Hk1 Hk2)
      as Hstep.
    destruct (IH mid2 ms (P * m) j1 j2 r1' r2' _ _ _ rest1 rest2 Hc1 Hc2 Hms' Ht1 Ht2 Hstep)
      as (Hsem & Hr1 & Hr2).
    cbn [combine map chain_sem fst snd]. rewrite numel_cons, Nat.mul_assoc. auto.
Qed.

(** The sum of two tame TT-form networks over the same modes: its entries
    are the sums of the entries, up to the sign of zero. *)
Lemma add_feq (s t : network R) cs1 cs2 ms :
  tt_form s cs1 ms -> tt_form t cs2 ms ->
  tame 1 1 f1 cs1 -> tame 1 1 f1 cs2 ->
  exists u csu,
    add s (OpT t) = Ok u /\ tt_form u csu ms /\
    forall x, x < numel ms -> feq (tt_entry csu x) (radd (tt_entry cs1 x) (tt_entry cs2 x)).
Proof.
  intros Hs Ht Ht1 Ht2.
  destruct (add_form s t cs1 cs2 ms Hs Ht) as (u & csu & Hu & Hfu & Hsum).
  exists u, csu. split; [assumption|]. split; [assumption|].
  pose proof Hs as (_ & _ & _ & Hch1 & Hg1).
  pose proof Ht as (_ & _ & _ & Hch2 & Hg2).
  pose proof (chain_modes_pos _ _ _ _ Hch1 Hg1) as Hms.
  destruct Hsum as [(c1 & c2 & m' & -> & -> & ->)
                   |(a1 & mid1 & l1 & a2 & mid2 & l2 & first & last & -> & -> & Hf & Hl & ->)].
  - (* one mode *)
    destruct ms as [|m ms']; [cbn in Hch1; tauto|].
    destruct ms' as [|m2 ms']; [|cbn in Hch1; destruct Hch1 as (? & _ & Hbad); tauto].
    cbn in Hch1, Hch2.
    destruct Hch1 as (j1 & Hs1 & ->). destruct Hch2 as (j2 & Hs2 & ->).
    pose proof Hfu as (_ & _ & _ & Hchu & _). cbn in Hchu.
    destruct Hchu as (j & Hsu & _). cbn [shape] in Hsu. injection Hsu as -> _.
    inversion Hg1 as [|? ? [Hw1 _] _]; subst. inversion Hg2 as [|? ? [Hw2 _] _]; subst.
    unfold wf_tensor in Hw1, Hw2. rewrite Hs1, numel3 in Hw1. rewrite Hs2, numel3 in Hw2.
    inversion Hms as [|? ? Hm _]; subst.
    intros x Hx. unfold tt_entry. cbn [chain_sem].
    assert (Hy : x mod m < m) by (apply Nat.mod_upper_bound; lia).
    eapply feq_trans; [apply (fstep_first _ m 1); reflexivity|].
    unfold get3 at 1, get at 1. cbn [shape data nth].
    rewrite zip_with_nth by lia.
    apply radd_feq; apply feq_sym.
    + eapply feq_trans; [apply (fstep_first c1 m 1 x 0 Hs1)|].
      unfold get3, get. rewrite Hs1. cbn [nth]. apply feq_refl.
    + eapply feq_trans; [apply (fstep_first c2 m 1 x 0 Hs2)|].
      unfold get3, get. rewrite Hs2. cbn [nth]. apply feq_refl.
  - (* at least two modes *)
    pose proof (chain_length _ _ _ _ Hch1) as Hl1.
    destruct (list_ends ms) as (m0 & mmid & ml & ->).
    { rewrite <- Hl1. cbn [length]. rewrite length_app. cbn [length]. lia. }
    cbn in Hch1, Hch2.
    destruct Hch1 as (j1 & Hsa1 & Hch1). destruct Hch2 as (j2 & Hsa2 & Hch2).
    destruct (chain_app_inv _ _ _ _ _ _ Hch1) as (k1 & Hmid1 & Hsl1).
    destruct (chain_app_inv _ _ _ _ _ _ Hch2) as (k2 & Hmid2 & Hsl2).
    inversion Hms as [|? ? Hm0 Hms']; subst.
    apply Forall_app in Hms'. destruct Hms' as (Hmmid & Hml).
    inversion Hml as [|? ? Hml' _]; subst.
    cbn [tame] in Ht1, Ht2. rewrite Hsa1 in Ht1. rewrite Hsa2 in Ht2. cbn [nth] in Ht1, Ht2.
    destruct Ht1 as (_ & Hfa1 & _ & Ht1). destruct Ht2 as (_ & Hfa2 & _ & Ht2).
    pose proof (first_side_feq a1 a2 first m0 j1 j2 Hsa1 Hsa2 Hm0 Hf) as Hside0.
    destruct (mid_side_feq mid1 mid2 mmid (1 * m0) j1 j2 k1 k2 _ _ _ [l1] [l2]
                Hmid1 Hmid2 Hmmid Ht1 Ht2 Hside0) as (Hsidem & Hr1 & Hr2).
    cbn [tame] in Hr1, Hr2. rewrite Hsl1 in Hr1. rewrite Hsl2 in Hr2. cbn [nth] in Hr1, Hr2.
    destruct Hr1 as (Hfm1 & Hfl1 & _ & _). destruct Hr2 as (Hfm2 & Hfl2 & Hpick & _).
    intros x Hx. unfold tt_entry.
    cbn [app chain_sem]. rewrite !chain_sem_app.
    eapply (last_adds_feq _ k1 k2 _ _ _ l1 l2 last ml Hsidem Hsl1 Hsl2 Hml'
              Hfm1 Hfm2 Hfl1 Hfl2 Hpick Hl).
    rewrite numel_cons, numel_snoc in Hx. lia.
Qed.

End SumFloat.

(** ** The cores of a product *)

Section ProductForm.
Context {R : Type} {SR : Scalar R}.

Lemma kron3_shape (c1 c2 : tensor R) r1 m1 j1 r2 m2 j2 :
  shape c1 = [r1; m1; j1] -> shape c2 = [r2; m2; j2] ->
  shape (kron3 c1 c2) = [r1 * r2; m1 * m2; j1 * j2].
Proof. intros H1 H2. unfold kron3. rewrite H1, H2. reflexivity. Qed.

(** One pass of the loop of [__mul__] on two cores without factors. *)
Lemma mul_mode_kron (s t : network R) ms n (c1 c2 : tensor R) r1 m1 j1 r2 m2 j2 :
  nth_error (cores s) n = Some (PT c1) -> nth_error (cores t) n = Some (PT c2) ->
  nth_error (Us s) n = Some None -> nth_error (Us t) n = Some None ->
  shape c1 = [r1; m1; j1] -> shape c2 = [r2; m2; j2] ->
  mul_mode s t ms n = Ok (kron3 c1 c2, None).
Proof.
  intros Hc1 Hc2 Hu1 Hu2 H1 H2. unfold mul_mode.
  rewrite (py_index_nth_error _ _ _ Hc1), (py_index_nth_error _ _ _ Hc2).
  rewrite (py_index_nth_error _ _ _ Hu1), (py_index_nth_error _ _ _ Hu2).
  cbn [bind core_arg]. unfold core_kron, as3. rewrite H1, H2. cbn [bind].
  unfold kron3. rewrite H1, H2. reflexivity.
Qed.

Lemma mul_loop_kron (s t : network R) cs1 cs2 ms :
  tt_form s cs1 ms -> tt_form t cs2 ms ->
  mapM (mul_mode s t ms) (seq 0 (ndim s))
  = Ok (map (fun p => (kron3 (fst p) (snd p), None)) (combine cs1 cs2)).
Proof.
  intros (Hc1 & Hu1 & _ & Hch1 & _) (Hc2 & Hu2 & _ & Hch2 & _).
  pose proof (chain_length _ _ _ _ Hch1) as Hl1.
  pose proof (chain_length _ _ _ _ Hch2) as Hl2.
  replace (ndim s) with (length (combine cs1 cs2)).
  2:{ unfold ndim. rewrite Hc1, length_map, length_combine. lia. }
  apply mapM_seq_nth. intros n [c1 c2] Hn.
  apply nth_error_combine in Hn. cbn [fst snd] in *. destruct Hn as (Hn1 & Hn2).
  destruct (chain_nth _ _ _ _ _ _ Hch1 Hn1) as (a1 & m & j1 & Hs1 & Hm & _).
  destruct (chain_nth _ _ _ _ _ _ Hch2 Hn2) as (a2 & m' & j2 & Hs2 & Hm' & _).
  assert (Hlt1 : n < length cs1) by (apply nth_error_Some; congruence).
  eapply mul_mode_kron; eauto.
  - rewrite Hc1, nth_error_map, Hn1. reflexivity.
  - rewrite Hc2, nth_error_map, Hn2. reflexivity.
  - rewrite Hu1. apply nth_error_repeat_None. lia.
  - rewrite Hu2. apply nth_error_repeat_None. lia.
Qed.

Lemma kron3_chain (cs1 : list (tensor R)) : forall cs2 ms r1 r2 r1' r2',
  chain r1 cs1 ms r1' -> chain r2 cs2 ms r2' ->
  Forall good_core cs1 -> Forall good_core cs2 ->
  chain (r1 * r2) (map (fun p => kron3 (fst p) (snd p)) (combine cs1 cs2))
        (map (fun m => m * m) ms) (r1' * r2') /\
  Forall good_core (map (fun p => kron3 (fst p) (snd p)) (combine cs1 cs2)).
Proof.
  induction cs1 as [|c1 cs1 IH]; intros [|c2 cs2] [|m ms] r1 r2 r1' r2' H1 H2 Hg1 Hg2;
    cbn in H1, H2; try tauto.
  - subst. cbn. auto.
  - destruct H1 as (j1 & Hs1 & H1). destruct H2 as (j2 & Hs2 & H2).
    inversion Hg1 as [|? ? Hc1 Hg1']; subst. inversion Hg2 as [|? ? Hc2 Hg2']; subst.
    destruct (good_shape3 _ _ _ _ Hc1 Hs1) as (? & ? & ?).
    destruct (good_shape3 _ _ _ _ Hc2 Hs2) as (? & ? & ?).
    destruct (IH cs2 ms j1 j2 r1' r2' H1 H2 Hg1' Hg2') as (Hch & Hgood).
    cbn [combine map chain fst snd]. split.
    + exists (j1 * j2). split; [|assumption].
      apply (kron3_shape c1 c2 _ _ _ _ _ _ Hs1 Hs2).
    + constructor; [|assumption]. unfold kron3. rewrite Hs1, Hs2. cbn [nth].
      apply mk3_good; nia.
Qed.

(** The product of two TT-form networks over the modes [ms] is returned
    and is a TT-form network over the squared modes: the three-axis
    Kronecker product multiplies the mode axis out as well. *)
Lemma mul_form (s t : network R) cs1 cs2 ms :
  tt_form s cs1 ms -> tt_form t cs2 ms ->
  exists v,
    mul s (OpT t) = Ok v /\
    tt_form v (map (fun p => kron3 (fst p) (snd p)) (combine cs1 cs2))
            (map (fun m => m * m) ms).
Proof.
  intros Hs Ht.
  pose proof Hs as (Hc1 & Hu1 & Hne1 & Hch1 & Hg1).
  pose proof Ht as (Hc2 & Hu2 & Hne2 & Hch2 & Hg2).
  pose proof (chain_length _ _ _ _ Hch1) as Hl1.
  pose proof (chain_length _ _ _ _ Hch2) as Hl2.
  unfold mul. rewrite (net_shape_tt _ _ _ Hs), (net_shape_tt _ _ _ Ht). cbn [bind].
  rewrite list_eqb_refl. cbn [negb].
  rewrite (mul_loop_kron s t _ _ _ Hs Ht). cbn [bind].
  rewrite (map_map (fun p => (kron3 (fst p) (snd p), @None (tensor R))) fst).
  rewrite (map_map (fun p => (kron3 (fst p) (snd p), @None (tensor R))) snd).
  cbn [fst snd].
  rewrite (map_const_repeat (combine _ _) None).
  destruct (kron3_chain cs1 cs2 ms 1 1 1 1 Hch1 Hch2 Hg1 Hg2) as (Hchu & Hgu).
  change (1 * 1) with 1 in Hchu.
  set (csu := map (fun p => kron3 (fst p) (snd p)) (combine cs1 cs2)) in *.
  replace (length (combine cs1 cs2)) with (length csu)
    by (unfold csu; now rewrite length_map).
  rewrite (Tensor_of_cores_checks _ _ _ _ _ None Hchu).
  rewrite (init_tail_no_factors _ _ _ _ Hchu).
  eexists. split; [reflexivity|].
  repeat split; auto. intros E. apply (f_equal (@length _)) in E.
  unfold csu in E. rewrite length_map, length_combine in E. cbn [length] in E.
  destruct cs1; [congruence|]. destruct cs2; [congruence|]. cbn in E. lia.
Qed.

End ProductForm.

(** ** C3: sums and products of the networks of dense arrays *)

Lemma nth_error_combine_both {A B} (l1 : list A) : forall (l2 : list B) n a b,
  nth_error l1 n = Some a -> nth_error l2 n = Some b ->
  nth_error (combine l1 l2) n = Some (a, b).
Proof.
  induction l1 as [|x l1 IH]; intros [|y l2] [|n] a b H1 H2; cbn in *; try discriminate.
  - now injection H1 as <-; injection H2 as <-.
  - now apply IH.
Qed.

Section C3.
Context {R : Type} {SR : Scalar R} {IL : IeeeLaws R}.


End C3.



(** ** C10: equality is a tolerance test on the norm of the difference *)

Section ScalarMul.
Context {R : Type} {SR : Scalar R} {SL : SemiringLaws R}.

Lemma init_tail_given r (cs : list (tensor R)) ms r' ix :
  chain r cs ms r' ->
  init_tail (map PT cs) (Some (repeat None (length cs))) (Some ix)
  = Ok (mkN (map PT cs) (repeat None (length cs)) ix).
Proof.
  intros H. unfold init_tail. rewrite foldM_unit_ok; [reflexivity|].
  intros n Hn. apply in_seq in Hn. rewrite length_map in Hn.
  assert (Hlt : n < length cs) by lia.
  rewrite (py_index_nth_error _ _ _ (nth_error_repeat_None (A := tensor R) _ _ Hlt)).
  reflexivity.
Qed.

(** [clone] of a TT-form network is the network. *)
Lemma clone_tt (t : network R) cs ms : tt_form t cs ms -> clone t = Ok t.
Proof.
  intros (Hc & Hu & _ & Hch & _). destruct t as [tc tu ti]. cbn [cores Us] in *. subst tc tu.
  unfold clone, ndim. cbn [cores Us idxs].
  rewrite (mapM_seq_nth (map PT cs) _ (fun o => o)).
  2:{ intros n o Hn. rewrite (py_index_nth_error _ _ _ Hn). cbn [bind].
      destruct (nth_error_map_PT _ _ _ Hn) as (c & -> & _). reflexivity. }
  cbn [bind]. rewrite map_id.
  rewrite length_map. rewrite <- (repeat_length (@None (tensor R)) (length cs)) at 1.
  rewrite (mapM_seq_nth (repeat None (length cs)) _ (fun o => o)).
  2:{ intros n o Hn. now rewrite (py_index_nth_error _ _ _ Hn). }
  cbn [bind]. rewrite map_id.
  rewrite (Tensor_of_cores_checks _ _ _ _ _ _ Hch).
  apply (init_tail_given _ _ _ _ _ Hch).
Qed.

End ScalarMul.

(** A TT-form network times a number is returned and is a TT-form network
    over the same modes (the first core is scaled). *)
Lemma mul_scalar_form {R : Type} {SR : Scalar R} (t : network R) cs ms a :
  tt_form t cs ms ->
  exists u csu, mul t (OpS a) = Ok u /\ tt_form u csu ms.
Proof.
  intros Ht. pose proof Ht as (Hc & Hu & Hne & Hch & Hg).
  unfold mul. rewrite (clone_tt t cs ms Ht). cbn [bind].
  destruct cs as [|c0 cs]; [congruence|].
  destruct ms as [|m ms]; [cbn in Hch; tauto|].
  destruct Hch as (j & Hs0 & Hch).
  unfold scale_first_core. rewrite Hc. cbn [map py_index nth_error bind core_t set_first].
  exists (mkN (PT (scale c0 a) :: map PT cs) (Us t) (idxs t)), (scale c0 a :: cs).
  split; [reflexivity|].
  repeat split; auto; try discriminate.
  - cbn. exists j. auto.
  - inversion Hg as [|? ? (Hw & Hp) Hg']; subst. constructor; [|assumption].
    split; [|exact Hp]. unfold wf_tensor, scale in *. cbn [data shape].
    now rewrite length_map.
Qed.

Section C10.
Context {R : Type} {SR : Scalar R} {E : Engine R}.


End C10.

Lemma tt_example_form last : tt_form (tt_example last) (tt_example_cores last) [2; 2].
Proof.
  unfold tt_form. split; [reflexivity|]. split; [reflexivity|]. split; [discriminate|].
  split.
  - cbn. eexists. split; [reflexivity|]. eexists. split; reflexivity.
  - repeat constructor.
Qed.



(** ** C5: the two stages of [round] *)

Section C5.
Context {R : Type} {SR : Scalar R} {E : Engine R}.

(** The error [relative_error] measures when the three inner products are
    numbers: [sqrt(max(<g,g> + <a,a> - 2<g,a>, 0)) / sqrt(max(<g,g>, 0))]. *)
Lemma relative_error_value (gt approx : network R) (g a x : R) :
  process_nets gt approx = Ok tt ->
  dot gt gt = Ok (mkT [] [g]) -> dot approx approx = Ok (mkT [] [a]) ->
  dot gt approx = Ok (mkT [] [x]) ->
  (e <- relative_error gt approx ;; item e)
  = Ok (rdiv (rsqrt (clamp0 (rsub (radd g a) (rmul x (of_Z 2))))) (rsqrt (clamp0 g))).
Proof.
  intros Hp Hg Ha Hx. unfold relative_error. rewrite Hp, Hg, Ha, Hx. reflexivity.
Qed.


End C5.


(** [round] on the network of a dense [2 x 2 x 2] array, with the exact
    engine on integers: with [eps = 0] the error reached, 0, is not below
    [eps] and the factors stay absent; with [eps = 1] the Tucker stage runs
    and leaves a factor matrix on every mode. *)
Example round_stages_example :
  exists t t0 t1,
    Tensor_of_dense dense_example None = Ok t /\
    round 0%Z no_kwargs t = (t0, Ok tt) /\ Us t0 = [None; None; None] /\
    round 1%Z no_kwargs t = (t1, Ok tt) /\
    forallb (fun u => match u with Some _ => true | None => false end) (Us t1) = true.
Proof.
  eexists _, _, _.
  split; [vm_compute; reflexivity|].
  split; [vm_compute; reflexivity|].
  split; [vm_compute; reflexivity|].
  split; vm_compute; reflexivity.
Qed.

(** ** C8: the mask branch of item access *)

Section C8.
Context {R : Type} {SR : Scalar R} {E : Engine R}.

(** C8 (amended): with a network as key, [__getitem__] raises the mask
    [ValueError] when [|tn.sum(mask) - 1| > 1e-8]; otherwise the mask passes,
    is resolved to per-mode selectors and the outcome is that of indexing
    with these selectors, exceptions of the resolution included. *)
Theorem getitem_mask_gate (self mask : network R) :
  getitem self (KeyMask mask) =
  match tn_sum mask with
  | Err e => Err e
  | Ok total =>
      if rltb (of_dec 1 (-8)) (rabs (rsub total r1))
      then Err mask_error
      else (sl <- mask_selectors self mask ;; getitem self (KeySeq sl))
  end.
Proof.
  unfold getitem, getitem_mask. destruct (tn_sum mask); reflexivity.
Qed.

End C8.

(** C8, as stated, fails: the mask [[0, 0, 1]] on a vector of length 3 sums
    to exactly 1, and item access raises all the same, because no label,
    capped at 1, equals the accepted symbol 2.  The mask [[1, 1, 0]] is the
    rejected kind. *)
Lemma getitem_mask_counterexample :
  exists self mask : network Q,
    Tensor_of_dense vector_example None = Ok self /\
    Tensor_of_dense mask_example None = Ok mask /\
    tn_sum mask = Ok 1%Q /\
    rltb (of_dec 1 (-8)) (rabs (rsub 1%Q r1)) = false /\
    getitem self (KeyMask mask) = Err (IndexError "index out of range").
Proof. eexists _, _. repeat split; vm_compute; reflexivity. Qed.

Example getitem_mask_examples :
  exists self : network Q,
    Tensor_of_dense (mkT [2; 2] [5; 6; 7; 8]%Q) None = Ok self /\
    (forall mask, Tensor_of_dense (mkT [2; 2] [0; 1; 0; 0]%Q) None = Ok mask ->
       mask_selectors self mask = Ok [KInt 0; KInt 1] /\
       getitem self (KeyMask mask) = Ok (IScalar 6%Q)) /\
    (forall mask, Tensor_of_dense (mkT [2; 2] [0; 1; 1; 0]%Q) None = Ok mask ->
       getitem self (KeyMask mask) = Err mask_error).
Proof.
  eexists. split; [reflexivity|]. split; intros mask [= <-]; repeat split; vm_compute; reflexivity.
Qed.

(** ** C9: what the operators and item access do to the store *)

Section Frame.
Context {R : Type} {SR : Scalar R}.
Import Heap.

Lemma firstn_app_le {A} n (l1 l2 : list A) :
  n <= length l1 -> firstn n (l1 ++ l2) = firstn n l1.
Proof.
  intros H. rewrite firstn_app. replace (n - length l1) with 0 by lia.
  cbn. apply app_nil_r.
Qed.

Lemma keeps_ret {A} n (a : A) (Q : A -> Prop) : Q a -> keeps n (ret (R := R) a) Q.
Proof.
  intros Ha h h' r Hn [= <- <-]. split; [auto|]. now intros a' [= <-].
Qed.

Lemma keeps_lift {A} n (r : result A) (Q : A -> Prop) :
  (forall a, r = Ok a -> Q a) -> keeps n (lift (R := R) r) Q.
Proof. intros Hr h h' r' Hn [= <- <-]. auto. Qed.

Lemma keeps_lift_any {A} n (r : result A) : keeps n (lift (R := R) r) (fun _ => True).
Proof. now apply keeps_lift. Qed.

Lemma keeps_bind {A B} n (m : H (R := R) A) (k : A -> H B) (Q : A -> Prop) (Q' : B -> Prop) :
  keeps n m Q -> (forall a, Q a -> keeps n (k a) Q') -> keeps n (bind m k) Q'.
Proof.
  intros Hm Hk h h' r Hn Hrun. unfold bind in Hrun.
  destruct (m h) as [h1 [a|e]] eqn:Em.
  - destruct (Hm _ _ _ Hn Em) as ((Hl1 & Hf1) & Ha).
    destruct (Hk a (Ha a eq_refl) h1 h' r ltac:(lia) Hrun) as ((Hl2 & Hf2) & Hr).
    split; [split; [lia|congruence]|assumption].
  - injection Hrun as <- <-. destruct (Hm _ _ _ Hn Em) as (Hfr & _).
    split; [assumption|discriminate].
Qed.

Lemma keeps_weaken {A} n (m : H (R := R) A) (Q Q' : A -> Prop) :
  keeps n m Q -> (forall a, Q a -> Q' a) -> keeps n m Q'.
Proof.
  intros Hm HQ h h' r Hn Hrun. destruct (Hm _ _ _ Hn Hrun) as (Hfr & Ha). split; auto.
Qed.

Lemma keeps_alloc n (t : tensor R) : keeps n (alloc t) (fresh n).
Proof.
  intros h h' r Hn [= <- <-]. split.
  - rewrite length_app. cbn. split; [lia|]. now rewrite firstn_app_le by lia.
  - intros a [= <-]. unfold fresh. cbn. lia.
Qed.

Lemma keeps_deref n (x : handle) : keeps n (deref (R := R) x) (fun _ => True).
Proof.
  intros h h' r Hn Hrun. unfold deref in Hrun.
  destruct (nth_error h (sid x)); injection Hrun as <- <-; auto.
Qed.

(** An in-place update through a new object leaves the old storages alone. *)
Lemma keeps_imul n (x : handle) (a : R) : fresh n x -> keeps n (imul x a) (fun _ => True).
Proof.
  intros Hx h h' r Hn Hrun. unfold imul in Hrun. cbv zeta in Hrun.
  destruct (nth_error h (sid x)) as [buf|] eqn:Eb; injection Hrun as <- <-; [|auto].
  assert (Hs : sid x < length h) by (apply nth_error_Some; congruence).
  unfold fresh in Hx. split; [|auto]. split.
  - match goal with |- _ <= length (_ ++ ?b :: _) =>
      assert (El : length (firstn (sid x) h ++ b :: skipn (S (sid x)) h)
                   = length (firstn (sid x) h ++ buf :: skipn (S (sid x)) h))
        by (rewrite !length_app; reflexivity)
    end.
    rewrite (firstn_skipn_middle _ _ Eb) in El.
    apply Nat.eq_le_incl. symmetry. exact El.
  - rewrite firstn_app_le by (rewrite length_firstn; lia).
    rewrite firstn_firstn. f_equal. lia.
Qed.

Lemma keeps_prim1 n f (x : handle) : keeps n (prim1 (R := R) f x) (fresh n).
Proof.
  unfold prim1. eapply keeps_bind; [apply keeps_deref|]. intros a _.
  eapply keeps_bind; [apply keeps_lift_any|]. intros r _. apply keeps_alloc.
Qed.

Lemma keeps_prim2 n f (x y : handle) : keeps n (prim2 (R := R) f x y) (fresh n).
Proof.
  unfold prim2. eapply keeps_bind; [apply keeps_deref|]. intros a _.
  eapply keeps_bind; [apply keeps_deref|]. intros b _.
  eapply keeps_bind; [apply keeps_lift_any|]. intros r _. apply keeps_alloc.
Qed.

Lemma keeps_mapH {A B} n (f : A -> H (R := R) B) (Q : B -> Prop) l :
  (forall x, keeps n (f x) Q) -> keeps n (mapH f l) (Forall Q).
Proof.
  intros Hf. induction l as [|x l IH]; cbn [mapH].
  - apply keeps_ret. constructor.
  - eapply keeps_bind; [apply Hf|]. intros y Hy.
    eapply keeps_bind; [apply IH|]. intros ys Hys.
    apply keeps_ret. now constructor.
Qed.

(** The constructor keeps the objects it is given as cores and factors. *)
Lemma keeps_Tensor_of_cores n cs us ix :
  keeps n (Tensor_of_cores (R := R) cs us ix)
        (fun u => hcores u = cs /\
                  hUs u = match us with Some us => us | None => repeat None (length cs) end /\
                  forall ix', ix = Some ix' -> hidxs u = ix').
Proof.
  unfold Tensor_of_cores. eapply keeps_bind; [apply keeps_lift_any|]. intros chk _.
  eapply keeps_bind with (Q := fun ix0 => forall ix', ix = Some ix' -> ix0 = ix').
  - destruct ix as [ix|].
    + apply keeps_ret. now intros ix' [= <-].
    + eapply keeps_bind; [apply keeps_lift_any|]. intros sh _.
      eapply keeps_weaken; [apply keeps_mapH; intros; apply keeps_alloc|].
      intros a _ ix' H. discriminate.
  - intros ix0 Hix. apply keeps_ret. auto.
Qed.

Lemma Forall_fresh_opt_None n k : Forall (fresh_opt n) (repeat None k).
Proof. induction k; cbn; constructor; cbn; auto. Qed.

Lemma storages_fresh n (u : hnet) :
  Forall (fresh n) (hcores u) -> Forall (fresh_opt n) (hUs u) ->
  Forall (fun a => n <= a) (storages u).
Proof.
  intros Hc Hu. unfold storages. apply Forall_app. split.
  - apply Forall_map. exact Hc.
  - apply Forall_flat_map. eapply Forall_impl; [|exact Hu].
    intros [U|] H; constructor; auto.
Qed.

Lemma keeps_any {A} n (m : H (R := R) A) (Q : A -> Prop) :
  keeps n m Q -> keeps n m (fun _ => True).
Proof. intros Hm. eapply keeps_weaken; [exact Hm|auto]. Qed.

Lemma keeps_err {A} n e (Q : A -> Prop) : keeps n (lift (R := R) (Err e)) Q.
Proof. apply keeps_lift. discriminate. Qed.

Ltac keeps_rule :=
  lazymatch goal with
  | |- keeps _ (lift (Err _)) _ => apply keeps_err
  | |- keeps _ (lift _) _ => apply keeps_lift_any
  | |- keeps _ (alloc _) _ => apply keeps_alloc
  | |- keeps _ (prim1 _ _) _ => apply keeps_prim1
  | |- keeps _ (prim2 _ _ _) _ => apply keeps_prim2
  | |- keeps _ (clone_obj _) _ => apply keeps_prim1
  | |- keeps _ (deref _) _ => apply keeps_deref
  end.

Ltac keeps_step :=
  lazymatch goal with
  | |- keeps _ (bind (match ?u with _ => _ end) _) _ =>
      eapply keeps_bind with (Q := fun _ => True);
      [destruct u; first [eapply keeps_any; keeps_rule | apply keeps_ret; exact I]
      |intros ? _]
  | |- keeps _ (bind (ret _) _) _ =>
      eapply keeps_bind with (Q := fun _ => True); [apply keeps_ret; exact I|intros ? _]
  | |- keeps _ (bind _ _) _ => eapply keeps_bind; [keeps_rule|intros ? ?]
  end.

Lemma set_first_Forall {A} (P : A -> Prop) l x l' :
  Forall P l -> P x -> set_first l x = Ok l' -> Forall P l'.
Proof.
  intros Hl Hx. destruct l as [|y l]; cbn; [discriminate|].
  intros [= <-]. inversion Hl; subst. now constructor.
Qed.

Lemma Forall_removelast {A} (P : A -> Prop) l : Forall P l -> Forall P (removelast l).
Proof.
  induction 1 as [|y l Hy Hl IH]; [constructor|].
  cbn [removelast]. destruct l; [constructor|]. constructor; auto.
Qed.

Lemma set_last_Forall {A} (P : A -> Prop) l x l' :
  Forall P l -> P x -> set_last l x = Ok l' -> Forall P l'.
Proof.
  intros Hl Hx. unfold set_last. destruct l as [|y l]; [discriminate|].
  intros [= <-]. apply Forall_app. split; [exact (Forall_removelast P (y :: l) Hl)|].
  now constructor.
Qed.

Lemma py_index_Forall {A} (P : A -> Prop) l k x :
  Forall P l -> py_index l k = Ok x -> P x.
Proof.
  intros Hl. unfold py_index. destruct (nth_error l k) eqn:E; [|discriminate].
  intros [= <-]. rewrite Forall_forall in Hl. apply Hl. eapply nth_error_In; eauto.
Qed.

(** [clone]: new cores and factors; the labels are the operand's. *)
Lemma keeps_clone n (t : hnet) :
  keeps n (clone t) (fun u => new_net n u /\ hidxs u = hidxs t).
Proof.
  unfold clone.
  eapply keeps_bind.
  { apply keeps_mapH with (Q := fresh n). intros k. keeps_step. keeps_rule. }
  intros cs Hcs.
  eapply keeps_bind.
  { apply keeps_mapH with (Q := fresh_opt n). intros k. keeps_step.
    destruct a as [U|]; [|now apply keeps_ret].
    keeps_step. now apply keeps_ret. }
  intros us Hus.
  eapply keeps_weaken; [apply keeps_Tensor_of_cores|].
  intros u (Hc & Hu & Hi). unfold new_net. rewrite Hc, Hu, (Hi _ eq_refl). auto.
Qed.

(** The in-place scaling is sound on a network of new cores. *)
Lemma keeps_scale_first_core n (t : hnet) x :
  Forall (fresh n) (hcores t) -> keeps n (scale_first_core t x) (fun u => u = t).
Proof.
  intros Ht. unfold scale_first_core.
  eapply keeps_bind; [apply keeps_lift with (Q := fresh n)|].
  { intros c Hc. eapply py_index_Forall; eauto. }
  intros c Hc. eapply keeps_bind; [now apply keeps_imul|]. intros _ _.
  now apply keeps_ret.
Qed.

Lemma keeps_promote n (self : hnet) x : keeps n (promote self x) (fun _ => True).
Proof.
  unfold promote. keeps_step.
  eapply keeps_bind.
  { apply keeps_mapH with (Q := fresh n). intros k. keeps_step. keeps_rule. }
  intros cs Hcs.
  eapply keeps_bind; [apply keeps_Tensor_of_cores|]. intros other (Hc & _).
  eapply keeps_any. apply keeps_scale_first_core. now rewrite Hc.
Qed.

Lemma keeps_full_tucker n (t : hnet) : keeps n (full_tucker t) (new_net n).
Proof.
  unfold full_tucker.
  eapply keeps_bind.
  { apply keeps_mapH with (Q := fresh n). intros k. do 2 keeps_step.
    destruct a as [U|]; [destruct (_ =? _)|]; keeps_rule. }
  intros cs Hcs.
  eapply keeps_weaken; [apply keeps_Tensor_of_cores|].
  intros u (Hc & Hu & _). unfold new_net. rewrite Hc, Hu.
  split; [assumption|apply Forall_fresh_opt_None].
Qed.

Lemma new_pairs n (cus : list (handle * option handle)) :
  Forall (new_pair n) cus ->
  Forall (fresh n) (map fst cus) /\ Forall (fresh_opt n) (map snd cus).
Proof.
  intros Hc. split; apply Forall_map; eapply Forall_impl; try exact Hc;
    intros a Ha; apply Ha.
Qed.

Lemma keeps_add_mode n self other sh k :
  keeps n (add_mode self other sh k) (new_pair n).
Proof.
  unfold add_mode. do 4 keeps_step.
  destruct a1 as [U1|], a2 as [U2|].
  - repeat keeps_step. apply keeps_ret. split; assumption.
  - repeat keeps_step. apply keeps_ret. split; [assumption|exact I].
  - repeat keeps_step. apply keeps_ret. split; [assumption|exact I].
  - repeat keeps_step. apply keeps_ret. split; [assumption|exact I].
Qed.

Lemma keeps_mul_mode n self other sh k :
  keeps n (mul_mode self other sh k) (new_pair n).
Proof.
  unfold mul_mode. do 5 keeps_step.
  destruct a1 as [|], a as [U1|], a0 as [U2|];
    repeat keeps_step; apply keeps_ret; split; first [assumption|exact I].
Qed.

(** [self + other] on a network operand. *)
Lemma keeps_add_net n (self other : hnet) :
  keeps n (add self (OpT other)) (new_net n).
Proof.
  unfold add. eapply keeps_bind; [apply keeps_ret; exact I|]. intros o _.
  do 2 keeps_step.
  destruct (negb _); [keeps_rule|].
  destruct (_ =? 1).
  - eapply keeps_bind; [apply keeps_full_tucker|]. intros f1 _. keeps_step.
    eapply keeps_bind; [apply keeps_full_tucker|]. intros f2 _. keeps_step.
    keeps_step.
    eapply keeps_weaken; [apply keeps_Tensor_of_cores|].
    intros u (Hc & Hu & _). unfold new_net. rewrite Hc, Hu.
    split; [now constructor|apply Forall_fresh_opt_None].
  - eapply keeps_bind; [apply keeps_mapH, keeps_add_mode|]. intros cus Hcus.
    apply new_pairs in Hcus. destruct Hcus as (Hcs & Hus).
    keeps_step. keeps_step.
    eapply keeps_bind; [apply keeps_lift with (Q := Forall (fresh n))|].
    { intros l. now apply set_first_Forall. }
    intros cs1 Hcs1. keeps_step. keeps_step.
    eapply keeps_bind; [apply keeps_lift with (Q := Forall (fresh n))|].
    { intros l. now apply set_last_Forall. }
    intros cs2 Hcs2.
    eapply keeps_weaken; [apply keeps_Tensor_of_cores|].
    intros u (Hc & Hu & _). unfold new_net. rewrite Hc, Hu. auto.
Qed.

Lemma keeps_add n (self : hnet) (other : operand) :
  keeps n (add self other) (new_net n).
Proof.
  destruct other as [t|x]; [apply keeps_add_net|].
  unfold add. eapply keeps_bind; [apply keeps_promote|]. intros o _.
  exact (keeps_add_net n self o).
Qed.

Lemma keeps_mul n (self : hnet) (other : operand) :
  keeps n (mul self other) (new_net n).
Proof.
  destruct other as [t|x]; unfold mul.
  - do 2 keeps_step. destruct (negb _); [keeps_rule|].
    eapply keeps_bind; [apply keeps_mapH, keeps_mul_mode|]. intros cus Hcus.
    apply new_pairs in Hcus. destruct Hcus as (Hcs & Hus).
    eapply keeps_weaken; [apply keeps_Tensor_of_cores|].
    intros u (Hc & Hu & _). unfold new_net. rewrite Hc, Hu. auto.
  - eapply keeps_bind; [apply keeps_clone|]. intros u (Hu & _).
    eapply keeps_weaken; [apply keeps_scale_first_core, Hu|].
    now intros u' ->.
Qed.

Lemma keeps_sub n (self : hnet) (other : operand) :
  keeps n (sub self other) (new_net n).
Proof.
  destruct other as [t|x]; unfold sub.
  - eapply keeps_bind; [apply keeps_mul|]. intros m _. apply keeps_add.
  - apply keeps_add.
Qed.

Lemma keeps_truediv n (self : hnet) (other : operand) :
  keeps n (truediv self other) (new_net n).
Proof.
  destruct other as [t|x]; unfold truediv; [apply keeps_err|apply keeps_mul].
Qed.

(** *** Item access reads only *)

Lemma keeps_foldH {A B} n (f : A -> B -> H (R := R) A) l a :
  (forall a x, keeps n (f a x) (fun _ => True)) -> keeps n (foldH f l a) (fun _ => True).
Proof.
  intros Hf. revert a. induction l as [|x l IH]; intros a; cbn [foldH].
  - now apply keeps_ret.
  - eapply keeps_bind; [apply Hf|]. intros a' _. apply IH.
Qed.

Lemma keeps_index_axis1 n (x : handle) k : keeps n (index_axis1 (R := R) x k) (fun _ => True).
Proof.
  unfold index_axis1.
  destruct (hshape x) as [|a [|b [|c [|? ?]]]]; try apply keeps_err.
  destruct (strides x) as [|s0 [|s1 [|s2 [|? ?]]]]; try apply keeps_err.
  destruct k; try (eapply keeps_any; keeps_rule);
    keeps_step; now apply keeps_ret.
Qed.

Lemma keeps_index_rows n (x : handle) k : keeps n (index_rows (R := R) x k) (fun _ => True).
Proof.
  unfold index_rows.
  destruct (hshape x) as [|a [|b [|? ?]]]; try apply keeps_err.
  destruct (strides x) as [|s0 [|s1 [|? ?]]]; try apply keeps_err.
  destruct k; try (eapply keeps_any; keeps_rule);
    keeps_step; now apply keeps_ret.
Qed.

Ltac keeps_read :=
  lazymatch goal with
  | |- keeps _ (bind (index_axis1 _ _) _) _ =>
      eapply keeps_bind; [apply keeps_index_axis1|intros ? _]
  | |- keeps _ (bind (index_rows _ _) _) _ =>
      eapply keeps_bind; [apply keeps_index_rows|intros ? _]
  | |- keeps _ (index_axis1 _ _) _ => apply keeps_index_axis1
  | |- keeps _ (index_rows _ _) _ => apply keeps_index_rows
  | |- keeps _ (ret _) _ => apply keeps_ret; exact I
  | |- keeps _ (lift (Err _)) _ => apply keeps_err
  | |- keeps _ (bind _ _) _ => keeps_step
  | |- keeps _ (if ?b then _ else _) _ => destruct b
  | |- keeps _ (match ?u with _ => _ end) _ => destruct u
  | |- keeps _ _ (fun _ => True) => eapply keeps_any; keeps_rule
  end.

Lemma keeps_get_key n (self : hnet) c k : keeps n (get_key self c k) (fun _ => True).
Proof. unfold get_key. repeat keeps_read. Qed.

Lemma keeps_insert_core n (st : gstate) arg : keeps n (insert_core st arg) (fun _ => True).
Proof.
  unfold insert_core.
  eapply keeps_bind with (Q := fun _ => True); [repeat keeps_read|].
  intros st' _. destruct arg as [[[core k] U]|]; [|now apply keeps_ret].
  repeat keeps_read.
Qed.

Lemma keeps_getitem_step n (self : hnet) st k :
  keeps n (getitem_step self st k) (fun _ => True).
Proof.
  unfold getitem_step. keeps_step.
  eapply keeps_bind with (Q := fun _ => True); [|intros; now apply keeps_ret].
  destruct a.
  - eapply keeps_bind with (Q := fun _ => True); [|intros; now apply keeps_ret].
    destruct (f_index st).
    + keeps_step. destruct (negb _); [apply keeps_err|].
      eapply keeps_bind; [apply keeps_get_key|]. intros ? _.
      keeps_step. now apply keeps_ret.
    + eapply keeps_bind; [apply keeps_get_key|]. intros ? _. now apply keeps_ret.
  - do 3 keeps_step. apply keeps_insert_core.
  - eapply keeps_bind with (Q := fun _ => True).
    { destruct (match last_mode st with Some MIndex => true | _ => false end);
        [apply keeps_insert_core|now apply keeps_ret]. }
    intros st1 _.
    eapply keeps_bind with (Q := fun _ => True); [|intros; now apply keeps_ret].
    destruct (f_int st1).
    + eapply keeps_bind; [apply keeps_get_key|]. intros ? _.
      keeps_step. now apply keeps_ret.
    + eapply keeps_bind; [apply keeps_get_key|]. intros ? _. now apply keeps_ret.
  - do 2 keeps_step.
    eapply keeps_bind; [apply keeps_insert_core|]. intros; now apply keeps_ret.
Qed.

Lemma keeps_getitem_entries n (self : hnet) k :
  keeps n (getitem_entries self k) (fun _ => True).
Proof.
  assert (HT : forall cs us ix, keeps n (bind (Tensor_of_cores (R := R) cs us ix) (fun t => ret (HNet t)))
                                     (fun _ => True)).
  { intros. eapply keeps_bind; [apply keeps_Tensor_of_cores|]. intros; now apply keeps_ret. }
  unfold getitem_entries. keeps_step.
  eapply keeps_bind; [apply keeps_foldH; intros; apply keeps_getitem_step|].
  intros st _.
  destruct (last_mode st) as [[| | |]|]; try apply HT.
  - destruct (f_index st); [apply HT|apply keeps_err].
  - destruct (f_int st) as [fi|]; [|apply keeps_err].
    destruct (0 <? _).
    + do 3 keeps_step. apply HT.
    + repeat keeps_read.
Qed.

Lemma keeps_framed (h : heap (R := R)) (m : H hnet) : keeps (length h) m (new_net (length h)) -> framed h m.
Proof.
  intros Hm. unfold framed. destruct (m h) as [h' r] eqn:E.
  destruct (Hm h h' r (le_n _) E) as ((_ & Hf) & Hr). cbn [fst snd]. split.
  - now rewrite Hf, firstn_all.
  - destruct r as [u|e]; [|exact I].
    destruct (Hr u eq_refl). now apply storages_fresh.
Qed.

Lemma keeps_unchanged {A} (h : heap (R := R)) (m : H A) Q : keeps (length h) m Q -> unchanged h m.
Proof.
  intros Hm. unfold unchanged. destruct (m h) as [h' r] eqn:E.
  destruct (Hm h h' r (le_n _) E) as ((_ & Hf) & _). cbn [fst].
  now rewrite Hf, firstn_all.
Qed.

End Frame.

(** C9 (amended): in the store model, [self + other], [self - other],
    [self * other] and [self / other], for a network or a number on the
    right, leave every storage that existed before the call as it was (so
    the operands' cores, factors and labels keep their contents, also when
    the call raises), and every core and factor of the network they return
    sits in a storage allocated by the call; [self / other] with a network
    on the right raises [TypeError]; item access [self[key]] with a key
    that is not a network leaves every existing storage as it was. *)
Theorem operators_frame {R : Type} {SR : Scalar R}
        (self : Heap.hnet) (other : Heap.operand (R := R)) (key : list kentry)
        (h : Heap.heap (R := R)) :
  Heap.framed h (Heap.add self other) /\
  Heap.framed h (Heap.sub self other) /\
  Heap.framed h (Heap.mul self other) /\
  Heap.framed h (Heap.truediv self other) /\
  (forall t, Heap.truediv self (Heap.OpT t) h = (h, Err TypeError)) /\
  Heap.unchanged h (Heap.getitem_entries self key).
Proof.
  repeat split.
  - apply keeps_framed, keeps_add.
  - apply keeps_framed, keeps_add.
  - apply keeps_framed, keeps_sub.
  - apply keeps_framed, keeps_sub.
  - apply keeps_framed, keeps_mul.
  - apply keeps_framed, keeps_mul.
  - apply keeps_framed, keeps_truediv.
  - apply keeps_framed, keeps_truediv.
  - eapply keeps_unchanged, keeps_getitem_entries.
Qed.

(** C9, the sentence as written fails for item access in two ways, and
    for one operator.
    [t[:, :]] on the network of [[1, 2], [3, 4]] returns a network whose
    cores are the operand's own cores, in the operand's storages 0 and 1,
    so that scaling the first core of the result in place changes the
    operand.  And item access by a mask writes the operand: on the network
    of the vector [5, 6, 7], whose labels are [0, 1, 2], the mask of
    [0, 1, 0] accepts the string [1], and the access caps the labels of the
    operand at 1 in place: they are [0, 1, 1] afterwards.  Last, a
    division by a network returns no network: it raises [TypeError]. *)
Lemma getitem_alias_counterexample :
  (exists (u : Heap.hnet) (h : Heap.heap (R := Z)),
    Heap.getitem_entries example_operand [full_slice; full_slice] example_store
      = (h, Ok (Heap.HNet u)) /\
    Heap.hcores u = Heap.hcores example_operand /\
    Heap.storages u = [0; 1] /\
    ~ Forall (fun a => length example_store <= a) (Heap.storages u) /\
    snd (Heap.contents example_operand h) = Ok (tt_example 4) /\
    snd (Heap.bind (Heap.scale_first_core u 2%Z)
                   (fun _ => Heap.contents example_operand) h)
      = Ok (mkN [PT (mkT [1; 2; 2] [2; 4; 6; 8]%Z); PT (mkT [2; 2; 1] [1; 0; 0; 1]%Z)]
                [None; None] [arange 2; arange 2])) /\
  (exists (self mask : network Q) (hself : Heap.hnet) (h0 h1 : Heap.heap (R := Q)) r,
    Tensor_of_dense vector_example None = Ok self /\
    Tensor_of_dense (mkT [3] [0; 1; 0]%Q) None = Ok mask /\
    (Xs <- accepted_inputs mask ;; py_index Xs 0) = Ok [1%Z] /\
    getitem self (KeyMask mask)
      = Ok (INet (mkN [PT (mkT [1; 2; 1] [6; 7]%Q)] [None] [[0; 1]%Z])) /\
    Heap.load self [] = (h0, Ok hself) /\
    snd (Heap.contents hself h0)
      = Ok (mkN [PT (mkT [1; 3; 1] [5; 6; 7]%Q)] [None] [[0; 1; 2]%Z]) /\
    Heap.getitem_mask hself [1%Z] h0 = (h1, Ok r) /\
    snd (Heap.contents hself h1)
      = Ok (mkN [PT (mkT [1; 3; 1] [5; 6; 7]%Q)] [None] [[0; 1; 1]%Z]) /\
    ~ Heap.unchanged h0 (Heap.getitem_mask hself [1%Z])) /\
  Heap.truediv example_operand (Heap.OpT example_operand) example_store
    = (example_store, Err TypeError).
Proof.
  split; [|split; [|reflexivity]].
  - eexists. eexists. split; [vm_compute; reflexivity|].
    repeat split; try (vm_compute; reflexivity).
    intros H. inversion H as [|? ? Hle _]. vm_compute in Hle. lia.
  - eexists _, _, _, _, _, _.
    split; [vm_compute; reflexivity|].
    split; [vm_compute; reflexivity|].
    split; [vm_compute; reflexivity|].
    split; [vm_compute; reflexivity|].
    split; [vm_compute; reflexivity|].
    split; [vm_compute; reflexivity|].
    split; [vm_compute; reflexivity|].
    split; [vm_compute; reflexivity|].
    intros H. vm_compute in H. discriminate.
Qed.

(** The operators on the same operand return networks: the statement of
    [operators_frame] is not about failing calls only.  The product with a
    number has the labels of its operand. *)
Example operators_frame_example :
  let t := example_operand in
  let h := example_store in
  (exists u, snd (Heap.add t (Heap.OpT t) h) = Ok u /\ Heap.storages u = [14; 15]) /\
  (exists u, snd (Heap.add t (Heap.OpS 1%Z) h) = Ok u) /\
  (exists u, snd (Heap.sub t (Heap.OpT t) h) = Ok u) /\
  (exists u, snd (Heap.mul t (Heap.OpT t) h) = Ok u) /\
  (exists u, snd (Heap.mul t (Heap.OpS 3%Z) h) = Ok u /\
             Heap.storages u = [4; 5] /\ Heap.hidxs u = Heap.hidxs t) /\
  (exists u, snd (Heap.truediv t (Heap.OpS 1%Z) h) = Ok u).
Proof.
  cbv zeta.
  split; [eexists; split; vm_compute; reflexivity|].
  split; [eexists; vm_compute; reflexivity|].
  split; [eexists; vm_compute; reflexivity|].
  split; [eexists; vm_compute; reflexivity|].
  split; [eexists; split; [|split]; vm_compute; reflexivity|].
  eexists; vm_compute; reflexivity.
Qed.

Lemma left_orthogonalize_cp_witness :
  exists t' e,
    left_orthogonalize (E := Engine_exact) 0 cp_example = (t', Err e) /\
    nth_error (cores t') 0 = Some PCores.
Proof.
  apply (left_orthogonalize_cp (E := Engine_exact) cp_example 0 (mkT [2; 1] [1; 2]%Z)).
  - reflexivity.
  - reflexivity.
  - cbn. lia.
Defined.

(** ** Orthogonalisation of TT-form networks *)

Section Bond.
Context {R : Type} {SR : Scalar R} {SL : SemiringLaws R}.

Lemma sum_n_swap a b (g : nat -> nat -> R) :
  sum_n a (fun i => sum_n b (fun k => g i k)) = sum_n b (fun k => sum_n a (fun i => g i k)).
Proof.
  induction a as [|a IH].
  - rewrite sum_n_0. symmetry. apply sum_n_zero. intros k _. apply sum_n_0.
  - rewrite sum_n_S, IH, <- sum_n_add. apply sum_n_ext. intros k _. now rewrite sum_n_S.
Qed.

Lemma fstep_ext (f g : nat -> nat -> R) (c : tensor R) r b j :
  shape c = [r; b; j] ->
  (forall x z, z < r -> f x z = g x z) ->
  forall x z, fstep f c x z = fstep g c x z.
Proof.
  intros Hs H x z. unfold fstep. rewrite Hs. cbn [nth].
  apply sum_n_ext. intros k Hk. now rewrite H.
Qed.

Lemma chain_sem_ext (cs : list (tensor R)) : forall ms r r' f g,
  chain r cs ms r' ->
  (forall x z, z < r -> f x z = g x z) ->
  forall x z, z < r' -> chain_sem cs f x z = chain_sem cs g x z.
Proof.
  induction cs as [|c cs IH]; intros [|b ms] r r' f g Hch H x z Hz; cbn in Hch; try tauto.
  - subst. cbn. now apply H.
  - destruct Hch as (j & Hs & Hch). cbn [chain_sem].
    apply (IH ms j r'); [assumption| |assumption].
    intros x' z' _. now apply (fstep_ext f g c r b j).
Qed.

Lemma chain_sem_cat (l1 l2 : list (tensor R)) f :
  chain_sem (l1 ++ l2) f = chain_sem l2 (chain_sem l1 f).
Proof. revert f. induction l1 as [|c l1 IH]; intros f; cbn; auto. Qed.

Lemma fstep_right_factor (f : nat -> nat -> R) c c' r b j k M :
  right_factor c c' r b j k M -> 0 < b ->
  forall x z, z < j ->
    fstep f c x z = sum_n k (fun l => rmul (fstep f c' x l) (M l z)).
Proof.
  intros (Hs & Hs' & H) Hb x z Hz. unfold fstep. rewrite Hs, Hs'. cbn [nth].
  transitivity (sum_n r (fun a => sum_n k (fun l =>
                  rmul (rmul (f (x / b) a) (get3 c' a (x mod b) l)) (M l z)))).
  - apply sum_n_ext. intros a Ha.
    rewrite H by (auto using Nat.mod_upper_bound with arith; try apply Nat.mod_upper_bound; lia).
    rewrite sum_n_mul_l. apply sum_n_ext. intros l _. apply rmul_assoc.
  - rewrite sum_n_swap. apply sum_n_ext. intros l _. now rewrite sum_n_mul_r.
Qed.

Lemma fstep_left_factor (g g' : nat -> nat -> R) c c' j k b j' M :
  left_factor c c' j k b j' M -> 0 < b ->
  (forall y a, a < j -> g' y a = sum_n k (fun l => rmul (g y l) (M l a))) ->
  forall x z, z < j' -> fstep g c x z = fstep g' c' x z.
Proof.
  intros (Hs & Hs' & H) Hb Hg x z Hz. unfold fstep. rewrite Hs, Hs'. cbn [nth].
  transitivity (sum_n k (fun l => sum_n j (fun a =>
                  rmul (rmul (g (x / b) l) (M l a)) (get3 c' a (x mod b) z)))).
  - apply sum_n_ext. intros l Hl.
    rewrite H by (try apply Nat.mod_upper_bound; lia).
    rewrite sum_n_mul_l. apply sum_n_ext. intros a _. apply rmul_assoc.
  - rewrite sum_n_swap. apply sum_n_ext. intros a Ha.
    rewrite Hg by assumption. now rewrite sum_n_mul_r.
Qed.

(** Moving a matrix across a bond leaves the contraction of the two cores
    as it was. *)
Lemma fstep_bond (f : nat -> nat -> R) c c' d d' r b j k b' j' M :
  right_factor c c' r b j k M -> left_factor d' d j k b' j' M ->
  0 < b -> 0 < b' ->
  forall x z, z < j' -> fstep (fstep f c') d' x z = fstep (fstep f c) d x z.
Proof.
  intros Hc Hd Hb Hb' x z Hz.
  apply (fstep_left_factor (fstep f c') (fstep f c) d' d j k b' j' M); auto.
  intros y a Ha. now apply (fstep_right_factor f c c' r b j k M).
Qed.

End Bond.

Section Steps.
Context {R : Type} {SR : Scalar R} {SL : SemiringLaws R} {E : Engine R}.

Lemma chain_split (l1 : list (tensor R)) : forall l2 ms r r',
  chain r (l1 ++ l2) ms r' ->
  exists ms1 ms2 j, ms = ms1 ++ ms2 /\ chain r l1 ms1 j /\ chain j l2 ms2 r'.
Proof.
  induction l1 as [|c l1 IH]; intros l2 ms r r' H.
  - exists [], ms, r. cbn. auto.
  - destruct ms as [|b ms]; cbn in H; [tauto|]. destruct H as (j & Hs & H).
    destruct (IH _ _ _ _ H) as (ms1 & ms2 & j' & -> & H1 & H2).
    exists (b :: ms1), ms2, j'. cbn. eauto.
Qed.

Lemma chain_join (l1 : list (tensor R)) : forall l2 ms1 ms2 r j r',
  chain r l1 ms1 j -> chain j l2 ms2 r' -> chain r (l1 ++ l2) (ms1 ++ ms2) r'.
Proof.
  induction l1 as [|c l1 IH]; intros l2 [|b ms1] ms2 r j r' H1 H2; cbn in H1; try tauto.
  - now subst.
  - destruct H1 as (j0 & Hs & H1). cbn. eauto.
Qed.

Lemma set_nth_middle {A} (l1 : list A) x y l2 :
  set_nth (l1 ++ x :: l2) (length l1) y = Ok (l1 ++ y :: l2).
Proof. induction l1 as [|a l1 IH]; cbn; [reflexivity|]. now rewrite IH. Qed.

Lemma nth_error_repeat {A} (a : A) n k : k < n -> nth_error (repeat a n) k = Some a.
Proof. revert k. induction n; intros [|k] H; cbn; try lia; auto. apply IHn. lia. Qed.

Lemma bindM_run {A B} (m : M A) (k : A -> M B) (t t' : network R) a :
  m t = (t', Ok a) -> bindM m k t = k a t'.
Proof. intros H. unfold bindM. now rewrite H. Qed.

Lemma readM_run {A} (f : network R -> result A) t a : f t = Ok a -> readM f t = (t, Ok a).
Proof. intros H. unfold readM. now rewrite H. Qed.

Lemma liftM_run {A} (r : result A) (t : network R) a : r = Ok a -> liftM r t = (t, Ok a).
Proof. now intros ->. Qed.

Lemma get_core_run mu (t : network R) o :
  nth_error (cores t) mu = Some o -> get_core mu t = (t, Ok o).
Proof. intros H. apply readM_run. now apply py_index_nth_error. Qed.

Lemma set_core_run mu o (t : network R) cs :
  set_nth (cores t) mu o = Ok cs -> set_core mu o t = (mkN cs (Us t) (idxs t), Ok tt).
Proof. intros H. unfold set_core. now rewrite H. Qed.

Lemma factor_orthogonalize_none mu (t : network R) :
  nth_error (Us t) mu = Some None -> factor_orthogonalize mu t = (t, Ok tt).
Proof.
  intros H. unfold factor_orthogonalize.
  rewrite (bindM_run _ _ t t None); [reflexivity|].
  apply readM_run. now apply py_index_nth_error.
Qed.

Lemma assert_true b : b = true -> assert b = Ok tt.
Proof. now intros ->. Qed.

Lemma nth_error_map_middle {A B} (f : A -> B) (l1 : list A) y rest :
  nth_error (map f l1 ++ y :: rest) (length l1) = Some y.
Proof. rewrite <- (length_map f l1). apply nth_error_middle. Qed.

Lemma nth_error_map_next {A B} (f : A -> B) (l1 : list A) y z rest :
  nth_error (map f l1 ++ y :: z :: rest) (length l1 + 1) = Some z.
Proof.
  rewrite nth_error_app2 by (rewrite length_map; lia).
  rewrite length_map. replace (length l1 + 1 - length l1) with 1 by lia. reflexivity.
Qed.

Lemma set_nth_map_middle {A B} (f : A -> B) (l1 : list A) x y rest :
  set_nth (map f l1 ++ x :: rest) (length l1) y = Ok (map f l1 ++ y :: rest).
Proof. rewrite <- (length_map f l1). apply set_nth_middle. Qed.

Lemma set_nth_map_next {A B} (f : A -> B) (l1 : list A) x0 x y rest :
  set_nth (map f l1 ++ x0 :: x :: rest) (length l1 + 1) y = Ok (map f l1 ++ x0 :: y :: rest).
Proof.
  replace (map f l1 ++ x0 :: x :: rest) with ((map f l1 ++ [x0]) ++ x :: rest)
    by now rewrite <- app_assoc.
  replace (length l1 + 1) with (length (map f l1 ++ [x0]))
    by (rewrite length_app, length_map; reflexivity).
  rewrite set_nth_middle. now rewrite <- app_assoc.
Qed.

(** The two reshapes an unfolding undoes read the same entries. *)
Lemma get3_as_get2_l (d : list R) r b j a y z :
  get3 (mkT [r; b; j] d) a y z = get2 (mkT [r * b; j] d) (a * b + y) z.
Proof. reflexivity. Qed.

Lemma get3_as_get2_r (d : list R) j b1 j1 a y z :
  get3 (mkT [j; b1; j1] d) a y z = get2 (mkT [j; b1 * j1] d) a (y * j1 + z).
Proof. unfold get3, get2, get. cbn [shape data nth]. f_equal. lia. Qed.

Ltac mstep tac := erewrite bindM_run by tac; cbv beta iota.

(** One call of [left_orthogonalize] on a network whose cores [mu] and
    [mu + 1] have three axes and whose mode [mu] has no factor: core [mu]
    becomes the [Q] of its left unfolding and [R] is multiplied into core
    [mu + 1]. *)
Lemma left_orthogonalize_run (pre : list (tensor R)) c c1 post us ix r b j b1 j1 :
  qr_correct E ->
  shape c = [r; b; j] -> shape c1 = [j; b1; j1] ->
  good_core c -> good_core c1 ->
  nth_error us (length pre) = Some None ->
  exists c' c1' Rf k,
    left_orthogonalize (length pre) (mkN (map PT (pre ++ c :: c1 :: post)) us ix)
    = (mkN (map PT (pre ++ c' :: c1' :: post)) us ix, Ok Rf) /\
    good_core c' /\ good_core c1' /\
    right_factor c c' r b j k (get2 Rf) /\ left_factor c1' c1 j k b1 j1 (get2 Rf).
Proof.
  intros Hqr Hs Hs1 Hg Hg1 Hu.
  destruct (good_shape3 _ _ _ _ Hg Hs) as (Hr & Hb & Hj).
  destruct (good_shape3 _ _ _ _ Hg1 Hs1) as (_ & Hb1 & Hj1).
  destruct Hg as (Hwf & _). destruct Hg1 as (Hwf1 & _).
  destruct c as [sh d]. destruct c1 as [sh1 d1]. cbn [shape] in Hs, Hs1. subst sh sh1.
  unfold wf_tensor in Hwf, Hwf1. cbn [shape data] in Hwf, Hwf1. rewrite numel3 in Hwf, Hwf1.
  destruct (Hqr (mkT [r * b; j] d) (r * b) j)
    as (Q & Rf & k & HQR & Hk & HwQ & HsQ & HwR & HsR & Hprod).
  { unfold wf_tensor. cbn [shape data]. now rewrite numel2. }
  { reflexivity. }
  { nia. }
  { assumption. }
  destruct Q as [shQ dQ]. cbn [shape] in HsQ. subst shQ.
  unfold wf_tensor in HwQ. cbn [shape data] in HwQ. rewrite numel2 in HwQ.
  set (P := mk2 k (b1 * j1)
              (fun x z => sum_n j (fun m => rmul (get2 Rf x m)
                                                 (get2 (mkT [j; b1 * j1] d1) m z)))).
  exists (mkT [r; b; k] dQ), (mkT [k; b1; j1] (data P)), Rf, k.
  split; [|split; [|split; [|split]]].
  - rewrite !map_app. cbn [map].
    unfold left_orthogonalize.
    mstep ltac:(apply readM_run; reflexivity).
    mstep ltac:(apply liftM_run, assert_true, Z.ltb_lt; unfold ndim; cbn [cores];
                rewrite length_app, length_map; cbn [length]; lia).
    mstep ltac:(apply get_core_run, nth_error_map_middle).
    mstep ltac:(apply liftM_run; reflexivity).
    unfold dim. cbn [shape length Nat.eqb].
    mstep ltac:(reflexivity).
    mstep ltac:(apply factor_orthogonalize_none; exact Hu).
    mstep ltac:(apply get_core_run, nth_error_map_middle).
    mstep ltac:(apply liftM_run; reflexivity).
    mstep ltac:(apply liftM_run; unfold left_unfolding; cbn [shape py_last rev app bind];
                apply (reshape_infer_l _ d (r * b) j Hj); rewrite numel3; lia).
    mstep ltac:(apply liftM_run; exact HQR).
    mstep ltac:(apply get_core_run, nth_error_map_middle).
    mstep ltac:(apply liftM_run; reflexivity).
    mstep ltac:(apply liftM_run; reflexivity).
    cbn [shape removelast app map].
    mstep ltac:(apply liftM_run; apply reshape3; rewrite numel2; lia).
    mstep ltac:(apply set_core_run; cbn [cores]; apply set_nth_map_middle).
    cbn [Us idxs].
    mstep ltac:(apply get_core_run, nth_error_map_next).
    mstep ltac:(apply liftM_run; reflexivity).
    mstep ltac:(apply liftM_run; unfold right_unfolding; cbn [shape py_index nth_error bind];
                apply (reshape_infer_r _ d1 j (b1 * j1) Hj); rewrite numel3; lia).
    mstep ltac:(apply liftM_run; unfold mm, einsum_ij_jk_ik, as2; rewrite HsR;
                cbn [shape bind]; rewrite Nat.eqb_refl; reflexivity).
    mstep ltac:(apply liftM_run; rewrite HsR; reflexivity).
    cbn [shape tl map].
    mstep ltac:(apply liftM_run; apply reshape3; rewrite numel2; lia).
    mstep ltac:(apply set_core_run; cbn [cores]; apply set_nth_map_next).
    reflexivity.
  - split; [|cbn [shape]; repeat constructor; assumption].
    unfold wf_tensor. cbn [shape data]. rewrite numel3. lia.
  - split; [|cbn [shape]; repeat constructor; assumption].
    unfold wf_tensor, P, mk2. cbn [shape data]. rewrite tabulate_length, numel3. lia.
  - split; [reflexivity|]. split; [reflexivity|].
    intros a y z Ha Hy Hz. rewrite !get3_as_get2_l.
    rewrite <- Hprod by (try apply flat2_lt; assumption). reflexivity.
  - split; [reflexivity|]. split; [reflexivity|].
    intros l y z Hl Hy Hz. rewrite get3_as_get2_r.
    change (mkT [k; b1 * j1] (data P)) with P. unfold P.
    rewrite get2_mk2 by (try apply flat2_lt; assumption).
    apply sum_n_ext. intros a _. now rewrite get3_as_get2_r.
Qed.

(** One call of [right_orthogonalize], in the same way: core [mu] becomes
    the transposed [Q] of its transposed right unfolding and the transposed
    [R] is multiplied into core [mu - 1]. *)
Lemma right_orthogonalize_run (pre : list (tensor R)) c0 c post us ix r b j b1 j1 :
  qr_correct E ->
  shape c0 = [r; b; j] -> shape c = [j; b1; j1] ->
  good_core c0 -> good_core c ->
  nth_error us (length pre + 1) = Some None ->
  exists c0' c' L k,
    right_orthogonalize (length pre + 1) (mkN (map PT (pre ++ c0 :: c :: post)) us ix)
    = (mkN (map PT (pre ++ c0' :: c' :: post)) us ix, Ok L) /\
    good_core c0' /\ good_core c' /\
    right_factor c0' c0 r b k j (get2 L) /\ left_factor c c' k j b1 j1 (get2 L).
Proof.
  intros Hqr Hs0 Hs Hg0 Hg Hu.
  destruct (good_shape3 _ _ _ _ Hg0 Hs0) as (Hr & Hb & Hj).
  destruct (good_shape3 _ _ _ _ Hg Hs) as (_ & Hb1 & Hj1).
  destruct Hg0 as (Hwf0 & _). destruct Hg as (Hwf & _).
  destruct c0 as [sh0 d0]. destruct c as [sh d]. cbn [shape] in Hs0, Hs. subst sh0 sh.
  unfold wf_tensor in Hwf0, Hwf. cbn [shape data] in Hwf0, Hwf. rewrite numel3 in Hwf0, Hwf.
  set (ru := mkT [j; b1 * j1] d).
  set (rut := mk2 (b1 * j1) j (fun x y => get2 ru y x)).
  destruct (Hqr rut (b1 * j1) j)
    as (Q & Lq & k & HQR & Hk & HwQ & HsQ & HwL & HsL & Hprod).
  { unfold wf_tensor, rut, mk2. cbn [shape data]. now rewrite tabulate_length, numel2. }
  { reflexivity. }
  { nia. }
  { assumption. }
  set (Lt := mk2 j k (fun x y => get2 Lq y x)).
  set (Qt := mk2 k (b1 * j1) (fun x y => get2 Q y x)).
  set (P := mk2 (r * b) k
              (fun x z => sum_n j (fun m => rmul (get2 (mkT [r * b; j] d0) x m) (get2 Lt m z)))).
  exists (mkT [r; b; k] (data P)), (mkT [k; b1; j1] (data Qt)), Lt, k.
  split; [|split; [|split; [|split]]].
  - rewrite !map_app. cbn [map].
    unfold right_orthogonalize.
    mstep ltac:(apply readM_run; reflexivity).
    mstep ltac:(apply liftM_run, assert_true, andb_true_intro; split;
                [apply Nat.leb_le; lia
                |apply Nat.ltb_lt; unfold ndim; cbn [cores];
                 rewrite length_app, length_map; cbn [length]; lia]).
    mstep ltac:(apply factor_orthogonalize_none; exact Hu).
    mstep ltac:(apply get_core_run, nth_error_map_next).
    mstep ltac:(apply liftM_run; reflexivity).
    mstep ltac:(apply liftM_run; unfold right_unfolding; cbn [shape py_index nth_error bind];
                apply (reshape_infer_r _ d j (b1 * j1) Hj); rewrite numel3; lia).
    mstep ltac:(apply liftM_run; reflexivity).
    mstep ltac:(apply liftM_run; exact HQR).
    mstep ltac:(apply liftM_run; unfold transpose, as2; rewrite HsL; reflexivity).
    mstep ltac:(apply liftM_run; unfold transpose, as2; rewrite HsQ; reflexivity).
    mstep ltac:(apply liftM_run; reflexivity).
    cbn [shape tl map].
    mstep ltac:(apply liftM_run; apply reshape3; rewrite numel2; lia).
    mstep ltac:(apply set_core_run; cbn [cores]; apply set_nth_map_next).
    cbn [Us idxs]. rewrite Nat.add_sub.
    mstep ltac:(apply get_core_run, nth_error_map_middle).
    mstep ltac:(apply liftM_run; reflexivity).
    mstep ltac:(apply liftM_run; unfold left_unfolding; cbn [shape py_last rev app bind];
                apply (reshape_infer_l _ d0 (r * b) j Hj); rewrite numel3; lia).
    mstep ltac:(apply liftM_run; unfold mm, einsum_ij_jk_ik, as2;
                cbn [shape bind mk2]; rewrite Nat.eqb_refl; reflexivity).
    mstep ltac:(apply liftM_run; reflexivity).
    cbn [shape removelast app map].
    mstep ltac:(apply liftM_run; apply reshape3; rewrite numel2; lia).
    mstep ltac:(apply set_core_run; cbn [cores]; apply set_nth_map_middle).
    reflexivity.
  - split; [|cbn [shape]; repeat constructor; assumption].
    unfold wf_tensor, P, mk2. cbn [shape data]. rewrite tabulate_length, numel3. lia.
  - split; [|cbn [shape]; repeat constructor; assumption].
    unfold wf_tensor, Qt, mk2. cbn [shape data]. rewrite tabulate_length, numel3. lia.
  - split; [reflexivity|]. split; [reflexivity|].
    intros a y z Ha Hy Hz. rewrite get3_as_get2_l.
    change (mkT [r * b; k] (data P)) with P. unfold P.
    rewrite get2_mk2 by (try apply flat2_lt; assumption).
    apply sum_n_ext. intros l _. now rewrite get3_as_get2_l.
  - split; [reflexivity|]. split; [reflexivity|].
    intros l y z Hl Hy Hz. rewrite get3_as_get2_r.
    assert (Hyz : y * j1 + z < b1 * j1) by (apply flat2_lt; assumption).
    transitivity (get2 rut (y * j1 + z) l).
    { unfold rut. now rewrite get2_mk2 by assumption. }
    rewrite <- Hprod by assumption.
    apply sum_n_ext. intros a Ha. rewrite get3_as_get2_r.
    change (mkT [k; b1 * j1] (data Qt)) with Qt. unfold Qt, Lt.
    rewrite !get2_mk2 by assumption. apply rmul_comm.
Qed.

End Steps.

Section Sweeps.
Context {R : Type} {SR : Scalar R} {SL : SemiringLaws R} {E : Engine R}.
Hypothesis Hqr : qr_correct E.

Lemma split_two {A} (l : list A) mu :
  mu + 1 < length l ->
  exists pre x y post, l = pre ++ x :: y :: post /\ length pre = mu.
Proof.
  revert l. induction mu as [|mu IH]; intros [|a [|b l]] H; cbn in H; try lia.
  - exists [], a, b, l. auto.
  - destruct (IH (b :: l)) as (pre & x & y & post & E1 & E2); [cbn; lia|].
    exists (a :: pre), x, y, post. cbn. rewrite E1. auto.
Qed.

(** The two neighbours of a bond in a TT-form network. *)
Lemma tt_form_bond (t : network R) pre c c1 post ms :
  tt_form t (pre ++ c :: c1 :: post) ms ->
  exists ms1 ms3 r b j b1 j1,
    ms = ms1 ++ b :: b1 :: ms3 /\
    chain 1 pre ms1 r /\ shape c = [r; b; j] /\ shape c1 = [j; b1; j1] /\
    chain j1 post ms3 1 /\ good_core c /\ good_core c1 /\
    Forall good_core pre /\ Forall good_core post.
Proof.
  intros (_ & _ & _ & Hch & Hg).
  destruct (chain_split _ _ _ _ _ Hch) as (ms1 & ms2 & r & -> & Hpre & Hrest).
  destruct ms2 as [|b [|b1 ms3]]; cbn in Hrest; try tauto.
  - destruct Hrest as (? & _ & []).
  - destruct Hrest as (j & Hs & j1 & Hs1 & Hpost).
    apply Forall_app in Hg. destruct Hg as (Hgpre & Hg).
    inversion Hg as [|? ? Hgc Hg']; subst. inversion Hg' as [|? ? Hgc1 Hgpost]; subst.
    exists ms1, ms3, r, b, j, b1, j1. auto 12.
Qed.

Lemma bond_entries (pre post : list (tensor R)) c c1 c' c1' ms3 r b j k b1 j1 M :
  right_factor c c' r b j k M -> left_factor c1' c1 j k b1 j1 M ->
  0 < b -> 0 < b1 -> chain j1 post ms3 1 ->
  forall x, tt_entry (pre ++ c' :: c1' :: post) x = tt_entry (pre ++ c :: c1 :: post) x.
Proof.
  intros Hc Hc1 Hb Hb1 Hpost x. unfold tt_entry.
  rewrite !chain_sem_cat. cbn [chain_sem].
  apply (chain_sem_ext post ms3 j1 1); [assumption| |lia].
  intros x' z' Hz'. now apply (fstep_bond _ c c' c1 c1' r b j k b1 j1 M).
Qed.

Lemma tt_form_replace (pre : list (tensor R)) c c1 c' c1' post ms1 ms3 r b k b1 j1 ix :
  chain 1 pre ms1 r -> chain j1 post ms3 1 ->
  shape c' = [r; b; k] -> shape c1' = [k; b1; j1] ->
  good_core c' -> good_core c1' -> Forall good_core pre -> Forall good_core post ->
  tt_form (mkN (map PT (pre ++ c' :: c1' :: post))
               (repeat None (length (pre ++ c :: c1 :: post))) ix)
          (pre ++ c' :: c1' :: post) (ms1 ++ b :: b1 :: ms3).
Proof.
  intros Hpre Hpost Hs Hs1 Hg Hg1 Hgpre Hgpost. unfold tt_form. cbn [cores Us].
  split; [reflexivity|]. split; [now rewrite !length_app|].
  split; [now destruct pre|]. split.
  - apply (chain_join pre _ ms1 _ 1 r 1 Hpre). cbn. eauto.
  - apply Forall_app. auto.
Qed.

Lemma left_orthogonalize_tt (t : network R) cs ms mu :
  tt_form t cs ms -> mu + 1 < length ms ->
  exists t' cs' Rf,
    left_orthogonalize mu t = (t', Ok Rf) /\ tt_form t' cs' ms /\
    forall x, tt_entry cs' x = tt_entry cs x.
Proof.
  intros Ht Hmu. pose proof Ht as (Hc & Hu & _ & Hch & _).
  rewrite <- (chain_length _ _ _ _ Hch) in Hmu.
  destruct (split_two cs mu Hmu) as (pre & c & c1 & post & -> & <-).
  destruct (tt_form_bond _ _ _ _ _ _ Ht)
    as (ms1 & ms3 & r & b & j & b1 & j1 & -> & Hpre & Hs & Hs1 & Hpost & Hg & Hg1 & Hgpre & Hgpost).
  destruct t as [tc tu ti]. cbn [cores Us] in Hc, Hu. subst tc tu.
  destruct (left_orthogonalize_run pre c c1 post
              (repeat None (length (pre ++ c :: c1 :: post))) ti r b j b1 j1
              Hqr Hs Hs1 Hg Hg1)
    as (c' & c1' & Rf & k & Hrun & Hg' & Hg1' & Hrf & Hlf).
  { apply nth_error_repeat. rewrite length_app. cbn. lia. }
  destruct (good_shape3 _ _ _ _ Hg Hs) as (_ & Hb & _).
  destruct (good_shape3 _ _ _ _ Hg1 Hs1) as (_ & Hb1 & _).
  eexists _, (pre ++ c' :: c1' :: post), Rf. split; [exact Hrun|]. split.
  - apply (tt_form_replace pre c c1 c' c1' post ms1 ms3 r b k b1 j1);
      try assumption; [apply Hrf|apply Hlf].
  - now apply (bond_entries pre post c c1 c' c1' ms3 r b j k b1 j1 (get2 Rf)).
Qed.

Lemma right_orthogonalize_tt (t : network R) cs ms mu :
  tt_form t cs ms -> 1 <= mu -> mu < length ms ->
  exists t' cs' L,
    right_orthogonalize mu t = (t', Ok L) /\ tt_form t' cs' ms /\
    forall x, tt_entry cs' x = tt_entry cs x.
Proof.
  intros Ht Hmu1 Hmu. pose proof Ht as (Hc & Hu & _ & Hch & _).
  rewrite <- (chain_length _ _ _ _ Hch) in Hmu.
  destruct (split_two cs (mu - 1)) as (pre & c0 & c & post & -> & Hpre'); [lia|].
  replace mu with (length pre + 1) in * by lia.
  destruct (tt_form_bond _ _ _ _ _ _ Ht)
    as (ms1 & ms3 & r & b & j & b1 & j1 & -> & Hpre & Hs0 & Hs & Hpost & Hg0 & Hg & Hgpre & Hgpost).
  destruct t as [tc tu ti]. cbn [cores Us] in Hc, Hu. subst tc tu.
  destruct (right_orthogonalize_run pre c0 c post
              (repeat None (length (pre ++ c0 :: c :: post))) ti r b j b1 j1
              Hqr Hs0 Hs Hg0 Hg)
    as (c0' & c' & L & k & Hrun & Hg0' & Hg' & Hrf & Hlf).
  { apply nth_error_repeat. rewrite length_app. cbn. lia. }
  destruct (good_shape3 _ _ _ _ Hg0 Hs0) as (_ & Hb & _).
  destruct (good_shape3 _ _ _ _ Hg Hs) as (_ & Hb1 & _).
  eexists _, (pre ++ c0' :: c' :: post), L. split; [exact Hrun|]. split.
  - apply (tt_form_replace pre c0 c c0' c' post ms1 ms3 r b k b1 j1);
      try assumption; [apply Hrf|apply Hlf].
  - intros x. symmetry.
    now apply (bond_entries pre post c0' c' c0 c ms3 r b k j b1 j1 (get2 L)).
Qed.

(** A loop of such calls keeps the form and the entries. *)
Lemma sweep_tt (body : nat -> M (tensor R)) ms (l : list nat) :
  (forall i, In i l -> forall t cs,
      tt_form t cs ms ->
      exists t' cs' X, body i t = (t', Ok X) /\ tt_form t' cs' ms /\
                       forall x, tt_entry cs' x = tt_entry cs x) ->
  forall t cs last,
    tt_form t cs ms ->
    exists t' cs' X, sweep l body last t = (t', Ok X) /\ tt_form t' cs' ms /\
                     forall x, tt_entry cs' x = tt_entry cs x.
Proof.
  induction l as [|i l IH]; intros Hbody t cs last Ht; cbn [sweep].
  - exists t, cs, last. auto.
  - destruct (Hbody i (or_introl eq_refl) t cs Ht) as (t1 & cs1 & X1 & Hrun1 & Ht1 & He1).
    destruct (IH (fun i' Hi' => Hbody i' (or_intror Hi')) t1 cs1 X1 Ht1)
      as (t2 & cs2 & X2 & Hrun2 & Ht2 & He2).
    exists t2, cs2, X2. split; [|split; [assumption|]].
    + now rewrite (bindM_run _ _ _ _ _ Hrun1).
    + intros x. now rewrite He2, He1.
Qed.

End Sweeps.

Section Orthogonalize.
Context {R : Type} {SR : Scalar R} {SL : SemiringLaws R} {E : Engine R}.


(** The factorisation of the exact engine is one. *)
Lemma trivial_factors_correct : qr_correct (Engine_exact (R := R)).
Proof.
  intros A m n Hwf Hs Hm Hn. cbn [qr Engine_exact]. unfold trivial_factors, as2.
  rewrite Hs. cbn [bind].
  assert (Heye : forall p, wf_tensor (eye (R := R) p)).
  { intros p. unfold wf_tensor. rewrite eye_data_length. cbn [eye mk2 shape].
    now rewrite numel2. }
  assert (Hget : forall p x y, x < p -> y < p ->
                   get2 (eye (R := R) p) x y = if x =? y then r1 else r0).
  { intros p x y Hx Hy. unfold eye. now rewrite get2_mk2. }
  destruct (n <=? m) eqn:Hnm.
  - exists A, (eye n), n. repeat split; auto.
    intros x z Hx Hz. rewrite (sum_n_single n _ z Hz).
    + rewrite Hget, Nat.eqb_refl by assumption. apply rmul_1_r.
    + intros k Hk Hne. rewrite Hget by assumption.
      replace (k =? z) with false by (symmetry; apply Nat.eqb_neq; assumption).
      apply rmul_0_r.
  - exists (eye m), A, m. repeat split; auto.
    intros x z Hx Hz. rewrite (sum_n_single m _ x Hx).
    + rewrite Hget, Nat.eqb_refl by assumption. apply rmul_1_l.
    + intros k Hk Hne. rewrite Hget by assumption.
      replace (x =? k) with false by (symmetry; apply Nat.eqb_neq; congruence).
      apply rmul_0_l.
Qed.

End Orthogonalize.


(** ** Item access with one integer per mode *)

Section Lookup.
Context {R : Type} {SR : Scalar R} {SL : SemiringLaws R} {E : Engine R}.

Lemma expand_no_ellipsis (fill l : list kentry) :
  existsb is_ellipsis l = false -> expand_ellipsis fill l = l.
Proof.
  induction l as [|e l IH]; cbn; [reflexivity|].
  destruct e; cbn; try discriminate; intros H; now rewrite IH.
Qed.

Lemma ints_no_ellipsis zs : existsb is_ellipsis (map KInt zs) = false.
Proof. induction zs; cbn; auto. Qed.

Lemma ints_no_none zs : filter is_none (map KInt zs) = [].
Proof. induction zs; cbn; auto. Qed.

(** A key of integers, one per mode, is left as it is. *)
Lemma process_key_ints (self : network R) zs :
  length zs = ndim self -> process_key self (map KInt zs) = Ok (map KInt zs).
Proof.
  intros H. unfold process_key.
  rewrite ints_no_none, expand_no_ellipsis by apply ints_no_ellipsis.
  rewrite ints_no_ellipsis, length_map, H. cbn [length].
  replace (Z.of_nat (ndim self) - (Z.of_nat (ndim self) - Z.of_nat 0))%Z with 0%Z by lia.
  cbn. now rewrite app_nil_r.
Qed.

Lemma norm_index_lt b z k : norm_index b z = Ok k -> k < b.
Proof.
  unfold norm_index.
  destruct ((0 <=? z) && (z <? Z.of_nat b))%Z eqn:E1.
  - intros [= <-]. apply andb_prop in E1. destruct E1 as (H1 & H2).
    apply Z.leb_le in H1. apply Z.ltb_lt in H2. lia.
  - destruct ((z <? 0) && (- Z.of_nat b <=? z))%Z eqn:E2; [|discriminate].
    intros [= <-]. apply andb_prop in E2. destruct E2 as (H1 & H2).
    apply Z.ltb_lt in H1. apply Z.leb_le in H2. lia.
Qed.

Lemma getitem_step_int (self : network R) pre c post lm fo r b j X z :
  cores self = map PT (pre ++ c :: post) ->
  Us self = repeat None (length (pre ++ c :: post)) ->
  shape c = [r; b; j] -> 0 < b -> 0 < j ->
  lm <> Some MIndex -> int_state pre fo r X ->
  match norm_index b z with
  | Err e => getitem_step self (mkG lm false fo None [] [] (length pre)) (KInt z) = Err e
  | Ok k =>
      exists F,
        getitem_step self (mkG lm false fo None [] [] (length pre)) (KInt z)
        = Ok (mkG (Some MInt) false (Some F) None [] [] (length pre + 1)) /\
        int_state (pre ++ [c]) (Some F) j (X * b + k)
  end.
Proof.
  intros Hc Hu Hs Hb Hj Hlm Hst.
  assert (Hnc : py_index (cores self) (length pre) = Ok (PT c)).
  { apply py_index_nth_error. rewrite Hc, map_app. cbn [map]. apply nth_error_map_middle. }
  assert (Hnu : py_index (Us self) (length pre) = Ok None).
  { apply py_index_nth_error. rewrite Hu. apply nth_error_repeat.
    rewrite length_app. cbn. lia. }
  assert (Hlm' : match lm with Some MIndex => true | _ => false end = false).
  { destruct lm as [[| | |]|]; congruence. }
  unfold getitem_step. cbn [bind last_mode f_int counter]. rewrite Hlm'. cbn [bind f_int counter].
  assert (Hkey : get_key self (length pre) (KInt z)
                 = (k <- norm_index b z ;; Ok (mk2 r j (fun x y => get3 c x k y)))).
  { unfold get_key. rewrite Hnu, Hnc. cbn [bind core_arg].
    unfold index_axis1, as3_index. rewrite Hs. reflexivity. }
  destruct (norm_index b z) as [k|e] eqn:Hk.
  - pose proof (norm_index_lt _ _ _ Hk) as Hkb.
    destruct fo as [F|].
    + destruct Hst as (Hne & HsF & HF).
      rewrite Hkey. cbn [bind]. unfold einsum_ij_jk_ik, as2. rewrite HsF.
      cbn [shape mk2 bind]. rewrite Nat.eqb_refl.
      eexists. split; [reflexivity|].
      split; [now destruct pre|]. split; [reflexivity|].
      intros y Hy. rewrite get2_mk2 by lia. rewrite chain_sem_app. unfold fstep.
      rewrite Hs. cbn [nth]. rewrite flat2_div, flat2_mod by assumption.
      apply sum_n_ext. intros m Hm. rewrite HF by assumption.
      now rewrite get2_mk2 by assumption.
    + destruct Hst as (-> & ->).
      rewrite Hkey. cbn [bind]. eexists. split; [reflexivity|].
      split; [discriminate|]. split; [reflexivity|].
      intros y Hy. rewrite get2_mk2 by lia. cbn [app chain_sem]. unfold fstep.
      rewrite Hs. cbn [nth]. rewrite flat2_mod by assumption.
      unfold sum_n. cbn [seq fold_left]. now rewrite radd_0_l, rmul_1_l.
  - destruct fo as [F|]; rewrite Hkey; reflexivity.
Qed.

Lemma flatten_cons b ms k ks : flatten (b :: ms) (k :: ks) = k * numel ms + flatten ms ks.
Proof. reflexivity. Qed.

Lemma ints_fold (self : network R) (post : list (tensor R)) :
  forall pre ms2 zs lm fo r X,
    cores self = map PT (pre ++ post) ->
    Us self = repeat None (length (pre ++ post)) ->
    chain r post ms2 1 -> Forall good_core post ->
    length zs = length post ->
    lm <> Some MIndex -> int_state pre fo r X ->
    match norm_indices ms2 zs with
    | Err e =>
        foldM (getitem_step self) (map KInt zs) (mkG lm false fo None [] [] (length pre)) = Err e
    | Ok ks =>
        exists fo' lm',
          foldM (getitem_step self) (map KInt zs) (mkG lm false fo None [] [] (length pre))
          = Ok (mkG lm' false fo' None [] [] (length (pre ++ post))) /\
          (post <> [] -> lm' = Some MInt) /\ (post = [] -> lm' = lm) /\
          int_state (pre ++ post) fo' 1 (X * numel ms2 + flatten ms2 ks)
    end.
Proof.
  induction post as [|c post IH]; intros pre ms2 zs lm fo r X Hc Hu Hch Hg Hlen Hlm Hst.
  - destruct ms2; cbn in Hch; [|tauto]. subst r. destruct zs; [|discriminate].
    cbn. exists fo, lm. rewrite app_nil_r, Nat.mul_1_r, Nat.add_0_r.
    split; [reflexivity|]. split; [congruence|]. split; [reflexivity|assumption].
  - destruct ms2 as [|b ms2]; cbn in Hch; [tauto|]. destruct Hch as (j & Hs & Hch).
    destruct zs as [|z zs]; [discriminate|]. cbn [length] in Hlen.
    inversion Hg as [|? ? Hgc Hgp]; subst.
    destruct (good_shape3 _ _ _ _ Hgc Hs) as (_ & Hb & Hj).
    pose proof (getitem_step_int self pre c post lm fo r b j X z Hc Hu Hs Hb Hj Hlm Hst) as Hstep.
    unfold norm_indices. cbn [combine mapM map foldM].
    destruct (norm_index b z) as [k|e]; [|now rewrite Hstep].
    destruct Hstep as (F & -> & HF). cbn [bind].
    specialize (IH (pre ++ [c]) ms2 zs (Some MInt) (Some F) j (X * b + k)).
    rewrite <- app_assoc in IH. cbn [app] in IH.
    replace (length pre + 1) with (length (pre ++ [c])) by (rewrite length_app; reflexivity).
    specialize (IH Hc Hu Hch Hgp ltac:(lia) ltac:(discriminate) HF).
    fold (norm_indices ms2 zs).
    destruct (norm_indices ms2 zs) as [ks|e]; [|now rewrite IH].
    destruct IH as (fo' & lm' & -> & Hl1 & Hl2 & Hst').
    cbn [bind]. exists fo', lm'. split; [reflexivity|]. split; [|split; [discriminate|]].
    + intros _. destruct post; [now apply Hl2|apply Hl1; discriminate].
    + rewrite flatten_cons, numel_cons.
      replace (X * (b * numel ms2) + (k * numel ms2 + flatten ms2 ks))
        with ((X * b + k) * numel ms2 + flatten ms2 ks) by lia.
      exact Hst'.
Qed.

(** The whole of [__getitem__] on a key of one integer per mode. *)
Lemma getitem_ints (t : network R) cs ms zs :
  tt_form t cs ms -> length zs = length ms ->
  getitem t (KeySeq (map KInt zs))
  = (ks <- norm_indices ms zs ;; Ok (IScalar (tt_entry cs (flatten ms ks)))).
Proof.
  intros (Hc & Hu & Hne & Hch & Hg) Hlen.
  pose proof (chain_length _ _ _ _ Hch) as Hl.
  unfold getitem, getitem_entries.
  rewrite process_key_ints by (unfold ndim; rewrite Hc, length_map; lia). cbn [bind].
  pose proof (ints_fold t cs [] ms zs None None 1 0 Hc Hu Hch Hg ltac:(lia)
                        ltac:(discriminate) (conj eq_refl eq_refl)) as Hfold.
  cbn [length app] in Hfold.
  destruct (norm_indices ms zs) as [ks|e]; [|now rewrite Hfold].
  destruct Hfold as (fo' & lm' & -> & Hl1 & _ & Hst). cbn [bind last_mode].
  rewrite (Hl1 Hne). cbn [f_int out_cores length Nat.ltb Nat.leb].
  destruct fo' as [F|]; [|destruct Hst; contradiction].
  destruct Hst as (_ & HsF & HF). unfold as2_index. rewrite HsF. cbn [bind Nat.eqb orb].
  rewrite HF by lia. reflexivity.
Qed.

(** Item access with one integer per mode on a TT-form network returns the
    entry at this multi-index, negative integers counting from the end; an
    integer outside its mode raises [IndexError]. *)
Theorem getitem_integers (t : network R) cs ms zs :
  tt_form t cs ms -> length zs = length ms ->
  (forall ks, norm_indices ms zs = Ok ks ->
     getitem t (KeySeq (map KInt zs)) = Ok (IScalar (tt_entry cs (flatten ms ks)))) /\
  (forall e, norm_indices ms zs = Err e ->
     getitem t (KeySeq (map KInt zs)) = Err (IndexError "index out of range")).
Proof.
  intros Ht Hlen. rewrite (getitem_ints t cs ms zs Ht Hlen).
  split.
  - now intros ks ->.
  - intros e He. rewrite He. cbn [bind]. f_equal.
    unfold norm_indices in He. clear - He. revert He.
    generalize (combine ms zs). induction l as [|[m z] l IH]; cbn; [discriminate|].
    unfold norm_index at 1.
    destruct ((0 <=? z) && (z <? Z.of_nat m))%Z; cbn [bind].
    + destruct (mapM _ l); [discriminate|]. intros [= <-]. now apply IH.
    + destruct ((z <? 0) && (- Z.of_nat m <=? z))%Z; cbn [bind].
      * destruct (mapM _ l); [discriminate|]. intros [= <-]. now apply IH.
      * now intros [= <-].
Qed.

End Lookup.

Lemma getitem_integers_witness :
  getitem (E := Engine_exact) (tt_example 4) (KeySeq [KInt 1; KInt (-2)]) = Ok (IScalar 3%Z) /\
  getitem (E := Engine_exact) (tt_example 4) (KeySeq [KInt 1; KInt 2])
  = Err (IndexError "index out of range").
Proof.
  destruct (getitem_integers (R := Z) (E := Engine_exact) (tt_example 4) (tt_example_cores 4)
              [2; 2] [1; -2]%Z (tt_example_form 4) eq_refl) as (H1 & _).
  destruct (getitem_integers (R := Z) (E := Engine_exact) (tt_example 4) (tt_example_cores 4)
              [2; 2] [1; 2]%Z (tt_example_form 4) eq_refl) as (_ & H2).
  split.
  - exact (H1 [1; 0] eq_refl).
  - exact (H2 _ eq_refl).
Defined.

(** ** [_process_key] *)

Section ProcessKey.
Context {R : Type} {SR : Scalar R}.

Lemma filter_none_repeat n : filter is_none (repeat full_slice n) = [].
Proof. induction n; cbn; auto. Qed.

Lemma ellipsis_repeat n : existsb is_ellipsis (repeat full_slice n) = false.
Proof. induction n; cbn; auto. Qed.

Lemma filter_none_expand n l :
  filter is_none (expand_ellipsis (repeat full_slice n) l) = filter is_none l.
Proof.
  induction l as [|e l IH]; [reflexivity|].
  destruct e; cbn [expand_ellipsis filter is_none]; try now rewrite IH.
  now rewrite filter_app, filter_none_repeat.
Qed.

Lemma expand_at_ellipsis fill k1 rest :
  existsb is_ellipsis k1 = false ->
  expand_ellipsis fill (k1 ++ KEllipsis :: rest) = k1 ++ fill ++ rest.
Proof.
  induction k1 as [|e k1 IH]; [reflexivity|].
  cbn [existsb]. intros H. apply orb_false_elim in H. destruct H as (He & H).
  destruct e; try discriminate; cbn [app expand_ellipsis]; now rewrite IH.
Qed.

(** Every key that [_process_key] lets through has no ellipsis left and
    exactly one entry that is not [None] for each mode of the network. *)
Theorem process_key_modes (self : network R) (k k' : list kentry) :
  process_key self k = Ok k' ->
  existsb is_ellipsis k' = false /\
  length k' = ndim self + length (filter is_none k').
Proof.
  unfold process_key. cbv zeta.
  set (fill := repeat full_slice (Z.to_nat (_ + 1))).
  set (k1 := expand_ellipsis fill k).
  destruct (existsb is_ellipsis k1) eqn:He; [discriminate|].
  destruct (_ <? 0)%Z eqn:Hn; [discriminate|].
  intros [= <-]. apply Z.ltb_ge in Hn.
  assert (Hf : filter is_none k1 = filter is_none k) by apply filter_none_expand.
  pose proof (filter_length_le is_none k1) as Hle. rewrite Hf in Hle.
  split.
  - now rewrite existsb_app, He, ellipsis_repeat.
  - rewrite filter_app, filter_none_repeat, app_nil_r, Hf.
    rewrite length_app, repeat_length. lia.
Qed.

(** A key with a second ellipsis is refused, and so is a key without
    ellipsis that has more entries other than [None] than the network has
    modes. *)
Theorem process_key_errors (self : network R) :
  (forall k1 k2 k3,
      existsb is_ellipsis k1 = false ->
      process_key self (k1 ++ KEllipsis :: k2 ++ KEllipsis :: k3)
      = Err (IndexError "Only one ellipsis is allowed, at most")) /\
  (forall k,
      existsb is_ellipsis k = false ->
      ndim self + length (filter is_none k) < length k ->
      process_key self k = Err (IndexError "Too many index entries")).
Proof.
  split.
  - intros k1 k2 k3 H1. unfold process_key. cbv zeta.
    set (fill := repeat full_slice (Z.to_nat (_ + 1))).
    rewrite (expand_at_ellipsis fill k1 _ H1). rewrite !existsb_app. cbn [existsb is_ellipsis].
    now rewrite !orb_true_r.
  - intros k Hk Hlen. unfold process_key. cbv zeta.
    rewrite expand_no_ellipsis by assumption. rewrite Hk.
    replace (_ <? 0)%Z with true; [reflexivity|].
    symmetry. apply Z.ltb_lt. lia.
Qed.

End ProcessKey.

Lemma process_key_modes_witness :
  process_key (tt_example 4) [KNone; KEllipsis] = Ok [KNone; full_slice; full_slice] /\
  existsb is_ellipsis [KNone; full_slice; full_slice] = false /\
  length [KNone; full_slice; full_slice]
  = ndim (tt_example 4) + length (filter is_none [KNone; full_slice; full_slice]).
Proof.
  split; [reflexivity|].
  exact (process_key_modes (tt_example 4) [KNone; KEllipsis] _ eq_refl).
Defined.

Lemma process_key_errors_witness :
  process_key (tt_example 4) [KEllipsis; KInt 0; KEllipsis]
  = Err (IndexError "Only one ellipsis is allowed, at most") /\
  process_key (tt_example 4) [KInt 0; KNone; KInt 0; KInt 0]
  = Err (IndexError "Too many index entries").
Proof.
  destruct (process_key_errors (tt_example 4)) as (H1 & H2). split.
  - exact (H1 [] [KInt 0%Z] [] eq_refl).
  - apply H2; [reflexivity|cbn; lia].
Defined.

(** ** Item access with slices over whole modes *)

Section WholeSlices.
Context {R : Type} {SR : Scalar R} {SL : SemiringLaws R} {E : Engine R}.

Lemma slice_positions_all b : slice_positions b None None None = Ok (seq 0 b).
Proof.
  unfold slice_positions. cbn [Z.leb Z.compare].
  assert (Hc : (if (0 <? Z.of_nat b)%Z then Z.to_nat ((Z.of_nat b - 0 + 1 - 1) / 1) else 0) = b).
  { destruct (0 <? Z.of_nat b)%Z eqn:Hb.
    - rewrite Z.div_1_r. lia.
    - apply Z.ltb_ge in Hb. lia. }
  rewrite Hc. f_equal. rewrite <- (map_id (seq 0 b)) at 2.
  apply map_ext. intros k. lia.
Qed.

Lemma index_axis1_all (c : tensor R) a b j :
  good_core c -> shape c = [a; b; j] -> index_axis1 c full_slice = Ok c.
Proof.
  intros Hg Hs. destruct (good_shape3 _ _ _ _ Hg Hs) as (Ha & Hb & Hj).
  destruct Hg as (Hwf & _). destruct c as [sh d]. cbn [shape] in Hs. subst sh.
  unfold wf_tensor in Hwf. cbn [shape data] in Hwf. rewrite numel3 in Hwf.
  unfold index_axis1, as3_index, full_slice. cbn [shape bind].
  rewrite slice_positions_all. cbn [bind]. rewrite length_seq.
  unfold mk3. do 2 f_equal.
  apply tabulate_is_list with (d := r0); [assumption|].
  intros p Hp.
  assert (Hy : (p / j) mod b < b) by (apply Nat.mod_upper_bound; lia).
  rewrite seq_nth by assumption. cbn [Nat.add].
  unfold get3, get. cbn [shape data nth]. f_equal. now apply flat3_split.
Qed.

Lemma getitem_step_all (self : network R) pre c post lm a b j :
  cores self = map PT (pre ++ c :: post) ->
  Us self = repeat None (length (pre ++ c :: post)) ->
  good_core c -> shape c = [a; b; j] ->
  getitem_step self (mkG lm false None None (map PT pre) (repeat None (length pre)) (length pre))
               full_slice
  = Ok (mkG (Some MSlice) false None None (map PT (pre ++ [c]))
            (repeat None (length (pre ++ [c]))) (length (pre ++ [c]))).
Proof.
  intros Hc Hu Hg Hs.
  assert (Hnc : py_index (cores self) (length pre) = Ok (PT c)).
  { apply py_index_nth_error. rewrite Hc, map_app. cbn [map]. apply nth_error_map_middle. }
  assert (Hnu : py_index (Us self) (length pre) = Ok None).
  { apply py_index_nth_error. rewrite Hu. apply nth_error_repeat.
    rewrite length_app. cbn. lia. }
  unfold getitem_step, full_slice. cbn [bind counter]. rewrite Hnc, Hnu. cbn [bind].
  unfold insert_core. cbn [f_index f_int bind core_arg].
  fold full_slice. rewrite (index_axis1_all c a b j Hg Hs). cbn [bind].
  unfold push, advance, with_last. cbn [last_mode index_done f_int f_index out_cores out_Us counter].
  rewrite map_app, length_app, repeat_app. reflexivity.
Qed.

Lemma slices_fold (self : network R) (post : list (tensor R)) :
  forall pre ms2 r lm,
    cores self = map PT (pre ++ post) ->
    Us self = repeat None (length (pre ++ post)) ->
    chain r post ms2 1 -> Forall good_core post ->
    exists lm',
      foldM (getitem_step self) (repeat full_slice (length post))
            (mkG lm false None None (map PT pre) (repeat None (length pre)) (length pre))
      = Ok (mkG lm' false None None (map PT (pre ++ post))
                (repeat None (length (pre ++ post))) (length (pre ++ post))) /\
      (post <> [] -> lm' = Some MSlice) /\ (post = [] -> lm' = lm).
Proof.
  induction post as [|c post IH]; intros pre ms2 r lm Hc Hu Hch Hg.
  - exists lm. rewrite app_nil_r. cbn. split; [reflexivity|]. split; congruence.
  - destruct ms2 as [|b ms2]; cbn in Hch; [tauto|]. destruct Hch as (j & Hs & Hch).
    inversion Hg as [|? ? Hgc Hgp]; subst.
    cbn [length repeat foldM].
    rewrite (getitem_step_all self pre c post lm r b j Hc Hu Hgc Hs). cbn [bind].
    specialize (IH (pre ++ [c]) ms2 j (Some MSlice)).
    rewrite <- app_assoc in IH. cbn [app] in IH.
    destruct (IH Hc Hu Hch Hgp) as (lm' & -> & Hl1 & Hl2).
    exists lm'. split; [reflexivity|]. split; [|discriminate]. intros _.
    destruct post; [now apply Hl2|apply Hl1; discriminate].
Qed.

Lemma getitem_slices_run (t : network R) cs ms :
  tt_form t cs ms ->
  (st <- foldM (getitem_step t) (repeat full_slice (length ms)) (mkG None false None None [] [] 0) ;;
   match last_mode st with
   | Some MIndex =>
       match f_index st with
       | Some idx =>
           t <- Tensor_of_cores (out_cores st ++ [PT idx]) (Some (out_Us st ++ [None])) None ;;
           Ok (INet t)
       | None => Err AttributeError
       end
   | Some MInt =>
       match f_int st with
       | Some fi =>
           if 0 <? length (out_cores st)
           then
             o <- py_last (out_cores st) ;;
             c <- core_arg o ;;
             c' <- einsum_ija_ak_ijk c fi ;;
             cs <- set_last (out_cores st) (PT c') ;;
             t <- Tensor_of_cores cs (Some (out_Us st)) None ;;
             Ok (INet t)
           else
             '(a, b) <- as2_index fi ;;
             if (a =? 0) || (b =? 0) then Err (IndexError "index 0 is out of bounds")
             else Ok (IScalar (get2 fi 0 0))
       | None => Err TypeError
       end
   | _ =>
       t <- Tensor_of_cores (out_cores st) (Some (out_Us st)) None ;;
       Ok (INet t)
   end)
  = Ok (INet (mkN (cores t) (Us t) (map arange ms))).
Proof.
  intros (Hc & Hu & Hne & Hch & Hg).
  pose proof (chain_length _ _ _ _ Hch) as Hl. rewrite <- Hl.
  destruct (slices_fold t cs [] ms 1 None Hc Hu Hch Hg) as (lm' & Hrun & Hlm & _).
  cbn [map length repeat app] in Hrun. rewrite Hrun. cbn [bind last_mode].
  rewrite (Hlm Hne). cbn [out_cores out_Us].
  rewrite (Tensor_of_cores_checks _ _ _ _ _ _ Hch), (init_tail_no_factors _ _ _ _ Hch).
  cbn [bind]. now rewrite Hc, Hu.
Qed.

(** [t[...]], and [t[:, ..., :]] with at most one slice per mode, return a
    network with the cores and factors of [t] and with the labels
    [0 .. I_n - 1] on every mode: the labels of [t] are not kept. *)
Theorem getitem_whole (t : network R) cs ms :
  tt_form t cs ms ->
  getitem t (KeyOne KEllipsis) = Ok (INet (mkN (cores t) (Us t) (map arange ms))) /\
  forall n, n <= length ms ->
    getitem t (KeySeq (repeat full_slice n)) = Ok (INet (mkN (cores t) (Us t) (map arange ms))).
Proof.
  intros Ht. pose proof (getitem_slices_run t cs ms Ht) as Hrun.
  assert (HN : ndim t = length ms).
  { destruct Ht as (Hc & _ & _ & Hch & _). unfold ndim. rewrite Hc, length_map.
    eapply chain_length; eauto. }
  split.
  - unfold getitem, getitem_entries, process_key. cbv zeta.
    cbn [length filter is_none expand_ellipsis]. rewrite HN.
    replace (Z.to_nat (Z.of_nat (length ms) - (Z.of_nat 1 - Z.of_nat 0) + 1)) with (length ms)
      by lia.
    rewrite app_nil_r, ellipsis_repeat, repeat_length.
    replace (Z.of_nat (length ms) - (Z.of_nat (length ms) - Z.of_nat 0) <? 0)%Z with false
      by (symmetry; apply Z.ltb_ge; lia).
    replace (Z.to_nat (Z.of_nat (length ms) - (Z.of_nat (length ms) - Z.of_nat 0))) with 0 by lia.
    cbn [repeat]. rewrite app_nil_r. exact Hrun.
  - intros n Hn. unfold getitem, getitem_entries, process_key. cbv zeta.
    rewrite filter_none_repeat, expand_no_ellipsis by apply ellipsis_repeat.
    rewrite ellipsis_repeat, repeat_length, HN. cbn [length].
    replace (Z.of_nat (length ms) - (Z.of_nat n - Z.of_nat 0) <? 0)%Z with false
      by (symmetry; apply Z.ltb_ge; lia).
    rewrite <- repeat_app.
    replace (n + Z.to_nat (Z.of_nat (length ms) - (Z.of_nat n - Z.of_nat 0))) with (length ms)
      by lia.
    exact Hrun.
Qed.

End WholeSlices.

Lemma getitem_whole_witness :
  getitem (E := Engine_exact) (tt_example 4) (KeyOne KEllipsis)
  = Ok (INet (tt_example 4)) /\
  getitem (E := Engine_exact) (tt_example 4) (KeySeq [full_slice])
  = Ok (INet (tt_example 4)).
Proof.
  destruct (getitem_whole (R := Z) (E := Engine_exact) (tt_example 4) (tt_example_cores 4)
              [2; 2] (tt_example_form 4)) as (H1 & H2).
  split; [exact H1|]. apply (H2 1). cbn. lia.
Defined.

(** * Item access by integers, in float arithmetic *)

Section LookupFloat.
Context {R : Type} {SR : Scalar R} {IL : IeeeLaws R} {E : Engine R}.

Local Abbreviation f1 := (fun _ _ : nat => r1 (R := R)).

(** One integer of the key: the row kept so far is multiplied into the
    slice of the core. *)
Lemma getitem_step_int_feq (self : network R) pre c post lm fo r b j X z P :
  cores self = map PT (pre ++ c :: post) ->
  Us self = repeat None (length (pre ++ c :: post)) ->
  shape c = [r; b; j] -> 0 < b -> 0 < j ->
  lm <> Some MIndex -> int_state_feq pre fo r X ->
  X < P -> fin_mat P r (chain_sem pre f1) -> fin_core c ->
  match norm_index b z with
  | Err e => getitem_step self (mkG lm false fo None [] [] (length pre)) (KInt z) = Err e
  | Ok k =>
      exists F,
        getitem_step self (mkG lm false fo None [] [] (length pre)) (KInt z)
        = Ok (mkG (Some MInt) false (Some F) None [] [] (length pre + 1)) /\
        int_state_feq (pre ++ [c]) (Some F) j (X * b + k)
  end.
Proof.
  intros Hc Hu Hs Hb Hj Hlm Hst HX Hfm Hfc.
  assert (Hnc : py_index (cores self) (length pre) = Ok (PT c)).
  { apply py_index_nth_error. rewrite Hc, map_app. cbn [map]. apply nth_error_map_middle. }
  assert (Hnu : py_index (Us self) (length pre) = Ok None).
  { apply py_index_nth_error. rewrite Hu. apply nth_error_repeat.
    rewrite length_app. cbn. lia. }
  assert (Hlm' : match lm with Some MIndex => true | _ => false end = false).
  { destruct lm as [[| | |]|]; congruence. }
  unfold getitem_step. cbn [bind last_mode f_int counter]. rewrite Hlm'. cbn [bind f_int counter].
  assert (Hkey : get_key self (length pre) (KInt z)
                 = (k <- norm_index b z ;; Ok (mk2 r j (fun x y => get3 c x k y)))).
  { unfold get_key. rewrite Hnu, Hnc. cbn [bind core_arg].
    unfold index_axis1, as3_index. rewrite Hs. reflexivity. }
  destruct (norm_index b z) as [k|e] eqn:Hk.
  - pose proof (norm_index_lt _ _ _ Hk) as Hkb.
    destruct fo as [F|].
    + destruct Hst as (Hne & HsF & HF).
      rewrite Hkey. cbn [bind]. unfold einsum_ij_jk_ik, as2. rewrite HsF.
      cbn [shape mk2 bind]. rewrite Nat.eqb_refl.
      eexists. split; [reflexivity|].
      split; [now destruct pre|]. split; [reflexivity|].
      intros y Hy. rewrite get2_mk2 by lia. rewrite chain_sem_app. unfold fstep.
      rewrite Hs. cbn [nth]. rewrite flat2_div, flat2_mod by assumption.
      apply sum_n_feq. intros m Hm. rewrite get2_mk2 by assumption.
      apply rmul_feq; [now apply HF|apply feq_refl|now apply Hfm|now apply get3_finite].
    + destruct Hst as (-> & ->).
      rewrite Hkey. cbn [bind]. eexists. split; [reflexivity|].
      split; [discriminate|]. split; [reflexivity|].
      intros y Hy. rewrite get2_mk2 by lia. cbn [app chain_sem].
      apply feq_sym. eapply feq_trans; [apply (fstep_first c b j _ y Hs)|].
      rewrite flat2_mod by assumption. apply feq_refl.
  - destruct fo as [F|]; rewrite Hkey; reflexivity.
Qed.

Lemma ints_fold_feq (self : network R) (post : list (tensor R)) :
  forall pre ms2 zs lm fo r X P,
    cores self = map PT (pre ++ post) ->
    Us self = repeat None (length (pre ++ post)) ->
    chain r post ms2 1 -> Forall good_core post ->
    length zs = length post ->
    lm <> Some MIndex -> int_state_feq pre fo r X ->
    X < P -> tame P r (chain_sem pre f1) post ->
    match norm_indices ms2 zs with
    | Err e =>
        foldM (getitem_step self) (map KInt zs) (mkG lm false fo None [] [] (length pre)) = Err e
    | Ok ks =>
        exists fo' lm',
          foldM (getitem_step self) (map KInt zs) (mkG lm false fo None [] [] (length pre))
          = Ok (mkG lm' false fo' None [] [] (length (pre ++ post))) /\
          (post <> [] -> lm' = Some MInt) /\ (post = [] -> lm' = lm) /\
          int_state_feq (pre ++ post) fo' 1 (X * numel ms2 + flatten ms2 ks)
    end.
Proof.
  induction post as [|c post IH]; intros pre ms2 zs lm fo r X P Hc Hu Hch Hg Hlen Hlm Hst HX Ht.
  - destruct ms2; cbn in Hch; [|tauto]. subst r. destruct zs; [|discriminate].
    cbn. exists fo, lm. rewrite app_nil_r, Nat.mul_1_r, Nat.add_0_r.
    split; [reflexivity|]. split; [congruence|]. split; [reflexivity|assumption].
  - destruct ms2 as [|b ms2]; cbn in Hch; [tauto|]. destruct Hch as (j & Hs & Hch).
    destruct zs as [|z zs]; [discriminate|]. cbn [length] in Hlen.
    inversion Hg as [|? ? Hgc Hgp]; subst.
    destruct (good_shape3 _ _ _ _ Hgc Hs) as (_ & Hb & Hj).
    cbn [tame] in Ht. rewrite Hs in Ht. cbn [nth] in Ht.
    destruct Ht as (Hfm & Hfc & _ & Ht).
    pose proof (getitem_step_int_feq self pre c post lm fo r b j X z P
                  Hc Hu Hs Hb Hj Hlm Hst HX Hfm Hfc) as Hstep.
    unfold norm_indices. cbn [combine mapM map foldM].
    destruct (norm_index b z) as [k|e] eqn:Hk; [|now rewrite Hstep].
    pose proof (norm_index_lt _ _ _ Hk) as Hkb.
    destruct Hstep as (F & -> & HF). cbn [bind].
    specialize (IH (pre ++ [c]) ms2 zs (Some MInt) (Some F) j (X * b + k) (P * b)).
    rewrite <- app_assoc in IH. cbn [app] in IH.
    replace (length pre + 1) with (length (pre ++ [c])) by (rewrite length_app; reflexivity).
    rewrite chain_sem_app in IH.
    specialize (IH Hc Hu Hch Hgp ltac:(lia) ltac:(discriminate) HF ltac:(nia) Ht).
    fold (norm_indices ms2 zs).
    destruct (norm_indices ms2 zs) as [ks|e]; [|now rewrite IH].
    destruct IH as (fo' & lm' & -> & Hl1 & Hl2 & Hst').
    cbn [bind]. exists fo', lm'. split; [reflexivity|]. split; [|split; [discriminate|]].
    + intros _. destruct post; [now apply Hl2|apply Hl1; discriminate].
    + rewrite flatten_cons, numel_cons.
      replace (X * (b * numel ms2) + (k * numel ms2 + flatten ms2 ks))
        with ((X * b + k) * numel ms2 + flatten ms2 ks) by lia.
      exact Hst'.
Qed.

(** The whole of [__getitem__] on a key of one integer per mode, on a tame
    TT-form network: the entry, up to the sign of zero. *)
Lemma getitem_ints_feq (t : network R) cs ms zs :
  tt_form t cs ms -> tame 1 1 f1 cs -> length zs = length ms ->
  match norm_indices ms zs with
  | Err e => getitem t (KeySeq (map KInt zs)) = Err e
  | Ok ks =>
      exists v, getitem t (KeySeq (map KInt zs)) = Ok (IScalar v) /\
                feq v (tt_entry cs (flatten ms ks))
  end.
Proof.
  intros (Hc & Hu & Hne & Hch & Hg) Ht Hlen.
  pose proof (chain_length _ _ _ _ Hch) as Hl.
  unfold getitem, getitem_entries.
  rewrite process_key_ints by (unfold ndim; rewrite Hc, length_map; lia). cbn [bind].
  pose proof (ints_fold_feq t cs [] ms zs None None 1 0 1 Hc Hu Hch Hg ltac:(lia)
                ltac:(discriminate) (conj eq_refl eq_refl) Nat.lt_0_1 Ht) as Hfold.
  cbn [length app] in Hfold.
  destruct (norm_indices ms zs) as [ks|e]; [|now rewrite Hfold].
  destruct Hfold as (fo' & lm' & -> & Hl1 & _ & Hst). cbn [bind last_mode].
  rewrite (Hl1 Hne). cbn [f_int out_cores length Nat.ltb Nat.leb].
  destruct fo' as [F|]; [|destruct Hst; contradiction].
  destruct Hst as (_ & HsF & HF). unfold as2_index. rewrite HsF. cbn [bind Nat.eqb orb].
  eexists. split; [reflexivity|]. apply HF. lia.
Qed.

(** The network of a dense array of finite entries answers item access
    with the entry of the array, up to the sign of zero:
    [Tensor(A)[i_1, ..., i_N] = A[i_1, ..., i_N]]. *)
Theorem dense_lookup (A : tensor R) zs ks :
  wf_tensor A -> shape A <> [] -> Forall (fun s => 0 < s) (shape A) -> fin_core A ->
  length zs = length (shape A) -> norm_indices (shape A) zs = Ok ks ->
  exists v,
    (t <- Tensor_of_dense A None ;; getitem t (KeySeq (map KInt zs))) = Ok (IScalar v) /\
    feq v (nth (flatten (shape A) ks) (data A) r0).
Proof.
  intros Hwf Hne Hpos Hfin Hlen Hks.
  destruct (Tensor_of_dense_feq A Hwf Hne Hpos Hfin) as (t & cs & -> & Ht & Htame & He).
  cbn [bind].
  pose proof (getitem_ints_feq t cs (shape A) zs Ht Htame Hlen) as Hget.
  rewrite Hks in Hget. destruct Hget as (v & Hv & Hfe).
  exists v. split; [exact Hv|].
  eapply feq_trans; [exact Hfe|]. apply He.
  clear - Hks Hpos. unfold norm_indices in Hks. revert zs ks Hks.
  induction Hpos as [|m ms Hm Hpos IH]; intros zs ks Hks.
  - cbn in Hks. injection Hks as <-. cbn. lia.
  - destruct zs as [|z zs]; cbn [combine mapM] in Hks.
    + injection Hks as <-. cbn [flatten]. apply numel_pos. now constructor.
    + destruct (norm_index m z) as [k|] eqn:Hk; [|discriminate]. cbn [bind] in Hks.
      destruct (mapM _ (combine ms zs)) as [ks'|] eqn:Hks'; [|discriminate].
      injection Hks as <-. rewrite flatten_cons, numel_cons.
      pose proof (norm_index_lt _ _ _ Hk). specialize (IH zs ks' Hks'). nia.
Qed.

End LookupFloat.

Lemma dense_lookup_witness :
  exists v,
    (t <- Tensor_of_dense
            (mkT [2; 3] [float_of_Z 1; float_of_Z 2; float_of_Z 3;
                         float_of_Z 4; float_of_Z 5; PrimFloat.neg_zero]) None ;;
     getitem (E := Engine_exact) t (KeySeq [KInt 1; KInt (-1)])) = Ok (IScalar v) /\
    feq v (nth (flatten [2; 3] [1; 2])
               [float_of_Z 1; float_of_Z 2; float_of_Z 3;
                float_of_Z 4; float_of_Z 5; PrimFloat.neg_zero] r0).
Proof.
  apply (dense_lookup (R := PrimFloat.float) (E := Engine_exact)
           (mkT [2; 3] [float_of_Z 1; float_of_Z 2; float_of_Z 3;
                        float_of_Z 4; float_of_Z 5; PrimFloat.neg_zero])
           [1; -1]%Z [1; 2]).
  - reflexivity.
  - discriminate.
  - repeat constructor.
  - repeat constructor.
  - reflexivity.
  - reflexivity.
Defined.

(** ** The dot product of two networks ([metrics.dot]) *)

Section Rows.
Context {R : Type} {SR : Scalar R} {SL : SemiringLaws R}.

Lemma modes_numel_chain (cs : list (tensor R)) : forall ms r r',
  chain r cs ms r' -> modes_numel cs = numel ms.
Proof.
  induction cs as [|c cs IH]; intros [|b ms] r r' H; cbn in H; try tauto.
  destruct H as (j & Hs & H). cbn [modes_numel]. rewrite Hs. cbn [nth].
  rewrite numel_cons. f_equal. eauto.
Qed.

Lemma mod_mul_div n b X : 0 < n -> (X mod (n * b)) / n = (X / n) mod b.
Proof.
  intros Hn. rewrite Nat.Div0.mod_mul_r.
  rewrite (Nat.mul_comm n), Nat.div_add by lia.
  rewrite Nat.div_small by (apply Nat.mod_upper_bound; lia). reflexivity.
Qed.

Lemma mod_mul_mod n b X : 0 < n -> (X mod (n * b)) mod n = X mod n.
Proof.
  intros Hn. rewrite Nat.Div0.mod_mul_r.
  rewrite (Nat.mul_comm n), Nat.Div0.mod_add. apply Nat.Div0.mod_mod.
Qed.

(** The chain read from the left agrees with the chain as [full] contracts
    it. *)
Lemma chain_sem_row (cs : list (tensor R)) : forall ms r r' (f : nat -> nat -> R) X z,
  chain r cs ms r' -> Forall good_core cs -> z < r' ->
  chain_sem cs f X z
  = sum_n r (fun a => rmul (f (X / numel ms) a) (chain_row cs a (X mod numel ms) z)).
Proof.
  induction cs as [|c cs IH]; intros [|b ms] r r' f X z Hch Hg Hz; cbn in Hch; try tauto.
  - subst r'. cbn [chain_sem chain_row]. change (numel []) with 1. rewrite Nat.div_1_r.
    rewrite (sum_n_single r _ z Hz).
    + now rewrite Nat.eqb_refl, rmul_1_r.
    + intros k Hk Hne. replace (k =? z) with false by (symmetry; now apply Nat.eqb_neq).
      apply rmul_0_r.
  - destruct Hch as (j & Hs & Hch). inversion Hg as [|? ? Hgc Hgp]; subst.
    destruct (good_shape3 _ _ _ _ Hgc Hs) as (Hr & Hb & Hj).
    pose proof (chain_modes_pos _ _ _ _ Hch Hgp) as Hpos.
    pose proof (numel_pos _ Hpos) as HN.
    cbn [chain_sem chain_row]. rewrite (IH ms j r' _ X z Hch Hgp Hz).
    rewrite (modes_numel_chain _ _ _ _ Hch), Hs. cbn [nth].
    rewrite numel_cons, (Nat.mul_comm b).
    rewrite mod_mul_div, mod_mul_mod by assumption.
    unfold fstep. rewrite Hs. cbn [nth]. rewrite Nat.Div0.div_div.
    transitivity (sum_n j (fun a' => sum_n r (fun k =>
        rmul (rmul (f (X / (numel ms * b)) k) (get3 c k ((X / numel ms) mod b) a'))
             (chain_row cs a' (X mod numel ms) z)))).
    { apply sum_n_ext. intros a' _. now rewrite sum_n_mul_r. }
    rewrite sum_n_swap. apply sum_n_ext. intros k _.
    rewrite sum_n_mul_l. apply sum_n_ext. intros a' _. symmetry. apply rmul_assoc.
Qed.

Lemma tt_entry_row (cs : list (tensor R)) ms x :
  chain 1 cs ms 1 -> Forall good_core cs -> x < numel ms ->
  tt_entry cs x = chain_row cs 0 x 0.
Proof.
  intros Hch Hg Hx. unfold tt_entry.
  rewrite (chain_sem_row cs ms 1 1 _ x 0 Hch Hg) by lia.
  unfold sum_n. cbn [seq fold_left].
  now rewrite radd_0_l, rmul_1_l, Nat.mod_small.
Qed.

End Rows.

(** ** [orthogonalize] with a mode out of range *)

Section OutOfRange.
Context {R : Type} {SR : Scalar R} {SL : SemiringLaws R} {E : Engine R}.

Lemma sweep_app (body : nat -> M (tensor R)) l1 l2 : forall last (t : network R),
  sweep (l1 ++ l2) body last t =
  match sweep l1 body last t with
  | (t1, Ok x) => sweep l2 body x t1
  | (t1, Err e) => (t1, Err e)
  end.
Proof.
  induction l1 as [|i l1 IH]; intros last t; cbn [app sweep].
  - reflexivity.
  - unfold bindM. destruct (body i t) as [t1 [x|e]]; [apply IH|reflexivity].
Qed.

Lemma left_orthogonalize_last (t : network R) :
  0 < ndim t -> left_orthogonalize (ndim t - 1) t = (t, Err AssertionError).
Proof.
  intros HN. unfold left_orthogonalize.
  rewrite (bindM_run _ _ t t (ndim t)) by (apply readM_run; reflexivity).
  unfold bindM at 1. unfold liftM at 1.
  replace (Z.of_nat (ndim t - 1) <? Z.of_nat (ndim t) - 1)%Z with false; [reflexivity|].
  symmetry. apply Z.ltb_ge. lia.
Qed.


End OutOfRange.


(** ** The counting network ([automata.weight]) *)

Section Weight.
Context {R : Type} {SR : Scalar R} {SL : SemiringLaws R}.

Lemma weight_core_get n a s k :
  a < 2 -> s < n -> k < 2 ->
  get3 (weight_core n) a s k
  = if (a =? 1) && (k =? 0) then of_Z (Z.of_nat s) else if a =? k then r1 else r0.
Proof.
  intros Ha Hs Hk. unfold weight_core. cbv zeta. rewrite get3_mk3 by assumption.
  destruct ((a =? 1) && (k =? 0)); [reflexivity|].
  rewrite get3_mk3 by assumption. unfold eye. now rewrite get2_mk2.
Qed.

Lemma repeat_snoc {A} (a : A) k : repeat a (S k) = repeat a k ++ [a].
Proof. cbn [repeat]. apply repeat_cons. Qed.

Lemma slice_first n :
  slice_axis0 (weight_core (R := R) n) 1 2 = Ok (first_core n).
Proof. reflexivity. Qed.

Lemma slice_last n :
  slice_axis2 (weight_core (R := R) n) 0 1 = Ok (last_core n).
Proof. reflexivity. Qed.

Lemma slice_only n :
  slice_axis2 (first_core (R := R) n) 0 1 = Ok (only_core n).
Proof. reflexivity. Qed.

Lemma weight_run N n :
  0 < N -> weight N n = Tensor_of_cores (map PT (weight_cores N n)) None None.
Proof.
  intros HN. unfold weight. cbv zeta. rewrite map_const_repeat, length_seq.
  destruct N as [|[|k]]; [lia| |].
  - cbn [repeat py_index nth_error bind]. rewrite slice_first. cbn [bind set_first].
    change [first_core (R := R) n] with ([] ++ [first_core (R := R) n]).
    rewrite py_last_snoc. cbn [bind]. rewrite slice_only. cbn [bind].
    rewrite set_last_snoc. reflexivity.
  - rewrite repeat_snoc.
    destruct (repeat (weight_core (R := R) n) (S k) ++ [weight_core n]) as [|c l] eqn:El;
      [discriminate|].
    assert (Hc : c :: l = weight_core n :: repeat (weight_core n) k ++ [weight_core n]).
    { rewrite <- El. reflexivity. }
    injection Hc as -> ->.
    cbn [py_index nth_error bind]. rewrite slice_first. cbn [bind set_first].
    rewrite app_comm_cons, py_last_snoc. cbn [bind]. rewrite slice_last. cbn [bind].
    rewrite set_last_snoc. reflexivity.
Qed.

Lemma first_core_get n s k :
  s < n -> k < 2 -> get3 (first_core (R := R) n) 0 s k = get3 (weight_core n) 1 s k.
Proof. intros Hs Hk. unfold first_core. rewrite get3_mk3 by lia. reflexivity. Qed.

Lemma last_core_get n a s :
  a < 2 -> s < n -> get3 (last_core (R := R) n) a s 0 = get3 (weight_core n) a s 0.
Proof. intros Ha Hs. unfold last_core. rewrite get3_mk3 by lia. reflexivity. Qed.

Lemma only_core_get n s :
  s < n -> get3 (only_core (R := R) n) 0 s 0 = of_Z (Z.of_nat s).
Proof.
  intros Hs. unfold only_core. rewrite get3_mk3 by lia. cbn [nth].
  rewrite first_core_get, weight_core_get by lia. reflexivity.
Qed.

Lemma wtail_chain k n : chain 2 (wtail (R := R) k n) (repeat n (S k)) 1.
Proof.
  unfold wtail. induction k as [|k IH].
  - cbn. exists 1. split; reflexivity.
  - cbn [repeat app chain]. exists 2. split; [reflexivity|exact IH].
Qed.

Lemma weight_core_good n : 0 < n -> good_core (weight_core (R := R) n).
Proof. intros Hn. unfold weight_core. cbv zeta. apply mk3_good; lia. Qed.

Lemma wtail_good k n : 0 < n -> Forall good_core (wtail (R := R) k n).
Proof.
  intros Hn. unfold wtail. apply Forall_app. split.
  - apply Forall_forall. intros c Hc. apply repeat_spec in Hc. subst c.
    now apply weight_core_good.
  - constructor; [|constructor]. unfold last_core. apply mk3_good; lia.
Qed.

Lemma repeat_pos n k : 0 < n -> Forall (fun m => 0 < m) (repeat n k).
Proof. intros Hn. apply Forall_forall. intros m Hm. apply repeat_spec in Hm. lia. Qed.

Lemma flatten_repeat_lt n k : forall ds,
  length ds = k -> Forall (fun d => d < n) ds -> flatten (repeat n k) ds < numel (repeat n k).
Proof.
  induction k as [|k IH]; intros [|d ds] Hl Hd; try discriminate.
  - cbn. unfold numel. cbn. lia.
  - inversion Hd as [|? ? Hd1 Hd2]; subst. cbn [repeat]. rewrite flatten_cons, numel_cons.
    assert (flatten (repeat n k) ds < numel (repeat n k)) by (apply IH; [cbn in Hl; lia|assumption]).
    nia.
Qed.

Lemma sum_n_two (f : nat -> R) : sum_n 2 f = radd (f 0) (f 1).
Proof. unfold sum_n. cbn [seq fold_left]. now rewrite radd_0_l. Qed.

Lemma sum_n_one (f : nat -> R) : sum_n 1 f = f 0.
Proof. unfold sum_n. cbn [seq fold_left]. now rewrite radd_0_l. Qed.

(** Entered at rank index 0 the cores pass a 1 on; entered at rank index 1
    they add the symbol of each mode. *)
Lemma wtail_rows n k : forall ds,
  length ds = S k -> Forall (fun d => d < n) ds ->
  chain_row (wtail k n) 0 (flatten (repeat n (S k)) ds) 0 = r1 /\
  chain_row (wtail k n) 1 (flatten (repeat n (S k)) ds) 0 = digit_sum ds.
Proof.
  induction k as [|k IH]; intros [|d ds] Hl Hd; try discriminate;
    inversion Hd as [|? ? Hd1 Hd2]; subst.
  - destruct ds; [|discriminate]. unfold wtail. cbn [repeat app flatten chain_row modes_numel].
    replace (d * numel [] + 0) with d by (unfold numel; cbn; lia).
    cbn [last_core mk3 shape nth]. fold (last_core (R := R) n).
    rewrite Nat.div_1_r, !sum_n_one. cbn [Nat.eqb].
    rewrite !last_core_get, !weight_core_get by lia. cbn [Nat.eqb andb digit_sum fold_right].
    split; [apply rmul_1_r|]. now rewrite rmul_1_r, radd_0_r.
  - assert (Hn : 0 < n) by lia.
    assert (Hlt : flatten (repeat n (S k)) ds < numel (repeat n (S k))).
    { apply flatten_repeat_lt; [cbn in Hl; lia|assumption]. }
    destruct (IH ds) as (H0 & H1); [cbn in Hl; lia|assumption|].
    change (wtail (S k) n) with (weight_core (R := R) n :: wtail k n).
    change (repeat n (S (S k))) with (n :: repeat n (S k)).
    rewrite flatten_cons. cbn [chain_row].
    rewrite (modes_numel_chain _ _ _ _ (wtail_chain k n)).
    rewrite flat2_div, flat2_mod by assumption.
    cbn [weight_core mk3 shape nth]. fold (weight_core (R := R) n).
    rewrite !sum_n_two, H0, H1, !weight_core_get by lia.
    cbn [Nat.eqb andb digit_sum fold_right]. fold (digit_sum (R := R) ds).
    split.
    + now rewrite rmul_1_l, rmul_0_l, radd_0_r.
    + now rewrite rmul_1_r, rmul_1_l.
Qed.

Lemma weight_cores_chain N n : 0 < N -> chain 1 (weight_cores (R := R) N n) (repeat n N) 1.
Proof.
  intros HN. destruct N as [|[|k]]; [lia| |].
  - cbn. exists 1. split; reflexivity.
  - cbn [weight_cores]. change (repeat n (S (S k))) with (n :: repeat n (S k)).
    cbn [chain]. exists 2. split; [reflexivity|apply wtail_chain].
Qed.

Lemma weight_cores_good N n : 0 < n -> Forall good_core (weight_cores (R := R) N n).
Proof.
  intros Hn. destruct N as [|[|k]]; cbn [weight_cores].
  - constructor.
  - constructor; [|constructor]. unfold only_core. apply mk3_good; lia.
  - constructor; [|now apply wtail_good]. unfold first_core. apply mk3_good; lia.
Qed.

Lemma weight_entries n ds :
  ds <> [] -> Forall (fun d => d < n) ds ->
  tt_entry (weight_cores (length ds) n) (flatten (repeat n (length ds)) ds) = digit_sum ds.
Proof.
  intros Hne Hd. destruct ds as [|d ds]; [congruence|].
  inversion Hd as [|? ? Hd1 Hd2]; subst. assert (Hn : 0 < n) by lia.
  rewrite (tt_entry_row _ (repeat n (length (d :: ds)))).
  2:{ apply weight_cores_chain. cbn. lia. }
  2:{ now apply weight_cores_good. }
  2:{ now apply flatten_repeat_lt. }
  destruct ds as [|d' ds].
  - cbn [length weight_cores repeat flatten chain_row modes_numel].
    replace (d * numel [] + 0) with d by (unfold numel; cbn; lia).
    cbn [only_core mk3 shape nth]. fold (only_core (R := R) n).
    rewrite Nat.div_1_r, sum_n_one. cbn [Nat.eqb].
    rewrite only_core_get by assumption. cbn [digit_sum fold_right].
    now rewrite rmul_1_r, radd_0_r.
  - set (ds' := d' :: ds) in *.
    assert (Hl : length ds' = S (length ds)) by reflexivity.
    change (length (d :: ds')) with (S (length ds')). rewrite Hl.
    cbn [weight_cores]. change (repeat n (S (S (length ds)))) with (n :: repeat n (S (length ds))).
    rewrite flatten_cons. cbn [chain_row].
    rewrite (modes_numel_chain _ _ _ _ (wtail_chain (length ds) n)).
    assert (Hlt : flatten (repeat n (S (length ds))) ds' < numel (repeat n (S (length ds)))).
    { now apply flatten_repeat_lt. }
    rewrite flat2_div, flat2_mod by assumption.
    destruct (wtail_rows n (length ds) ds' Hl Hd2) as (H0 & H1).
    cbn [first_core mk3 shape nth]. fold (first_core (R := R) n).
    rewrite sum_n_two, H0, H1, !first_core_get, !weight_core_get by lia.
    cbn [Nat.eqb andb digit_sum fold_right]. fold (digit_sum (R := R) ds').
    now rewrite rmul_1_r, rmul_1_l.
Qed.

Lemma norm_indices_nat n : forall ds,
  Forall (fun d => d < n) ds ->
  norm_indices (repeat n (length ds)) (map Z.of_nat ds) = Ok ds.
Proof.
  unfold norm_indices. induction ds as [|d ds IH]; intros Hd; [reflexivity|].
  inversion Hd as [|? ? Hd1 Hd2]; subst. cbn [length repeat map combine mapM].
  unfold norm_index at 1.
  replace ((0 <=? Z.of_nat d) && (Z.of_nat d <? Z.of_nat n))%Z with true.
  2:{ symmetry. apply andb_true_intro. split; [apply Z.leb_le|apply Z.ltb_lt]; lia. }
  cbn [bind]. rewrite Nat2Z.id, (IH Hd2). reflexivity.
Qed.

(** [weight(N, nsymbols)] counts: with no mode the call raises IndexError;
    otherwise it returns a network with [N] modes of size [nsymbols] whose
    entry at a string of symbols is the sum of the symbols (for two symbols,
    the number of ones of the string). *)
Theorem weight_counts n :
  (exists msg, weight (R := R) 0 n = Err (IndexError msg)) /\
  forall ds, ds <> [] -> Forall (fun d => d < n) ds ->
    exists t, weight (length ds) n = Ok t /\
      net_shape t = Ok (repeat n (length ds)) /\
      getitem t (KeySeq (map KInt (map Z.of_nat ds))) = Ok (IScalar (digit_sum ds)).
Proof.
  split; [eexists; reflexivity|].
  intros ds Hne Hd.
  assert (HN : 0 < length ds) by (destruct ds; [congruence|cbn; lia]).
  assert (Hn : 0 < n) by (destruct ds; [congruence|inversion Hd; lia]).
  pose proof (weight_cores_chain (length ds) n HN) as Hch.
  assert (Ht : tt_form (mkN (map PT (weight_cores (length ds) n))
                            (repeat None (length (weight_cores (R := R) (length ds) n)))
                            (map arange (repeat n (length ds))))
                       (weight_cores (length ds) n) (repeat n (length ds))).
  { unfold tt_form. cbn [cores Us]. split; [reflexivity|]. split; [reflexivity|].
    split; [|split; [assumption|now apply weight_cores_good]].
    destruct (length ds) as [|[|k]]; [lia|discriminate|discriminate]. }
  eexists. split.
  - rewrite (weight_run _ _ HN), (Tensor_of_cores_checks _ _ _ _ None None Hch).
    apply (init_tail_chain _ _ _ _ Hch).
  - split; [apply (net_shape_tt _ _ _ Ht)|].
    rewrite (getitem_ints _ _ _ _ Ht) by now rewrite length_map, repeat_length.
    rewrite (norm_indices_nat n ds Hd). cbn [bind].
    now rewrite (weight_entries n ds Hne Hd).
Qed.

End Weight.

Lemma weight_counts_witness :
  exists t, weight (R := Z) 3 2 = Ok t /\
    net_shape t = Ok [2; 2; 2] /\
    getitem t (KeySeq [KInt 1; KInt 0; KInt 1]) = Ok (IScalar 2%Z).
Proof.
  exact (proj2 (weight_counts (R := Z) 2) [1; 0; 1]
           ltac:(discriminate) ltac:(repeat constructor)).
Defined.

(** ** The ranks of sums *)

Section Ranks.
Context {R : Type} {SR : Scalar R}.

Local Abbreviation heads := (map (fun c : tensor R => nth 0 (shape c) 0)).

Lemma ranks_tt_cores (cs : list (tensor R)) cl us ix :
  Forall (fun c => length (shape c) = 3) (cs ++ [cl]) ->
  ranks_tt (mkN (map PT (cs ++ [cl])) us ix) = Ok (heads (cs ++ [cl]) ++ [nth 2 (shape cl) 0]).
Proof.
  intros H3. unfold ranks_tt. cbn [cores].
  rewrite (mapM_map_ok (map PT (cs ++ [cl])) _
             (fun o => match o with PT c => nth 0 (shape c) 0 | PCores => 0 end)).
  2:{ intros o Ho. apply in_map_iff in Ho. destruct Ho as (c & <- & Hc).
      rewrite Forall_forall in H3. specialize (H3 c Hc). cbn [core_t bind].
      destruct (shape c) as [|a [|b [|j [|? ?]]]]; try discriminate. reflexivity. }
  cbn [bind]. rewrite map_app. cbn [map]. rewrite py_last_snoc. cbn [bind core_t].
  apply Forall_app in H3. destruct H3 as (_ & Hl). inversion Hl as [|? ? Hl3 _]; subst.
  destruct (shape cl) as [|a [|b [|j [|? ?]]]]; try discriminate.
  unfold py_last. cbn [rev app bind nth]. rewrite !map_app, map_map. reflexivity.
Qed.

Lemma chain_three r (cs : list (tensor R)) : forall ms r',
  chain r cs ms r' -> Forall (fun c => length (shape c) = 3) cs.
Proof.
  revert r. induction cs as [|c cs IH]; intros r [|b ms] r' H; cbn in H; try tauto.
  - constructor.
  - destruct H as (j & Hs & H). constructor; [now rewrite Hs|eauto].
Qed.

(** The ranks of a chain of cores with boundary ranks 1: the left rank of
    every core, and 1. *)
Lemma ranks_tt_chain (cs : list (tensor R)) ms us ix :
  cs <> [] -> chain 1 cs ms 1 ->
  ranks_tt (mkN (map PT cs) us ix) = Ok (heads cs ++ [1]).
Proof.
  intros Hne Hch.
  destruct (exists_last Hne) as (cs' & cl & ->).
  pose proof (chain_length _ _ _ _ Hch) as Hl.
  destruct (exists_last (l := ms)) as (ms' & ml & ->).
  { intros ->. rewrite length_app in Hl. cbn in Hl. lia. }
  destruct (chain_app_inv _ _ _ _ _ _ Hch) as (k & _ & Hsl).
  rewrite (ranks_tt_cores cs' cl) by (eapply chain_three; eauto).
  now rewrite Hsl.
Qed.

Lemma combine_map {A B C D} (f : A -> C) (g : B -> D) (l1 : list A) : forall l2,
  combine (map f l1) (map g l2) = map (fun p => (f (fst p), g (snd p))) (combine l1 l2).
Proof.
  induction l1 as [|x l1 IH]; intros [|y l2]; cbn; try reflexivity. now rewrite IH.
Qed.

(** The left ranks of the cores of a sum. *)
Lemma sum_cores_heads (cs1 cs2 csu : list (tensor R)) ms :
  chain 1 cs1 ms 1 -> chain 1 cs2 ms 1 -> sum_cores cs1 cs2 csu ->
  heads csu
  = 1 :: map (fun p => nth 0 (shape (fst p)) 0 + nth 0 (shape (snd p)) 0)
             (tl (combine cs1 cs2)).
Proof.
  intros Hch1 Hch2
    [(c1 & c2 & m & -> & -> & ->)
    |(a1 & mid1 & l1 & a2 & mid2 & l2 & first & last & -> & -> & Hf & Hl & ->)].
  - reflexivity.
  - pose proof (chain_length _ _ _ _ Hch1) as Hl1.
    pose proof (chain_length _ _ _ _ Hch2) as Hl2.
    destruct (list_ends ms) as (m0 & mmid & ml & ->).
    { rewrite <- Hl1. cbn [length]. rewrite length_app. cbn [length]. lia. }
    assert (Hlm : length mid1 = length mid2).
    { cbn in Hl1, Hl2. rewrite !length_app in *. cbn in *. lia. }
    cbn in Hch1, Hch2.
    destruct Hch1 as (j1 & Hsa1 & Hch1). destruct Hch2 as (j2 & Hsa2 & Hch2).
    destruct (chain_app_inv _ _ _ _ _ _ Hch1) as (k1 & Hmid1 & Hsl1).
    destruct (chain_app_inv _ _ _ _ _ _ Hch2) as (k2 & Hmid2 & Hsl2).
    rewrite (sum_dim0_keep_block _ _ _ _ _ _ Hsa1 Hsa2 Hf).
    rewrite (sum_dim2_keep_block _ _ _ _ _ _ Hsl1 Hsl2 Hl).
    cbn [combine tl map app mk3 shape nth]. f_equal.
    rewrite (combine_snoc mid1 mid2 l1 l2 Hlm).
    rewrite !map_app, map_map. cbn [map fst snd mk3 shape nth].
    rewrite Hsl1, Hsl2. reflexivity.
Qed.

(** The ranks of a sum of two TT-form networks over the same modes: the
    boundary ranks are 1 and every other rank is the sum of the ranks of
    the operands at that position. *)
Theorem ranks_sum (s t : network R) cs1 cs2 ms :
  tt_form s cs1 ms -> tt_form t cs2 ms ->
  exists rs rt u,
    ranks_tt s = Ok rs /\ ranks_tt t = Ok rt /\
    add s (OpT t) = Ok u /\
    ranks_tt u = Ok (1 :: map (fun p => fst p + snd p)
                              (combine (removelast (tl rs)) (removelast (tl rt))) ++ [1]).
Proof.
  intros Hs Ht.
  pose proof Hs as (Hc1 & _ & Hne1 & Hch1 & _).
  pose proof Ht as (Hc2 & _ & Hne2 & Hch2 & _).
  destruct (add_form s t cs1 cs2 ms Hs Ht) as (u & csu & Hadd & Hfu & Hsum).
  pose proof Hfu as (Hcu & _ & Hneu & Hchu & _).
  pose proof (sum_cores_heads cs1 cs2 csu ms Hch1 Hch2 Hsum) as Hheads.
  exists (heads cs1 ++ [1]), (heads cs2 ++ [1]), u.
  split.
  { destruct s as [sc su si]. cbn [cores] in Hc1. subst sc.
    apply (ranks_tt_chain cs1 ms); assumption. }
  split.
  { destruct t as [tc tu ti]. cbn [cores] in Hc2. subst tc.
    apply (ranks_tt_chain cs2 ms); assumption. }
  split; [exact Hadd|].
  destruct u as [uc uu ui]. cbn [cores] in Hcu. subst uc.
  rewrite (ranks_tt_chain csu ms) by assumption. rewrite Hheads.
  destruct cs1 as [|a1 rest1]; [congruence|]. destruct cs2 as [|a2 rest2]; [congruence|].
  cbn [map app tl combine]. rewrite !removelast_last, combine_map, map_map. reflexivity.
Qed.

End Ranks.

Lemma ranks_sum_witness :
  exists rs rt u,
    ranks_tt (tt_example 4) = Ok rs /\ ranks_tt (tt_example 5) = Ok rt /\
    add (tt_example 4) (OpT (tt_example 5)) = Ok u /\
    ranks_tt u = Ok (1 :: map (fun p => fst p + snd p)
                              (combine (removelast (tl rs)) (removelast (tl rt))) ++ [1]).
Proof.
  exact (ranks_sum (R := Z) _ _ _ _ _ (tt_example_form 4) (tt_example_form 5)).
Defined.

(** ** [full_tucker] on any network *)

Section FullTucker.
Context {R : Type} {SR : Scalar R}.

Lemma mapM_nth {A B} (f : A -> result B) (l : list A) : forall ys,
  mapM f l = Ok ys ->
  length ys = length l /\
  forall n x, nth_error l n = Some x -> exists y, nth_error ys n = Some y /\ f x = Ok y.
Proof.
  induction l as [|a l IH]; intros ys H; cbn [mapM] in H.
  - injection H as <-. split; [reflexivity|]. intros [|n] x Hn; discriminate.
  - destruct (f a) as [y|e] eqn:Ha; [|discriminate]. cbn [bind] in H.
    destruct (mapM f l) as [ys'|e]; [|discriminate]. cbn [bind] in H. injection H as <-.
    destruct (IH ys' eq_refl) as (Hl & Hn). split; [cbn; congruence|].
    intros [|n] x Hx; cbn in Hx |- *.
    + injection Hx as <-. eauto.
    + eauto.
Qed.

Lemma mapM_ext_in {A B} (f g : A -> result B) (l : list A) :
  (forall x, In x l -> f x = g x) -> mapM f l = mapM g l.
Proof.
  induction l as [|a l IH]; intros H; cbn [mapM]; [reflexivity|].
  rewrite (H a (or_introl eq_refl)), IH; [reflexivity|].
  intros x Hx. apply H. now right.
Qed.

Lemma Tensor_of_cores_no_factors (data : list (pyobj R)) ix (t : network R) :
  Tensor_of_cores data None (Some ix) = Ok t ->
  t = mkN data (repeat None (length data)) ix.
Proof.
  unfold Tensor_of_cores. intros H.
  destruct (mapM _ data) as [ds|e]; [|discriminate]. cbn [bind] in H.
  destruct (forallb _ ds); [|discriminate]. cbn [bind] in H.
  destruct (foldM _ _ tt) as [[]|e]; [|discriminate]. cbn [bind] in H.
  unfold init_tail in H. cbn [bind] in H. now injection H as <-.
Qed.

(** [full_tucker()] returns a network without factor matrices, with the
    labels and the shape of the network it was called on; calling it again
    on its result changes nothing, and [full()] of the result is [full()] of
    the original network.  No form of the network is assumed: cores with two
    or three axes, with or without factors. *)
Theorem full_tucker_content (t t' : network R) :
  full_tucker t = Ok t' ->
  Us t' = repeat None (ndim t) /\ ndim t' = ndim t /\ idxs t' = idxs t /\
  net_shape t' = net_shape t /\
  full_tucker t' = Ok t' /\ full t' = full t.
Proof.
  intros H. pose proof H as H0. unfold full_tucker in H.
  destruct (mapM _ (seq 0 (ndim t))) as [cs|e] eqn:Hcs; [|discriminate].
  cbn [bind] in H. pose proof (Tensor_of_cores_no_factors _ _ _ H) as Ht'.
  destruct (mapM_nth _ _ _ Hcs) as (Hlen & Hnth). rewrite length_seq in Hlen.
  assert (Hidem : full_tucker t' = Ok t').
  { rewrite Ht' at 1. unfold full_tucker, ndim. cbn [cores Us idxs]. rewrite !length_map.
    rewrite mapM_seq_nth with (h := fun c => c) (l := cs).
    - cbn [bind]. now rewrite map_id.
    - intros n c Hn.
      assert (n < length cs) by (apply nth_error_Some; congruence).
      unfold py_index. rewrite nth_error_repeat_None by assumption. cbn [bind].
      rewrite nth_error_map, Hn. reflexivity. }
  subst t'. cbn [Us idxs cores]. rewrite length_map, Hlen in Hidem, H0 |- *.
  repeat split.
  - unfold ndim. cbn [cores]. now rewrite length_map.
  - unfold net_shape, shape_of. cbn [cores Us]. rewrite length_map, Hlen.
    apply mapM_ext_in. intros n Hn. apply in_seq in Hn. unfold ndim in *.
    destruct (Hnth n n) as (y & Hy & Hf).
    { rewrite nth_error_seq. destruct (Nat.ltb_spec n (length (cores t))); [reflexivity|lia]. }
    unfold py_index at 1. rewrite nth_error_repeat_None by lia. cbn [bind].
    unfold py_index at 1. rewrite nth_error_map, Hy. cbn [option_map bind core_t].
    destruct (py_index (Us t) n) as [u|e]; [|discriminate]. cbn [bind] in Hf |- *.
    destruct (py_index (cores t) n) as [o|e]; [|discriminate]. cbn [bind] in Hf |- *.
    destruct (core_t o) as [c|e]; [|discriminate]. cbn [bind] in Hf |- *.
    destruct u as [U|].
    + destruct (dim c =? 2).
      * unfold einsum_jk_aj_ak, as2 in Hf.
        destruct (shape c) as [|j [|k [|? ?]]]; try discriminate. cbn [bind] in Hf.
        destruct (shape U) as [|a [|j' [|? ?]]]; try discriminate. cbn [bind] in Hf.
        destruct (j =? j'); [|discriminate]. injection Hf as <-. reflexivity.
      * unfold einsum_ijk_aj_iak, as3, as2 in Hf.
        destruct (shape c) as [|i [|j [|k [|? ?]]]]; try discriminate. cbn [bind] in Hf.
        destruct (shape U) as [|a [|j' [|? ?]]]; try discriminate. cbn [bind] in Hf.
        destruct (j =? j'); [|discriminate]. injection Hf as <-. reflexivity.
    + now injection Hf as <-.
  - exact Hidem.
  - unfold full. rewrite Hidem, H0. reflexivity.
Qed.

End FullTucker.

Lemma full_tucker_content_witness :
  let t := mkN [PT (mkT [1; 1; 1] [3%Z])] [Some (mkT [2; 1] [1%Z; 2%Z])] [[0%Z; 1%Z]] in
  let t' := mkN [PT (mkT [1; 2; 1] [3%Z; 6%Z])] [None] [[0%Z; 1%Z]] in
  Us t' = repeat None (ndim t) /\ ndim t' = ndim t /\ idxs t' = idxs t /\
  net_shape t' = net_shape t /\
  full_tucker t' = Ok t' /\ full t' = full t.
Proof.
  exact (full_tucker_content (R := Z)
           (mkN [PT (mkT [1; 1; 1] [3%Z])] [Some (mkT [2; 1] [1%Z; 2%Z])] [[0%Z; 1%Z]])
           (mkN [PT (mkT [1; 2; 1] [3%Z; 6%Z])] [None] [[0%Z; 1%Z]]) eq_refl).
Defined.

(** ** [factor_orthogonalize] on a core with a factor matrix *)

Section FactorOrthogonalize.
Context {R : Type} {SR : Scalar R} {SL : SemiringLaws R} {E : Engine R}.

Lemma mk3_ext a b c (f g : nat -> nat -> nat -> R) :
  (forall x y z, x < a -> y < b -> z < c -> f x y z = g x y z) ->
  mk3 a b c f = mk3 a b c g.
Proof.
  intros H. unfold mk3. f_equal. apply tabulate_ext. intros p Hp.
  assert (0 < b) by nia. assert (0 < c) by nia.
  apply H.
  - apply div_lt_prod; [nia|]. now rewrite Nat.mul_assoc.
  - apply Nat.mod_upper_bound. lia.
  - apply Nat.mod_upper_bound. lia.
Qed.

Lemma mk2_ext a b (f g : nat -> nat -> R) :
  (forall x y, x < a -> y < b -> f x y = g x y) -> mk2 a b f = mk2 a b g.
Proof.
  intros H. unfold mk2. f_equal. apply tabulate_ext. intros p Hp.
  assert (0 < b) by nia.
  apply H; [now apply div_lt_prod|apply Nat.mod_upper_bound; lia].
Qed.

(** Contracting a core with [R] and then with [Q] contracts it with [Q R]. *)
Lemma pushed_factor (c Q : nat -> R) (Rf : nat -> nat -> R) (u : nat -> R) kq j :
  (forall l, l < j -> sum_n kq (fun m => rmul (Q m) (Rf m l)) = u l) ->
  sum_n kq (fun m => rmul (sum_n j (fun l => rmul (c l) (Rf m l))) (Q m))
  = sum_n j (fun l => rmul (c l) (u l)).
Proof.
  intros H.
  transitivity (sum_n kq (fun m => sum_n j (fun l => rmul (rmul (c l) (Rf m l)) (Q m)))).
  { apply sum_n_ext. intros m _. apply sum_n_mul_r. }
  rewrite sum_n_swap. apply sum_n_ext. intros l Hl.
  rewrite <- (H l Hl), sum_n_mul_l. apply sum_n_ext. intros m _.
  rewrite <- rmul_assoc. f_equal. apply rmul_comm.
Qed.

Lemma nth_error_middle_other {A} (l1 : list A) x y l2 n :
  n <> length l1 -> nth_error (l1 ++ x :: l2) n = nth_error (l1 ++ y :: l2) n.
Proof.
  intros Hn. destruct (Nat.lt_ge_cases n (length l1)).
  - now rewrite !nth_error_app1.
  - rewrite !nth_error_app2 by lia.
    destruct (n - length l1) eqn:En; [lia|reflexivity].
Qed.


End FactorOrthogonalize.


(** ** The ranks of the dense constructor *)

Section DenseRanks.
Context {R : Type} {SR : Scalar R} {SL : SemiringLaws R}.
Variable sh : list nat.
Hypothesis Hpos : Forall (fun s => 0 < s) sh.

Local Abbreviation heads := (map (fun c : tensor R => nth 0 (shape c) 0)).
Local Abbreviation three := (Forall (fun c : tensor R => length (shape c) = 3)).

Lemma firstn_length_app {A} (l1 l2 : list A) : firstn (length l1) (l1 ++ l2) = l1.
Proof. induction l1 as [|a l1 IH]; cbn; [now destruct l2|]. now rewrite IH. Qed.

Lemma skipn_length_app {A} (l1 l2 : list A) : skipn (length l1) (l1 ++ l2) = l2.
Proof. induction l1 as [|a l1 IH]; cbn; auto. Qed.

Lemma dense_rank_at pre s post :
  sh = pre ++ s :: post ->
  dense_rank sh (length pre) = Nat.min (numel pre) (s * numel post).
Proof.
  intros ->. unfold dense_rank. now rewrite firstn_length_app, skipn_length_app, numel_cons.
Qed.

Lemma dense_step_ranks pre s s' post (cs : list (tensor R)) dd :
  sh = pre ++ s :: s' :: post ->
  exists core dd',
    dense_step sh (cs, mkT [dense_rank sh (length pre) * s; s' * numel post] dd)
               (length pre + 1)
    = Ok (cs ++ [core], mkT [dense_rank sh (length pre + 1) * s'; numel post] dd') /\
    shape core = [dense_rank sh (length pre); s; dense_rank sh (length pre + 1)].
Proof.
  intros Hsh.
  assert (Hall : Forall (fun x => 0 < x) pre /\ 0 < s /\ 0 < s' /\ Forall (fun x => 0 < x) post).
  { rewrite Hsh in Hpos. apply Forall_app in Hpos. destruct Hpos as (H1 & H2).
    inversion H2 as [|? ? H3 H4]; subst. inversion H4; subst. auto. }
  destruct Hall as (Hpre & Hs & Hs' & Hpost).
  pose proof (numel_pos _ Hpre) as Hp. pose proof (numel_pos _ Hpost) as Hq.
  assert (Hsn1 : py_index sh (length pre + 1 - 1) = Ok s).
  { rewrite Nat.add_sub. apply py_index_nth_error. rewrite Hsh. apply nth_error_middle. }
  assert (Hsh' : sh = (pre ++ [s]) ++ s' :: post) by now rewrite <- app_assoc.
  assert (Hsn : py_index sh (length pre + 1) = Ok s').
  { apply py_index_nth_error. rewrite Hsh'.
    replace (length pre + 1) with (length (pre ++ [s])) by (rewrite length_app; reflexivity).
    apply nth_error_middle. }
  rewrite (dense_rank_at pre s (s' :: post) Hsh), numel_cons.
  assert (E1 : dense_rank sh (length pre + 1) = Nat.min (numel pre * s) (s' * numel post)).
  { replace (length pre + 1) with (length (pre ++ [s])) by (rewrite length_app; reflexivity).
    now rewrite (dense_rank_at (pre ++ [s]) s' post Hsh'), numel_snoc. }
  rewrite E1. clear E1.
  set (p := numel pre) in *. set (q := numel post) in *.
  set (r := Nat.min p (s * (s' * q))).
  set (r' := Nat.min (p * s) (s' * q)).
  unfold dense_step. cbn [shape py_index nth_error bind]. rewrite Hsn1. cbn [bind].
  destruct (r * s <? s' * q) eqn:Hlt.
  - apply Nat.ltb_lt in Hlt.
    assert (Hr' : r' = r * s) by (unfold r, r' in *; nia).
    rewrite floordiv_mul_r by assumption. cbn [bind].
    unfold eye at 1, mk2 at 1.
    rewrite (reshape3 _ _ r s (r * s)) by (rewrite numel2; lia).
    cbn [bind]. rewrite Hsn. cbn [bind]. rewrite floordiv_mul_l by assumption. cbn [bind].
    rewrite (reshape2 _ _ (r * s * s') q) by (rewrite numel2; lia). cbn [bind].
    rewrite Hr'. eexists _, _. split; reflexivity.
  - apply Nat.ltb_ge in Hlt.
    assert (Hr' : r' = s' * q) by (unfold r, r' in *; nia).
    rewrite floordiv_mul_r by assumption. cbn [bind].
    rewrite (reshape3 _ _ r s (s' * q)) by (rewrite numel2; lia).
    cbn [bind]. rewrite Hsn. cbn [bind]. rewrite floordiv_mul_l by assumption. cbn [bind].
    unfold eye at 1, mk2 at 1.
    rewrite (reshape2 _ _ (s' * q * s') q) by (rewrite numel2; lia). cbn [bind].
    rewrite Hr'. eexists _, _. split; reflexivity.
Qed.

Lemma dense_loop_ranks post : forall pre s (cs : list (tensor R)) dd,
  sh = pre ++ s :: post ->
  heads cs = map (dense_rank sh) (seq 0 (length pre)) -> three cs ->
  exists cs' pre' s' dd',
    foldM (dense_step sh) (seq (length pre + 1) (length post))
          (cs, mkT [dense_rank sh (length pre) * s; numel post] dd)
    = Ok (cs', mkT [dense_rank sh (length pre') * s'; 1] dd') /\
    sh = pre' ++ [s'] /\
    heads cs' = map (dense_rank sh) (seq 0 (length pre')) /\ three cs'.
Proof.
  induction post as [|s' post IH]; intros pre s cs dd Hsh Hh H3.
  - exists cs, pre, s, dd. cbn [length seq foldM]. auto.
  - destruct (dense_step_ranks pre s s' post cs dd Hsh) as (core & dd1 & Hstep & Hcore).
    assert (Hsh' : sh = (pre ++ [s]) ++ s' :: post) by now rewrite <- app_assoc.
    assert (Hl : length (pre ++ [s]) = length pre + 1) by (rewrite length_app; reflexivity).
    destruct (IH (pre ++ [s]) s' (cs ++ [core]) dd1 Hsh') as (cs' & pre' & s2 & dd' & Hloop & Hrest).
    + rewrite map_app, Hh, Hl, Nat.add_1_r, seq_S, map_app. cbn [map Nat.add].
      now rewrite Hcore.
    + apply Forall_app. split; [assumption|]. constructor; [now rewrite Hcore|constructor].
    + exists cs', pre', s2, dd'. split; [|exact Hrest].
      cbn [length seq foldM]. rewrite numel_cons, Hstep. cbn [bind].
      rewrite Hl in Hloop. replace (S (length pre + 1)) with (length pre + 1 + 1) by lia.
      exact Hloop.
Qed.

Lemma dense_cores_ranks dd :
  sh <> [] ->
  exists cs cl,
    dense_cores (mkT sh dd) = Ok (cs ++ [cl]) /\ three (cs ++ [cl]) /\
    heads (cs ++ [cl]) ++ [nth 2 (shape cl) 0]
    = map (dense_rank sh) (seq 0 (length sh + 1)).
Proof.
  intros Hne.
  assert (E : exists s0 post, sh = s0 :: post).
  { clear - Hne. destruct sh; [congruence|eauto]. }
  destruct E as (s0 & post & Esh).
  assert (Hs0 : 0 < s0).
  { pose proof Hpos as H0. rewrite Esh in H0. now inversion H0. }
  assert (Hr0 : dense_rank sh 0 = 1).
  { unfold dense_rank. cbn [firstn skipn]. change (numel []) with 1.
    pose proof (numel_pos _ Hpos). lia. }
  destruct (dense_loop_ranks post [] s0 [] dd) as (cs & pre & s & dd' & Hloop & Hsh & Hh & H3);
    [now rewrite Esh|reflexivity|constructor|].
  cbn [length] in Hloop. rewrite Hr0, Nat.mul_1_l in Hloop. change (0 + 1) with 1 in Hloop.
  assert (Hs : 0 < s).
  { pose proof Hpos as H0. rewrite Hsh in H0. apply Forall_app in H0. destruct H0 as (_ & H2).
    now inversion H2. }
  assert (HN : length sh - 1 = length pre).
  { rewrite Hsh at 1. rewrite length_app. cbn. lia. }
  assert (HN' : length sh - 1 = length post) by (rewrite Esh at 1; cbn; lia).
  assert (Hsl : py_index sh (length pre) = Ok s).
  { apply py_index_nth_error. rewrite Hsh at 1. apply nth_error_middle. }
  unfold dense_cores, dim. cbn [shape].
  replace (py_index sh 0) with (Ok s0) by now rewrite Esh. cbn [bind].
  rewrite (reshape_infer_r _ _ s0 (numel post)) by (try assumption; now rewrite Esh).
  cbn [bind]. rewrite HN', Hloop. cbn [bind shape py_index nth_error].
  rewrite <- HN', HN, Hsl. cbn [bind].
  rewrite floordiv_mul_r by assumption. cbn [bind].
  rewrite (reshape3 _ _ (dense_rank sh (length pre)) s 1) by (rewrite numel2; lia).
  cbn [bind]. eexists cs, _. split; [reflexivity|]. split.
  - apply Forall_app. split; [assumption|]. constructor; [reflexivity|constructor].
  - rewrite map_app, Hh. cbn [map shape nth].
    replace (length sh + 1) with (S (S (length pre))).
    2:{ rewrite Hsh at 1. rewrite length_app. cbn. lia. }
    rewrite !seq_S, !map_app. cbn [map Nat.add]. do 2 f_equal. unfold dense_rank.
    replace (S (length pre)) with (length sh) by (rewrite Hsh at 1; rewrite length_app; cbn; lia).
    rewrite firstn_all, skipn_all. change (numel []) with 1.
    pose proof (numel_pos _ Hpos). lia.
Qed.

End DenseRanks.

Section DenseRanksTheorem.
Context {R : Type} {SR : Scalar R} {SL : SemiringLaws R}.

(** The naive TT format does not compress: the network that the constructor
    builds from a dense array with modes [I_1 .. I_N] (no empty axis) has
    the ranks [r_n = min(I_1 * .. * I_n, I_(n+1) * .. * I_N)] for
    [n = 0 .. N]. *)
Theorem dense_ranks (A : tensor R) :
  wf_tensor A -> shape A <> [] -> Forall (fun s => 0 < s) (shape A) ->
  exists t,
    Tensor_of_dense A None = Ok t /\
    ranks_tt t = Ok (map (dense_rank (shape A)) (seq 0 (length (shape A) + 1))).
Proof.
  intros Hwf Hne Hpos.
  destruct (Tensor_of_dense_tt_form A Hwf Hne Hpos) as (t & cs0 & Ht & Hform & _).
  exists t. split; [exact Ht|].
  destruct A as [sh dd]. cbn [shape] in *.
  destruct (dense_cores_ranks sh Hpos dd Hne) as (cs & cl & Hcs & H3 & Hranks).
  unfold Tensor_of_dense in Ht. rewrite Hcs in Ht. cbn [bind] in Ht.
  unfold init_tail in Ht. cbn [bind] in Ht.
  destruct (shape_of _ _) as [sh'|e]; [|discriminate]. cbn [bind] in Ht.
  injection Ht as <-.
  rewrite (ranks_tt_cores cs cl) by assumption. now rewrite Hranks.
Qed.

End DenseRanksTheorem.

Lemma dense_ranks_witness :
  exists t,
    Tensor_of_dense (mkT [2; 3; 2] [1; 2; 3; 4; 5; 6; 7; 8; 9; 10; 11; 12]%Z) None = Ok t /\
    ranks_tt t = Ok [1; 2; 2; 1].
Proof.
  apply (dense_ranks (R := Z) (mkT [2; 3; 2] [1; 2; 3; 4; 5; 6; 7; 8; 9; 10; 11; 12]%Z)).
  - reflexivity.
  - discriminate.
  - repeat constructor.
Defined.

(** ** Item access with integers for the leading modes *)

Section Leading.
Context {R : Type} {SR : Scalar R} {SL : SemiringLaws R} {E : Engine R}.

(** A key of fewer integers than modes is padded with full slices. *)
Lemma process_key_ints_prefix (self : network R) zs :
  length zs <= ndim self ->
  process_key self (map KInt zs)
  = Ok (map KInt zs ++ repeat full_slice (ndim self - length zs)).
Proof.
  intros H. unfold process_key.
  rewrite ints_no_none, expand_no_ellipsis by apply ints_no_ellipsis.
  rewrite ints_no_ellipsis, length_map. cbn [length].
  replace (Z.of_nat (ndim self) - (Z.of_nat (length zs) - Z.of_nat 0) <? 0)%Z with false
    by (symmetry; apply Z.ltb_ge; lia).
  do 3 f_equal. lia.
Qed.

Lemma norm_indices_error ms zs e :
  norm_indices ms zs = Err e -> e = IndexError "index out of range".
Proof.
  unfold norm_indices. generalize (combine ms zs).
  induction l as [|[m z] l IH]; cbn; [discriminate|].
  unfold norm_index at 1.
  destruct ((0 <=? z) && (z <? Z.of_nat m))%Z; cbn [bind].
  - destruct (mapM _ l) as [ks|e']; cbn [bind]; [discriminate|].
    intros [= <-]. now apply IH.
  - destruct ((z <? 0) && (- Z.of_nat m <=? z))%Z; cbn [bind].
    + destruct (mapM _ l) as [ks|e']; cbn [bind]; [discriminate|].
      intros [= <-]. now apply IH.
    + now intros [= <-].
Qed.

(** Integers over a stretch of modes inside the network. *)
Lemma ints_seg_fold (self : network R) (seg : list (tensor R)) :
  forall pre rest ms2 zs lm fo r r' X,
    cores self = map PT (pre ++ seg ++ rest) ->
    Us self = repeat None (length (pre ++ seg ++ rest)) ->
    chain r seg ms2 r' -> Forall good_core seg ->
    length zs = length seg ->
    lm <> Some MIndex -> int_state pre fo r X ->
    match norm_indices ms2 zs with
    | Err e =>
        foldM (getitem_step self) (map KInt zs) (mkG lm false fo None [] [] (length pre)) = Err e
    | Ok ks =>
        exists fo' lm',
          foldM (getitem_step self) (map KInt zs) (mkG lm false fo None [] [] (length pre))
          = Ok (mkG lm' false fo' None [] [] (length (pre ++ seg))) /\
          (seg <> [] -> lm' = Some MInt) /\ (seg = [] -> lm' = lm) /\
          int_state (pre ++ seg) fo' r' (X * numel ms2 + flatten ms2 ks)
    end.
Proof.
  induction seg as [|c seg IH]; intros pre rest ms2 zs lm fo r r' X Hc Hu Hch Hg Hlen Hlm Hst.
  - destruct ms2; cbn in Hch; [|tauto]. subst r. destruct zs; [|discriminate].
    cbn. exists fo, lm. rewrite app_nil_r, Nat.mul_1_r, Nat.add_0_r.
    split; [reflexivity|]. split; [congruence|]. split; [reflexivity|assumption].
  - destruct ms2 as [|b ms2]; cbn in Hch; [tauto|]. destruct Hch as (j & Hs & Hch).
    destruct zs as [|z zs]; [discriminate|]. cbn [length] in Hlen.
    inversion Hg as [|? ? Hgc Hgp]; subst.
    destruct (good_shape3 _ _ _ _ Hgc Hs) as (_ & Hb & Hj).
    cbn [app] in Hc, Hu.
    pose proof (getitem_step_int self pre c (seg ++ rest) lm fo r b j X z Hc Hu Hs Hb Hj Hlm Hst)
      as Hstep.
    unfold norm_indices. cbn [combine mapM map foldM].
    destruct (norm_index b z) as [k|e]; [|now rewrite Hstep].
    destruct Hstep as (F & -> & HF). cbn [bind].
    specialize (IH (pre ++ [c]) rest ms2 zs (Some MInt) (Some F) j r' (X * b + k)).
    rewrite <- !app_assoc in IH. cbn [app] in IH.
    replace (length pre + 1) with (length (pre ++ [c])) by (rewrite length_app; reflexivity).
    specialize (IH Hc Hu Hch Hgp ltac:(lia) ltac:(discriminate) HF).
    fold (norm_indices ms2 zs).
    destruct (norm_indices ms2 zs) as [ks|e]; [|now rewrite IH].
    destruct IH as (fo' & lm' & -> & Hl1 & Hl2 & Hst').
    cbn [bind]. exists fo', lm'. split; [reflexivity|]. split; [|split; [discriminate|]].
    + intros _. destruct seg; [now apply Hl2|apply Hl1; discriminate].
    + rewrite flatten_cons, numel_cons.
      replace (X * (b * numel ms2) + (k * numel ms2 + flatten ms2 ks))
        with ((X * b + k) * numel ms2 + flatten ms2 ks) by lia.
      exact Hst'.
Qed.

(** A full slice on a mode once cores have been put out. *)
Lemma getitem_step_slice (self : network R) pre c post lm oc ou a b j :
  cores self = map PT (pre ++ c :: post) ->
  Us self = repeat None (length (pre ++ c :: post)) ->
  good_core c -> shape c = [a; b; j] ->
  getitem_step self (mkG lm false None None oc ou (length pre)) full_slice
  = Ok (mkG (Some MSlice) false None None (oc ++ [PT c]) (ou ++ [None]) (length (pre ++ [c]))).
Proof.
  intros Hc Hu Hg Hs.
  assert (Hnc : py_index (cores self) (length pre) = Ok (PT c)).
  { apply py_index_nth_error. rewrite Hc, map_app. cbn [map]. apply nth_error_map_middle. }
  assert (Hnu : py_index (Us self) (length pre) = Ok None).
  { apply py_index_nth_error. rewrite Hu. apply nth_error_repeat.
    rewrite length_app. cbn. lia. }
  unfold getitem_step, full_slice. cbn [bind counter]. rewrite Hnc, Hnu. cbn [bind].
  unfold insert_core. cbn [f_index f_int bind core_arg].
  fold full_slice. rewrite (index_axis1_all c a b j Hg Hs). cbn [bind].
  unfold push, advance, with_last. cbn [last_mode index_done f_int f_index out_cores out_Us counter].
  rewrite length_app. reflexivity.
Qed.

Lemma slices_fold_out (self : network R) (post : list (tensor R)) :
  forall pre ms2 r lm oc ou,
    cores self = map PT (pre ++ post) ->
    Us self = repeat None (length (pre ++ post)) ->
    chain r post ms2 1 -> Forall good_core post ->
    exists lm',
      foldM (getitem_step self) (repeat full_slice (length post))
            (mkG lm false None None oc ou (length pre))
      = Ok (mkG lm' false None None (oc ++ map PT post) (ou ++ repeat None (length post))
                (length (pre ++ post))) /\
      (post <> [] -> lm' = Some MSlice) /\ (post = [] -> lm' = lm).
Proof.
  induction post as [|c post IH]; intros pre ms2 r lm oc ou Hc Hu Hch Hg.
  - exists lm. cbn [length repeat foldM map]. rewrite !app_nil_r.
    split; [reflexivity|]. split; congruence.
  - destruct ms2 as [|b ms2]; cbn in Hch; [tauto|]. destruct Hch as (j & Hs & Hch).
    inversion Hg as [|? ? Hgc Hgp]; subst.
    cbn [length repeat foldM].
    rewrite (getitem_step_slice self pre c post lm oc ou r b j Hc Hu Hgc Hs). cbn [bind].
    specialize (IH (pre ++ [c]) ms2 j (Some MSlice) (oc ++ [PT c]) (ou ++ [None])).
    rewrite <- app_assoc in IH. cbn [app] in IH.
    destruct (IH Hc Hu Hch Hgp) as (lm' & -> & Hl1 & Hl2).
    exists lm'. cbn [map]. rewrite <- !app_assoc. cbn [app].
    split; [reflexivity|]. split; [|discriminate]. intros _.
    destruct post; [now apply Hl2|apply Hl1; discriminate].
Qed.

(** The first slice after integers takes their matrix into its core. *)
Lemma getitem_step_absorb (self : network R) pre c post lm F r b j X :
  cores self = map PT (pre ++ c :: post) ->
  Us self = repeat None (length (pre ++ c :: post)) ->
  good_core c -> shape c = [r; b; j] ->
  int_state pre (Some F) r X ->
  exists c',
    getitem_step self (mkG lm false (Some F) None [] [] (length pre)) full_slice
    = Ok (mkG (Some MSlice) false None None [PT c'] [None] (length (pre ++ [c]))) /\
    shape c' = [1; b; j] /\ good_core c' /\
    forall y z, y < b -> z < j ->
      get3 c' 0 y z = sum_n r (fun m => rmul (chain_sem pre (fun _ _ => r1) X m) (get3 c m y z)).
Proof.
  intros Hc Hu Hg Hs (Hne & HsF & HF).
  destruct (good_shape3 _ _ _ _ Hg Hs) as (Hr & Hb & Hj).
  assert (Hnc : py_index (cores self) (length pre) = Ok (PT c)).
  { apply py_index_nth_error. rewrite Hc, map_app. cbn [map]. apply nth_error_map_middle. }
  assert (Hnu : py_index (Us self) (length pre) = Ok None).
  { apply py_index_nth_error. rewrite Hu. apply nth_error_repeat.
    rewrite length_app. cbn. lia. }
  unfold getitem_step, full_slice. cbn [bind counter]. rewrite Hnc, Hnu. cbn [bind].
  unfold insert_core. cbn [f_index f_int bind core_arg].
  fold full_slice. rewrite (index_axis1_all c r b j Hg Hs). cbn [bind].
  unfold einsum_ij_jak_iak, as2, as3. rewrite HsF, Hs. cbn [bind]. rewrite Nat.eqb_refl.
  cbn [bind].
  unfold push, advance, with_last, with_int.
  cbn [last_mode index_done f_int f_index out_cores out_Us counter app].
  rewrite length_app. eexists. split; [reflexivity|].
  split; [reflexivity|]. split; [apply mk3_good; lia|].
  intros y z Hy Hz. rewrite get3_mk3 by lia.
  apply sum_n_ext. intros m Hm. now rewrite HF.
Qed.

Lemma app_inj_len {A} (l1 : list A) : forall l1' l2 l2',
  length l1 = length l1' -> l1 ++ l2 = l1' ++ l2' -> l1 = l1' /\ l2 = l2'.
Proof.
  induction l1 as [|a l1 IH]; intros [|a' l1'] l2 l2' Hl H; cbn in *; try discriminate; auto.
  injection H as -> H. destruct (IH l1' l2 l2') as (-> & ->); auto.
Qed.

(** The entries behind a row of the leading modes. *)
Lemma absorbed_entries (seg rest : list (tensor R)) c c' ms1 ms3 r b j X x :
  chain 1 seg ms1 r -> shape c = [r; b; j] -> shape c' = [1; b; j] ->
  chain j rest ms3 1 -> Forall good_core rest -> 0 < b ->
  (forall y z, y < b -> z < j ->
     get3 c' 0 y z = sum_n r (fun m => rmul (chain_sem seg (fun _ _ => r1) X m) (get3 c m y z))) ->
  x < b * numel ms3 ->
  tt_entry (c' :: rest) x = tt_entry (seg ++ c :: rest) (X * (b * numel ms3) + x).
Proof.
  intros Hseg Hs Hs' Hrest Hg Hb Hc' Hx.
  pose proof (numel_pos _ (chain_modes_pos _ _ _ _ Hrest Hg)) as Hq.
  unfold tt_entry. rewrite chain_sem_cat. cbn [chain_sem].
  rewrite !(chain_sem_row rest ms3 j 1 _ _ 0 Hrest Hg) by lia.
  replace (X * (b * numel ms3) + x) with (x + (X * b) * numel ms3) by lia.
  rewrite Nat.div_add, Nat.Div0.mod_add by lia.
  assert (Hy : x / numel ms3 < b) by (apply Nat.Div0.div_lt_upper_bound; lia).
  apply sum_n_ext. intros a Ha. f_equal.
  unfold fstep. rewrite Hs, Hs'. cbn [nth].
  replace (x / numel ms3 + X * b) with (X * b + x / numel ms3) by lia.
  rewrite flat2_div, flat2_mod, Nat.mod_small by assumption.
  unfold sum_n at 1. cbn [seq fold_left]. rewrite radd_0_l, rmul_1_l.
  now apply Hc'.
Qed.

(** [t[i_1, ..., i_k]] with integers for the first [k] modes only, on a
    TT-form network with more modes: the result is a TT-form network over
    the other modes whose entries are the entries of [t] behind the
    multi-index [(i_1, ..., i_k)], negative integers counting from the end;
    an integer outside its mode raises [IndexError]. *)
Theorem getitem_leading (t : network R) cs ms1 ms2 zs :
  tt_form t cs (ms1 ++ ms2) -> ms1 <> [] -> ms2 <> [] -> length zs = length ms1 ->
  (forall ks, norm_indices ms1 zs = Ok ks ->
     exists u csu,
       getitem t (KeySeq (map KInt zs)) = Ok (INet u) /\ tt_form u csu ms2 /\
       forall x, x < numel ms2 ->
         tt_entry csu x = tt_entry cs (flatten ms1 ks * numel ms2 + x)) /\
  (forall e, norm_indices ms1 zs = Err e ->
     getitem t (KeySeq (map KInt zs)) = Err (IndexError "index out of range")).
Proof.
  intros Ht Hne1 Hne2 Hlen.
  pose proof Ht as (Hc & Hu & Hne & Hch & Hg).
  pose proof (chain_length _ _ _ _ Hch) as Hl. rewrite length_app in Hl.
  assert (Hcs : exists seg rest0, cs = seg ++ rest0 /\ length seg = length ms1).
  { exists (firstn (length ms1) cs), (skipn (length ms1) cs).
    split; [symmetry; apply firstn_skipn|rewrite length_firstn; lia]. }
  destruct Hcs as (seg & rest0 & Hcs & Hlseg).
  rewrite Hcs in Hch, Hg, Hc, Hu.
  destruct (chain_split _ _ _ _ _ Hch) as (m1 & m2 & r & Em & Hseg & Hrest0).
  assert (Em1 : m1 = ms1 /\ m2 = ms2).
  { symmetry in Em. apply app_inj_len in Em; [tauto|].
    rewrite <- (chain_length _ _ _ _ Hseg). lia. }
  destruct Em1 as (-> & ->). clear Em.
  destruct ms2 as [|b ms3]; [congruence|].
  destruct rest0 as [|c rest]; cbn in Hrest0; [tauto|].
  destruct Hrest0 as (j & Hs & Hrest).
  apply Forall_app in Hg. destruct Hg as (Hgseg & Hg0).
  inversion Hg0 as [|? ? Hgc Hgrest]; subst.
  destruct (good_shape3 _ _ _ _ Hgc Hs) as (Hr & Hb & Hj).
  assert (Hnd : ndim t = length seg + S (length rest)).
  { unfold ndim. rewrite Hc, length_map, length_app. reflexivity. }
  assert (Hkey : process_key t (map KInt zs)
                 = Ok (map KInt zs ++ full_slice :: repeat full_slice (length rest))).
  { rewrite process_key_ints_prefix by lia.
    replace (ndim t - length zs) with (S (length rest)) by lia. reflexivity. }
  pose proof (ints_seg_fold t seg [] (c :: rest) ms1 zs None None 1 r 0 Hc Hu Hseg Hgseg
                ltac:(lia) ltac:(discriminate) (conj eq_refl eq_refl)) as Hints.
  cbn [length app] in Hints.
  unfold getitem, getitem_entries. rewrite Hkey. cbn [bind]. rewrite foldM_app.
  split.
  - intros ks Hks. rewrite Hks in Hints.
    destruct Hints as (fo' & lm' & Hrun & Hl1 & _ & Hst).
    rewrite Hrun. cbn [bind foldM].
    destruct fo' as [F|].
    2:{ destruct Hst as (Hnil & _). destruct seg; [destruct ms1; [congruence|discriminate]|
                                                   discriminate]. }
    destruct (getitem_step_absorb t seg c rest lm' F r b j _ Hc Hu Hgc Hs Hst)
      as (c' & Hstep & Hs' & Hgc' & Hc').
    rewrite Hstep. cbn [bind].
    assert (Hc2 : cores t = map PT ((seg ++ [c]) ++ rest)) by now rewrite <- app_assoc.
    assert (Hu2 : Us t = repeat None (length ((seg ++ [c]) ++ rest))) by now rewrite <- app_assoc.
    destruct (slices_fold_out t rest (seg ++ [c]) ms3 j (Some MSlice) [PT c'] [None]
                Hc2 Hu2 Hrest Hgrest) as (lm2 & Hrun2 & Hlm2 & Hlm2').
    rewrite Hrun2. cbn [bind last_mode].
    assert (Elm : lm2 = Some MSlice) by (destruct rest; [now apply Hlm2'|apply Hlm2; discriminate]).
    rewrite Elm. cbn [out_cores out_Us app].
    assert (Hchu : chain 1 (c' :: rest) (b :: ms3) 1) by (cbn; eauto).
    change (PT c' :: map PT rest) with (map (@PT R) (c' :: rest)).
    change (None :: repeat None (length rest))
      with (repeat (@None (tensor R)) (length (c' :: rest))).
    rewrite (Tensor_of_cores_checks _ _ _ _ _ None Hchu), (init_tail_no_factors _ _ _ _ Hchu).
    cbn [bind]. eexists _, (c' :: rest). split; [reflexivity|]. split.
    + unfold tt_form. cbn [cores Us]. split; [reflexivity|]. split; [reflexivity|].
      split; [discriminate|]. split; [assumption|]. now constructor.
    + intros x Hx. rewrite numel_cons in Hx |- *.
      replace (flatten ms1 ks) with (0 * numel ms1 + flatten ms1 ks) by lia.
      now apply (absorbed_entries seg rest c c' ms1 ms3 r b j).
  - intros e He. rewrite He in Hints. rewrite Hints. cbn [bind].
    now rewrite (norm_indices_error _ _ _ He).
Qed.

End Leading.

Lemma getitem_leading_witness :
  exists u csu,
    getitem (E := Engine_exact) (tt_example 4) (KeySeq [KInt 1]) = Ok (INet u) /\
    tt_form u csu [2] /\
    forall x, x < numel [2] ->
      tt_entry csu x = tt_entry (tt_example_cores 4) (flatten [2] [1] * numel [2] + x).
Proof.
  apply (proj1 (getitem_leading (R := Z) (E := Engine_exact)
                  (tt_example 4) (tt_example_cores 4) [2] [2] [1%Z]
                  (tt_example_form 4) ltac:(discriminate) ltac:(discriminate) eq_refl) [1]).
  reflexivity.
Defined.
